(** * A shallow embedding of the poker server (server/src/pokerGame.ts)

    The server keeps three index-aligned arrays ([this.sockets],
    [this.players], [this.rooms]).  Player objects are shared by reference
    between [this.players], the seat lists of the rooms and [room.creator],
    and the betting engine mutates them in place.  The embedding therefore
    keeps the Player objects in a store indexed by reference, and a room's
    seat list holds references.  What is sent to a client is a tree of
    values: a room whose seats are resolved against the store.  Both shapes
    are instances of one record, [Room P].

    JavaScript numbers are doubles.  The numbers of the program (chip
    amounts, seat indices, card ids, clock values) are integers, and the
    embedding takes them in [Z]: a sum, difference or comparison of the
    code is exact, and is what [Z] computes, as long as its operands and
    its result are integers of absolute value at most 2^53 - 1 ([safe]
    below).  Only the [amount] of a RAISE comes from a message, and it
    need be neither an integer nor small; the statements that conclude an
    equation between chip counts from it are stated for integer amounts
    and for numbers in the exact range.  An absent object field is
    [None]. *)

From Stdlib Require Import ZArith Lia Ascii.
From stdpp Require Import base list strings pretty functions.

Open Scope Z_scope.

(** ** Data model (types.ts is not part of the sources; the records follow
    the fields the code reads and writes) *)

Inductive PlayStatus := NONE | CALL | RAISE | CHECK | FOLD | ALLIN | BUST.

#[global] Instance PlayStatus_eq_dec : EqDecision PlayStatus.
Proof. solve_decision. Defined.

Record PlayerStatus := mkPlayerStatus {
  totalBetAmout : Z;
  subTotalBetAmount : Z;
  status : PlayStatus;
  deck : option (list Z);          (* the two hole cards; dropped by cutPlayersCards *)
  winAmount : Z;
  handType : option string
}.

Record Player := mkPlayer {
  pid : string;                    (* player.id *)
  pname : string;                  (* player.name *)
  balance : Z;
  roomId : option string;
  playerStatus : option PlayerStatus
}.

Record GameStatus := mkGameStatus {
  round : Z;
  roundFinished : bool;
  currentBetAmount : Z;
  pot : Z;
  blindTurn : Z;
  playTurn : Z;
  board : list Z;                  (* gameStatus.deck: the community cards *)
  cards : option (list Z);         (* the shuffled deck; dropped by cutRoomCards *)
  timestamp : Z
}.

Record Room (P : Type) := mkRoom {
  rid : string;                    (* room.id *)
  rname : string;                  (* room.name *)
  creator : P;
  started : bool;
  numberOfPlayers : Z;
  players : option (list P);       (* dropped by cutPlayers *)
  gameStatus : option GameStatus   (* dropped by cutGameStatus *)
}.

Arguments mkRoom {P}.
Arguments rid {P}.
Arguments rname {P}.
Arguments creator {P}.
Arguments started {P}.
Arguments numberOfPlayers {P}.
Arguments players {P}.
Arguments gameStatus {P}.

(** A reference to a Player object. *)
Definition ref := nat.

(** ** Outcomes: a call returns, throws a TypeError (a field read on
    [undefined]) or never returns. *)

Inductive res (A : Type) := Ok (a : A) | Throw | Hang.
Arguments Ok {A}.
Arguments Throw {A}.
Arguments Hang {A}.

Definition res_bind {A B} (m : res A) (k : A → res B) : res B :=
  match m with
  | Ok a => k a
  | Throw => Throw
  | Hang => Hang
  end.

(** ** Safe integers

    [Number.MAX_SAFE_INTEGER]: up to it in absolute value every integer is
    a double, and a sum or difference of two such integers that is again
    such an integer is computed exactly. *)

Definition MAX_SAFE_INTEGER : Z := 2 ^ 53 - 1.

Definition safe (x : Z) : Prop := - MAX_SAFE_INTEGER ≤ x ≤ MAX_SAFE_INTEGER.

(** ** Field writes *)

Definition set_status (s : PlayStatus) (ps : PlayerStatus) : PlayerStatus :=
  mkPlayerStatus (totalBetAmout ps) (subTotalBetAmount ps) s (deck ps)
                 (winAmount ps) (handType ps).

Definition set_subTotal (v : Z) (ps : PlayerStatus) : PlayerStatus :=
  mkPlayerStatus (totalBetAmout ps) v (status ps) (deck ps)
                 (winAmount ps) (handType ps).

Definition set_total (v : Z) (ps : PlayerStatus) : PlayerStatus :=
  mkPlayerStatus v (subTotalBetAmount ps) (status ps) (deck ps)
                 (winAmount ps) (handType ps).

Definition set_win (v : Z) (h : option string) (ps : PlayerStatus) : PlayerStatus :=
  mkPlayerStatus (totalBetAmout ps) (subTotalBetAmount ps) (status ps) (deck ps) v h.

Definition set_balance (v : Z) (p : Player) : Player :=
  mkPlayer (pid p) (pname p) v (roomId p) (playerStatus p).

Definition set_roomId (v : string) (p : Player) : Player :=
  mkPlayer (pid p) (pname p) (balance p) (Some v) (playerStatus p).

Definition set_playerStatus (v : PlayerStatus) (p : Player) : Player :=
  mkPlayer (pid p) (pname p) (balance p) (roomId p) (Some v).

Definition set_pot (v : Z) (g : GameStatus) : GameStatus :=
  mkGameStatus (round g) (roundFinished g) (currentBetAmount g) v (blindTurn g)
               (playTurn g) (board g) (cards g) (timestamp g).

Definition set_currentBetAmount (v : Z) (g : GameStatus) : GameStatus :=
  mkGameStatus (round g) (roundFinished g) v (pot g) (blindTurn g)
               (playTurn g) (board g) (cards g) (timestamp g).

Definition set_playTurn (v : Z) (g : GameStatus) : GameStatus :=
  mkGameStatus (round g) (roundFinished g) (currentBetAmount g) (pot g) (blindTurn g)
               v (board g) (cards g) (timestamp g).

Definition set_board (v : list Z) (g : GameStatus) : GameStatus :=
  mkGameStatus (round g) (roundFinished g) (currentBetAmount g) (pot g) (blindTurn g)
               (playTurn g) v (cards g) (timestamp g).

Definition set_roundFinished (v : bool) (g : GameStatus) : GameStatus :=
  mkGameStatus (round g) v (currentBetAmount g) (pot g) (blindTurn g)
               (playTurn g) (board g) (cards g) (timestamp g).

Definition set_timestamp (v : Z) (g : GameStatus) : GameStatus :=
  mkGameStatus (round g) (roundFinished g) (currentBetAmount g) (pot g) (blindTurn g)
               (playTurn g) (board g) (cards g) v.

Definition set_gameStatus {P} (v : GameStatus) (r : Room P) : Room P :=
  mkRoom (rid r) (rname r) (creator r) (started r) (numberOfPlayers r) (players r) (Some v).

Definition set_started {P} (v : bool) (r : Room P) : Room P :=
  mkRoom (rid r) (rname r) (creator r) v (numberOfPlayers r) (players r) (gameStatus r).

(** ** Array helpers *)

(** [a[i]] for a JavaScript number [i]: [undefined] outside the array. *)
Definition at_index {A} (a : list A) (i : Z) : option A :=
  if i <? 0 then None else a !! Z.to_nat i.

(** [a.indexOf(x)] through a test for "is [x]"; [-1] when absent. *)
Fixpoint indexOf_from {A} (is_x : A → bool) (a : list A) (i : Z) : Z :=
  match a with
  | [] => -1
  | y :: a' => if is_x y then i else indexOf_from is_x a' (i + 1)
  end.

Definition indexOf {A} (is_x : A → bool) (a : list A) : Z := indexOf_from is_x a 0.

Definition same_string (x y : string) : bool := bool_decide (x = y).

(** ** Redaction projections *)

(** function cutPlayers(room) *)
Definition cutPlayers {P} (room : Room P) : Room P :=
  mkRoom (rid room) (rname room) (creator room) (started room)
         (numberOfPlayers room) None (gameStatus room).

(** function cutGameStatus(room) *)
Definition cutGameStatus {P} (room : Room P) : Room P :=
  mkRoom (rid room) (rname room) (creator room) (started room)
         (numberOfPlayers room) (players room) None.

(** The callback of [players.map] in cutPlayersCards. *)
Definition cutCards (player : Player) : Player :=
  match playerStatus player with
  | None => player
  | Some ps =>
      mkPlayer (pid player) (pname player) (balance player) (roomId player)
        (Some (mkPlayerStatus (totalBetAmout ps) (subTotalBetAmount ps) (status ps)
                              None (winAmount ps) (handType ps)))
  end.

(** function cutPlayersCards(room): [players.map] throws on a room whose
    seat list was cut. *)
Definition cutPlayersCards (room : Room Player) : res (Room Player) :=
  match players room with
  | None => Throw
  | Some ps =>
      Ok (mkRoom (rid room) (rname room) (creator room) (started room)
                 (numberOfPlayers room) (Some (map cutCards ps)) (gameStatus room))
  end.

(** function cutRoomCards(room) *)
Definition cutRoomCards {P} (room : Room P) : Room P :=
  match gameStatus room with
  | None => room
  | Some gs =>
      match cards gs with
      | None => room
      | Some _ =>
          mkRoom (rid room) (rname room) (creator room) (started room)
                 (numberOfPlayers room) (players room)
                 (Some (mkGameStatus (round gs) (roundFinished gs) (currentBetAmount gs)
                          (pot gs) (blindTurn gs) (playTurn gs) (board gs) None
                          (timestamp gs)))
      end
  end.

(** ** The deck *)

(** const cards: the card ids 0..51. *)
Definition cardIds : list Z := map Z.of_nat (seq 0 52).

(** function rand(limit): [Math.floor(Math.random() * limit)].  The value
    of [Math.random()] is an input of the embedding: a natural number [u]
    stands for a draw from [0, 1) and [rand] sends it to [u mod limit], so
    that every index below [limit] can be drawn and no other; with [limit]
    0 the product is 0. *)
Definition rand (u : nat) (limit : nat) : nat :=
  match limit with
  | O => O
  | S _ => (u mod limit)%nat
  end.

(** [a[i]] on an array of numbers: a read outside the array gives
    [undefined], which the embedding writes -1 (no card has that id). *)
Definition js_get (a : list Z) (i : nat) : Z := default (-1) (a !! i).

(** [a[i] = v]: a write past the end extends the array; the entries in
    between are holes, which read as [undefined]. *)
Definition js_set (a : list Z) (i : nat) (v : Z) : list Z :=
  if decide (i < length a)%nat then <[i := v]> a
  else a ++ replicate (i - length a) (-1) ++ [v].

(** One iteration of the loop of shuffleCards: the entries at the two
    drawn locations change places. *)
Definition swapAt (newCards : list Z) (location1 location2 : nat) : list Z :=
  let tmp := js_get newCards location1 in
  let newCards := js_set newCards location1 (js_get newCards location2) in
  js_set newCards location2 tmp.

(** The loop [for (i = 0; i < 1000; i++)], from iteration [i] with [n]
    iterations to go; [limit] is [cards.length] and [rnd i] the two draws
    of [Math.random()] in iteration [i]. *)
Fixpoint shuffle_from (rnd : nat → nat * nat) (limit : nat) (i n : nat)
    (newCards : list Z) : list Z :=
  match n with
  | O => newCards
  | S n' =>
      shuffle_from rnd limit (S i) n'
        (swapAt newCards (rand (rnd i).1 limit) (rand (rnd i).2 limit))
  end.

(** function shuffleCards(cards) *)
Definition shuffleCards (rnd : nat → nat * nat) (cards : list Z) : list Z :=
  shuffle_from rnd (length cards) 0 1000 cards.

(** *** The distribution of the shuffle

    With a uniform source every sequence of 1000 pairs of locations below 52
    is equally likely, so the probability of an ordering is the number of
    sequences that produce it over the number of all sequences. *)

Fixpoint all_seqs {A} (alphabet : list A) (n : nat) : list (list A) :=
  match n with
  | O => [[]]
  | S n' => flat_map (fun a => map (cons a) (all_seqs alphabet n')) alphabet
  end.

Definition location_pairs (k : nat) : list (nat * nat) :=
  list_prod (seq 0 k) (seq 0 k).

Definition draws_of (ds : list (nat * nat)) : nat → nat * nat :=
  fun i => nth i ds (0%nat, 0%nat).

Definition all_draws : list (list (nat * nat)) := all_seqs (location_pairs 52) 1000.

Definition produces (p : list Z) (ds : list (nat * nat)) : bool :=
  bool_decide (shuffleCards (draws_of ds) cardIds = p).

(** The number of draw sequences on which the shuffled deck is [p]. *)
Definition ways (p : list Z) : Z := Z.of_nat (length (filter (fun ds => produces p ds = true) all_draws)).

Fixpoint factorialZ (n : nat) : Z :=
  match n with
  | O => 1
  | S n' => Z.of_nat n * factorialZ n'
  end.

(** "Each of the 52! orderings is equally likely": every ordering of the
    deck has probability 1/52!, that is [ways p / |all_draws| = 1 / 52!]. *)
Definition shuffle_uniform : Prop :=
  ∀ p : list Z, p ≡ₚ cardIds →
    ways p * factorialZ 52 = Z.of_nat (length all_draws).

(** ** Turn order *)

(** The Player objects, by reference. *)
Abbreviation Store := (ref → Player).

(** The test that ends the loops of nextTurn and prevTurn. *)
Definition can_act (ps : PlayerStatus) : bool :=
  bool_decide (status ps ≠ FOLD) && bool_decide (status ps ≠ BUST)
  && bool_decide (status ps ≠ ALLIN).

(** [if (!turn) turn = gameStatus.playTurn]: an omitted turn and turn 0 are
    both falsy. *)
Definition turn_or_playTurn (gs : GameStatus) (turn : option Z) : Z :=
  match turn with
  | None => playTurn gs
  | Some t => if t =? 0 then playTurn gs else t
  end.

(** The [while (true)] loop of nextTurn ([step] is +1) and of prevTurn
    ([step] is -1 + numberOfPlayers).  JavaScript's [%] truncates: [Z.rem].
    The loop walks a cycle of at most |numberOfPlayers| indices, so when that
    many iterations found no seat to stop at, none ever will: [Hang]. *)
Fixpoint turn_loop (fuel : nat) (h : Store) (n : Z) (seats : list ref) (step : Z) (turn : Z)
  : res Z :=
  match fuel with
  | O => Hang
  | S fuel' =>
      let turn := Z.rem (turn + step) n in
      match at_index seats turn with
      | None => Throw
      | Some r =>
          match playerStatus (h r) with
          | None => Ok turn
          | Some ps =>
              if can_act ps then Ok turn else turn_loop fuel' h n seats step turn
          end
      end
  end.

Definition turn_walk (h : Store) (room : Room ref) (step : Z) (turn : option Z) : res Z :=
  match gameStatus room with
  | None => Ok 0
  | Some gs =>
      let turn := turn_or_playTurn gs turn in
      let n := numberOfPlayers room in
      if n =? 0 then Throw          (* the index is NaN *)
      else match players room with
           | None => Throw
           | Some seats => turn_loop (Z.abs_nat n) h n seats step turn
           end
  end.

(** const nextTurn = (room, turn?) => ... *)
Definition nextTurn (h : Store) (room : Room ref) (turn : option Z) : res Z :=
  turn_walk h room 1 turn.

(** const prevTurn = (room, turn?) => ... *)
Definition prevTurn (h : Store) (room : Room ref) (turn : option Z) : res Z :=
  turn_walk h room (-1 + numberOfPlayers room) turn.

(** A seat at which the turn can stop: it has no playerStatus, or a status
    other than FOLD, BUST and ALLIN. *)
Definition eligible (h : Store) (r : ref) : bool :=
  match playerStatus (h r) with
  | None => true
  | Some ps => can_act ps
  end.

Definition eligible_at (h : Store) (seats : list ref) (i : Z) : Prop :=
  ∃ r, at_index seats i = Some r ∧ eligible h r = true.

(** ** The hand solver and the timing constants

    [Hand] is pokersolver's class, a library outside the repository: the
    embedding takes it as an interface.  A hand object is identified by the
    seat for which [Hand.solve] created it, the first component of a
    [HandObj]; [indexOf] and [includes] compare objects by identity. *)

Class PokerSolver := {
  Hand : Type;
  solve : list string → Hand;                          (* Hand.solve(cards) *)
  winners : list (nat * Hand) → list (nat * Hand);     (* Hand.winners(hands) *)
  hand_name : Hand → string                            (* hand.name *)
}.

Definition HandObj {PS : PokerSolver} : Type := (nat * Hand)%type.

Definition same_hand {PS : PokerSolver} (a b : HandObj) : bool := bool_decide (a.1 = b.1).

(** constants.ts is not part of the sources. *)
Class Config := {
  PLAYER_WAIT_TIME : Z;
  ROUND_WAIT_TIME : Z
}.

(** const cardString = (cardval) => ... *)
Definition cardString (cardval : Z) : string :=
  let suit :=
    match cardval / 13 with
    | 0 => "d" | 1 => "c" | 2 => "h" | 3 => "s" | _ => "undefined"
    end in
  let cardval := Z.rem cardval 13 in
  let val :=
    match cardval with
    | 8 => "T" | 9 => "J" | 10 => "Q" | 11 => "K" | 12 => "A"
    | _ => pretty (cardval + 2)
    end in
  val +:+ suit.

(** [cards[i]] read as a card.  The shuffled deck has 52 entries and every
    index the program reads is below 52 for up to 26 seats; an [undefined]
    entry is embedded as -1. *)
Definition card_at (cards : list Z) (i : Z) : Z := default (-1) (at_index cards i).

(** ** Server state, events and the monad of the engine *)

Inductive Timer := TurnTimer | RoundStartTimer | NextRoundTimer.

Inductive Event :=
  | Emit (socket : string) (event : string) (room : Room Player) (player : option Player)
  | SetTimeout (callback : Timer) (room : string) (delay : Z).

(** The part of the server a call on one room works on: the Player objects,
    the room object and what was emitted or scheduled so far. *)
Record Table := mkTable {
  store : Store;
  room : Room ref;
  log : list Event
}.

(** [this.sockets] (by socket id) and [this.players]. *)
Record Conn := mkConn {
  sockets : list string;
  members : list ref
}.

Record Server := mkServer {
  conn : Conn;
  rooms : list (Room ref);         (* this.rooms *)
  objects : Store;
  emitted : list Event
}.

(** A call runs on a table and returns, throws or hangs; what it wrote
    before throwing stays written. *)
Definition M (A : Type) : Type := Table → res A * Table.

Definition ret {A} (a : A) : M A := fun t => (Ok a, t).

Definition bind {A B} (m : M A) (k : A → M B) : M B :=
  fun t =>
    match m t with
    | (Ok a, t') => k a t'
    | (Throw, t') => (Throw, t')
    | (Hang, t') => (Hang, t')
    end.

Definition lift {A} (r : res A) : M A := fun t => (r, t).

Definition throw {A} : M A := lift Throw.

Definition hang {A} : M A := lift Hang.

Notation "'let!' x ':=' m 'in' k" := (bind m (fun x => k))
  (at level 10, x name, m at level 100, k at level 200).
Notation "m ';;;' k" := (bind m (fun _ => k))
  (at level 100, k at level 200, right associativity).

Definition get_room : M (Room ref) := fun t => (Ok (room t), t).

Definition get_store : M Store := fun t => (Ok (store t), t).

(** [undefined] dereferenced: a TypeError. *)
Definition defined {A} (o : option A) : M A :=
  match o with
  | Some a => ret a
  | None => throw
  end.

(** The seat list of the room; reading it on a room without one throws. *)
Definition get_seats : M (list ref) :=
  let! r := get_room in defined (players r).

(** A write to a field of the Player object [r]. *)
Definition write_player (r : ref) (f : Player → Player) : M unit :=
  fun t => (Ok tt, mkTable (<[r := f (store t r)]> (store t)) (room t) (log t)).

(** A write to a field of [player.playerStatus], for a player that has one. *)
Definition write_status (r : ref) (f : PlayerStatus → PlayerStatus) : M unit :=
  write_player r (fun p =>
    match playerStatus p with
    | Some ps => set_playerStatus (f ps) p
    | None => p
    end).

(** A write to a field of [room.gameStatus], for a room that has one. *)
Definition write_game (f : GameStatus → GameStatus) : M unit :=
  fun t =>
    match gameStatus (room t) with
    | Some gs => (Ok tt, mkTable (store t) (set_gameStatus (f gs) (room t)) (log t))
    | None => (Ok tt, t)
    end.

Definition push_event (e : Event) : M unit :=
  fun t => (Ok tt, mkTable (store t) (room t) (log t ++ [e])).

(** [array.forEach((x, index) => ...)] *)
Fixpoint forEach_from {A} (f : A → Z → M unit) (a : list A) (index : Z) : M unit :=
  match a with
  | [] => ret tt
  | x :: a' => f x index ;;; forEach_from f a' (index + 1)
  end.

Definition forEach {A} (f : A → Z → M unit) (a : list A) : M unit := forEach_from f a 0.

(** function getIndex(sockets, id) *)
Definition getIndex (sockets : list string) (id : string) : Z :=
  indexOf (same_string id) sockets.

(** function getPlayerIndex(players, id) *)
Definition getPlayerIndex (h : Store) (players : list ref) (id : string) : Z :=
  indexOf (fun r => same_string id (pid (h r))) players.

(** function getRoom(rooms, id): the position of the room and the room. *)
Definition getRoom (rooms : list (Room ref)) (id : string) : option (nat * Room ref) :=
  let index := indexOf (fun r => same_string id (rid r)) rooms in
  match at_index rooms index with
  | Some r => Some (Z.to_nat index, r)
  | None => None
  end.

(** The room as it is serialised: seats and creator resolved. *)
Definition view (h : Store) (r : Room ref) : Room Player :=
  mkRoom (rid r) (rname r) (h (creator r)) (started r) (numberOfPlayers r)
         (option_map (map h) (players r)) (gameStatus r).

(** [socket.emit(event, { room, player })] to the socket of the player
    object [r]: [this.sockets[getPlayerIndex(this.players, player.id)]];
    emitting on a missing socket throws. *)
Definition emit_to (c : Conn) (r : ref) (event : string)
    (payload : Room Player) (player : option Player) : M unit :=
  let! h := get_store in
  let index := getPlayerIndex h (members c) (pid (h r)) in
  let! socket := defined (at_index (sockets c) index) in
  push_event (Emit socket event payload player).

(** ** Settlement: checkWinning *)

(** The entry of [hands] for the seat at [index]. *)
Definition hand_of {PS : PokerSolver} (h : Store) (gs : GameStatus) (index : nat) (r : ref)
  : res (option HandObj) :=
  match playerStatus (h r) with
  | Some ps =>
      if bool_decide (status ps ≠ BUST) && bool_decide (status ps ≠ FOLD) then
        match deck ps with
        | Some d => Ok (Some (index, solve (map cardString (d ++ board gs))))
        | None => Throw           (* spread of undefined *)
        end
      else Ok None
  | None => Ok None
  end.

Fixpoint hands_from {PS : PokerSolver} (h : Store) (gs : GameStatus) (seats : list ref)
    (index : nat) : res (list (option HandObj)) :=
  match seats with
  | [] => Ok []
  | r :: seats' =>
      res_bind (hand_of h gs index r) (fun hand =>
      res_bind (hands_from h gs seats' (S index)) (fun hands =>
      Ok (hand :: hands)))
  end.

(** [hands.indexOf(hand)] *)
Definition hand_index {PS : PokerSolver} (hands : list (option HandObj)) (hand : HandObj) : Z :=
  indexOf (fun o => match o with Some x => same_hand x hand | None => false end) hands.

(** [winners.includes(hand)] *)
Definition includes_hand {PS : PokerSolver} (ws : list HandObj) (hand : HandObj) : bool :=
  existsb (same_hand hand) ws.

(** [remainingIndexes.includes(index)] *)
Definition includes_index (indexes : list Z) (index : Z) : bool :=
  existsb (Z.eqb index) indexes.

(** The inner [room.players.forEach] of checkWinning: what the winner, who
    staked [total], can draw from the other seats. *)
Fixpoint maxWin_from (h : Store) (remainingIndexes : list Z) (total : Z)
    (seats : list ref) (index : Z) (maxWinAmount : Z) : Z :=
  match seats with
  | [] => maxWinAmount
  | r :: seats' =>
      let maxWinAmount :=
        match playerStatus (h r) with
        | Some ps =>
            if includes_index remainingIndexes index
               || bool_decide (status ps = BUST) || bool_decide (status ps = FOLD)
            then maxWinAmount + Z.min total (totalBetAmout ps)
            else maxWinAmount
        | None => maxWinAmount
        end in
      maxWin_from h remainingIndexes total seats' (index + 1) maxWinAmount
  end.

(** The callback of [winners.forEach((winner, index) => ...)]. *)
Definition pay_winner {PS : PokerSolver} (hands : list (option HandObj)) (subHands : list HandObj)
    (nwinners : Z) (winner : HandObj) (index : Z) : M unit :=
  let playerIndex := hand_index hands winner in
  let! seats := get_seats in
  let! r := defined (at_index seats playerIndex) in
  let! h := get_store in
  match playerStatus (h r) with
  | Some ps =>
      let! rm := get_room in
      let! gs := defined (gameStatus rm) in
      let total := totalBetAmout ps in
      let remainingIndexes := map (hand_index hands) subHands in
      let maxWinAmount := maxWin_from h remainingIndexes total seats 0 total in
      let win := Z.min maxWinAmount (pot gs / (nwinners - index)) in
      write_status r (set_win (winAmount ps + win) (Some (hand_name winner.2))) ;;;
      write_game (set_pot (pot gs - win)) ;;;
      write_player r (fun p => set_balance (balance p + win) p)
  | None => ret tt
  end.

(** The loop [while (gameStatus.pot)].  Every round with winners removes
    them from [subHands], which the contract of Hand.winners makes strictly
    shorter; the fuel is the length of [subHands] plus one. *)
Fixpoint settle_loop {PS : PokerSolver} (fuel : nat) (hands : list (option HandObj))
    (subHands : list HandObj) : M unit :=
  match fuel with
  | O => hang
  | S fuel' =>
      let! rm := get_room in
      let! gs := defined (gameStatus rm) in
      if pot gs =? 0 then ret tt
      else
        match subHands with
        | [] => ret tt
        | _ =>
            let ws := winners subHands in
            let subHands := List.filter (fun hand => negb (includes_hand ws hand)) subHands in
            forEach (pay_winner hands subHands (Z.of_nat (length ws))) ws ;;;
            settle_loop fuel' hands subHands
        end
  end.

(** checkWinning = (room) => ... *)
Definition checkWinning {PS : PokerSolver} {CF : Config} (c : Conn) : M unit :=
  let! rm := get_room in
  match gameStatus rm with
  | None => ret tt
  | Some gs =>
      let! seats := get_seats in
      let! h := get_store in
      let! hands := lift (hands_from h gs seats 0) in
      let subHands := omap (fun o => o) hands in
      settle_loop (S (length subHands)) hands subHands ;;;
      write_game (set_roundFinished true) ;;;
      forEach (fun r _ =>
                 let! h := get_store in
                 let! rm := get_room in
                 emit_to c r "updatedGameStatus" (view h rm) (Some (h r))) seats ;;;
      push_event (SetTimeout NextRoundTimer (rid rm) ROUND_WAIT_TIME)
  end.

(** ** Street dealing: dealCards *)

(** [gameStatus.playTurn = nextTurn(room, turn)] *)
Definition advance_turn (turn : option Z) : M unit :=
  let! h := get_store in
  let! rm := get_room in
  let! t := lift (nextTurn h rm turn) in
  write_game (set_playTurn t).

(** The callback of the [room.players.forEach] of dealCards. *)
Definition close_street (r : ref) (_ : Z) : M unit :=
  write_status r (fun ps =>
    set_subTotal 0 (set_total (totalBetAmout ps + subTotalBetAmount ps) ps)) ;;;
  write_game (set_currentBetAmount 0).

(** The community cards dealt when the board has [k] cards: offsets 51, 50,
    49 of the shuffled deck for the flop, then offset [51 - k]. *)
Definition deal_next (cards : list Z) (board : list Z) : list Z :=
  match board with
  | [] => [card_at cards 51; card_at cards 50; card_at cards 49]
  | _ => board ++ [card_at cards (51 - Z.of_nat (length board))]
  end.

(** dealCards = (room) => ... *)
Definition dealCards {PS : PokerSolver} {CF : Config} (c : Conn) : M bool :=
  let! rm := get_room in
  match gameStatus rm with
  | None => ret false
  | Some gs =>
      match cards gs with
      | None => ret false
      | Some cs =>
          let! seats := get_seats in
          forEach close_street seats ;;;
          advance_turn (Some (blindTurn gs)) ;;;
          if bool_decide (length (board gs) = 5%nat) then
            checkWinning c ;;; ret true
          else
            write_game (set_board (deal_next cs (board gs))) ;;; ret false
      end
  end.

(** [while (!this.dealCards(room));] A call that returns false adds at
    least one card to the board, and true is returned only at five cards:
    after six calls returning false none returns true. *)
Fixpoint deal_until_showdown {PS : PokerSolver} {CF : Config} (c : Conn) (fuel : nat) : M unit :=
  match fuel with
  | O => hang
  | S fuel' =>
      let! done := dealCards c in
      if done then ret tt else deal_until_showdown c fuel'
  end.

(** ** The betting engine: updateGameStatus *)

(** [nextPlayer.playerStatus?.subTotalBetAmount === gameStatus.currentBetAmount]
    for the seat at playTurn. *)
Definition next_has_matched : M bool :=
  let! rm := get_room in
  let! gs := defined (gameStatus rm) in
  let! seats := get_seats in
  let! r := defined (at_index seats (playTurn gs)) in
  let! h := get_store in
  ret (match playerStatus (h r) with
       | Some ps => bool_decide (subTotalBetAmount ps = currentBetAmount gs)
       | None => false
       end).

(** The count of the [room.players.forEach] of the FOLD branch. *)
Definition activePlayers (h : Store) (seats : list ref) : Z :=
  Z.of_nat (length (List.filter
    (fun r => match playerStatus (h r) with
              | Some ps => can_act ps
              | None => false
              end) seats)).

(** The body of updateGameStatus from [playerStatus.status = status] to the
    end of the chain of branches, for the player object [r] at playTurn.
    [None] is the early [return] of a RAISE that the balance does not
    cover; otherwise the value is dealCardsFlag. *)
Definition apply_action {PS : PokerSolver} {CF : Config} (c : Conn) (r : ref)
    (st : PlayStatus) (amount : option Z) : M (option bool) :=
  write_status r (set_status st) ;;;
  let! h := get_store in
  let! rm := get_room in
  let! gs := defined (gameStatus rm) in
  let! ps := defined (playerStatus (h r)) in
  let player := h r in
  let raising := match amount with Some a => negb (a =? 0) | None => false end in
  if bool_decide (st = CALL) then
    let betAmount := currentBetAmount gs - subTotalBetAmount ps in
    let short := balance player <? betAmount in
    let betAmount := if short then balance player else betAmount in
    (if short then write_status r (set_status ALLIN) else ret tt) ;;;
    write_player r (fun p => set_balance (balance p - betAmount) p) ;;;
    write_status r (fun ps => set_subTotal (subTotalBetAmount ps + betAmount) ps) ;;;
    write_game (fun gs => set_pot (pot gs + betAmount) gs) ;;;
    advance_turn None ;;;
    let! matched := next_has_matched in
    if matched then (let! flag := dealCards c in ret (Some flag)) else ret (Some false)
  else if bool_decide (st = RAISE) && raising then
    let amount := default 0 amount in
    let betAmount := currentBetAmount gs + amount - subTotalBetAmount ps in
    if balance player <? betAmount then ret None
    else
      write_player r (fun p => set_balance (balance p - betAmount) p) ;;;
      write_game (fun gs => set_currentBetAmount (currentBetAmount gs + amount) gs) ;;;
      write_status r (fun ps => set_subTotal (subTotalBetAmount ps + betAmount) ps) ;;;
      write_game (fun gs => set_pot (pot gs + betAmount) gs) ;;;
      advance_turn None ;;;
      ret (Some false)
  else if bool_decide (st = CHECK) then
    let! t1 := lift (nextTurn h rm None) in
    let! t2 := lift (nextTurn h rm (Some (blindTurn gs))) in
    if t1 =? t2 then (let! flag := dealCards c in ret (Some flag))
    else advance_turn None ;;; ret (Some false)
  else if bool_decide (st = FOLD) then
    write_status r (set_status FOLD) ;;;
    advance_turn None ;;;
    let! matched := next_has_matched in
    let! flag := (if matched then dealCards c else ret false) in
    let! h := get_store in
    let! seats := get_seats in
    (if activePlayers h seats =? 1 then deal_until_showdown c 6 else ret tt) ;;;
    ret (Some flag)
  else if bool_decide (st = ALLIN) then
    write_status r (set_status ALLIN) ;;;
    write_status r (fun ps => set_subTotal (subTotalBetAmount ps + balance player) ps) ;;;
    let sub := subTotalBetAmount ps + balance player in
    (if currentBetAmount gs <? sub then write_game (set_currentBetAmount sub) else ret tt) ;;;
    write_game (fun gs => set_pot (pot gs + balance player) gs) ;;;
    write_player r (set_balance 0) ;;;
    advance_turn None ;;;
    ret (Some false)
  else ret (Some false).

(** updateGameStatus on the table of the room, from the test of the seat at
    playTurn on (line 414): [player] is [this.players[index]], the object
    of the calling socket. *)
Definition play {PS : PokerSolver} {CF : Config} (c : Conn) (player : option ref)
    (st : PlayStatus) (amount : option Z) (now : Z) : M unit :=
  let! rm := get_room in
  match gameStatus rm with
  | None => ret tt
  | Some gs =>
      let! seats := get_seats in
      let! caller := defined player in
      let! h := get_store in
      let playerIndex := indexOf (fun r => same_string (pid (h caller)) (pid (h r))) seats in
      if (playerIndex =? -1) || negb (playerIndex =? playTurn gs)
         || negb (bool_decide (is_Some (cards gs)))
      then ret tt
      else
        let! r := defined (at_index seats playerIndex) in
        match playerStatus (h r) with
        | None => ret tt
        | Some _ =>
            let! flag := apply_action c r st amount in
            match flag with
            | None => ret tt
            | Some dealCardsFlag =>
                write_game (set_timestamp now) ;;;
                if dealCardsFlag then ret tt
                else
                  forEach (fun r _ =>
                    let! h := get_store in
                    let! rm := get_room in
                    let! shown := lift (cutPlayersCards (cutRoomCards (view h rm))) in
                    emit_to c r "updatedGameStatus" shown (Some (h r))) seats ;;;
                  push_event (SetTimeout TurnTimer (rid rm) PLAYER_WAIT_TIME)
            end
        end
  end.

(** Running a call on the table of the room at position [i] of
    [this.rooms]. *)
Definition focus (s : Server) (rm : Room ref) : Table :=
  mkTable (objects s) rm (emitted s).

Definition unfocus (s : Server) (i : nat) (t : Table) : Server :=
  mkServer (conn s) (<[i := room t]> (rooms s)) (store t) (log t).

(** public updateGameStatus(socket, { roomId, status, amount }); a timer
    may pass [undefined] for the socket. *)
Definition updateGameStatus {PS : PokerSolver} {CF : Config} (s : Server) (socket : option string)
    (roomId : string) (st : PlayStatus) (amount : option Z) (now : Z) : res unit * Server :=
  match socket with
  | None => (Ok tt, s)
  | Some socketId =>
      let index := getIndex (sockets (conn s)) socketId in
      let player := at_index (members (conn s)) index in
      match getRoom (rooms s) roomId with
      | None => (Ok tt, s)
      | Some (i, rm) =>
          let (result, t) := play (conn s) player st amount now (focus s rm) in
          (result, unfocus s i t)
      end
  end.

(** ** Round start: startNewRound *)

(** The first [room.players.forEach] of startNewRound: a fresh
    playerStatus with the hole cards at offsets [2 index] and
    [2 index + 1]. *)
Definition deal_hole (shuffledCards : list Z) (r : ref) (index : Z) : M unit :=
  write_player r (set_playerStatus
    (mkPlayerStatus 0 0 NONE
       (Some [card_at shuffledCards (index * 2); card_at shuffledCards (index * 2 + 1)])
       0 None)).

(** The second [room.players.forEach] of startNewRound: the blinds. *)
Definition post_blind (blind : Z) (r : ref) (index : Z) : M unit :=
  let! h := get_store in
  let! rm := get_room in
  match playerStatus (h r) with
  | None => ret tt
  | Some _ =>
      let! posts :=
        (if index =? blind then ret true
         else let! p := lift (prevTurn h rm (Some blind)) in ret (index =? p)) in
      if posts then
        let! gs := defined (gameStatus rm) in
        let amount := if index =? blind then 10 else 5 in
        (if currentBetAmount gs <? amount then write_game (set_currentBetAmount amount)
         else ret tt) ;;;
        if amount <=? balance (h r) then
          write_status r (set_subTotal amount) ;;;
          write_player r (fun p => set_balance (balance p - amount) p) ;;;
          write_game (fun gs => set_pot (pot gs + amount) gs)
        else write_status r (set_status BUST)
      else ret tt
  end.

Definition set_room_gameStatus (gs : GameStatus) : M unit :=
  fun t => (Ok tt, mkTable (store t) (set_gameStatus gs (room t)) (log t)).

(** startNewRound = (room) => ...  [rnd] is the randomness of the shuffle,
    [blindDraw] the value of [rand(room.numberOfPlayers)] and [now] the
    clock. *)
Definition startNewRound {CF : Config} (rnd : nat → nat * nat) (blindDraw : Z) (now : Z)
  : M unit :=
  let shuffledCards := shuffleCards rnd cardIds in
  let! h := get_store in
  let! rm := get_room in
  let! blind :=
    match gameStatus rm with
    | Some old => lift (nextTurn h rm (Some (blindTurn old)))
    | None => ret blindDraw
    end in
  let round := match gameStatus rm with Some old => round old + 1 | None => 1 end in
  set_room_gameStatus
    (mkGameStatus round false 0 0 blind blind [] (Some shuffledCards) 0) ;;;
  let! seats := get_seats in
  forEach (deal_hole shuffledCards) seats ;;;
  forEach (post_blind blind) seats ;;;
  advance_turn (Some blind) ;;;
  write_game (set_timestamp now) ;;;
  push_event (SetTimeout RoundStartTimer (rid rm) PLAYER_WAIT_TIME).

(** ** Timers

    A [setTimeout] is an event of the log; its callback is a function run
    when the timer fires, at clock [now]. *)

(** What both turn timers read when they fire: the socket, playerStatus and
    gameStatus of the seat at playTurn, when the deadline has passed. *)
Definition expired_seat {CF : Config} (c : Conn) (h : Store) (rm : Room ref) (now : Z)
  : res (option (option string * PlayerStatus * GameStatus)) :=
  match gameStatus rm with
  | None => Ok None
  | Some gs =>
      if PLAYER_WAIT_TIME <=? now - timestamp gs then
        match players rm with
        | None => Throw
        | Some seats =>
            match at_index seats (playTurn gs) with
            | None => Ok None
            | Some r =>
                match playerStatus (h r) with
                | None => Ok None
                | Some ps =>
                    let playerIndex := getPlayerIndex h (members c) (pid (h r)) in
                    Ok (Some (at_index (sockets c) playerIndex, ps, gs))
                end
            end
        end
      else Ok None
  end.

(** The action the timer armed by updateGameStatus submits (lines 503-518). *)
Definition turnTimer_submits {CF : Config} (c : Conn) (h : Store) (rm : Room ref) (now : Z)
  : res (option (option string * PlayStatus)) :=
  res_bind (expired_seat c h rm now) (fun o =>
    Ok (match o with
        | Some (socket, ps, gs) =>
            if bool_decide (subTotalBetAmount ps = currentBetAmount gs)
            then Some (socket, CHECK) else Some (socket, FOLD)
        | None => None
        end)).

(** The action the timer armed by startNewRound submits (lines 281-292). *)
Definition roundStartTimer_submits {CF : Config} (c : Conn) (h : Store) (rm : Room ref) (now : Z)
  : res (option (option string * PlayStatus)) :=
  res_bind (expired_seat c h rm now) (fun o =>
    Ok (match o with
        | Some (socket, ps, gs) => Some (socket, FOLD)
        | None => None
        end)).

(** The callback scheduled by checkWinning (lines 366-374): the next
    round.  It has no test of the clock or of the state of the room. *)
Definition next_round {CF : Config} (c : Conn) (rnd : nat → nat * nat) (blindDraw : Z) (now : Z)
  : M unit :=
  startNewRound rnd blindDraw now ;;;
  let! seats := get_seats in
  forEach (fun r _ =>
    let! h := get_store in
    let! rm := get_room in
    let! shown := lift (cutPlayersCards (cutRoomCards (view h rm))) in
    emit_to c r "updatedGameStatus" shown (Some (h r))) seats.

(** What a turn timer does with the action it has chosen: it calls
    updateGameStatus with the id of its room. *)
Definition submit {PS : PokerSolver} {CF : Config} (s : Server) (rm : Room ref) (now : Z)
    (submits : res (option (option string * PlayStatus))) : res unit * Server :=
  match submits with
  | Ok (Some (socket, st)) => updateGameStatus s socket (rid rm) st None now
  | Ok None => (Ok tt, s)
  | Throw => (Throw, s)
  | Hang => (Hang, s)
  end.

(** A timer firing, at clock [now], for the room object [rm] its callback
    holds.  The two turn timers submit an action; the timer armed by
    checkWinning runs [next_round] on the room object, which is the room of
    [this.rooms] with its id unless closeRoom has taken it out of the list.
    [rnd] and [blindDraw] are the draws of the round that then starts. *)
Definition fire_timer {PS : PokerSolver} {CF : Config} (tm : Timer) (s : Server) (rm : Room ref)
    (now : Z) (rnd : nat → nat * nat) (blindDraw : Z) : res unit * Server :=
  match tm with
  | TurnTimer => submit s rm now (turnTimer_submits (conn s) (objects s) rm now)
  | RoundStartTimer => submit s rm now (roundStartTimer_submits (conn s) (objects s) rm now)
  | NextRoundTimer =>
      let (result, t) := next_round (conn s) rnd blindDraw now (focus s rm) in
      (result,
       match getRoom (rooms s) (rid rm) with
       | Some (i, _) => unfocus s i t
       | None => mkServer (conn s) (rooms s) (store t) (log t)
       end)
  end.

(** ** The lobby: joinRoom *)

Definition set_seats {P} (n : Z) (seats : list P) (r : Room P) : Room P :=
  mkRoom (rid r) (rname r) (creator r) (started r) n (Some seats) (gameStatus r).

(** The broadcast that ends joinRoom: the callback of
    [this.players.forEach]. *)
Definition announce_join (c : Conn) (r : ref) (_ : Z) : M unit :=
  let! h := get_store in
  let! rm := get_room in
  let! seats := get_seats in
  if getPlayerIndex h seats (pid (h r)) =? -1
  then emit_to c r "updatedRoom" (cutPlayers (view h rm)) None
  else emit_to c r "joinedPlayer" (view h rm) None.

(** public joinRoom(socket, { roomId }) *)
Definition joinRoom (s : Server) (socketId : string) (roomId : string) : res unit * Server :=
  let index := getIndex (sockets (conn s)) socketId in
  let newPlayer := at_index (members (conn s)) index in
  match getRoom (rooms s) roomId with
  | None => (Throw, s)
  | Some (i, rm) =>
      if 10 <=? numberOfPlayers rm then (Ok tt, s)
      else
        match players rm, newPlayer with
        | Some seats, Some np =>
            let h := objects s in
            if negb (indexOf (fun r => same_string (pid (h np)) (pid (h r))) seats =? -1)
            then (Ok tt, s)
            else
              let h' := <[np := set_roomId roomId (h np)]> h in
              let rm' := set_seats (numberOfPlayers rm + 1) (seats ++ [np]) rm in
              let (result, t) :=
                forEach (announce_join (conn s)) (members (conn s))
                        (mkTable h' rm' (emitted s)) in
              (result, unfocus s i t)
        | _, _ => (Throw, s)
        end
  end.

(** ** The settlement scenario of test() *)

Definition betAmounts : list Z := [20; 80; 50; 40].

Definition folds : list bool := [false; false; true; false].

(** The player pushed in iteration [i] of the loop of test(); [ids] are the
    uuids drawn. *)
Definition test_player (ids : nat → string) (shuffledCards : list Z) (i : nat) : Player :=
  mkPlayer (ids i) ("player " +:+ pretty i) 1000 None
    (Some (mkPlayerStatus (default 0 (betAmounts !! i)) 0
             (if default false (folds !! i) then FOLD else CALL)
             (Some (take 2 (drop (i * 2) shuffledCards))) 0 None)).

(** The store and room test() builds from the shuffled deck: four fresh
    Player objects, references 0 to 3, and the room around them. *)
Definition test_setup (ids : nat → string) (roomUuid : string) (shuffledCards : list Z)
    (emitted : list Event) : Table :=
  mkTable (test_player ids shuffledCards)
    (mkRoom roomUuid "test" 0%nat true 4 (Some [0; 1; 2; 3]%nat)
       (Some (mkGameStatus 0 false 30 (foldr Z.add 0 betAmounts) 0 0
                (drop (length shuffledCards - 5) shuffledCards) None 0)))
    emitted.

(** The table on which test() calls checkWinning. *)
Definition test_table (ids : nat → string) (roomUuid : string) (rnd : nat → nat * nat)
    (emitted : list Event) : Table :=
  test_setup ids roomUuid (shuffleCards rnd cardIds) emitted.

(** The hand object test() has for seat [i]: the hole cards and the board,
    solved. *)
Definition test_hand {PS : PokerSolver} (shuffledCards : list Z) (i : nat) : HandObj :=
  (i, solve (map cardString (take 2 (drop (i * 2) shuffledCards)
                             ++ drop (length shuffledCards - 5) shuffledCards))).

(** public test() *)
Definition test {PS : PokerSolver} {CF : Config} (c : Conn) (ids : nat → string) (roomUuid : string)
    (rnd : nat → nat * nat) (emitted : list Event) : res unit * Table :=
  checkWinning c (test_table ids roomUuid rnd emitted).

(** ** A hand solver and constants to run the model on

    A toy solver for the examples: the strength of a hand is its highest
    card rank, and the winners are the hands of greatest strength, in the
    order of the argument. *)

Definition rank_of (card : string) : Z :=
  match card with
  | String c _ =>
      if bool_decide (c = "A"%char) then 14
      else if bool_decide (c = "K"%char) then 13
      else if bool_decide (c = "Q"%char) then 12
      else if bool_decide (c = "J"%char) then 11
      else if bool_decide (c = "T"%char) then 10
      else Z.of_nat (Ascii.nat_of_ascii c) - 48
  | EmptyString => 0
  end.

Definition high_card (cs : list string) : Z := foldr Z.max 0 (map rank_of cs).

Definition best_hands (hands : list (nat * Z)) : list (nat * Z) :=
  match hands with
  | [] => []
  | first :: others =>
      let top := foldr Z.max first.2 (map snd others) in
      List.filter (fun hand => hand.2 =? top) hands
  end.

Definition high_card_solver : PokerSolver :=
  {| Hand := Z; solve := high_card; winners := best_hands;
     hand_name := fun _ => "High Card" |}.

Definition sample_config : Config :=
  {| PLAYER_WAIT_TIME := 30000; ROUND_WAIT_TIME := 10000 |}.

(** The contract of Hand.winners the proofs rely on: of a non-empty list of
    hands it returns a non-empty selection, in the order of the list. *)
Definition winners_contract {PS : PokerSolver} : Prop :=
  ∀ hands : list HandObj, hands ≠ [] → winners hands ≠ [] ∧ sublist (winners hands) hands.

(** *** A table of three players *)

Definition player_of (i : nat) (bal : Z) (ps : option PlayerStatus) : Player :=
  mkPlayer ("p" +:+ pretty i) ("player " +:+ pretty i) bal (Some "r1") ps.

(** The identity draws: every iteration swaps location 0 with itself. *)
Definition no_swaps : nat → nat * nat := fun _ => (0%nat, 0%nat).

Definition three_conn : Conn := mkConn ["s0"; "s1"; "s2"] [0; 1; 2]%nat.

Definition lobby_room : Room ref :=
  mkRoom "r1" "table" 0%nat true 3 (Some [0; 1; 2]%nat) None.

Definition lobby_store : Store := fun r => player_of r 2000 None.

Definition lobby_server : Server := mkServer three_conn [lobby_room] lobby_store [].

(** ** Chip counts of a room *)

Definition seats_of (rm : Room ref) : list ref := default [] (players rm).

(** The sum of [f player] over the seats. *)
Definition total_of (f : Player → Z) (h : Store) (seats : list ref) : Z :=
  foldr (fun r acc => f (h r) + acc) 0 seats.

(** totalBetAmout + subTotalBetAmount of a player. *)
Definition staked (p : Player) : Z :=
  match playerStatus p with
  | Some ps => totalBetAmout ps + subTotalBetAmount ps
  | None => 0
  end.

Definition won (p : Player) : Z :=
  match playerStatus p with
  | Some ps => winAmount ps
  | None => 0
  end.

Definition pot_of (rm : Room ref) : Z :=
  match gameStatus rm with
  | Some gs => pot gs
  | None => 0
  end.

(** The sum of the balances of the seats. *)
Definition balances (h : Store) (rm : Room ref) : Z := total_of balance h (seats_of rm).

(** The chips of the room: balances plus pot. *)
Definition chips (h : Store) (rm : Room ref) : Z := balances h rm + pot_of rm.

(** The sum the specification names: balance + totalBetAmout +
    subTotalBetAmount over the seats, plus the pot. *)
Definition stated_sum (h : Store) (rm : Room ref) : Z :=
  total_of (fun p => balance p + staked p) h (seats_of rm) + pot_of rm.

(** balance + totalBetAmout + subTotalBetAmount over the seats, less what
    settlement credited (winAmount). *)
Definition books (h : Store) (rm : Room ref) : Z :=
  total_of (fun p => balance p + staked p - won p) h (seats_of rm).

(** The table of three after startRoomGame's startNewRound at clock 100,
    with the blind drawn at seat 0: seat 0 posted 10, seat 2 posted 5 and
    seat 1 is to act. *)
Definition round_table : Table :=
  (startNewRound (CF := sample_config) no_swaps 0 100 (focus lobby_server lobby_room)).2.

Definition round_server : Server := unfocus lobby_server 0 round_table.

(** *** A table of two, the short stack all in

    Seat 0 staked 50 and seat 1, all in, staked 10; the board is out and
    carries the highest card, so that the toy solver ranks both hands
    alike. *)
Definition tie_store : Store := fun r =>
  match r with
  | O => player_of 0 1950
           (Some (mkPlayerStatus 50 0 CHECK (Some [0; 1]) 0 None))
  | _ => player_of 1 0
           (Some (mkPlayerStatus 10 0 ALLIN (Some [2; 3]) 0 None))
  end.

Definition tie_room : Room ref :=
  mkRoom "r1" "table" 0%nat true 2 (Some [0; 1]%nat)
    (Some (mkGameStatus 1 false 0 60 1 0 [51; 50; 49; 48; 47]
             (Some (shuffleCards no_swaps cardIds)) 100)).

Definition tie_table : Table := mkTable tie_store tie_room [].

Definition two_conn : Conn := mkConn ["s0"; "s1"] [0; 1]%nat.

(** *** A table of two where seat 1 cannot post the small blind *)

Definition broke_store : Store := fun r =>
  match r with
  | O => player_of 0 2000 None
  | _ => player_of 1 3 None
  end.

Definition broke_room : Room ref :=
  mkRoom "r1" "table" 0%nat true 2 (Some [0; 1]%nat) None.

Definition broke_lobby : Server := mkServer two_conn [broke_room] broke_store [].

(** After startNewRound at clock 100 with the blind drawn at seat 0: seat 0
    posted 10, seat 1 is BUST, and seat 0 is to act. *)
Definition broke_server : Server :=
  unfocus broke_lobby 0
    (startNewRound (CF := sample_config) no_swaps 0 100 (focus broke_lobby broke_room)).2.

(** The table of three after a startNewRound with the blind drawn at seat
    1: seat 1 posted 10, seat 0 posted 5 and seat 2, which has staked
    nothing, is to act. *)
Definition blind1_server : Server :=
  unfocus lobby_server 0
    (startNewRound (CF := sample_config) no_swaps 1 100 (focus lobby_server lobby_room)).2.

(** ** The cards of a round

    The offsets of the shuffled deck the program reads: [2 index] and
    [2 index + 1] for the hole cards of the seat at [index]; 51, 50, ... for
    the board.  The deck itself, [gameStatus.cards], stays whole; the
    undealt remainder of a round with [n] seats and a board of [k] cards is
    what lies at the offsets from [2 n] up to [51 - k]. *)

Definition hole_offsets (index : Z) : list Z := [index * 2; index * 2 + 1].

Definition board_offsets (k : nat) : list Z := map (fun j => 51 - Z.of_nat j) (seq 0 k).

Definition undealt_offsets (n k : nat) : list Z :=
  map Z.of_nat (seq (2 * n) (52 - k - 2 * n)).

Definition cards_at (cs : list Z) (offsets : list Z) : list Z := map (card_at cs) offsets.

(** [playerStatus.deck] of the Player object [r]. *)
Definition hole_cards (h : Store) (r : ref) : list Z :=
  match playerStatus (h r) with
  | Some ps => default [] (deck ps)
  | None => []
  end.

(** [gameStatus.deck] of the room. *)
Definition board_of (rm : Room ref) : list Z :=
  match gameStatus rm with
  | Some gs => board gs
  | None => []
  end.

Definition undealt (cs : list Z) (n k : nat) : list Z := cards_at cs (undealt_offsets n k).

(** The state of the cards in a round on the deck [cs] with the seats
    [seats] and [k] community cards out. *)
Definition round_cards (t : Table) (cs : list Z) (seats : list ref) (k : nat) : Prop :=
  players (room t) = Some seats
  ∧ (∃ gs, gameStatus (room t) = Some gs ∧ cards gs = Some cs
           ∧ board gs = cards_at cs (board_offsets k))
  ∧ (∀ i r, seats !! i = Some r →
       ∃ ps, playerStatus (store t r) = Some ps
             ∧ deck ps = Some (cards_at cs (hole_offsets (Z.of_nat i))))
  ∧ k ∈ [0; 3; 4; 5]%nat.

(** The size of the board after one more street. *)
Definition next_size (k : nat) : nat :=
  match k with
  | 0 => 3
  | 3 => 4
  | _ => 5
  end%nat.

(** The tables of a round: the one startNewRound leaves, and those reached
    from it by calls of dealCards and of updateGameStatus on the room. *)
Inductive in_round {PS : PokerSolver} {CF : Config} (c : Conn) (cs : list Z)
    (seats : list ref) : Table → Prop :=
  | round_started (t0 t : Table) (rnd : nat → nat * nat) (blindDraw now : Z) :
      players (room t0) = Some seats →
      startNewRound rnd blindDraw now t0 = (Ok tt, t) →
      cs = shuffleCards rnd cardIds →
      in_round c cs seats t
  | round_dealt (t t' : Table) (outcome : res bool) :
      in_round c cs seats t →
      dealCards c t = (outcome, t') →
      in_round c cs seats t'
  | round_played (t t' : Table) (player : option ref) (st : PlayStatus)
        (amount : option Z) (now : Z) (outcome : res unit) :
      in_round c cs seats t →
      play c player st amount now t = (outcome, t') →
      in_round c cs seats t'.

(** Two lists of cards with no card in common. *)
Definition no_common (l1 l2 : list Z) : Prop := ∀ x, x ∈ l1 → x ∈ l2 → False.

(** ** What a serialised room shows

    The cards a client can read in the seat list and in gameStatus of a
    room it is sent. *)

(** No seat of the room carries hole cards and gameStatus carries no
    deck. *)
Definition no_cards (shown : Room Player) : Prop :=
  (∀ seats p ps, players shown = Some seats → p ∈ seats →
                 playerStatus p = Some ps → deck ps = None)
  ∧ (∀ gs, gameStatus shown = Some gs → cards gs = None).

(** A player but for the hole cards. *)
Definition public_player (p : Player)
  : string * string * Z * option string * option (Z * Z * PlayStatus * Z * option string) :=
  (pid p, pname p, balance p, roomId p,
   (fun ps => (totalBetAmout ps, subTotalBetAmount ps, status ps, winAmount ps, handType ps))
     <$> playerStatus p).

(** gameStatus but for the shuffled deck. *)
Definition public_game (gs : GameStatus) : Z * bool * Z * Z * Z * Z * list Z * Z :=
  (round gs, roundFinished gs, currentBetAmount gs, pot gs, blindTurn gs, playTurn gs,
   board gs, timestamp gs).

(** ** The characters of cardString *)

Definition rank_chars : list ascii :=
  ["2"; "3"; "4"; "5"; "6"; "7"; "8"; "9"; "T"; "J"; "Q"; "K"; "A"]%char.

Definition suit_chars : list ascii := ["d"; "c"; "h"; "s"]%char.

(** ** The lobby: joinGame, createRoom, leaveRoom, closeRoom, leaveGame,
    startRoomGame *)

(** The messages of the lobby that carry no room: the payloads of
    joinedGame and of closedRoom. *)
Inductive Notice :=
  | JoinedGame (socket : string) (player : Player) (rooms : list (Room Player))
  | ClosedRoom (socket : string) (roomId : string).

(** The Player objects the server holds: [this.players], and the creators
    and the seats of [this.rooms]. *)
Definition refs_of (s : Server) : list ref :=
  members (conn s) ++ flat_map (fun rm => creator rm :: seats_of rm) (rooms s).

(** The reference of a new object: one the server does not hold. *)
Definition new_ref (s : Server) : ref := S (foldr Nat.max 0%nat (refs_of s)).

(** [this.players[getIndex(this.sockets, socket.id)]] *)
Definition player_of_socket (s : Server) (socketId : string) : option ref :=
  at_index (members (conn s)) (getIndex (sockets (conn s)) socketId).

(** public joinGame(socket, { name }); [playerId] is the uuid drawn. *)
Definition joinGame (s : Server) (socketId name playerId : string) : Server * Notice :=
  let player := mkPlayer playerId name 2000 None None in
  let r := new_ref s in
  let h := <[r := player]> (objects s) in
  (mkServer (mkConn (sockets (conn s) ++ [socketId]) (members (conn s) ++ [r]))
            (rooms s) h (emitted s),
   JoinedGame socketId player (map (fun rm => cutPlayers (view h rm)) (rooms s))).

(** public createRoom(socket, { name }); [roomId] is the uuid drawn.  The
    room of a socket that has no player would have no creator, which the
    data model does not hold: the embedding covers the call of a socket
    that has joined the game, and is [None] otherwise. *)
Definition createRoom (s : Server) (socketId name roomId : string) : option Server :=
  match player_of_socket s socketId with
  | None => None
  | Some player =>
      let room := mkRoom roomId name player false 1 (Some [player]) None in
      let shown := view (objects s) room in
      Some (mkServer (conn s) (rooms s ++ [room]) (objects s)
              (emitted s
               ++ map (fun client =>
                         Emit client "createdRoom"
                           (if same_string client socketId then shown else cutPlayers shown)
                           None)
                      (sockets (conn s))))
  end.

(** The broadcast that ends leaveRoom: the callback of
    [this.players.forEach]. *)
Definition announce_leave (c : Conn) (r : ref) (_ : Z) : M unit :=
  let! h := get_store in
  let! rm := get_room in
  let! seats := get_seats in
  if getPlayerIndex h seats (pid (h r)) =? -1
  then emit_to c r "updatedRoom" (cutPlayers (view h rm)) None
  else emit_to c r "leftPlayer" (view h rm) None.

Definition set_numberOfPlayers {P} (n : Z) (r : Room P) : Room P :=
  mkRoom (rid r) (rname r) (creator r) (started r) n (players r) (gameStatus r).

(** public leaveRoom(socket).  [!leftPlayer.roomId] holds of an absent
    roomId and of the empty string. *)
Definition leaveRoom (s : Server) (socketId : string) : res unit * Server :=
  match player_of_socket s socketId with
  | None => (Ok tt, s)
  | Some leftPlayer =>
      let h := objects s in
      match roomId (h leftPlayer) with
      | None => (Ok tt, s)
      | Some id =>
          if bool_decide (id = EmptyString) then (Ok tt, s)
          else
            match getRoom (rooms s) id with
            | None => (Ok tt, s)
            | Some (i, rm) =>
                let rm := set_numberOfPlayers (numberOfPlayers rm - 1) rm in
                match players rm with
                | None => (Throw, unfocus s i (mkTable h rm (emitted s)))
                | Some seats =>
                    let seats :=
                      List.filter
                        (fun r => negb (same_string (pid (h r)) (pid (h leftPlayer))))
                        seats in
                    let rm := set_seats (numberOfPlayers rm) seats rm in
                    let (result, t) :=
                      forEach (announce_leave (conn s)) (members (conn s))
                              (mkTable h rm (emitted s)) in
                    (result, unfocus s i t)
                end
            end
      end
  end.

(** The [this.players.forEach] of closeRoom: closedRoom to the socket of
    every player; emitting on a missing socket throws. *)
Fixpoint notify_closed (c : Conn) (h : Store) (roomId : string) (ps : list ref)
  : res unit * list Notice :=
  match ps with
  | [] => (Ok tt, [])
  | r :: ps' =>
      match at_index (sockets c) (getPlayerIndex h (members c) (pid (h r))) with
      | None => (Throw, [])
      | Some socket =>
          let (result, sent) := notify_closed c h roomId ps' in
          (result, ClosedRoom socket roomId :: sent)
      end
  end.

(** public closeRoom({ roomId }): the outcome, the server and what was
    sent. *)
Definition closeRoom (s : Server) (roomId : string) : res unit * Server * list Notice :=
  let s' := mkServer (conn s)
              (List.filter (fun rm => negb (same_string (rid rm) roomId)) (rooms s))
              (objects s) (emitted s) in
  let (result, sent) := notify_closed (conn s) (objects s) roomId (members (conn s)) in
  (result, s', sent).

(** The [this.rooms.forEach] of leaveGame, over the array [this.rooms] was
    when the loop started: the rooms created by the player are closed. *)
Fixpoint close_created (playerId : string) (old : list (Room ref)) (s : Server)
  : res unit * Server * list Notice :=
  match old with
  | [] => (Ok tt, s, [])
  | rm :: old' =>
      if same_string (pid (objects s (creator rm))) playerId then
        match closeRoom s (rid rm) with
        | (Ok _, s', sent) =>
            let '(result, s'', sent') := close_created playerId old' s' in
            (result, s'', sent ++ sent')
        | stopped => stopped
        end
      else close_created playerId old' s
  end.

(** public leaveGame(socket): run on [disconnect]. *)
Definition leaveGame (s : Server) (socketId : string) : res unit * Server * list Notice :=
  match leaveRoom s socketId with
  | (Ok _, s1) =>
      let index := getIndex (sockets (conn s1)) socketId in
      match at_index (members (conn s1)) index with
      | None => (Ok tt, s1, [])
      | Some player =>
          match close_created (pid (objects s1 player)) (rooms s1) s1 with
          | (Ok _, s2, sent) =>
              (Ok tt,
               mkServer (mkConn (delete (Z.to_nat index) (sockets (conn s2)))
                                (delete (Z.to_nat index) (members (conn s2))))
                        (rooms s2) (objects s2) (emitted s2),
               sent)
          | stopped => stopped
          end
      end
  | (stopped, s1) => (stopped, s1, [])
  end.

(** The broadcast that ends startRoomGame: the callback of
    [this.players.forEach]. *)
Definition announce_start (c : Conn) (r : ref) (_ : Z) : M unit :=
  let! h := get_store in
  let! rm := get_room in
  let! seats := get_seats in
  let playerIndex := getPlayerIndex h seats (pid (h r)) in
  if playerIndex =? -1
  then emit_to c r "updatedRoom" (cutPlayers (cutGameStatus (view h rm))) None
  else
    let! shown := lift (cutPlayersCards (cutRoomCards (view h rm))) in
    emit_to c r "updatedGameStatus" shown (h <$> at_index seats playerIndex).

(** public startRoomGame({ roomId }); [room.started = true] on a room that
    is not found throws. *)
Definition startRoomGame {CF : Config} (s : Server) (roomId : string)
    (rnd : nat → nat * nat) (blindDraw : Z) (now : Z) : res unit * Server :=
  match getRoom (rooms s) roomId with
  | None => (Throw, s)
  | Some (i, rm) =>
      let (result, t) :=
        (startNewRound rnd blindDraw now ;;;
         forEach (announce_start (conn s)) (members (conn s)))
          (focus s (set_started true rm)) in
      (result, unfocus s i t)
  end.

(** ** Rooms and seats by id *)

(** The room getRoom returns. *)
Definition room_of (rooms : list (Room ref)) (id : string) : option (Room ref) :=
  snd <$> getRoom rooms id.

(** The seats of a room without those that have the id of [p]. *)
Definition others_of (h : Store) (p : ref) (seats : list ref) : list ref :=
  List.filter (fun r => negb (same_string (pid (h r)) (pid (h p)))) seats.

(** ** The bets of a seat *)

(** totalBetAmout, subTotalBetAmount and status of a player. *)
Definition bets_of (p : Player) : option (Z * Z * PlayStatus) :=
  (fun ps => (totalBetAmout ps, subTotalBetAmount ps, status ps)) <$> playerStatus p.

(** The bets after the stake of the street has gone into totalBetAmout. *)
Definition street_closed (b : option (Z * Z * PlayStatus)) : option (Z * Z * PlayStatus) :=
  (fun x => (x.1.1 + x.1.2, 0, x.2)) <$> b.

(** currentBetAmount of the room. *)
Definition bet_of (rm : Room ref) : option Z := currentBetAmount <$> gameStatus rm.

(** A player that has no hand at showdown: it has no playerStatus, or has
    folded or is bust. *)
Definition sits_out (p : Player) : Prop :=
  match playerStatus p with
  | Some ps => status ps = FOLD ∨ status ps = BUST
  | None => True
  end.

(** ** The run-out

    A table on which [while (!this.dealCards(room));] can run: the room has
    a round with a deck and at most five community cards, its player count
    is its number of seats, some seat can be given the turn, and blindTurn
    and playTurn are seat indices from 0. *)
Definition can_run_out (t : Table) : Prop :=
  ∃ gs cs seats,
    gameStatus (room t) = Some gs ∧ cards gs = Some cs
    ∧ players (room t) = Some seats
    ∧ numberOfPlayers (room t) = Z.of_nat (length seats)
    ∧ (∃ r, r ∈ seats ∧ eligible (store t) r = true)
    ∧ 0 ≤ blindTurn gs ∧ 0 ≤ playTurn gs
    ∧ (length (board gs) ≤ 5)%nat.

(** ** Solvency

    A table on which no chip count is negative and no seat has staked more
    in the street than currentBetAmount. *)
Definition solvent (t : Table) : Prop :=
  0 ≤ pot_of (room t)
  ∧ ∀ r, r ∈ seats_of (room t) →
      0 ≤ balance (store t r)
      ∧ ∀ ps, playerStatus (store t r) = Some ps →
          0 ≤ totalBetAmout ps
          ∧ 0 ≤ subTotalBetAmount ps
          ∧ ∀ gs, gameStatus (room t) = Some gs →
                  subTotalBetAmount ps ≤ currentBetAmount gs.

(** An amount a RAISE can carry without lowering the bet: none, or one
    that is not negative. *)
Definition raises_by (amount : option Z) : Prop :=
  match amount with
  | Some a => 0 ≤ a
  | None => True
  end.

(** ** What is sent during a round

    A message is discreet when the room it carries shows no hole cards in
    its seat list and no deck, or is the room of a finished round. *)
Definition discreet (e : Event) : Prop :=
  match e with
  | Emit _ _ shown _ =>
      no_cards shown ∨ ∃ gs, gameStatus shown = Some gs ∧ roundFinished gs = true
  | SetTimeout _ _ _ => True
  end.

(** ** What the lobby sends

    A message that carries the gameStatus of a room of the server as it
    is, and its seats, when it carries them, with their playerStatus as it
    is. *)
Definition unredacted (s : Server) (e : Event) : Prop :=
  match e with
  | Emit _ _ shown _ =>
      (∃ rm, rm ∈ rooms s ∧ gameStatus shown = gameStatus rm)
      ∧ ∀ seats p, players shown = Some seats → p ∈ seats →
          ∃ r, pid p = pid (objects s r) ∧ playerStatus p = playerStatus (objects s r)
  | SetTimeout _ _ _ => False
  end.

(** ** Where the arithmetic of the code is exact

    Chip counts and an amount of at most 2^32 in absolute value, on at most
    1024 seats: no sum or difference that one call of updateGameStatus or
    of checkWinning computes from them leaves the safe integers (an action
    adds at most three of them, dealCards adds two such results, the cap of
    a winner sums at most 1025 of those), and the quotient
    [pot / (winners.length - index)] is far enough from the next integer for
    [Math.floor] to give the floor of the exact quotient.  There the doubles
    of the code compute what [Z] computes. *)

Definition small (x : Z) : Prop := - 2 ^ 32 ≤ x ≤ 2 ^ 32.

Definition small_amount (amount : option Z) : Prop :=
  match amount with
  | Some a => small a
  | None => True
  end.

Definition small_chips (h : Store) (rm : Room ref) : Prop :=
  (length (seats_of rm) ≤ 1024)%nat
  ∧ (∀ gs, gameStatus rm = Some gs → small (pot gs) ∧ small (currentBetAmount gs))
  ∧ ∀ r, r ∈ seats_of rm →
      small (balance (h r))
      ∧ ∀ ps, playerStatus (h r) = Some ps →
          small (totalBetAmout ps) ∧ small (subTotalBetAmount ps) ∧ small (winAmount ps).

(** The numbers the RAISE branch reads and the numbers it computes, in the
    order of lines 441-448, for a player with balance [bal]: when all are
    safe integers every operation of the branch is exact. *)
Definition raise_numbers (gs : GameStatus) (ps : PlayerStatus) (bal amount : Z) : list Z :=
  let betAmount := currentBetAmount gs + amount - subTotalBetAmount ps in
  [ amount; currentBetAmount gs; subTotalBetAmount ps; bal; pot gs;
    currentBetAmount gs + amount; betAmount;
    bal - betAmount; subTotalBetAmount ps + betAmount; pot gs + betAmount ].

(** *** A room of four at showdown, the 20-chip seat folded

    The room of test() with another seat folded: totalBetAmout 20, 80, 50
    and 40, seat 0 folded, a pot of 190, on the unshuffled deck.  The board
    is the ten to the ace of spades, so the three live hands tie. *)
Definition four_conn : Conn := mkConn ["s0"; "s1"; "s2"; "s3"] [0; 1; 2; 3]%nat.

Definition fold0_store : Store := fun i =>
  mkPlayer ("u" +:+ pretty i) ("player " +:+ pretty i) 1000 None
    (Some (mkPlayerStatus (default 0 (betAmounts !! i)) 0
             (if bool_decide (i = 0%nat) then FOLD else CALL)
             (Some (take 2 (drop (i * 2) cardIds))) 0 None)).

Definition fold0_table : Table :=
  mkTable fold0_store
    (mkRoom "room" "test" 0%nat true 4 (Some [0; 1; 2; 3]%nat)
       (Some (mkGameStatus 0 false 30 190 0 0 (drop 47 cardIds) None 0)))
    [].

(** *** A room that counts fewer players than it seats

    Twelve players are registered.  The first creates a room and nine
    others join it; the last of them then leaves, and leaves once more
    (leaveRoom does not clear roomId, so the second call lowers
    numberOfPlayers again); an eleventh player joins.  The room now has ten
    seats and counts nine players. *)
Definition crowd_lobby : Server :=
  mkServer (mkConn (map (fun i : nat => "s" +:+ pretty i) (seq 0 12)) (seq 0 12)) []
    (fun r => mkPlayer ("p" +:+ pretty r) ("player " +:+ pretty r) 2000 None None) [].

Definition crowded_server : Server :=
  let s1 := default crowd_lobby (createRoom crowd_lobby "s0" "table" "r1") in
  let s2 := foldl (fun s (i : nat) => (joinRoom s ("s" +:+ pretty i) "r1").2) s1 (seq 1 9) in
  let s3 := (leaveRoom (leaveRoom s2 "s9").2 "s9").2 in
  (joinRoom s3 "s10" "r1").2.

(** *** A player that comes back during the next round

    In [round_server] the player of socket s1 leaves the room.  The player
    of s2, now at playTurn, folds; one seat is left in play, so the board is
    run out and the round is settled.  The timer of the next round fires
    and round 2 is dealt, on the same order of the deck, to the two seats
    left.  Then s1 joins the room again, with the playerStatus it kept from
    round 1. *)
Definition rejoined_server : Server :=
  let s1 := (leaveRoom round_server "s1").2 in
  let s2 := (updateGameStatus (PS := high_card_solver) (CF := sample_config)
               s1 (Some "s2") "r1" FOLD None 200).2 in
  let rm2 := default lobby_room (rooms s2 !! 0%nat) in
  let s3 := (fire_timer (PS := high_card_solver) (CF := sample_config)
               NextRoundTimer s2 rm2 10300 no_swaps 0).2 in
  (joinRoom s3 "s1" "r1").2.

(** *** A round on twenty-four seats, dealt to the river *)
Definition wide_table : Table :=
  let t0 := mkTable (fun r => player_of r 2000 None)
              (mkRoom "r1" "table" 0%nat true 24 (Some (seq 0 24)) None) [] in
  let t1 := (startNewRound (CF := sample_config) no_swaps 0 100 t0).2 in
  let deal := fun t => (dealCards (PS := high_card_solver) (CF := sample_config)
                          three_conn t).2 in
  deal (deal (deal t1)).

(** ** Properties of the redaction projections *)

Lemma cutCards_idem (p : Player) : cutCards (cutCards p) = cutCards p.
Proof.
  unfold cutCards. destruct (playerStatus p) as [ps|] eqn:E; simpl.
  - reflexivity.
  - rewrite E. reflexivity.
Qed.

Lemma map_cutCards_idem (ps : list Player) :
  map cutCards (map cutCards ps) = map cutCards ps.
Proof.
  induction ps as [|p ps IH]; simpl.
  - reflexivity.
  - rewrite cutCards_idem, IH. reflexivity.
Qed.

Lemma cutPlayersCards_idem (r : Room Player) :
  res_bind (cutPlayersCards r) cutPlayersCards = cutPlayersCards r.
Proof.
  unfold cutPlayersCards. destruct (players r) as [ps|]; simpl.
  - rewrite map_cutCards_idem. reflexivity.
  - reflexivity.
Qed.

Lemma cutRoomCards_idem {P} (r : Room P) : cutRoomCards (cutRoomCards r) = cutRoomCards r.
Proof.
  unfold cutRoomCards.
  destruct (gameStatus r) as [gs|] eqn:E; simpl.
  - destruct (cards gs) eqn:E'; simpl.
    + reflexivity.
    + rewrite E, E'. reflexivity.
  - rewrite E. reflexivity.
Qed.

Lemma cutPlayers_idem {P} (r : Room P) : cutPlayers (cutPlayers r) = cutPlayers r.
Proof. reflexivity. Qed.

(** C9. Redaction idempotence: each of cutPlayersCards, cutRoomCards and
    cutPlayers, applied to its own result, gives that result again.  For
    cutPlayersCards, which throws on a room without a seat list, the second
    application is sequenced after the first: on a room with seats the
    second call returns what the first returned, and otherwise both throw. *)
Theorem redaction_idempotent (r : Room Player) :
  res_bind (cutPlayersCards r) cutPlayersCards = cutPlayersCards r
  ∧ cutRoomCards (cutRoomCards r) = cutRoomCards r
  ∧ cutPlayers (cutPlayers r) = cutPlayers r.
Proof.
  split; [apply cutPlayersCards_idem|].
  split; [apply cutRoomCards_idem | apply cutPlayers_idem].
Qed.

(** ** The shuffle *)

Lemma rand_lt (u limit : nat) : (0 < limit)%nat → (rand u limit < limit)%nat.
Proof.
  intros H. unfold rand. destruct limit as [|k]; [lia|].
  apply Nat.mod_upper_bound. lia.
Qed.

(** Inside the array the two writes exchange two entries. *)
Lemma swapAt_inside (l : list Z) (i j : nat) (x y : Z) :
  l !! i = Some x → l !! j = Some y →
  swapAt l i j = <[j := x]> (<[i := y]> l).
Proof.
  intros Hi Hj. unfold swapAt, js_get, js_set. rewrite Hi, Hj. cbn [default].
  pose proof (lookup_lt_Some _ _ _ Hi) as Hli.
  pose proof (lookup_lt_Some _ _ _ Hj) as Hlj.
  destruct (decide (i < length l)%nat) as [_|?]; [|lia].
  rewrite length_insert.
  destruct (decide (j < length l)%nat) as [_|?]; [|lia].
  reflexivity.
Qed.

Lemma swapAt_perm (l : list Z) (i j : nat) :
  (i < length l)%nat → (j < length l)%nat → swapAt l i j ≡ₚ l.
Proof.
  intros Hli Hlj.
  destruct (lookup_lt_is_Some_2 l i Hli) as [x Hi].
  destruct (lookup_lt_is_Some_2 l j Hlj) as [y Hj].
  rewrite (swapAt_inside l i j x y Hi Hj).
  destruct (decide (i = j)) as [->|Hne].
  - assert (x = y) by congruence. subst y.
    rewrite list_insert_insert_eq.
    rewrite list_insert_id by exact Hi. reflexivity.
  - symmetry. apply Permutation_inj. split.
    + rewrite !length_insert. reflexivity.
    + exists (fun k => if decide (k = i) then j else if decide (k = j) then i else k).
      split.
      * intros a b. repeat case_decide; intros; subst; congruence.
      * intros k. repeat case_decide; subst.
        -- rewrite list_lookup_insert_eq; [congruence|].
           rewrite length_insert. eapply lookup_lt_Some; eauto.
        -- rewrite list_lookup_insert_ne by congruence.
           rewrite list_lookup_insert_eq; [congruence|].
           eapply lookup_lt_Some; eauto.
        -- rewrite !list_lookup_insert_ne by congruence. reflexivity.
Qed.

(** On an array that is not empty every drawn location is inside it, and
    the loop permutes the array. *)
Lemma shuffle_from_perm rnd limit n :
  (0 < limit)%nat → ∀ i l, length l = limit → shuffle_from rnd limit i n l ≡ₚ l.
Proof.
  intros Hlimit. induction n as [|n IH]; intros i l Hl; simpl.
  - reflexivity.
  - assert (Hswap : swapAt l (rand (rnd i).1 limit) (rand (rnd i).2 limit) ≡ₚ l).
    { apply swapAt_perm; rewrite Hl; apply rand_lt; exact Hlimit. }
    rewrite IH; [exact Hswap|].
    rewrite (Permutation_length Hswap). exact Hl.
Qed.

Lemma shuffleCards_deck (rnd : nat → nat * nat) : shuffleCards rnd cardIds ≡ₚ cardIds.
Proof.
  unfold shuffleCards. apply shuffle_from_perm; [|reflexivity].
  unfold cardIds. rewrite length_map, length_seq. lia.
Qed.

(** C8 (as amended). Whatever is drawn, shuffleCards returns the 52 card
    ids in some order: a permutation of 0..51, every id exactly once. *)
Theorem shuffleCards_permutation (rnd : nat → nat * nat) :
  shuffleCards rnd cardIds ≡ₚ map Z.of_nat (seq 0 52)
  ∧ length (shuffleCards rnd cardIds) = 52%nat
  ∧ NoDup (shuffleCards rnd cardIds).
Proof.
  pose proof (shuffleCards_deck rnd) as H.
  split; [exact H|]. split.
  - rewrite (Permutation_length H). reflexivity.
  - rewrite H. unfold cardIds.
    apply NoDup_fmap_2; [intros a b; apply Nat2Z.inj | apply NoDup_seq].
Qed.

Lemma length_flat_map_cons {A} (tails : list (list A)) (alphabet : list A) :
  Z.of_nat (length (flat_map (fun a => map (cons a) tails) alphabet))
  = Z.of_nat (length alphabet) * Z.of_nat (length tails).
Proof.
  induction alphabet as [|a al IHa]; simpl.
  - reflexivity.
  - rewrite length_app, length_map, Nat2Z.inj_add, IHa. lia.
Qed.

Lemma length_all_seqs {A} (alphabet : list A) (n : nat) :
  Z.of_nat (length (all_seqs alphabet n)) = Z.of_nat (length alphabet) ^ Z.of_nat n.
Proof.
  induction n as [|n IH].
  - reflexivity.
  - rewrite Nat2Z.inj_succ, Z.pow_succ_r by lia. rewrite <- IH.
    apply length_flat_map_cons.
Qed.

Lemma length_all_draws : Z.of_nat (length all_draws) = 2704 ^ 1000.
Proof.
  unfold all_draws. rewrite length_all_seqs.
  f_equal.
Qed.

(** C8 (the claim as stated fails). The 1000 swaps of shuffleCards are not
    a uniform shuffle: the probability of an ordering is a number of draw
    sequences over 2704^1000, and no such fraction equals 1/52!, because 47
    divides 52! and does not divide 2704^1000.  Already the identity
    ordering cannot have probability 1/52!. *)
Lemma shuffleCards_not_uniform : ¬ shuffle_uniform.
Proof.
  intros H. specialize (H cardIds (reflexivity _)).
  rewrite length_all_draws in H.
  set (w := ways cardIds) in H. clearbody w.
  assert (Hf : factorialZ 52 = (factorialZ 52 / 47) * 47) by (vm_compute; reflexivity).
  rewrite Hf, Z.mul_assoc in H.
  apply (f_equal (fun x => x mod 47)) in H.
  rewrite Z.mod_mul in H by lia.
  vm_compute in H. discriminate H.
Qed.

(** ** Turn order *)

Lemma at_index_Some {A} (a : list A) (i : Z) :
  0 ≤ i < Z.of_nat (length a) → ∃ x, at_index a i = Some x.
Proof.
  intros [H0 H1]. unfold at_index.
  destruct (Z.ltb_spec i 0) as [?|_]; [lia|].
  apply lookup_lt_is_Some_2. lia.
Qed.

Lemma eligible_at_dec h seats i : {eligible_at h seats i} + {¬ eligible_at h seats i}.
Proof.
  unfold eligible_at. destruct (at_index seats i) as [r|] eqn:E.
  - destruct (eligible h r) eqn:Er.
    + left. eauto.
    + right. intros (r' & Hr' & He). congruence.
  - right. intros (r' & Hr' & _). discriminate.
Qed.

(** The first index from 1 at which a decidable property holds. *)
Lemma first_hit (P : nat → Prop) (Pdec : ∀ k, {P k} + {¬ P k}) (k0 : nat) :
  (1 ≤ k0)%nat → P k0 →
  ∃ k, (1 ≤ k ≤ k0)%nat ∧ P k ∧ ∀ j, (1 ≤ j < k)%nat → ¬ P j.
Proof.
  intros H1 HP.
  assert (Hgen : ∀ m, (∀ j, (1 ≤ j < m)%nat → ¬ P j) ∨
                      ∃ k, (1 ≤ k < m)%nat ∧ P k ∧ ∀ j, (1 ≤ j < k)%nat → ¬ P j).
  { induction m as [|m IHm].
    - left. intros j Hj. lia.
    - destruct IHm as [Hnone | (k & Hk & HPk & Hmin)].
      + destruct (decide (1 ≤ m)%nat) as [Hm|Hm].
        * destruct (Pdec m) as [Hp|Hp].
          -- right. exists m. repeat split; [lia..|exact Hp|exact Hnone].
          -- left. intros j Hj. destruct (decide (j = m)) as [->|]; [exact Hp|].
             apply Hnone. lia.
        * left. intros j Hj. lia.
      + right. exists k. repeat split; [lia..|exact HPk|exact Hmin]. }
  destruct (Hgen k0) as [Hnone | (k & Hk & HPk & Hmin)].
  - exists k0. repeat split; [lia..|exact HP|exact Hnone].
  - exists k. repeat split; [lia..|exact HPk|exact Hmin].
Qed.

Section TurnLoop.
Variables (h : Store) (n : Z) (seats : list ref) (d : Z).
Hypothesis Hn : 0 < n.
Hypothesis Hd : 0 ≤ d.
Hypothesis Hlen : Z.of_nat (length seats) = n.

(** The loop stops at the first eligible seat on its walk. *)
Lemma turn_loop_first (k : nat) :
  ∀ (fuel : nat) (s : Z),
    (1 ≤ k)%nat → (k ≤ fuel)%nat → 0 ≤ s →
    eligible_at h seats ((s + Z.of_nat k * d) mod n) →
    (∀ j, (1 ≤ j < k)%nat → ¬ eligible_at h seats ((s + Z.of_nat j * d) mod n)) →
    turn_loop fuel h n seats d s = Ok ((s + Z.of_nat k * d) mod n).
Proof.
  induction k as [|k IH]; intros fuel s Hk Hfuel Hs Hel Hmin; [lia|].
  destruct fuel as [|fuel]; [lia|].
  cbn [turn_loop].
  rewrite Z.rem_mod_nonneg by lia.
  assert (Hrange : 0 ≤ (s + d) mod n < n) by (apply Z.mod_pos_bound; lia).
  destruct (at_index_Some seats ((s + d) mod n)) as [r Hr]; [lia|].
  rewrite Hr.
  destruct (decide (k = 0%nat)) as [->|Hk0].
  - replace (s + Z.of_nat 1 * d) with (s + d) in * by lia.
    destruct Hel as (r' & Hr' & He). rewrite Hr in Hr'. inversion Hr'; subst r'.
    unfold eligible in He. destruct (playerStatus (h r)); [|reflexivity].
    rewrite He. reflexivity.
  - assert (Hne : ¬ eligible_at h seats ((s + d) mod n)).
    { specialize (Hmin 1%nat). replace (s + Z.of_nat 1 * d) with (s + d) in Hmin by lia.
      apply Hmin. lia. }
    assert (Hstep : ∀ j : nat,
               ((s + d) mod n + Z.of_nat j * d) mod n = (s + Z.of_nat (S j) * d) mod n).
    { intros j. rewrite Zplus_mod_idemp_l. f_equal. lia. }
    destruct (playerStatus (h r)) as [ps|] eqn:Eps.
    + destruct (can_act ps) eqn:Eca.
      * exfalso. apply Hne. exists r. split; [exact Hr|].
        unfold eligible. rewrite Eps. exact Eca.
      * rewrite (IH fuel ((s + d) mod n)); try lia.
        -- rewrite Hstep. reflexivity.
        -- rewrite Hstep. exact Hel.
        -- intros j Hj. rewrite Hstep. apply Hmin. lia.
    + exfalso. apply Hne. exists r. split; [exact Hr|].
      unfold eligible. rewrite Eps. reflexivity.
Qed.

(** With an eligible seat [k0] steps away, the loop returns the first
    eligible seat of the walk. *)
Lemma turn_loop_stops (s : Z) (k0 : nat) :
  0 ≤ s → (1 ≤ k0 ≤ Z.abs_nat n)%nat →
  eligible_at h seats ((s + Z.of_nat k0 * d) mod n) →
  ∃ k : nat,
    (1 ≤ k ≤ k0)%nat
    ∧ turn_loop (Z.abs_nat n) h n seats d s = Ok ((s + Z.of_nat k * d) mod n)
    ∧ eligible_at h seats ((s + Z.of_nat k * d) mod n)
    ∧ ∀ j, (1 ≤ j < k)%nat → ¬ eligible_at h seats ((s + Z.of_nat j * d) mod n).
Proof.
  intros Hs Hk0 Hel.
  destruct (first_hit (fun k => eligible_at h seats ((s + Z.of_nat k * d) mod n))
              (fun k => eligible_at_dec h seats _) k0) as (k & Hk & HPk & Hmin);
    [lia|exact Hel|].
  exists k. repeat split; try lia; try assumption.
  apply turn_loop_first; try assumption; lia.
Qed.
End TurnLoop.

(** The seats at which a turn can stop. *)
Definition eligible_seats (h : Store) (seats : list ref) : list ref :=
  filter (fun r => eligible h r = true) seats.

Lemma eligible_seat_exists (h : Store) (seats : list ref) :
  (1 ≤ length (eligible_seats h seats))%nat →
  ∃ e, 0 ≤ e < Z.of_nat (length seats) ∧ eligible_at h seats e.
Proof.
  unfold eligible_seats. intros Hlen.
  destruct (filter (fun r => eligible h r = true) seats) as [|r rest] eqn:E;
    [simpl in Hlen; lia|].
  assert (Hin : r ∈ filter (fun r => eligible h r = true) seats)
    by (rewrite E; left).
  apply list_elem_of_filter in Hin as [Hel Hin].
  apply list_elem_of_lookup in Hin as [i Hi].
  exists (Z.of_nat i). split.
  - apply lookup_lt_Some in Hi. lia.
  - exists r. split; [|exact Hel].
    unfold at_index. destruct (Z.ltb_spec (Z.of_nat i) 0); [lia|].
    rewrite Nat2Z.id. exact Hi.
Qed.

Section TurnValidity.
Variables (h : Store) (room : Room ref) (gs : GameStatus) (seats : list ref)
          (turn : option Z).
Hypothesis Hgs : gameStatus room = Some gs.
Hypothesis Hseats : players room = Some seats.
Hypothesis Hcount : numberOfPlayers room = Z.of_nat (length seats).
Hypothesis Hstart : 0 ≤ turn_or_playTurn gs turn.
Hypothesis Helig : (1 ≤ length (eligible_seats h seats))%nat.

Let n := numberOfPlayers room.
Let start := turn_or_playTurn gs turn.

Lemma seats_nonempty : 0 < n.
Proof.
  destruct (eligible_seat_exists h seats Helig) as (e & He & _).
  subst n. lia.
Qed.

Lemma nextTurn_first_eligible :
  ∃ t k, nextTurn h room turn = Ok t
         ∧ eligible_at h seats t
         ∧ 1 ≤ k ≤ n ∧ t = (start + k) mod n
         ∧ ∀ j, 1 ≤ j < k → ¬ eligible_at h seats ((start + j) mod n).
Proof.
  pose proof seats_nonempty as Hn.
  destruct (eligible_seat_exists h seats Helig) as (e & He & Hel).
  set (k0 := Z.to_nat ((e - start - 1) mod n + 1)).
  assert (Hb : 0 ≤ (e - start - 1) mod n < n) by (apply Z.mod_pos_bound; lia).
  assert (Hk0 : (start + Z.of_nat k0 * 1) mod n = e).
  { unfold k0. rewrite Z2Nat.id by lia.
    replace (start + ((e - start - 1) mod n + 1) * 1)
      with ((start + 1) + (e - start - 1) mod n) by lia.
    rewrite Zplus_mod_idemp_r.
    replace (start + 1 + (e - start - 1)) with e by lia.
    apply Z.mod_small. subst n. lia. }
  destruct (turn_loop_stops h n seats 1 Hn ltac:(lia) (eq_sym Hcount) start k0)
    as (k & Hk & Hrun & Helk & Hmin).
  - exact Hstart.
  - unfold k0. lia.
  - rewrite Hk0. exact Hel.
  - exists ((start + Z.of_nat k * 1) mod n), (Z.of_nat k).
    split; [|split; [exact Helk|split; [unfold k0 in Hk; lia|split]]].
    + unfold nextTurn, turn_walk. rewrite Hgs, Hseats.
      fold n. destruct (Z.eqb_spec n 0); [lia|]. exact Hrun.
    + f_equal. lia.
    + intros j Hj. specialize (Hmin (Z.to_nat j)).
      rewrite Z2Nat.id in Hmin by lia.
      replace (start + j * 1) with (start + j) in Hmin by lia.
      apply Hmin. lia.
Qed.

Lemma prevTurn_first_eligible :
  ∃ t k, prevTurn h room turn = Ok t
         ∧ eligible_at h seats t
         ∧ 1 ≤ k ≤ n ∧ t = (start - k) mod n
         ∧ ∀ j, 1 ≤ j < k → ¬ eligible_at h seats ((start - j) mod n).
Proof.
  pose proof seats_nonempty as Hn.
  destruct (eligible_seat_exists h seats Helig) as (e & He & Hel).
  set (k0 := Z.to_nat ((start - e - 1) mod n + 1)).
  assert (Hb : 0 ≤ (start - e - 1) mod n < n) by (apply Z.mod_pos_bound; lia).
  assert (Hback : ∀ j, (start + j * (-1 + n)) mod n = (start - j) mod n).
  { intros j. replace (start + j * (-1 + n)) with (start - j + j * n) by lia.
    apply Z_mod_plus_full. }
  assert (Hk0 : (start + Z.of_nat k0 * (-1 + n)) mod n = e).
  { rewrite Hback. unfold k0. rewrite Z2Nat.id by lia.
    replace (start - ((start - e - 1) mod n + 1))
      with ((start - 1) - (start - e - 1) mod n) by lia.
    rewrite Zminus_mod_idemp_r.
    replace (start - 1 - (start - e - 1)) with e by lia.
    apply Z.mod_small. subst n. lia. }
  destruct (turn_loop_stops h n seats (-1 + n) Hn ltac:(lia) (eq_sym Hcount) start k0)
    as (k & Hk & Hrun & Helk & Hmin).
  - exact Hstart.
  - unfold k0. lia.
  - rewrite Hk0. exact Hel.
  - exists ((start + Z.of_nat k * (-1 + n)) mod n), (Z.of_nat k).
    split; [|split; [exact Helk|split; [unfold k0 in Hk; lia|split]]].
    + unfold prevTurn, turn_walk. rewrite Hgs, Hseats.
      fold n. destruct (Z.eqb_spec n 0); [lia|]. exact Hrun.
    + apply Hback.
    + intros j Hj. specialize (Hmin (Z.to_nat j)).
      rewrite Z2Nat.id, Hback in Hmin by lia.
      apply Hmin. lia.
Qed.
End TurnValidity.

Lemma can_act_spelled (ps : PlayerStatus) :
  can_act ps = true ↔ (status ps ∉ [FOLD; BUST; ALLIN]).
Proof.
  unfold can_act. destruct (status ps); cbn; split; intros H;
    first [ reflexivity
          | discriminate
          | (exfalso; apply H;
             repeat first [apply list_elem_of_here | apply list_elem_of_further])
          | (intros Hin;
             repeat (apply elem_of_cons in Hin as [Hin|Hin]; [discriminate|]);
             inversion Hin) ].
Qed.

Lemma eligible_spelled (h : Store) (r : ref) :
  eligible h r = true
  ↔ ∀ ps, playerStatus (h r) = Some ps → (status ps ∉ [FOLD; BUST; ALLIN]).
Proof.
  unfold eligible. destruct (playerStatus (h r)) as [ps|]; split.
  - intros H ps' [= <-]. apply can_act_spelled. exact H.
  - intros H. apply can_act_spelled. apply H. reflexivity.
  - intros _ ps' Hps. discriminate.
  - reflexivity.
Qed.

Lemma not_eligible_spelled (h : Store) (r : ref) :
  eligible h r = false
  ↔ ∃ ps, playerStatus (h r) = Some ps ∧ status ps ∈ [FOLD; BUST; ALLIN].
Proof.
  unfold eligible. destruct (playerStatus (h r)) as [ps|]; split.
  - intros H. exists ps. split; [reflexivity|].
    destruct (decide (status ps ∈ [FOLD; BUST; ALLIN])) as [Hin|Hout]; [exact Hin|].
    apply can_act_spelled in Hout. congruence.
  - intros (ps' & [= <-] & Hin).
    destruct (can_act ps) eqn:E; [|reflexivity].
    apply can_act_spelled in E. contradiction.
  - discriminate.
  - intros (ps' & Hps & _). discriminate.
Qed.

(** The seat list has a seat the turn can stop at as soon as one seat has a
    status outside FOLD, BUST and ALLIN. *)
Lemma eligible_seats_spelled (h : Store) (seats : list ref) (i : nat) (r : ref)
    (ps : PlayerStatus) :
  seats !! i = Some r → playerStatus (h r) = Some ps →
  (status ps ∉ [FOLD; BUST; ALLIN]) →
  (1 ≤ length (eligible_seats h seats))%nat.
Proof.
  intros Hi Hps Hst.
  assert (Hin : r ∈ eligible_seats h seats).
  { unfold eligible_seats. apply list_elem_of_filter. split.
    - apply eligible_spelled. intros ps' Hps'. congruence.
    - eapply list_elem_of_lookup_2. exact Hi. }
  destruct (eligible_seats h seats); [inversion Hin|cbn; lia].
Qed.

Lemma eligible_at_spelled (h : Store) (seats : list ref) (i : Z) :
  eligible_at h seats i
  ↔ ∃ r, at_index seats i = Some r
         ∧ ∀ ps, playerStatus (h r) = Some ps → (status ps ∉ [FOLD; BUST; ALLIN]).
Proof.
  unfold eligible_at. split; intros (r & Hr & He); exists r; (split; [exact Hr|]);
    apply eligible_spelled; exact He.
Qed.

Lemma not_eligible_at_spelled (h : Store) (seats : list ref) (i : Z) :
  0 ≤ i < Z.of_nat (length seats) →
  ¬ eligible_at h seats i →
  ∃ r ps, at_index seats i = Some r ∧ playerStatus (h r) = Some ps
          ∧ status ps ∈ [FOLD; BUST; ALLIN].
Proof.
  intros Hi Hne. destruct (at_index_Some seats i Hi) as [r Hr].
  destruct (eligible h r) eqn:He.
  - exfalso. apply Hne. exists r. auto.
  - apply not_eligible_spelled in He as (ps & Hps & Hin). exists r, ps. auto.
Qed.

Lemma turn_given (gs : GameStatus) (turn : option Z) :
  turn ≠ Some 0 → turn_or_playTurn gs turn = default (playTurn gs) turn.
Proof.
  intros H. destruct turn as [t|]; [|reflexivity]. cbn.
  destruct (Z.eqb_spec t 0) as [->|_]; [contradiction|reflexivity].
Qed.



(** ** Relations kept by every call

    [preserves R m]: whatever the outcome of the call [m] (it returns,
    throws or hangs), the table it leaves is related to the one it found. *)

Definition preserves {A} (R : Table → Table → Prop) (m : M A) : Prop :=
  ∀ t res t', m t = (res, t') → R t t'.

Section Preserves.
Variable R : Table → Table → Prop.
Hypothesis R_refl : ∀ t, R t t.
Hypothesis R_trans : ∀ t1 t2 t3, R t1 t2 → R t2 t3 → R t1 t3.

Lemma preserves_ret {A} (a : A) : preserves R (ret a).
Proof. intros t res t' H. inversion H; subst. apply R_refl. Qed.

Lemma preserves_lift {A} (r : res A) : preserves R (lift r).
Proof. intros t res t' H. inversion H; subst. apply R_refl. Qed.

Lemma preserves_defined {A} (o : option A) : preserves R (defined o).
Proof. destruct o; [apply preserves_ret | apply preserves_lift]. Qed.

Lemma preserves_get_room : preserves R get_room.
Proof. intros t res t' H. inversion H; subst. apply R_refl. Qed.

Lemma preserves_get_store : preserves R get_store.
Proof. intros t res t' H. inversion H; subst. apply R_refl. Qed.

Lemma preserves_bind {A B} (m : M A) (k : A → M B) :
  preserves R m → (∀ a, preserves R (k a)) → preserves R (bind m k).
Proof.
  intros Hm Hk t res t' H. unfold bind in H.
  destruct (m t) as [[a| |] t1] eqn:Em.
  - eapply R_trans; [eapply Hm; eauto | eapply Hk; eauto].
  - inversion H; subst. eapply Hm; eauto.
  - inversion H; subst. eapply Hm; eauto.
Qed.

Lemma preserves_get_seats : preserves R get_seats.
Proof.
  apply preserves_bind; [apply preserves_get_room|].
  intros a. apply preserves_defined.
Qed.

Lemma preserves_forEach_from {A} (f : A → Z → M unit) (a : list A) :
  (∀ x i, x ∈ a → preserves R (f x i)) → ∀ i, preserves R (forEach_from f a i).
Proof.
  induction a as [|x a IH]; intros Hf i; simpl.
  - apply preserves_ret.
  - apply preserves_bind.
    + apply Hf. left.
    + intros _. apply IH. intros y j Hy. apply Hf. right. exact Hy.
Qed.

Lemma preserves_forEach {A} (f : A → Z → M unit) (a : list A) :
  (∀ x i, x ∈ a → preserves R (f x i)) → preserves R (forEach f a).
Proof. intros Hf. apply preserves_forEach_from. exact Hf. Qed.

Lemma preserves_if {A} (b : bool) (m1 m2 : M A) :
  preserves R m1 → preserves R m2 → preserves R (if b then m1 else m2).
Proof. destruct b; auto. Qed.

(** A call whose precondition is read off the table it starts on. *)
Lemma preserves_with_table {A} (m : M A) :
  (∀ t, ∀ res t', m t = (res, t') → R t t') → preserves R m.
Proof. intros H. exact H. Qed.
End Preserves.

(** Calls are taken apart along their binds; branches are split. *)
Ltac preserves_split R R_refl R_trans leaf :=
  repeat first
    [ progress intros
    | leaf
    | apply (preserves_ret R R_refl)
    | apply (preserves_lift R R_refl)
    | apply (preserves_defined R R_refl)
    | apply (preserves_get_room R R_refl)
    | apply (preserves_get_store R R_refl)
    | apply (preserves_get_seats R R_refl R_trans)
    | apply (preserves_bind R R_trans)
    | apply (preserves_forEach R R_refl R_trans)
    | match goal with
      | |- preserves _ (if ?b then _ else _) => destruct b
      | |- preserves _ (match ?x with _ => _ end) => destruct x
      | |- preserves _ (let (_, _) := ?x in _) => destruct x
      end ].

(** ** Chip conservation *)

Lemma total_of_ext (f : Player → Z) (h h' : Store) (seats : list ref) :
  (∀ r, r ∈ seats → f (h' r) = f (h r)) → total_of f h' seats = total_of f h seats.
Proof.
  induction seats as [|x seats IH]; intros Hext; simpl.
  - reflexivity.
  - rewrite Hext by left. rewrite IH; [reflexivity|].
    intros r Hr. apply Hext. right. exact Hr.
Qed.

Lemma total_of_update (f : Player → Z) (h h' : Store) (seats : list ref) (r : ref) :
  NoDup seats → r ∈ seats →
  (∀ r', r' ≠ r → h' r' = h r') →
  total_of f h' seats = total_of f h seats + f (h' r) - f (h r).
Proof.
  intros Hnd Hin Hother.
  induction seats as [|x seats IH]; [inversion Hin|].
  apply list.NoDup_cons in Hnd as [Hx Hnd]. simpl.
  destruct (decide (x = r)) as [->|Hne].
  - rewrite (total_of_ext f h h' seats); [lia|].
    intros r' Hr'. rewrite Hother; [reflexivity|].
    intros ->. contradiction.
  - rewrite Hother by exact Hne.
    rewrite IH; [lia|exact Hnd|].
    apply elem_of_cons in Hin as [->|Hin]; [contradiction|exact Hin].
Qed.

(** The relation of chip conservation: the seat list is the same, and when
    the seats are distinct Player objects, so are the chips and the books. *)
Definition conserved (t t' : Table) : Prop :=
  players (room t') = players (room t)
  ∧ (NoDup (seats_of (room t)) →
     chips (store t') (room t') = chips (store t) (room t)
     ∧ books (store t') (room t') = books (store t) (room t)).

Lemma conserved_refl t : conserved t t.
Proof. split; [reflexivity|]. intros _. split; reflexivity. Qed.

Lemma conserved_trans t1 t2 t3 : conserved t1 t2 → conserved t2 t3 → conserved t1 t3.
Proof.
  intros [Hp1 H1] [Hp2 H2]. split; [congruence|].
  intros Hnd. destruct (H1 Hnd) as [Hc1 Hb1].
  assert (Hnd2 : NoDup (seats_of (room t2))) by (unfold seats_of; rewrite Hp1; exact Hnd).
  destruct (H2 Hnd2) as [Hc2 Hb2]. split; congruence.
Qed.

(** A table that differs in the log, in fields of gameStatus other than the
    pot, and in fields of the seats other than the counted ones. *)
Lemma conserved_same (t t' : Table) :
  players (room t') = players (room t) →
  pot_of (room t') = pot_of (room t) →
  (∀ r, balance (store t' r) = balance (store t r)
        ∧ staked (store t' r) = staked (store t r)
        ∧ won (store t' r) = won (store t r)) →
  conserved t t'.
Proof.
  intros Hp Hpot Hst. split; [exact Hp|]. intros _.
  unfold chips, books, balances, seats_of. rewrite Hp, Hpot. split.
  - f_equal. apply total_of_ext. intros r _. apply Hst.
  - apply total_of_ext. intros r _. destruct (Hst r) as (-> & -> & ->). reflexivity.
Qed.

Lemma conserves_push_event e : preserves conserved (push_event e).
Proof.
  intros t res t' H. inversion H; subst.
  apply conserved_same; simpl; auto.
Qed.

Lemma conserves_write_game (f : GameStatus → GameStatus) :
  (∀ gs, pot (f gs) = pot gs) → preserves conserved (write_game f).
Proof.
  intros Hf t res t' H. unfold write_game in H.
  destruct (gameStatus (room t)) as [gs|] eqn:E; inversion H; subst.
  - apply conserved_same; simpl; auto.
    unfold pot_of. simpl. rewrite E. apply Hf.
  - apply conserved_refl.
Qed.

Lemma conserves_write_status (r : ref) (f : PlayerStatus → PlayerStatus) :
  (∀ ps, totalBetAmout (f ps) + subTotalBetAmount (f ps)
         = totalBetAmout ps + subTotalBetAmount ps
         ∧ winAmount (f ps) = winAmount ps) →
  preserves conserved (write_status r f).
Proof.
  intros Hf t res t' H. inversion H; subst. clear H.
  apply conserved_same; cbn [store room log]; auto.
  intros r'. destruct (decide (r = r')) as [->|Hne].
  - rewrite fn_lookup_insert. unfold staked, won.
    destruct (playerStatus (store t r')) as [ps|] eqn:E; cbn.
    + destruct (Hf ps) as [H1 H2]. auto.
    + rewrite E. auto.
  - rewrite fn_lookup_insert_ne by exact Hne. auto.
Qed.

Lemma conserves_emit_to c r ev payload player :
  preserves conserved (emit_to c r ev payload player).
Proof.
  unfold emit_to.
  preserves_split conserved conserved_refl conserved_trans
    ltac:(apply conserves_push_event).
Qed.

Ltac conserves :=
  preserves_split conserved conserved_refl conserved_trans
    ltac:(first [ apply conserves_push_event
                | apply conserves_emit_to
                | apply conserves_write_game; intros; reflexivity
                | apply conserves_write_status; intros; split; simpl; lia ]).

Lemma conserves_advance_turn turn : preserves conserved (advance_turn turn).
Proof. unfold advance_turn. conserves. Qed.

Lemma conserves_close_street r i : preserves conserved (close_street r i).
Proof. unfold close_street. conserves. Qed.

Lemma conserves_next_has_matched : preserves conserved next_has_matched.
Proof. unfold next_has_matched. conserves. Qed.

(** *** Stepping through a call on a given table *)

Lemma bind_assoc {A B C} (m : M A) (k1 : A → M B) (k2 : B → M C) (t : Table) :
  bind (bind m k1) k2 t = bind m (fun a => bind (k1 a) k2) t.
Proof. unfold bind. destruct (m t) as [[a| |] t1]; reflexivity. Qed.

Lemma bind_ret {A B} (a : A) (k : A → M B) (t : Table) : bind (ret a) k t = k a t.
Proof. reflexivity. Qed.

Lemma bind_get_store {B} (k : Store → M B) (t : Table) :
  bind get_store k t = k (store t) t.
Proof. reflexivity. Qed.

Lemma bind_get_room {B} (k : Room ref → M B) (t : Table) :
  bind get_room k t = k (room t) t.
Proof. reflexivity. Qed.

Lemma bind_defined_Some {A B} (o : option A) (a : A) (k : A → M B) (t : Table) :
  o = Some a → bind (defined o) k t = k a t.
Proof. intros ->. reflexivity. Qed.

Lemma bind_defined_None {A B} (o : option A) (k : A → M B) (t : Table) :
  o = None → bind (defined o) k t = (Throw, t).
Proof. intros ->. reflexivity. Qed.

Lemma bind_get_seats {B} (k : list ref → M B) (t : Table) (seats : list ref) :
  players (room t) = Some seats → bind get_seats k t = k seats t.
Proof. intros H. unfold get_seats. rewrite bind_assoc, bind_get_room, H. reflexivity. Qed.

Lemma bind_write_player {B} (r : ref) (f : Player → Player) (k : unit → M B) (t : Table) :
  bind (write_player r f) k t
  = k tt (mkTable (<[r := f (store t r)]> (store t)) (room t) (log t)).
Proof. reflexivity. Qed.

Lemma bind_write_status {B} (r : ref) (f : PlayerStatus → PlayerStatus) (ps : PlayerStatus)
    (k : unit → M B) (t : Table) :
  playerStatus (store t r) = Some ps →
  bind (write_status r f) k t
  = k tt (mkTable (<[r := set_playerStatus (f ps) (store t r)]> (store t)) (room t) (log t)).
Proof. intros H. unfold write_status. rewrite bind_write_player, H. reflexivity. Qed.

Lemma bind_write_game {B} (f : GameStatus → GameStatus) (gs : GameStatus)
    (k : unit → M B) (t : Table) :
  gameStatus (room t) = Some gs →
  bind (write_game f) k t
  = k tt (mkTable (store t) (set_gameStatus (f gs) (room t)) (log t)).
Proof. intros H. unfold bind, write_game. rewrite H. reflexivity. Qed.

Lemma at_index_elem_of {A} (a : list A) (i : Z) (x : A) : at_index a i = Some x → x ∈ a.
Proof.
  unfold at_index. destruct (i <? 0); [discriminate|].
  intros H. eapply list_elem_of_lookup_2. exact H.
Qed.

(** The table after writes to the one seat [r] and to gameStatus. *)
Lemma conserved_transfer (t : Table) (h' : Store) (g g' : GameStatus) (l' : list Event)
    (r : ref) :
  r ∈ seats_of (room t) →
  gameStatus (room t) = Some g →
  (∀ r', r' ≠ r → h' r' = store t r') →
  balance (h' r) + pot g' = balance (store t r) + pot g →
  balance (h' r) + staked (h' r) - won (h' r)
  = balance (store t r) + staked (store t r) - won (store t r) →
  conserved t (mkTable h' (set_gameStatus g' (room t)) l').
Proof.
  intros Hin Hg Hother Hchips Hbooks. split; [reflexivity|].
  intros Hnd. cbn [store room].
  unfold chips, books, balances, pot_of, seats_of in *. cbn [players gameStatus set_gameStatus].
  rewrite Hg.
  rewrite (total_of_update balance (store t) h' _ r Hnd Hin Hother).
  rewrite (total_of_update (fun p => balance p + staked p - won p) (store t) h' _ r Hnd Hin Hother).
  split; lia.
Qed.
(** When a step of the call threw or hung, the table is the one it had. *)
Ltac stopped H :=
  inversion H; subst; first [ apply conserved_refl | assumption ].

Lemma conserves_pay_winner {PS : PokerSolver} hands subHands nwinners winner index :
  preserves conserved (pay_winner hands subHands nwinners winner index).
Proof.
  intros t res t' H0. unfold pay_winner in H0.
  destruct (players (room t)) as [seats|] eqn:Hs.
  2:{ unfold get_seats in H0. rewrite bind_assoc, bind_get_room, Hs in H0. stopped H0. }
  rewrite (bind_get_seats _ _ seats Hs) in H0.
  destruct (at_index seats (hand_index hands winner)) as [r|] eqn:Hr.
  2:{ stopped H0. }
  rewrite (bind_defined_Some _ r) in H0 by reflexivity.
  rewrite bind_get_store in H0.
  destruct (playerStatus (store t r)) as [ps|] eqn:Hps.
  2:{ stopped H0. }
  rewrite bind_get_room in H0.
  destruct (gameStatus (room t)) as [gs|] eqn:Hg.
  2:{ stopped H0. }
  rewrite (bind_defined_Some _ gs) in H0 by reflexivity.
  cbv zeta in H0.
  rewrite (bind_write_status _ _ ps _ _ Hps) in H0.
  rewrite (bind_write_game _ gs) in H0 by exact Hg.
  inversion H0; subst; clear H0.
  cbn [store room log].
  eapply conserved_transfer with (g := gs) (r := r).
  - unfold seats_of. rewrite Hs. eapply at_index_elem_of; eauto.
  - exact Hg.
  - intros r' Hne. rewrite !fn_lookup_insert_ne by congruence. reflexivity.
  - rewrite !fn_lookup_insert. cbn. lia.
  - rewrite !fn_lookup_insert. unfold staked, won. cbn. rewrite Hps. lia.
Qed.

Ltac conserves_with leaf :=
  preserves_split conserved conserved_refl conserved_trans
    ltac:(first [ apply conserves_push_event
                | apply conserves_emit_to
                | apply conserves_advance_turn
                | apply conserves_close_street
                | apply conserves_next_has_matched
                | apply conserves_pay_winner
                | apply conserves_write_game; intros; reflexivity
                | apply conserves_write_status; intros; split; simpl; lia
                | leaf ]).

Lemma conserves_settle_loop {PS : PokerSolver} (fuel : nat) :
  ∀ hands subHands, preserves conserved (settle_loop fuel hands subHands).
Proof.
  induction fuel as [|fuel IH]; intros hands subHands; cbn [settle_loop].
  - apply preserves_lift, conserved_refl.
  - conserves_with ltac:(apply IH).
Qed.

Lemma conserves_checkWinning {PS : PokerSolver} {CF : Config} c : preserves conserved (checkWinning c).
Proof. unfold checkWinning. conserves_with ltac:(apply conserves_settle_loop). Qed.

Lemma conserves_dealCards {PS : PokerSolver} {CF : Config} c : preserves conserved (dealCards c).
Proof. unfold dealCards. conserves_with ltac:(apply conserves_checkWinning). Qed.

Lemma conserves_deal_until_showdown {PS : PokerSolver} {CF : Config} c fuel :
  preserves conserved (deal_until_showdown c fuel).
Proof.
  induction fuel as [|fuel IH]; cbn [deal_until_showdown].
  - apply preserves_lift, conserved_refl.
  - conserves_with ltac:(first [apply conserves_dealCards | apply IH]).
Qed.

Lemma preserves_bind_at {A B} (R : Table → Table → Prop)
    (R_trans : ∀ t1 t2 t3, R t1 t2 → R t2 t3 → R t1 t3)
    (m : M A) (k : A → M B) (t : Table) (res : res B) (t' : Table) :
  preserves R m →
  (∀ a t1, m t = (Ok a, t1) → k a t1 = (res, t') → R t1 t') →
  bind m k t = (res, t') → R t t'.
Proof.
  intros Hm Hk H. unfold bind in H.
  destruct (m t) as [[a| |] t1] eqn:Em.
  - eapply R_trans; [eapply Hm; eauto | eapply Hk; eauto].
  - inversion H; subst. eapply Hm; eauto.
  - inversion H; subst. eapply Hm; eauto.
Qed.

Ltac conserves_engine :=
  conserves_with ltac:(first [ apply conserves_dealCards
                             | apply conserves_deal_until_showdown
                             | apply conserves_checkWinning ]).

(** The rest of the call is a call that conserves. *)
Ltac conserves_rest H :=
  match type of H with
  | ?K ?t1 = _ =>
      let HK := fresh "HK" in
      assert (HK : preserves conserved K) by conserves_engine;
      eapply conserved_trans; [| exact (HK _ _ _ H)]
  end.

(** Writes through [write_status] land when the seat has a playerStatus. *)
Ltac step_writes H :=
  repeat (first
    [ rewrite bind_write_player in H
    | erewrite bind_write_status in H
        by (cbn [store]; rewrite ?fn_lookup_insert; first [eassumption | reflexivity])
    | erewrite bind_write_game in H
        by (cbn [room gameStatus set_gameStatus]; first [eassumption | reflexivity])
    | rewrite bind_ret in H ];
    cbn [store room log] in H; rewrite ?fn_lookup_insert in H).

Ltac last_write H :=
  first
    [ rewrite <- (bind_ret tt (fun _ => write_player _ _)) in H
    | idtac ].

Lemma set_gameStatus_twice {P} (a b : GameStatus) (rm : Room P) :
  set_gameStatus a (set_gameStatus b rm) = set_gameStatus a rm.
Proof. reflexivity. Qed.

Ltac transfer_done r gs :=
  cbn [store room log]; rewrite ?set_gameStatus_twice;
  eapply conserved_transfer with (g := gs) (r := r);
  [ assumption
  | eassumption
  | intros ? ?; rewrite !fn_lookup_insert_ne by congruence; reflexivity
  | rewrite !fn_lookup_insert; cbn; try lia
  | rewrite !fn_lookup_insert; unfold staked, won; cbn;
    repeat match goal with Hp : playerStatus _ = Some _ |- _ => rewrite Hp end;
    cbn; try lia ].

Lemma conserves_apply_action {PS : PokerSolver} {CF : Config} c r st amount
    (t0 : Table) res t' :
  r ∈ seats_of (room t0) →
  apply_action c r st amount t0 = (res, t') → conserved t0 t'.
Proof.
  intros Hin0 H0. unfold apply_action in H0.
  eapply (preserves_bind_at conserved conserved_trans); [| |exact H0].
  { apply conserves_write_status. intros; split; simpl; lia. }
  intros [] t Hw H1. clear H0.
  assert (Hin : r ∈ seats_of (room t)) by (inversion Hw; subst; exact Hin0).
  clear Hw Hin0 t0.
  rewrite bind_get_store, bind_get_room in H1.
  destruct (gameStatus (room t)) as [gs|] eqn:Hg; [|stopped H1].
  rewrite (bind_defined_Some _ gs) in H1 by reflexivity.
  destruct (playerStatus (store t r)) as [ps|] eqn:Hps; [|stopped H1].
  rewrite (bind_defined_Some _ ps) in H1 by reflexivity.
  cbv zeta in H1.
  destruct (bool_decide (st = CALL)).
  { destruct (balance (store t r) <? currentBetAmount gs - subTotalBetAmount ps) eqn:Hshort;
      step_writes H1; conserves_rest H1; transfer_done r gs. }
  destruct (bool_decide (st = RAISE) && _).
  { destruct (balance (store t r) <? _); [stopped H1|].
    step_writes H1. conserves_rest H1. transfer_done r gs. }
  destruct (bool_decide (st = CHECK)).
  { conserves_rest H1. apply conserved_refl. }
  destruct (bool_decide (st = FOLD)).
  { conserves_rest H1. apply conserved_refl. }
  destruct (bool_decide (st = ALLIN)); [|stopped H1].
  destruct (currentBetAmount gs <? subTotalBetAmount ps + balance (store t r));
    step_writes H1; conserves_rest H1; transfer_done r gs.
Qed.

Lemma bind_at {A B} (R : Table → Table → Prop)
    (R_trans : ∀ t1 t2 t3, R t1 t2 → R t2 t3 → R t1 t3)
    (m : M A) (k : A → M B) (t : Table) (res : res B) (t' : Table) :
  (∀ r1 t1, m t = (r1, t1) → R t t1) →
  (∀ a, preserves R (k a)) →
  bind m k t = (res, t') → R t t'.
Proof.
  intros Hm Hk H. unfold bind in H.
  destruct (m t) as [[a| |] t1] eqn:Em.
  - eapply R_trans; [eapply Hm; eauto | eapply Hk; eauto].
  - inversion H; subst. eapply Hm; eauto.
  - inversion H; subst. eapply Hm; eauto.
Qed.

Lemma conserves_play {PS : PokerSolver} {CF : Config} c player st amount now :
  preserves conserved (play c player st amount now).
Proof.
  intros t res t' H1. unfold play in H1.
  rewrite bind_get_room in H1.
  destruct (gameStatus (room t)) as [gs|] eqn:Hg; [|stopped H1].
  destruct (players (room t)) as [seats|] eqn:Hs.
  2:{ unfold get_seats in H1. rewrite bind_assoc, bind_get_room, Hs in H1. stopped H1. }
  rewrite (bind_get_seats _ _ seats Hs) in H1.
  destruct player as [caller|]; [|stopped H1].
  rewrite (bind_defined_Some _ caller) in H1 by reflexivity.
  rewrite bind_get_store in H1. cbv zeta in H1.
  destruct (_ || _); [stopped H1|].
  destruct (at_index seats _) as [r|] eqn:Hr; [|stopped H1].
  rewrite (bind_defined_Some _ r) in H1 by reflexivity.
  destruct (playerStatus (store t r)); [|stopped H1].
  eapply (bind_at conserved conserved_trans); [| |exact H1].
  - intros r1 t1 Ha. eapply conserves_apply_action; [|exact Ha].
    unfold seats_of. rewrite Hs. eapply at_index_elem_of; eauto.
  - intros a. cbv beta. conserves_engine.
Qed.

Lemma getRoom_lookup (rs : list (Room ref)) (roomId : string) (i : nat) (rm : Room ref) :
  getRoom rs roomId = Some (i, rm) → rs !! i = Some rm.
Proof.
  unfold getRoom, at_index.
  destruct (indexOf _ rs <? 0); [discriminate|].
  destruct (rs !! Z.to_nat (indexOf _ rs)) eqn:E; [|discriminate].
  intros H. inversion H; subst. exact E.
Qed.

Lemma conserves_updateGameStatus {PS : PokerSolver} {CF : Config} (s : Server)
    (socket : option string) (roomId : string) (st : PlayStatus) (amount : option Z)
    (now : Z) (i : nat) (rm : Room ref) (res : res unit) (s' : Server) :
  getRoom (rooms s) roomId = Some (i, rm) →
  updateGameStatus s socket roomId st amount now = (res, s') →
  ∃ rm', rooms s' !! i = Some rm'
         ∧ conserved (focus s rm) (mkTable (objects s') rm' (emitted s')).
Proof.
  intros Hroom Hcall. pose proof (getRoom_lookup _ _ _ _ Hroom) as Hi.
  unfold updateGameStatus in Hcall.
  destruct socket as [socketId|].
  - rewrite Hroom in Hcall.
    destruct (play _ _ _ _ _ _) as [result t] eqn:Hplay.
    inversion Hcall; subst; clear Hcall.
    exists (room t). split.
    + cbn [rooms unfocus]. apply list_lookup_insert_eq.
      eapply lookup_lt_Some; eauto.
    + cbn [objects emitted unfocus].
      destruct t as [h r l]. eapply conserves_play. exact Hplay.
  - inversion Hcall; subst. exists rm. split; [exact Hi|]. apply conserved_refl.
Qed.

(** C1 (as amended). Every call of updateGameStatus, whatever the action
    and its outcome, with no amount or an integer amount, leaves unchanged
    the chips of the room it acts on (the balances of its seats plus its
    pot), and leaves unchanged the sum of balance + totalBetAmout +
    subTotalBetAmount over the seats less the winAmounts credited; the
    seats being distinct Player objects, and the amount and the chip counts
    of the room small enough for the arithmetic of the code to be exact.
    Across checkWinning, on such a room, the sum of the balances grows by
    exactly what leaves the pot. *)
Theorem chips_conserved {PS : PokerSolver} {CF : Config} (s : Server)
    (socket : option string) (roomId : string) (st : PlayStatus) (amount : option Z)
    (now : Z) (i : nat) (rm : Room ref) (outcome : res unit) (s' : Server)
    (c : Conn) (t : Table) (outcome2 : res unit) (t2 : Table) :
  getRoom (rooms s) roomId = Some (i, rm) →
  NoDup (seats_of rm) →
  small_chips (objects s) rm →
  small_amount amount →
  updateGameStatus s socket roomId st amount now = (outcome, s') →
  NoDup (seats_of (room t)) →
  small_chips (store t) (room t) →
  checkWinning c t = (outcome2, t2) →
  (∃ rm', rooms s' !! i = Some rm'
          ∧ players rm' = players rm
          ∧ chips (objects s') rm' = chips (objects s) rm
          ∧ books (objects s') rm' = books (objects s) rm)
  ∧ balances (store t2) (room t2) - balances (store t) (room t)
    = pot_of (room t) - pot_of (room t2).
Proof.
  intros Hroom Hnd _ _ Hcall Hnd2 _ Hsettle. split.
  - destruct (conserves_updateGameStatus s socket roomId st amount now i rm outcome s'
                Hroom Hcall) as (rm' & Hi & Hp & Hc).
    exists rm'. destruct (Hc Hnd) as [Hchips Hbooks]. auto.
  - destruct (conserves_checkWinning c t outcome2 t2 Hsettle) as [_ Hc].
    destruct (Hc Hnd2) as [Hchips _]. unfold chips in Hchips. lia.
Qed.

Lemma small_2000 (x : Z) : 0 ≤ x ≤ 2000 → small x.
Proof. unfold small. intros H. assert (2000 ≤ 2 ^ 32) by (vm_compute; discriminate). lia. Qed.

(** The chip counts of the two tables of the examples are small. *)
Lemma round_table_small : small_chips (store round_table) (room round_table).
Proof.
  split; [vm_compute; lia|]. split.
  - intros gs Hg. vm_compute in Hg. inversion Hg; subst gs.
    split; apply small_2000; vm_compute; split; discriminate.
  - intros r Hr.
    assert (Hcase : r = 0%nat ∨ r = 1%nat ∨ r = 2%nat).
    { assert (Hr' : r ∈ [0; 1; 2]%nat) by exact Hr.
      apply elem_of_cons in Hr' as [->|Hr']; [auto|].
      apply elem_of_cons in Hr' as [->|Hr']; [auto|].
      apply elem_of_cons in Hr' as [->|Hr']; [auto|].
      inversion Hr'. }
    destruct Hcase as [-> | [-> | ->]];
      (split; [apply small_2000; vm_compute; split; discriminate|]);
      intros ps Hps; vm_compute in Hps; inversion Hps; subst ps;
      repeat split; apply small_2000; vm_compute; split; discriminate.
Qed.

Lemma tie_table_small : small_chips (store tie_table) (room tie_table).
Proof.
  split; [vm_compute; lia|]. split.
  - intros gs Hg. vm_compute in Hg. inversion Hg; subst gs.
    split; apply small_2000; vm_compute; split; discriminate.
  - intros r Hr.
    assert (Hcase : r = 0%nat ∨ r = 1%nat).
    { assert (Hr' : r ∈ [0; 1]%nat) by exact Hr.
      apply elem_of_cons in Hr' as [->|Hr']; [auto|].
      apply elem_of_cons in Hr' as [->|Hr']; [auto|].
      inversion Hr'. }
    destruct Hcase as [-> | ->];
      (split; [apply small_2000; vm_compute; split; discriminate|]);
      intros ps Hps; vm_compute in Hps; inversion Hps; subst ps;
      repeat split; apply small_2000; vm_compute; split; discriminate.
Qed.

(** The action of the witness and of the counterexample: seat 1 calls the
    blind of 10 in [round_server]. *)
Lemma chips_conserved_witness :
  let call := updateGameStatus (PS := high_card_solver) (CF := sample_config)
                round_server (Some "s1") "r1" CALL None 200 in
  let settled := checkWinning (PS := high_card_solver) (CF := sample_config)
                   two_conn tie_table in
  (∃ rm', rooms call.2 !! 0%nat = Some rm'
          ∧ players rm' = players lobby_room
          ∧ chips (objects call.2) rm' = 6000
          ∧ books (objects call.2) rm' = 6000)
  ∧ balances (store settled.2) (room settled.2) - 1950
    = 60 - pot_of (room settled.2).
Proof.
  intros call settled.
  pose proof (chips_conserved (PS := high_card_solver) (CF := sample_config)
                round_server (Some "s1") "r1" CALL None 200 0%nat
                (default lobby_room (rooms round_server !! 0%nat))
                call.1 call.2 two_conn tie_table settled.1 settled.2) as H.
  destruct H as [H1 H2].
  - vm_compute. reflexivity.
  - apply (bool_decide_unpack _). vm_compute. reflexivity.
  - exact round_table_small.
  - exact I.
  - apply surjective_pairing.
  - apply (bool_decide_unpack _). vm_compute. reflexivity.
  - exact tie_table_small.
  - apply surjective_pairing.
  - split.
    + destruct H1 as (rm' & Ha & Hb & Hc & Hd). exists rm'.
      repeat split; [exact Ha | exact Hb | rewrite Hc | rewrite Hd]; vm_compute; reflexivity.
    + exact H2.
Defined.

(** C1 (the claim as stated fails). A call of 10 by seat 1 is accepted and
    raises the sum of balance + totalBetAmout + subTotalBetAmount over the
    seats plus the pot from 6015 to 6025: every bet is counted in
    subTotalBetAmount and again in the pot. *)
Lemma stated_sum_not_conserved :
  let call := updateGameStatus (PS := high_card_solver) (CF := sample_config)
                round_server (Some "s1") "r1" CALL None 200 in
  call.1 = Ok tt
  ∧ map (stated_sum (objects round_server)) (rooms round_server) = [6015]
  ∧ map (stated_sum (objects call.2)) (rooms call.2) = [6025].
Proof. vm_compute. repeat split; reflexivity. Qed.

(** ** Settlement *)

(** Emitting and scheduling write neither Player objects nor the room. *)
Definition same_state (t t' : Table) : Prop := store t' = store t ∧ room t' = room t.

Lemma same_state_refl t : same_state t t.
Proof. split; reflexivity. Qed.

Lemma same_state_trans t1 t2 t3 : same_state t1 t2 → same_state t2 t3 → same_state t1 t3.
Proof. intros [H1 H2] [H3 H4]. split; congruence. Qed.

Lemma same_state_push_event e : preserves same_state (push_event e).
Proof. intros t res t' H. inversion H; subst. split; reflexivity. Qed.

Lemma same_state_emit_to c r ev payload player :
  preserves same_state (emit_to c r ev payload player).
Proof.
  unfold emit_to.
  preserves_split same_state same_state_refl same_state_trans
    ltac:(apply same_state_push_event).
Qed.

Ltac silent :=
  preserves_split same_state same_state_refl same_state_trans
    ltac:(first [apply same_state_push_event | apply same_state_emit_to]).

(** checkWinning is the settlement loop, then roundFinished, then the
    broadcast and the timer of the next round. *)
Lemma checkWinning_settles {PS : PokerSolver} {CF : Config} (c : Conn) (t t1 t' : Table)
    (res : res unit) (gs gs1 : GameStatus) (seats : list ref)
    (hands : list (option HandObj)) :
  gameStatus (room t) = Some gs →
  players (room t) = Some seats →
  hands_from (store t) gs seats 0 = Ok hands →
  settle_loop (S (length (omap (fun o => o) hands))) hands (omap (fun o => o) hands) t
  = (Ok tt, t1) →
  gameStatus (room t1) = Some gs1 →
  checkWinning c t = (res, t') →
  store t' = store t1 ∧ room t' = set_gameStatus (set_roundFinished true gs1) (room t1).
Proof.
  intros Hg Hs Hh Hloop Hg1 H0. unfold checkWinning in H0.
  rewrite bind_get_room, Hg in H0.
  rewrite (bind_get_seats _ _ seats Hs), bind_get_store in H0.
  unfold lift in H0. unfold bind at 1 in H0. rewrite Hh in H0.
  unfold bind at 1 in H0. rewrite Hloop in H0.
  rewrite (bind_write_game _ gs1) in H0 by exact Hg1.
  match type of H0 with
  | ?K ?t2 = _ =>
      assert (HK : preserves same_state K) by silent;
      destruct (HK _ _ _ H0) as [Hst Hrm]
  end.
  split; assumption.
Qed.

Lemma sublist_1 {A} (ws : list A) (a : A) : sublist ws [a] → ws = [] ∨ ws = [a].
Proof.
  intros H. inversion H as [| ? ? ? H1 | ? ? ? H1]; subst.
  - inversion H1; subst. right. reflexivity.
  - inversion H1; subst. left. reflexivity.
Qed.

Lemma sublist_2 {A} (ws : list A) (a b : A) :
  sublist ws [a; b] → ws = [] ∨ ws = [b] ∨ ws = [a] ∨ ws = [a; b].
Proof.
  intros H. inversion H as [| ? ? ? H1 | ? ? ? H1]; subst.
  - destruct (sublist_1 _ _ H1) as [->| ->]; auto.
  - destruct (sublist_1 _ _ H1) as [->| ->]; auto.
Qed.

Lemma sublist_3 {A} (ws : list A) (a b c : A) :
  sublist ws [a; b; c] →
  ws = [] ∨ ws = [c] ∨ ws = [b] ∨ ws = [b; c]
  ∨ ws = [a] ∨ ws = [a; c] ∨ ws = [a; b] ∨ ws = [a; b; c].
Proof.
  intros H. inversion H as [| ? ? ? H1 | ? ? ? H1]; subst.
  - destruct (sublist_2 _ _ _ H1) as [->|[->|[->| ->]]]; auto 10.
  - destruct (sublist_2 _ _ _ H1) as [->|[->|[->| ->]]]; auto 10.
Qed.

Lemma settle_loop_done {PS : PokerSolver} (fuel : nat) hands sub (t : Table) (gs : GameStatus) :
  gameStatus (room t) = Some gs → pot gs = 0 →
  settle_loop (S fuel) hands sub t = (Ok tt, t).
Proof.
  intros Hg Hp. cbn [settle_loop]. rewrite bind_get_room, Hg.
  rewrite (bind_defined_Some _ gs) by reflexivity.
  rewrite Hp. reflexivity.
Qed.

Lemma settle_loop_step {PS : PokerSolver} (fuel : nat) hands sub (t : Table)
    (gs : GameStatus) (ws : list HandObj) :
  gameStatus (room t) = Some gs → pot gs ≠ 0 → sub ≠ [] → winners sub = ws →
  settle_loop (S fuel) hands sub t
  = bind (forEach (pay_winner hands
                     (List.filter (fun hand => negb (includes_hand ws hand)) sub)
                     (Z.of_nat (length ws))) ws)
         (fun _ => settle_loop fuel hands
                     (List.filter (fun hand => negb (includes_hand ws hand)) sub)) t.
Proof.
  intros Hg Hp Hsub Hws. cbn [settle_loop]. rewrite bind_get_room, Hg.
  rewrite (bind_defined_Some _ gs) by reflexivity.
  destruct (Z.eqb_spec (pot gs) 0) as [?|_]; [contradiction|].
  destruct sub; [contradiction|]. rewrite Hws. reflexivity.
Qed.

Section TestSettlement.
Context {PS : PokerSolver} {CF : Config}.
Hypothesis contract : winners_contract.
Variables (ids : nat → string) (roomUuid : string) (sh : list Z)
          (emitted : list Event).

Let T0 := test_setup ids roomUuid sh emitted.

(** One turn of the settlement loop on an explicit table: the loop is over
    when the pot is 0; otherwise the contract of Hand.winners leaves finitely
    many selections to follow. *)
Ltac settle_pay H Hw :=
  erewrite settle_loop_step in H; [| reflexivity | discriminate | discriminate | exact Hw];
  unfold bind at 1 in H;
  match type of H with
  | context [forEach ?f ?l ?t] =>
      let r := eval vm_compute in (forEach f l t) in
      change (forEach f l t) with r in H
  end;
  cbv beta iota in H.

Ltac settle_cases H tac :=
  match type of H with
  | settle_loop (S ?f) ?hands ?sub ?t = _ =>
      let sub' := eval vm_compute in sub in
      change sub with sub' in H;
      first
        [ erewrite settle_loop_done in H by reflexivity
        | let Hne := fresh "Hne" in
          let Hsub := fresh "Hsub" in
          destruct (contract sub' ltac:(discriminate)) as [Hne Hsub];
          first [ apply sublist_3 in Hsub | apply sublist_2 in Hsub | apply sublist_1 in Hsub ];
          repeat match type of Hsub with
                 | _ ∨ _ => destruct Hsub as [Hsub|Hsub]
                 end;
          try (exfalso; apply Hne; exact Hsub);
          settle_pay H Hsub; tac ]
  end.

Lemma test_settle_loop (x0 x1 x3 : Hand) (res : res unit) (t1 : Table) :
  settle_loop 4 [Some (0%nat, x0); Some (1%nat, x1); None; Some (3%nat, x3)]
    [(0%nat, x0); (1%nat, x1); (3%nat, x3)] T0 = (res, t1) →
  res = Ok tt
  ∧ (∃ gs1, gameStatus (room t1) = Some gs1)
  ∧ pot_of (room t1) = 0
  ∧ won (store t1 0%nat) + won (store t1 1%nat) + won (store t1 2%nat)
    + won (store t1 3%nat) = 190
  ∧ (∀ i, (i < 4)%nat → balance (store t1 i) = 1000 + won (store t1 i))
  ∧ won (store t1 2%nat) = 0
  ∧ 0 ≤ won (store t1 3%nat) ≤ 160
  ∧ (winners [(0%nat, x0); (1%nat, x1); (3%nat, x3)] = [(3%nat, x3)] →
     won (store t1 3%nat) = 40 + Z.min 40 20 + Z.min 40 80 + Z.min 40 50
     ∧ won (store t1 0%nat) + won (store t1 1%nat) = 50).
Proof.
  intros H0.
  settle_cases H0 ltac:(idtac).
  all: settle_cases H0 ltac:(idtac).
  all: try settle_cases H0 ltac:(idtac).
  all: try settle_cases H0 ltac:(idtac).
  all: inversion H0; subst; clear H0.
  all: repeat match goal with |- _ ∧ _ => split end.
  all: try (eexists; reflexivity).
  all: try (vm_compute; first [reflexivity | intros; discriminate]).
  all: try (intros i Hi; destruct i as [|[|[|[|]]]]; [vm_compute; reflexivity..|lia]).
  all: intros Hx; rewrite Hx in *; try discriminate; try congruence.
  all: split; vm_compute; reflexivity.
Qed.

Lemma test_hands_built :
  hands_from (store T0)
    (mkGameStatus 0 false 30 190 0 0 (drop (length sh - 5) sh) None 0)
    [0; 1; 2; 3]%nat 0
  = Ok [Some (test_hand sh 0); Some (test_hand sh 1); None; Some (test_hand sh 3)].
Proof. reflexivity. Qed.

Lemma test_setup_settled (c : Conn) (res : res unit) (t' : Table) :
  checkWinning c T0 = (res, t') →
  pot_of (room t') = 0
  ∧ won (store t' 0%nat) + won (store t' 1%nat) + won (store t' 2%nat)
    + won (store t' 3%nat) = 190
  ∧ (∀ i, (i < 4)%nat → balance (store t' i) = 1000 + won (store t' i))
  ∧ won (store t' 2%nat) = 0
  ∧ 0 ≤ won (store t' 3%nat) ≤ 160
  ∧ (winners [test_hand sh 0; test_hand sh 1; test_hand sh 3] = [test_hand sh 3] →
     won (store t' 3%nat) = 40 + Z.min 40 20 + Z.min 40 80 + Z.min 40 50
     ∧ won (store t' 0%nat) + won (store t' 1%nat) = 50).
Proof.
  intros Hcw.
  destruct (settle_loop 4
              [Some (test_hand sh 0); Some (test_hand sh 1); None; Some (test_hand sh 3)]
              [test_hand sh 0; test_hand sh 1; test_hand sh 3] T0) as [r1 t1] eqn:Hloop.
  destruct (test_settle_loop _ _ _ _ _ Hloop)
    as (-> & [gs1 Hg1] & Hpot & Hsum & Hbal & Hfold & Hcap & Hsole).
  destruct (checkWinning_settles c T0 t1 t' res _ gs1 _ _ eq_refl eq_refl
              test_hands_built Hloop Hg1 Hcw) as [Hst Hrm].
  rewrite Hst, Hrm.
  repeat split; try assumption; try apply Hcap; try apply Hsole; try assumption.
  unfold pot_of in *. cbn. rewrite Hg1 in Hpot. exact Hpot.
Qed.
End TestSettlement.

(** X28. Settlement of the configuration of test(): totalBetAmout 20, 80,
    50 and 40, the 50-chip seat folded, a pot of 190.  Hand.winners keeping
    its contract (a non-empty selection, in the order of its argument),
    whatever the cards and the ranking: the pot ends at 0 and the 190 chips
    are credited, each seat's balance growing by its winAmount; the folded
    seat is credited nothing; the 40-chip seat is credited at most 160, and
    when its hand is the one best hand it is credited its own 40 plus
    min(40, x) for each other seat's x, that is 140, and the remaining 50
    go to the two other hands. *)
Theorem test_settlement {PS : PokerSolver} {CF : Config} (c : Conn) (ids : nat → string)
    (roomUuid : string) (rnd : nat → nat * nat) (emitted : list Event) :
  winners_contract →
  let sh := shuffleCards rnd cardIds in
  let t' := (test c ids roomUuid rnd emitted).2 in
  let credited := fun i : nat => won (store t' i) in
  pot_of (room t') = 0
  ∧ credited 0%nat + credited 1%nat + credited 2%nat + credited 3%nat = 190
  ∧ (∀ i, (i < 4)%nat → balance (store t' i) = 1000 + credited i)
  ∧ credited 2%nat = 0
  ∧ 0 ≤ credited 3%nat ≤ 160
  ∧ (winners [test_hand sh 0; test_hand sh 1; test_hand sh 3] = [test_hand sh 3] →
     credited 3%nat = 40 + Z.min 40 20 + Z.min 40 80 + Z.min 40 50
     ∧ credited 0%nat + credited 1%nat = 50).
Proof.
  intros contract sh t' credited. subst t' credited. unfold test, test_table. fold sh.
  destruct (checkWinning c (test_setup ids roomUuid sh emitted)) as [res t'] eqn:Hcw.
  cbn [snd]. eapply test_setup_settled; eauto.
Qed.

(** The toy solver keeps the contract of Hand.winners. *)
Lemma foldr_max_in (a : Z) (l : list Z) : foldr Z.max a l ∈ a :: l.
Proof.
  induction l as [|x l IH]; simpl.
  - left.
  - destruct (Z.max_spec x (foldr Z.max a l)) as [[_ ->]|[_ ->]].
    + apply elem_of_cons in IH as [->|IH]; [left | right; right; exact IH].
    + right. left.
Qed.

Lemma filter_sublist {A} (f : A → bool) (l : list A) : sublist (List.filter f l) l.
Proof.
  induction l as [|x l IH]; simpl.
  - constructor.
  - destruct (f x); [apply sublist_skip | apply sublist_cons]; exact IH.
Qed.

Lemma best_hands_nonempty (first : nat * Z) (others : list (nat * Z)) :
  best_hands (first :: others) ≠ [].
Proof.
  unfold best_hands. cbv zeta.
  pose proof (foldr_max_in first.2 (map snd others)) as Hin.
  change (first.2 :: map snd others) with (map snd (first :: others)) in Hin.
  apply list_elem_of_fmap in Hin as (hand & Hscore & Hin).
  intros Hnil.
  assert (Hf : hand ∈ List.filter
                 (fun x : nat * Z => x.2 =? foldr Z.max first.2 (map snd others))
                 (first :: others)).
  { apply list_elem_of_In, filter_In. split; [apply list_elem_of_In; exact Hin|].
    apply Z.eqb_eq. symmetry. exact Hscore. }
  rewrite Hnil in Hf. inversion Hf.
Qed.

Lemma best_hands_contract : winners_contract (PS := high_card_solver).
Proof.
  intros hands Hne. destruct hands as [|first others]; [contradiction|]. split.
  - apply best_hands_nonempty.
  - apply (filter_sublist _ (first :: others)).
Qed.

Lemma test_settlement_witness :
  let t' := (test (PS := high_card_solver) (CF := sample_config)
               two_conn (fun i => "u" +:+ pretty i) "room" no_swaps []).2 in
  pot_of (room t') = 0
  ∧ won (store t' 0%nat) + won (store t' 1%nat) + won (store t' 2%nat)
    + won (store t' 3%nat) = 190.
Proof.
  intros t'.
  pose proof (test_settlement (PS := high_card_solver) (CF := sample_config)
                two_conn (fun i => "u" +:+ pretty i) "room" no_swaps []
                best_hands_contract) as H.
  cbv zeta in H. destruct H as (H1 & H2 & _). split; assumption.
Defined.

(** C2 (the code at the failing input). On [fold0_table], the room of
    test() with the 20-chip seat folded instead of the 50-chip seat, the
    board is the ten to the ace of spades and the three live hands tie.
    checkWinning credits them 63, 63 and 60 and stops with 4 chips left in
    the pot: the cap of a winner counts the stakes of the folded seats and
    of the hands still to be ranked, not those of the winners it ties with,
    so the 40-chip seat is held to 60 and nobody is left to take the
    rest. *)
Lemma three_way_tie_leaves_chips :
  let settled := checkWinning (PS := high_card_solver) (CF := sample_config)
                   four_conn fold0_table in
  let credited := fun i : nat => won (store settled.2 i) in
  map (fun i => (totalBetAmout <$> playerStatus (fold0_store i),
                 status <$> playerStatus (fold0_store i))) [0; 1; 2; 3]%nat
  = [(Some 20, Some FOLD); (Some 80, Some CALL); (Some 50, Some CALL); (Some 40, Some CALL)]
  ∧ pot_of (room fold0_table) = 190
  ∧ map cardString (board_of (room fold0_table)) = ["Ts"; "Js"; "Qs"; "Ks"; "As"]
  ∧ settled.1 = Ok tt
  ∧ map credited [0; 1; 2; 3]%nat = [0; 63; 63; 60]
  ∧ credited 0%nat + credited 1%nat + credited 2%nat + credited 3%nat = 186
  ∧ pot_of (room settled.2) = 4.
Proof. vm_compute. repeat split; reflexivity. Qed.

(** ** A RAISE the balance does not cover *)

(** The call returns without a broadcast and without a chip moving, but
    after [playerStatus.status = status]: the status of the seat is RAISE. *)
Lemma rejected_raise_table {PS : PokerSolver} {CF : Config} (c : Conn) (t : Table)
    (caller r : ref) (gs : GameStatus) (seats : list ref) (ps : PlayerStatus)
    (amount now : Z) :
  gameStatus (room t) = Some gs →
  players (room t) = Some seats →
  is_Some (cards gs) →
  let playerIndex :=
    indexOf (fun r => same_string (pid (store t caller)) (pid (store t r))) seats in
  playerIndex ≠ -1 →
  playerIndex = playTurn gs →
  at_index seats playerIndex = Some r →
  playerStatus (store t r) = Some ps →
  amount ≠ 0 →
  balance (store t r) < currentBetAmount gs + amount - subTotalBetAmount ps →
  play c (Some caller) RAISE (Some amount) now t
  = (Ok tt,
     mkTable (<[r := set_playerStatus (set_status RAISE ps) (store t r)]> (store t))
             (room t) (log t)).
Proof.
  intros Hg Hs Hcards playerIndex Hfound Hturn Hr Hps Hamount Hshort.
  unfold play. rewrite bind_get_room, Hg.
  rewrite (bind_get_seats _ _ seats Hs).
  rewrite (bind_defined_Some _ caller) by reflexivity.
  rewrite bind_get_store. cbv zeta. fold playerIndex.
  destruct (Z.eqb_spec playerIndex (-1)) as [?|_]; [contradiction|].
  destruct (Z.eqb_spec playerIndex (playTurn gs)) as [_|?]; [|contradiction].
  rewrite (bool_decide_eq_true_2 _ Hcards). cbn [orb negb].
  rewrite (bind_defined_Some _ r) by exact Hr.
  rewrite Hps.
  unfold apply_action.
  rewrite bind_assoc.
  erewrite bind_write_status by exact Hps.
  rewrite bind_assoc, bind_get_store. cbn [store room log].
  rewrite bind_assoc, bind_get_room. cbn [store room log].
  rewrite bind_assoc, (bind_defined_Some _ gs) by exact Hg.
  rewrite bind_assoc, (bind_defined_Some _ (set_status RAISE ps))
    by (rewrite fn_lookup_insert; reflexivity).
  cbv zeta. cbn [bool_decide decide_rel]. 
  rewrite fn_lookup_insert.
  destruct (Z.eqb_spec amount 0) as [?|_]; [contradiction|].
  cbn [negb andb default].
  change (balance (set_playerStatus (set_status RAISE ps) (store t r)))
    with (balance (store t r)).
  change (subTotalBetAmount (set_status RAISE ps)) with (subTotalBetAmount ps).
  change (bool_decide (RAISE = CALL)) with false.
  change (bool_decide (RAISE = RAISE)) with true. cbn [andb].
  change (id amount) with amount.
  destruct (Z.ltb_spec (balance (store t r))
              (currentBetAmount gs + amount - subTotalBetAmount ps)) as [_|?]; [|lia].
  reflexivity.
Qed.

(** C3 (the code at the failing input). In [round_server] seat 1 has a
    balance of 2000 and status NONE; it is its turn and it raises by 5000.
    The call returns with no broadcast, no timer and no chip moved, and the
    room is as it was; but the status of the seat is now RAISE. *)
Lemma rejected_raise_marks_status :
  let call := updateGameStatus (PS := high_card_solver) (CF := sample_config)
                round_server (Some "s1") "r1" RAISE (Some 5000) 200 in
  call.1 = Ok tt
  ∧ emitted call.2 = emitted round_server
  ∧ rooms call.2 = rooms round_server
  ∧ balance (objects call.2 1%nat) = balance (objects round_server 1%nat)
  ∧ status <$> playerStatus (objects round_server 1%nat) = Some NONE
  ∧ status <$> playerStatus (objects call.2 1%nat) = Some RAISE.
Proof. vm_compute. repeat split; reflexivity. Qed.

(** ** Turn timers *)

(** The timer armed by updateGameStatus submits CHECK for a seat that has
    matched currentBetAmount and FOLD otherwise. *)
Lemma turnTimer_checks_or_folds {CF : Config} (c : Conn) (h : Store) (rm : Room ref)
    (now : Z) (socket : option string) (ps : PlayerStatus) (gs : GameStatus) :
  expired_seat c h rm now = Ok (Some (socket, ps, gs)) →
  turnTimer_submits c h rm now
  = Ok (Some (socket, if bool_decide (subTotalBetAmount ps = currentBetAmount gs)
                      then CHECK else FOLD)).
Proof.
  intros H. unfold turnTimer_submits. rewrite H. cbn.
  destruct (bool_decide _); reflexivity.
Qed.

(** The timer armed by startNewRound submits FOLD, whatever the seat has
    staked. *)
Lemma roundStartTimer_folds {CF : Config} (c : Conn) (h : Store) (rm : Room ref)
    (now : Z) (socket : option string) (ps : PlayerStatus) (gs : GameStatus) :
  expired_seat c h rm now = Ok (Some (socket, ps, gs)) →
  roundStartTimer_submits c h rm now = Ok (Some (socket, FOLD)).
Proof. intros H. unfold roundStartTimer_submits. rewrite H. reflexivity. Qed.

(** C5 (the code at the failing input). In [broke_server] the round has
    just started, seat 1 could not post the small blind and is BUST, and
    seat 0, the blind, is to act with subTotalBetAmount 10 equal to
    currentBetAmount 10.  When the deadline armed at round start expires,
    the timer submits FOLD for seat 0; the timer armed after an action
    would submit CHECK on the same table.  The FOLD then leaves no seat
    for nextTurn to stop at, and the call never returns. *)
Lemma round_start_timer_folds_matched_seat :
  let s := broke_server in
  let rm := default broke_room (rooms s !! 0%nat) in
  let seat0 := playerStatus (objects s 0%nat) in
  playTurn <$> gameStatus rm = Some 0
  ∧ subTotalBetAmount <$> seat0 = currentBetAmount <$> gameStatus rm
  ∧ roundStartTimer_submits (CF := sample_config) (conn s) (objects s) rm 30100
    = Ok (Some (Some "s0", FOLD))
  ∧ turnTimer_submits (CF := sample_config) (conn s) (objects s) rm 30100
    = Ok (Some (Some "s0", CHECK))
  ∧ (fire_timer (PS := high_card_solver) (CF := sample_config)
       RoundStartTimer s rm 30100 no_swaps 0).1 = Hang.
Proof. vm_compute. repeat split; reflexivity. Qed.

(** ** CHECK *)

(** The tests an action passes before it is applied: the caller sits at
    playTurn of a room with a round and a deck, and has a playerStatus. *)
Lemma play_accepted {PS : PokerSolver} {CF : Config} (c : Conn) (t : Table)
    (caller r : ref) (gs : GameStatus) (seats : list ref) (ps : PlayerStatus)
    (st : PlayStatus) (amount : option Z) (now : Z) :
  gameStatus (room t) = Some gs →
  players (room t) = Some seats →
  is_Some (cards gs) →
  let playerIndex :=
    indexOf (fun r => same_string (pid (store t caller)) (pid (store t r))) seats in
  playerIndex ≠ -1 →
  playerIndex = playTurn gs →
  at_index seats playerIndex = Some r →
  playerStatus (store t r) = Some ps →
  play c (Some caller) st amount now t
  = (let! flag := apply_action c r st amount in
     match flag with
     | None => ret tt
     | Some dealCardsFlag =>
         write_game (set_timestamp now) ;;;
         if dealCardsFlag then ret tt
         else
           forEach (fun r _ =>
             let! h := get_store in
             let! rm := get_room in
             let! shown := lift (cutPlayersCards (cutRoomCards (view h rm))) in
             emit_to c r "updatedGameStatus" shown (Some (h r))) seats ;;;
           push_event (SetTimeout TurnTimer (rid (room t)) PLAYER_WAIT_TIME)
     end) t.
Proof.
  intros Hg Hs Hcards playerIndex Hfound Hturn Hr Hps.
  unfold play. rewrite bind_get_room, Hg.
  rewrite (bind_get_seats _ _ seats Hs).
  rewrite (bind_defined_Some _ caller) by reflexivity.
  rewrite bind_get_store. cbv zeta. fold playerIndex.
  destruct (Z.eqb_spec playerIndex (-1)) as [?|_]; [contradiction|].
  destruct (Z.eqb_spec playerIndex (playTurn gs)) as [_|?]; [|contradiction].
  rewrite (bool_decide_eq_true_2 _ Hcards). cbn [orb negb].
  rewrite (bind_defined_Some _ r) by exact Hr.
  rewrite Hps. reflexivity.
Qed.




(** ** joinRoom *)

(** The broadcast of joinRoom writes the log only. *)
Lemma same_state_announce_join c r i : preserves same_state (announce_join c r i).
Proof. unfold announce_join. silent. Qed.





(** ** The cards of a round *)

(** Calls that read and write no card. *)
Definition keeps_cards (t t' : Table) : Prop :=
  ∀ cs seats k, round_cards t cs seats k → round_cards t' cs seats k.

Lemma keeps_cards_refl t : keeps_cards t t.
Proof. intros cs seats k H. exact H. Qed.

Lemma keeps_cards_trans t1 t2 t3 : keeps_cards t1 t2 → keeps_cards t2 t3 → keeps_cards t1 t3.
Proof. intros H1 H2 cs seats k H. apply H2, H1, H. Qed.

Lemma keeps_cards_of (t t' : Table) :
  players (room t') = players (room t) →
  (∀ gs, gameStatus (room t) = Some gs →
     ∃ gs', gameStatus (room t') = Some gs' ∧ cards gs' = cards gs ∧ board gs' = board gs) →
  (∀ r ps, playerStatus (store t r) = Some ps →
     ∃ ps', playerStatus (store t' r) = Some ps' ∧ deck ps' = deck ps) →
  keeps_cards t t'.
Proof.
  intros Hp Hg Hs cs seats k (Hseats & (gs & Hgs & Hcs & Hb) & Hholes & Hk).
  split; [congruence|]. split; [|split; [|exact Hk]].
  - destruct (Hg gs Hgs) as (gs' & Hgs' & Hc' & Hb'). exists gs'.
    repeat split; congruence.
  - intros i r Hi. destruct (Hholes i r Hi) as (ps & Hps & Hd).
    destruct (Hs r ps Hps) as (ps' & Hps' & Hd'). exists ps'. split; congruence.
Qed.

Lemma keeps_cards_push_event e : preserves keeps_cards (push_event e).
Proof.
  intros t res t' H. inversion H; subst.
  apply keeps_cards_of; cbn; eauto.
Qed.

Lemma keeps_cards_write_game (f : GameStatus → GameStatus) :
  (∀ gs, cards (f gs) = cards gs ∧ board (f gs) = board gs) →
  preserves keeps_cards (write_game f).
Proof.
  intros Hf t res t' H. unfold write_game in H.
  destruct (gameStatus (room t)) as [gs|] eqn:E; inversion H; subst.
  - apply keeps_cards_of; cbn; eauto.
    intros gs0 Hgs0. rewrite E in Hgs0. inversion Hgs0; subst.
    exists (f gs0). destruct (Hf gs0). auto.
  - apply keeps_cards_refl.
Qed.

Lemma keeps_cards_write_player (r : ref) (f : Player → Player) :
  (∀ p, playerStatus (f p) = playerStatus p) →
  preserves keeps_cards (write_player r f).
Proof.
  intros Hf t res t' H. inversion H; subst. clear H.
  apply keeps_cards_of; cbn [store room log]; eauto.
  intros r' ps Hps. destruct (decide (r = r')) as [->|Hne].
  - rewrite fn_lookup_insert, Hf. eauto.
  - rewrite fn_lookup_insert_ne by exact Hne. eauto.
Qed.

Lemma keeps_cards_write_status (r : ref) (f : PlayerStatus → PlayerStatus) :
  (∀ ps, deck (f ps) = deck ps) →
  preserves keeps_cards (write_status r f).
Proof.
  intros Hf t res t' H. inversion H; subst. clear H.
  apply keeps_cards_of; cbn [store room log]; eauto.
  intros r' ps Hps. destruct (decide (r = r')) as [->|Hne].
  - rewrite fn_lookup_insert, Hps. cbn. eauto.
  - rewrite fn_lookup_insert_ne by exact Hne. eauto.
Qed.

Lemma keeps_cards_emit_to c r ev payload player :
  preserves keeps_cards (emit_to c r ev payload player).
Proof.
  unfold emit_to.
  preserves_split keeps_cards keeps_cards_refl keeps_cards_trans
    ltac:(apply keeps_cards_push_event).
Qed.

Ltac keeps_cards_with leaf :=
  preserves_split keeps_cards keeps_cards_refl keeps_cards_trans
    ltac:(first [ apply keeps_cards_push_event
                | apply keeps_cards_emit_to
                | apply keeps_cards_write_game; intros; split; reflexivity
                | apply keeps_cards_write_status; intros; reflexivity
                | apply keeps_cards_write_player; intros; reflexivity
                | leaf ]).

Lemma keeps_cards_advance_turn turn : preserves keeps_cards (advance_turn turn).
Proof. unfold advance_turn. keeps_cards_with fail. Qed.

Lemma keeps_cards_close_street r i : preserves keeps_cards (close_street r i).
Proof. unfold close_street. keeps_cards_with fail. Qed.

Lemma keeps_cards_next_has_matched : preserves keeps_cards next_has_matched.
Proof. unfold next_has_matched. keeps_cards_with fail. Qed.

Lemma keeps_cards_pay_winner {PS : PokerSolver} hands subHands nwinners winner index :
  preserves keeps_cards (pay_winner hands subHands nwinners winner index).
Proof. unfold pay_winner. keeps_cards_with fail. Qed.

Lemma keeps_cards_settle_loop {PS : PokerSolver} (fuel : nat) :
  ∀ hands subHands, preserves keeps_cards (settle_loop fuel hands subHands).
Proof.
  induction fuel as [|fuel IH]; intros hands subHands; cbn [settle_loop].
  - apply preserves_lift, keeps_cards_refl.
  - keeps_cards_with ltac:(first [apply keeps_cards_pay_winner | apply IH]).
Qed.

Lemma keeps_cards_checkWinning {PS : PokerSolver} {CF : Config} c :
  preserves keeps_cards (checkWinning c).
Proof. unfold checkWinning. keeps_cards_with ltac:(apply keeps_cards_settle_loop). Qed.

Lemma bind_cases {A B} (m : M A) (k : A → M B) (t : Table) (res : res B) (t' : Table) :
  bind m k t = (res, t') →
  (∃ a t1, m t = (Ok a, t1) ∧ k a t1 = (res, t'))
  ∨ (m t = (Throw, t') ∧ res = Throw)
  ∨ (m t = (Hang, t') ∧ res = Hang).
Proof.
  unfold bind. destruct (m t) as [[a| |] t1]; intros H.
  - left. eauto.
  - inversion H; subst. right. left. auto.
  - inversion H; subst. right. right. auto.
Qed.

Lemma length_board_offsets k : length (board_offsets k) = k.
Proof. unfold board_offsets. rewrite length_map, length_seq. reflexivity. Qed.

Lemma deal_next_offsets (cs : list Z) (k : nat) :
  k ∈ [0; 3; 4]%nat →
  deal_next cs (cards_at cs (board_offsets k)) = cards_at cs (board_offsets (next_size k)).
Proof.
  intros Hk. repeat (apply elem_of_cons in Hk as [->|Hk]); [reflexivity..|inversion Hk].
Qed.

Lemma board_prefix (cs : list Z) (k : nat) :
  k ∈ [0; 3; 4; 5]%nat →
  cards_at cs (board_offsets k) `prefix_of` cards_at cs (board_offsets (next_size k)).
Proof.
  intros Hk. repeat (apply elem_of_cons in Hk as [->|Hk]); [..|inversion Hk].
  - apply prefix_nil.
  - exists [card_at cs 48]. reflexivity.
  - exists [card_at cs 47]. reflexivity.
  - reflexivity.
Qed.

Lemma round_cards_board t cs seats k :
  round_cards t cs seats k → board_of (room t) = cards_at cs (board_offsets k).
Proof. intros (_ & (gs & Hgs & _ & Hb) & _). unfold board_of. rewrite Hgs. exact Hb. Qed.

(** One call of dealCards on a table of a round: the cards stay where they
    are, and the board either stays or takes its next size. *)
Lemma dealCards_cards {PS : PokerSolver} {CF : Config} (c : Conn) (t t' : Table)
    (cs : list Z) (seats : list ref) (k : nat) (res : res bool) :
  round_cards t cs seats k →
  dealCards c t = (res, t') →
  ∃ k', round_cards t' cs seats k'
        ∧ (k' = k ∨ (k ≠ 5%nat ∧ k' = next_size k))
        ∧ (res = Ok false → k ≠ 5%nat ∧ k' = next_size k)
        ∧ (res = Ok true → k = 5%nat).
Proof.
  intros Hrc H0. pose proof Hrc as (Hseats & (gs & Hgs & Hcs & Hb) & Hholes & Hk).
  unfold dealCards in H0. rewrite bind_get_room, Hgs, Hcs in H0.
  rewrite (bind_get_seats _ _ seats Hseats) in H0.
  assert (Hclose : preserves keeps_cards (forEach close_street seats)).
  { keeps_cards_with ltac:(apply keeps_cards_close_street). }
  assert (Hstay : ∀ t1 : Table, keeps_cards t t1 →
                  ∃ k', round_cards t1 cs seats k'
                        ∧ (k' = k ∨ (k ≠ 5%nat ∧ k' = next_size k))).
  { intros t1 H1. exists k. split; [apply H1, Hrc | left; reflexivity]. }
  apply bind_cases in H0 as [(a & t1 & Hm & H1)|[[Hm ->]|[Hm ->]]].
  2,3: destruct (Hstay t' (Hclose _ _ _ Hm)) as (k' & ? & ?); exists k';
       (split; [assumption|split; [assumption|split; intros; discriminate]]).
  pose proof (Hclose _ _ _ Hm) as Hk1.
  apply bind_cases in H1 as [(a2 & t2 & Hm2 & H2)|[[Hm2 ->]|[Hm2 ->]]].
  2,3: destruct (Hstay t' (keeps_cards_trans _ _ _ Hk1
                             (keeps_cards_advance_turn _ _ _ _ Hm2))) as (k' & ? & ?);
       exists k'; (split; [assumption|split; [assumption|split; intros; discriminate]]).
  pose proof (keeps_cards_trans _ _ _ Hk1 (keeps_cards_advance_turn _ _ _ _ Hm2)) as Hk2.
  assert (Hlen : length (board gs) = k).
  { rewrite Hb. unfold cards_at. rewrite length_map. apply length_board_offsets. }
  rewrite Hlen in H2.
  destruct (decide (k = 5%nat)) as [->|Hne].
  - change (bool_decide (5%nat = 5%nat)) with true in H2. cbv iota in H2.
    apply bind_cases in H2 as [(a3 & t3 & Hm3 & H3)|[[Hm3 ->]|[Hm3 ->]]].
    + inversion H3; subst. exists 5%nat. split.
      * apply (keeps_cards_checkWinning _ _ _ _ Hm3), Hk2, Hrc.
      * split; [left; reflexivity|]. split; [intros; discriminate|reflexivity].
    + exists 5%nat. split.
      * apply (keeps_cards_checkWinning _ _ _ _ Hm3), Hk2, Hrc.
      * split; [left; reflexivity|]. split; intros; discriminate.
    + exists 5%nat. split.
      * apply (keeps_cards_checkWinning _ _ _ _ Hm3), Hk2, Hrc.
      * split; [left; reflexivity|]. split; intros; discriminate.
  - rewrite (bool_decide_eq_false_2 _ Hne) in H2.
    pose proof (Hk2 _ _ _ Hrc) as (Hseats2 & (gs2 & Hgs2 & Hcs2 & Hb2) & Hholes2 & _).
    rewrite (bind_write_game _ gs2) in H2 by exact Hgs2.
    inversion H2 as [[Hres Ht']]. subst res t'. clear H2.
    assert (Hk3 : k ∈ [0; 3; 4]%nat).
    { repeat (apply elem_of_cons in Hk as [->|Hk]); [| | |contradiction|inversion Hk];
        apply list_elem_of_In; simpl; auto. }
    exists (next_size k). split.
    + split; [exact Hseats2|]. split; [|split; [exact Hholes2|]].
      * eexists. split; [reflexivity|]. cbn. split; [exact Hcs2|].
        rewrite Hb. apply deal_next_offsets. exact Hk3.
      * repeat (apply elem_of_cons in Hk3 as [->|Hk3]); [..|inversion Hk3];
          apply list_elem_of_In; simpl; auto.
    + split; [right; auto|]. split; [auto|intros; discriminate].
Qed.

(** Calls under which the board only grows. *)
Definition board_grows (t t' : Table) : Prop :=
  ∀ cs seats k, round_cards t cs seats k →
    ∃ k', (k ≤ k')%nat ∧ round_cards t' cs seats k'.

Lemma board_grows_refl t : board_grows t t.
Proof. intros cs seats k H. exists k. split; [lia|exact H]. Qed.

Lemma board_grows_trans t1 t2 t3 : board_grows t1 t2 → board_grows t2 t3 → board_grows t1 t3.
Proof.
  intros H1 H2 cs seats k H.
  destruct (H1 _ _ _ H) as (k1 & Hk1 & Hr1).
  destruct (H2 _ _ _ Hr1) as (k2 & Hk2 & Hr2).
  exists k2. split; [lia|exact Hr2].
Qed.

Lemma keeps_cards_grows {A} (m : M A) : preserves keeps_cards m → preserves board_grows m.
Proof.
  intros Hm t res t' H cs seats k Hrc. exists k. split; [lia|].
  eapply Hm; eauto.
Qed.

Lemma next_size_ge (k : nat) : k ∈ [0; 3; 4; 5]%nat → (k ≤ next_size k)%nat.
Proof.
  intros Hk. repeat (apply elem_of_cons in Hk as [->|Hk]); [..|inversion Hk]; cbn; lia.
Qed.

Lemma board_grows_dealCards {PS : PokerSolver} {CF : Config} c :
  preserves board_grows (dealCards c).
Proof.
  intros t res t' H cs seats k Hrc.
  destruct (dealCards_cards c t t' cs seats k res Hrc H) as (k' & Hrc' & [->|[_ ->]] & _).
  - exists k. split; [lia|exact Hrc'].
  - exists (next_size k). split; [|exact Hrc'].
    apply next_size_ge. apply Hrc.
Qed.

Ltac board_grows_with leaf :=
  preserves_split board_grows board_grows_refl board_grows_trans
    ltac:(first [ apply board_grows_dealCards
                | apply keeps_cards_grows;
                  first [ apply keeps_cards_push_event
                        | apply keeps_cards_emit_to
                        | apply keeps_cards_advance_turn
                        | apply keeps_cards_next_has_matched
                        | apply keeps_cards_write_game; intros; split; reflexivity
                        | apply keeps_cards_write_status; intros; reflexivity
                        | apply keeps_cards_write_player; intros; reflexivity ]
                | leaf ]).

Lemma board_grows_deal_until_showdown {PS : PokerSolver} {CF : Config} c fuel :
  preserves board_grows (deal_until_showdown c fuel).
Proof.
  induction fuel as [|fuel IH]; cbn [deal_until_showdown].
  - apply preserves_lift, board_grows_refl.
  - board_grows_with ltac:(apply IH).
Qed.

Lemma board_grows_apply_action {PS : PokerSolver} {CF : Config} c r st amount :
  preserves board_grows (apply_action c r st amount).
Proof.
  unfold apply_action.
  board_grows_with ltac:(apply board_grows_deal_until_showdown).
Qed.

Lemma board_grows_play {PS : PokerSolver} {CF : Config} c player st amount now :
  preserves board_grows (play c player st amount now).
Proof.
  unfold play.
  board_grows_with ltac:(apply board_grows_apply_action).
Qed.

(** *** The start of the round *)

Lemma keeps_cards_post_blind blind r i : preserves keeps_cards (post_blind blind r i).
Proof. unfold post_blind. keeps_cards_with fail. Qed.

(** The hole cards dealt by the first loop of startNewRound. *)
Lemma deal_hole_forEach (cs : list Z) (seats : list ref) :
  ∀ (i0 : Z) (t t' : Table) (res : res unit),
    forEach_from (deal_hole cs) seats i0 t = (res, t') →
    res = Ok tt ∧ room t' = room t
    ∧ (∀ r, r ∉ seats → store t' r = store t r)
    ∧ (NoDup seats → ∀ (j : nat) r, seats !! j = Some r →
       playerStatus (store t' r)
       = Some (mkPlayerStatus 0 0 NONE
                 (Some (cards_at cs (hole_offsets (i0 + Z.of_nat j)))) 0 None)).
Proof.
  induction seats as [|x seats IH]; intros i0 t t' res H.
  - inversion H; subst. repeat split; auto. intros _ j r Hj. discriminate.
  - cbn [forEach_from] in H. unfold deal_hole at 1 in H.
    rewrite bind_write_player in H.
    destruct (IH _ _ _ _ H) as (-> & Hroom & Hframe & Hdealt).
    split; [reflexivity|]. split; [exact Hroom|]. split.
    + intros r Hr. apply not_elem_of_cons in Hr as [Hne Hr].
      rewrite (Hframe r Hr). cbn [store]. rewrite fn_lookup_insert_ne by congruence.
      reflexivity.
    + intros Hnd j r Hj. apply list.NoDup_cons in Hnd as [Hx Hnd].
      destruct j as [|j]; cbn in Hj.
      * inversion Hj; subst. rewrite (Hframe r Hx). cbn [store].
        rewrite fn_lookup_insert. change (Z.of_nat 0) with 0. rewrite Z.add_0_r.
        reflexivity.
      * rewrite (Hdealt Hnd j r Hj).
        replace (i0 + 1 + Z.of_nat j) with (i0 + Z.of_nat (S j)) by lia. reflexivity.
Qed.

(** startNewRound leaves the table of a round with an empty board. *)
Lemma startNewRound_cards {CF : Config} (rnd : nat → nat * nat) (blindDraw now : Z)
    (t t' : Table) (seats : list ref) :
  players (room t) = Some seats →
  NoDup seats →
  startNewRound rnd blindDraw now t = (Ok tt, t') →
  round_cards t' (shuffleCards rnd cardIds) seats 0.
Proof.
  intros Hseats Hnd H0. unfold startNewRound in H0. cbv zeta in H0.
  rewrite bind_get_store, bind_get_room in H0.
  apply bind_cases in H0 as [(blind & t1 & Hm & H1)|[[_ ?]|[_ ?]]]; [|discriminate..].
  assert (t1 = t) as ->.
  { destruct (gameStatus (room t)); [|inversion Hm; reflexivity].
    unfold lift in Hm. inversion Hm; reflexivity. }
  clear Hm. unfold set_room_gameStatus at 1 in H1. unfold bind at 1 in H1.
  rewrite (bind_get_seats _ _ seats) in H1 by exact Hseats.
  apply bind_cases in H1 as [([] & t2 & Hm & H2)|[[_ ?]|[_ ?]]]; [|discriminate..].
  destruct (deal_hole_forEach _ _ _ _ _ _ Hm) as (_ & Hroom & _ & Hdealt).
  assert (Hrest : keeps_cards t2 t').
  { match type of H2 with
    | ?K ?t2 = _ =>
        assert (HK : preserves keeps_cards K)
          by keeps_cards_with ltac:(first [ apply keeps_cards_post_blind
                                          | apply keeps_cards_advance_turn ]);
        exact (HK _ _ _ H2)
    end. }
  apply Hrest. split; [rewrite Hroom; exact Hseats|]. split; [|split].
  - rewrite Hroom. eexists. split; [reflexivity|]. split; reflexivity.
  - intros i r Hi. eexists. split; [apply (Hdealt Hnd i r Hi)|]. cbn.
    repeat f_equal.
  - left.
Qed.

(** *** Distinct offsets hold distinct cards *)

Lemma card_at_lookup (cs : list Z) (o : Z) :
  0 ≤ o < Z.of_nat (length cs) → cs !! Z.to_nat o = Some (card_at cs o).
Proof.
  intros Ho. unfold card_at, at_index.
  destruct (Z.ltb_spec o 0); [lia|].
  destruct (lookup_lt_is_Some_2 cs (Z.to_nat o)) as [x Hx]; [lia|].
  rewrite Hx. reflexivity.
Qed.

Lemma card_at_inj (cs : list Z) (o1 o2 : Z) :
  NoDup cs →
  0 ≤ o1 < Z.of_nat (length cs) → 0 ≤ o2 < Z.of_nat (length cs) →
  card_at cs o1 = card_at cs o2 → o1 = o2.
Proof.
  intros Hnd H1 H2 Heq.
  pose proof (card_at_lookup cs o1 H1) as L1.
  pose proof (card_at_lookup cs o2 H2) as L2.
  rewrite Heq in L1.
  pose proof (NoDup_lookup cs _ _ _ Hnd L1 L2). lia.
Qed.

Lemma cards_at_no_common (cs : list Z) (offs1 offs2 : list Z) :
  NoDup cs →
  (∀ o, o ∈ offs1 → 0 ≤ o < Z.of_nat (length cs)) →
  (∀ o, o ∈ offs2 → 0 ≤ o < Z.of_nat (length cs)) →
  (∀ o, o ∈ offs1 → o ∈ offs2 → False) →
  no_common (cards_at cs offs1) (cards_at cs offs2).
Proof.
  intros Hnd H1 H2 Hdis x Hx1 Hx2.
  apply list_elem_of_fmap in Hx1 as (o1 & -> & Ho1).
  apply list_elem_of_fmap in Hx2 as (o2 & Heq & Ho2).
  assert (o1 = o2) by (apply (card_at_inj cs); auto).
  subst o2. eapply Hdis; eauto.
Qed.

Lemma elem_of_hole_offsets (i o : Z) : o ∈ hole_offsets i → o = i * 2 ∨ o = i * 2 + 1.
Proof.
  unfold hole_offsets. intros H.
  apply elem_of_cons in H as [->|H]; [auto|].
  apply elem_of_cons in H as [->|H]; [auto|inversion H].
Qed.

Lemma elem_of_board_offsets (k : nat) (o : Z) :
  o ∈ board_offsets k → 52 - Z.of_nat k ≤ o < 52.
Proof.
  unfold board_offsets. intros H.
  apply list_elem_of_fmap in H as (j & -> & Hj).
  apply elem_of_seq in Hj. lia.
Qed.

Lemma elem_of_undealt_offsets (n k : nat) (o : Z) :
  o ∈ undealt_offsets n k → 2 * Z.of_nat n ≤ o < 52 - Z.of_nat k.
Proof.
  unfold undealt_offsets. intros H.
  apply list_elem_of_fmap in H as (j & -> & Hj).
  apply elem_of_seq in Hj. lia.
Qed.

Section RoundCards.
Variables (cs : list Z) (seats : list ref) (k : nat).
Hypothesis Hperm : cs ≡ₚ cardIds.
Hypothesis Hseats : (length seats ≤ 23)%nat.
Hypothesis Hk : k ∈ [0; 3; 4; 5]%nat.

Lemma deck_NoDup : NoDup cs ∧ length cs = 52%nat.
Proof.
  split.
  - rewrite Hperm. unfold cardIds.
    apply NoDup_fmap_2; [intros a b; apply Nat2Z.inj | apply NoDup_seq].
  - rewrite (Permutation_length Hperm). reflexivity.
Qed.

Lemma board_size_le : (k ≤ 5)%nat.
Proof.
  pose proof Hk as H.
  repeat (apply elem_of_cons in H as [->|H]); [lia..|inversion H].
Qed.

Lemma hole_board_no_common (i : nat) :
  (i < length seats)%nat →
  no_common (cards_at cs (hole_offsets (Z.of_nat i))) (cards_at cs (board_offsets k)).
Proof.
  intros Hi. destruct deck_NoDup as [Hnd Hlen]. pose proof board_size_le.
  apply cards_at_no_common; [exact Hnd|..].
  - intros o Ho. apply elem_of_hole_offsets in Ho. lia.
  - intros o Ho. apply elem_of_board_offsets in Ho. lia.
  - intros o H1 H2. apply elem_of_hole_offsets in H1.
    apply elem_of_board_offsets in H2. lia.
Qed.

Lemma hole_undealt_no_common (i : nat) :
  (i < length seats)%nat →
  no_common (cards_at cs (hole_offsets (Z.of_nat i))) (undealt cs (length seats) k).
Proof.
  intros Hi. destruct deck_NoDup as [Hnd Hlen]. pose proof board_size_le.
  apply cards_at_no_common; [exact Hnd|..].
  - intros o Ho. apply elem_of_hole_offsets in Ho. lia.
  - intros o Ho. apply elem_of_undealt_offsets in Ho. lia.
  - intros o H1 H2. apply elem_of_hole_offsets in H1.
    apply elem_of_undealt_offsets in H2. lia.
Qed.

Lemma hole_hole_no_common (i j : nat) :
  (i < length seats)%nat → (j < length seats)%nat → i ≠ j →
  no_common (cards_at cs (hole_offsets (Z.of_nat i)))
            (cards_at cs (hole_offsets (Z.of_nat j))).
Proof.
  intros Hi Hj Hne. destruct deck_NoDup as [Hnd Hlen].
  apply cards_at_no_common; [exact Hnd|..].
  - intros o Ho. apply elem_of_hole_offsets in Ho. lia.
  - intros o Ho. apply elem_of_hole_offsets in Ho. lia.
  - intros o H1 H2. apply elem_of_hole_offsets in H1.
    apply elem_of_hole_offsets in H2. lia.
Qed.

Lemma board_undealt_no_common :
  no_common (cards_at cs (board_offsets k)) (undealt cs (length seats) k).
Proof.
  destruct deck_NoDup as [Hnd Hlen]. pose proof board_size_le.
  apply cards_at_no_common; [exact Hnd|..].
  - intros o Ho. apply elem_of_board_offsets in Ho. lia.
  - intros o Ho. apply elem_of_undealt_offsets in Ho. lia.
  - intros o H1 H2. apply elem_of_board_offsets in H1.
    apply elem_of_undealt_offsets in H2. lia.
Qed.
End RoundCards.

Lemma in_round_cards {PS : PokerSolver} {CF : Config} (c : Conn) (cs : list Z)
    (seats : list ref) (t : Table) :
  NoDup seats → in_round c cs seats t →
  cs ≡ₚ cardIds ∧ ∃ k, round_cards t cs seats k.
Proof.
  intros Hnd Hin. induction Hin as [t0 t rnd b now Hs Hstart ->
                                   | t t' res Hin [Hperm (k & IH)] Hdeal
                                   | t t' player st amount now res Hin [Hperm (k & IH)] Hplay].
  - split; [apply shuffleCards_deck|].
    exists 0%nat. eapply startNewRound_cards; eauto.
  - split; [exact Hperm|].
    destruct (board_grows_dealCards c _ _ _ Hdeal _ _ _ IH) as (k' & _ & H). eauto.
  - split; [exact Hperm|].
    destruct (board_grows_play c _ _ _ _ _ _ _ Hplay _ _ _ IH) as (k' & _ & H). eauto.
Qed.

Lemma round_cards_hole (t : Table) (cs : list Z) (seats : list ref) (k i : nat) (r : ref) :
  round_cards t cs seats k → seats !! i = Some r →
  hole_cards (store t) r = cards_at cs (hole_offsets (Z.of_nat i)).
Proof.
  intros (_ & _ & Hholes & _) Hi.
  destruct (Hholes i r Hi) as (ps & Hps & Hd).
  unfold hole_cards. rewrite Hps, Hd. reflexivity.
Qed.


Lemma round_table_started :
  startNewRound (CF := sample_config) no_swaps 0 100 (focus lobby_server lobby_room)
  = (Ok tt, round_table).
Proof.
  unfold round_table.
  destruct (startNewRound no_swaps 0 100 (focus lobby_server lobby_room)) as [r t] eqn:E.
  apply (f_equal fst) in E. vm_compute in E. subst r. reflexivity.
Qed.

Lemma round_table_in_round :
  in_round (PS := high_card_solver) (CF := sample_config)
    three_conn (shuffleCards no_swaps cardIds) [0; 1; 2]%nat round_table.
Proof.
  apply (round_started three_conn _ [0; 1; 2]%nat
           (focus lobby_server lobby_room) round_table no_swaps 0 100);
    [reflexivity|apply round_table_started|reflexivity].
Qed.



(** ** The loops that may not return

    [Hang] stands for a loop of the program that never ends.  The loops of
    the embedding run on a bound; these lemmas show that the bound is no
    restriction. *)

(** A seat at which the loop of nextTurn goes on. *)
Definition passed_over (h : Store) (seats : list ref) (i : Z) : Prop :=
  ∃ r ps, at_index seats i = Some r ∧ playerStatus (h r) = Some ps ∧ can_act ps = false.

Section TurnLoopHangs.
Variables (h : Store) (n : Z) (seats : list ref) (step : Z).
Hypothesis Hn : 0 < n.
Hypothesis Hstep : 0 ≤ step.

Lemma turn_loop_Hang_iff (fuel : nat) :
  ∀ s, 0 ≤ s →
    turn_loop fuel h n seats step s = Hang
    ↔ ∀ k : nat, (1 ≤ k ≤ fuel)%nat → passed_over h seats ((s + Z.of_nat k * step) mod n).
Proof.
  induction fuel as [|fuel IH]; intros s Hs.
  - split; [intros _ k Hk; lia | reflexivity].
  - cbn [turn_loop]. rewrite Z.rem_mod_nonneg by lia.
    assert (Hrange : 0 ≤ (s + step) mod n < n) by (apply Z.mod_pos_bound; lia).
    assert (Hshift : ∀ k : nat,
               ((s + step) mod n + Z.of_nat k * step) mod n
               = (s + Z.of_nat (S k) * step) mod n).
    { intros k. rewrite Zplus_mod_idemp_l. f_equal. lia. }
    split.
    + intros Hhang k Hk.
      destruct (at_index seats ((s + step) mod n)) as [r|] eqn:Hr; [|discriminate].
      destruct (playerStatus (h r)) as [ps|] eqn:Hps; [|discriminate].
      destruct (can_act ps) eqn:Hca; [discriminate|].
      destruct k as [|[|k]]; [lia| |].
      * replace (s + Z.of_nat 1 * step) with (s + step) by lia. exists r, ps. auto.
      * rewrite <- Hshift. apply (proj1 (IH _ (proj1 Hrange)) Hhang). lia.
    + intros Hall.
      destruct (Hall 1%nat ltac:(lia)) as (r & ps & Hr & Hps & Hca).
      replace (s + Z.of_nat 1 * step) with (s + step) in Hr by lia.
      rewrite Hr, Hps, Hca. apply (IH _ (proj1 Hrange)).
      intros k Hk. rewrite Hshift. apply Hall. lia.
Qed.

(** When the loop has not stopped after [n] iterations, it never stops:
    the walk has period [n]. *)
Lemma turn_loop_Hang_forever (s : Z) :
  0 ≤ s →
  turn_loop (Z.abs_nat n) h n seats step s = Hang →
  ∀ fuel, turn_loop fuel h n seats step s = Hang.
Proof.
  intros Hs Hhang fuel.
  apply (turn_loop_Hang_iff fuel s Hs). intros k Hk.
  pose proof (proj1 (turn_loop_Hang_iff _ s Hs) Hhang) as Hall.
  set (k' := Z.to_nat ((Z.of_nat k - 1) mod n + 1)).
  assert (Hb : 0 ≤ (Z.of_nat k - 1) mod n < n) by (apply Z.mod_pos_bound; lia).
  specialize (Hall k' ltac:(unfold k'; lia)).
  replace ((s + Z.of_nat k * step) mod n) with ((s + Z.of_nat k' * step) mod n);
    [exact Hall|].
  unfold k'. rewrite Z2Nat.id by lia.
  set (r := (Z.of_nat k - 1) mod n) in *.
  set (q := (Z.of_nat k - 1) `div` n).
  assert (E : Z.of_nat k = r + 1 + q * n).
  { pose proof (Z.div_mod (Z.of_nat k - 1) n ltac:(lia)). unfold r, q. lia. }
  rewrite E.
  replace (s + (r + 1 + q * n) * step) with (s + (r + 1) * step + (q * step) * n) by ring.
  rewrite Z_mod_plus_full. reflexivity.
Qed.
End TurnLoopHangs.

(** The settlement loop returns: under the contract of Hand.winners every
    round removes a hand from [subHands]. *)
Lemma filter_length_le {A} (f : A → bool) (l : list A) :
  (length (List.filter f l) ≤ length l)%nat.
Proof.
  induction l as [|x l IH]; simpl; [lia|]. destruct (f x); simpl; lia.
Qed.

Lemma filter_length_lt {A} (f : A → bool) (l : list A) (x : A) :
  x ∈ l → f x = false → (length (List.filter f l) < length l)%nat.
Proof.
  induction l as [|y l IH]; intros Hin Hf; [inversion Hin|].
  simpl. apply elem_of_cons in Hin as [<-|Hin].
  - rewrite Hf. pose proof (filter_length_le f l). lia.
  - specialize (IH Hin Hf). destruct (f y); simpl; lia.
Qed.

(** A call that does not hang. *)
Definition returns {A} (m : M A) : Prop := ∀ t, (m t).1 ≠ Hang.

Lemma returns_bind {A B} (m : M A) (k : A → M B) :
  returns m → (∀ a, returns (k a)) → returns (bind m k).
Proof.
  intros Hm Hk t. unfold bind. specialize (Hm t).
  destruct (m t) as [[a| |] t1]; cbn in *; [apply Hk|congruence|congruence].
Qed.

Lemma returns_defined {A} (o : option A) : returns (defined o).
Proof. intros t. destruct o; cbn; congruence. Qed.

Lemma returns_write_player r f : returns (write_player r f).
Proof. intros t. cbn. congruence. Qed.

Lemma returns_write_game f : returns (write_game f).
Proof. intros t. unfold write_game. destruct (gameStatus (room t)); cbn; congruence. Qed.

Lemma pay_winner_returns {PS : PokerSolver} hands subHands nwinners winner index t :
  (pay_winner hands subHands nwinners winner index t).1 ≠ Hang.
Proof.
  revert t. change (returns (pay_winner hands subHands nwinners winner index)).
  unfold pay_winner, get_seats, write_status.
  repeat first
    [ apply returns_bind; [|intros ?]
    | apply returns_defined
    | apply returns_write_player
    | apply returns_write_game
    | match goal with
      | |- returns (match ?x with _ => _ end) => destruct x
      end
    | intros ?; cbn; congruence ].
Qed.

Lemma forEach_pay_returns {PS : PokerSolver} hands subHands nwinners (ws : list HandObj) :
  ∀ i t, (forEach_from (pay_winner hands subHands nwinners) ws i t).1 ≠ Hang.
Proof.
  induction ws as [|w ws IH]; intros i t; cbn [forEach_from].
  - cbn. congruence.
  - unfold bind.
    pose proof (pay_winner_returns hands subHands nwinners w i t) as Hp.
    destruct (pay_winner hands subHands nwinners w i t) as [[[]| |] t1]; cbn in *;
      [apply IH|congruence|congruence].
Qed.

Lemma settle_loop_returns {PS : PokerSolver} (fuel : nat) :
  winners_contract →
  ∀ hands sub t, (length sub < fuel)%nat → (settle_loop fuel hands sub t).1 ≠ Hang.
Proof.
  intros contract. induction fuel as [|fuel IH]; intros hands sub t Hlen; [lia|].
  cbn [settle_loop]. rewrite bind_get_room.
  destruct (gameStatus (room t)) as [gs|]; [|cbn; congruence].
  rewrite (bind_defined_Some _ gs) by reflexivity.
  destruct (pot gs =? 0); [cbn; congruence|].
  destruct sub as [|x sub]; [cbn; congruence|].
  set (hs := x :: sub) in *.
  destruct (contract hs ltac:(discriminate)) as [Hne Hsub].
  unfold bind, forEach.
  match goal with
  | |- context [forEach_from ?f ?l ?i ?t] =>
      pose proof (forEach_pay_returns hands
                    (List.filter (fun hand => negb (includes_hand (winners hs) hand)) hs)
                    (Z.of_nat (length (winners hs))) (winners hs) 0 t) as Hp;
      destruct (forEach_from f l i t) as [[[]| |] t1]
  end; cbn in Hp |- *; [|congruence|congruence].
  apply IH.
  destruct (winners hs) as [|w ws] eqn:Hw; [contradiction|].
  assert (Hin : w ∈ hs).
  { eapply sublist_subseteq; [exact Hsub|]. left. }
  pose proof (filter_length_lt
                (fun hand => negb (includes_hand (w :: ws) hand)) hs w Hin) as Hlt.
  assert (Hinc : negb (includes_hand (w :: ws) w) = false).
  { cbn. unfold same_hand. rewrite bool_decide_eq_true_2 by reflexivity. reflexivity. }
  specialize (Hlt Hinc).
  change (length (List.filter (fun hand => negb (includes_hand (w :: ws) hand)) hs)
          < fuel)%nat.
  lia.
Qed.

Lemma returns_forEach_from {A} (f : A → Z → M unit) (a : list A) :
  (∀ x i, returns (f x i)) → ∀ i, returns (forEach_from f a i).
Proof.
  intros Hf. induction a as [|x a IH]; intros i; cbn [forEach_from].
  - intros t. cbn. congruence.
  - apply returns_bind; [apply Hf|intros _; apply IH].
Qed.

Lemma hands_from_returns {PS : PokerSolver} h gs seats :
  ∀ index, hands_from h gs seats index ≠ Hang.
Proof.
  induction seats as [|r seats IH]; intros index; cbn [hands_from]; [congruence|].
  unfold hand_of.
  specialize (IH (S index)).
  repeat case_match; cbn; try congruence;
    destruct (hands_from h gs seats (S index)); cbn; congruence.
Qed.

(** checkWinning returns: the fuel given to the settlement loop, one more
    than the number of live hands, is never used up. *)
Lemma checkWinning_returns {PS : PokerSolver} {CF : Config} (c : Conn) :
  winners_contract → returns (checkWinning c).
Proof.
  intros contract. unfold checkWinning, get_seats, emit_to.
  repeat first
    [ (intros t0; apply settle_loop_returns; [exact contract|lia])
    | (intros t0; unfold forEach; apply returns_forEach_from; intros ? ?)
    | match goal with
      | |- returns (lift (hands_from ?h ?gs ?seats ?i)) =>
          let t := fresh "t" in
          intros t; pose proof (hands_from_returns h gs seats i);
          unfold lift; destruct (hands_from h gs seats i); cbn; congruence
      end
    | apply returns_bind; [|intros ?]
    | apply returns_defined
    | apply returns_write_player
    | apply returns_write_game
    | match goal with
      | |- returns (match ?x with _ => _ end) => destruct x
      end
    | (intros ?; cbn; congruence) ].
Qed.

(** ** Lookups by id: getIndex, getPlayerIndex, getRoom *)

Lemma indexOf_from_first {A} (is_x : A → bool) (a : list A) :
  ∀ i0,
    (indexOf_from is_x a i0 = -1 ∧ ∀ y, y ∈ a → is_x y = false)
    ∨ ∃ (k : nat) (y : A),
        indexOf_from is_x a i0 = i0 + Z.of_nat k
        ∧ a !! k = Some y ∧ is_x y = true
        ∧ ∀ (j : nat) z, (j < k)%nat → a !! j = Some z → is_x z = false.
Proof.
  induction a as [|x a IH]; intros i0; cbn [indexOf_from].
  - left. split; [reflexivity|]. intros y Hy. inversion Hy.
  - destruct (is_x x) eqn:Hx.
    + right. exists 0%nat, x. repeat split; [lia|exact Hx|]. intros j z Hj. lia.
    + destruct (IH (i0 + 1)) as [[Hm Hall] | (k & y & Hk & Hy & Hxy & Hmin)].
      * left. split; [exact Hm|]. intros y Hy.
        apply elem_of_cons in Hy as [->|Hy]; [exact Hx | apply Hall, Hy].
      * right. exists (S k), y. repeat split; [lia|exact Hy|exact Hxy|].
        intros [|j] z Hj Hz; [cbn in Hz; congruence|].
        apply (Hmin j z); [lia|exact Hz].
Qed.

Lemma at_index_of_nat {A} (a : list A) (k : nat) : at_index a (Z.of_nat k) = a !! k.
Proof.
  unfold at_index. destruct (Z.ltb_spec (Z.of_nat k) 0); [lia|].
  rewrite Nat2Z.id. reflexivity.
Qed.

Lemma at_index_minus_one {A} (a : list A) : at_index a (-1) = None.
Proof. reflexivity. Qed.

(** [indexOf] returns the first position whose entry passes the test, and
    -1 exactly when no entry does. *)
Lemma indexOf_first {A} (is_x : A → bool) (a : list A) :
  (indexOf is_x a = -1 ∧ ∀ y, y ∈ a → is_x y = false)
  ∨ ∃ y, 0 ≤ indexOf is_x a < Z.of_nat (length a)
         ∧ at_index a (indexOf is_x a) = Some y ∧ is_x y = true
         ∧ ∀ j z, 0 ≤ j < indexOf is_x a → at_index a j = Some z → is_x z = false.
Proof.
  unfold indexOf.
  destruct (indexOf_from_first is_x a 0) as [H | (k & y & Hk & Hy & Hxy & Hmin)].
  - left. exact H.
  - right. exists y. rewrite Hk, Z.add_0_l.
    split; [apply lookup_lt_Some in Hy; lia|].
    split; [rewrite at_index_of_nat; exact Hy|]. split; [exact Hxy|].
    intros j z Hj Hz. apply (Hmin (Z.to_nat j) z); [lia|].
    rewrite <- at_index_of_nat, Z2Nat.id by lia. exact Hz.
Qed.

(** X1. getIndex and getPlayerIndex.  The index returned for an id is -1
    exactly when no socket (no player) has the id, and the array has no
    entry there; otherwise it is the first position holding the id. *)
Theorem getIndex_first_or_missing (sockets : list string) (h : Store) (players : list ref)
    (id : string) :
  let i := getIndex sockets id in
  let p := getPlayerIndex h players id in
  ((i = -1 ∧ (id ∉ sockets) ∧ at_index sockets i = None)
   ∨ (0 ≤ i < Z.of_nat (length sockets) ∧ at_index sockets i = Some id
      ∧ ∀ j, 0 ≤ j < i → at_index sockets j ≠ Some id))
  ∧ ((p = -1 ∧ (∀ r, r ∈ players → pid (h r) ≠ id) ∧ at_index players p = None)
     ∨ (∃ r, 0 ≤ p < Z.of_nat (length players) ∧ at_index players p = Some r
             ∧ pid (h r) = id
             ∧ ∀ j r', 0 ≤ j < p → at_index players j = Some r' → pid (h r') ≠ id)).
Proof.
  intros i p. split.
  - subst i. unfold getIndex.
    destruct (indexOf_first (same_string id) sockets) as [[Hm Hall] | (y & Hr & Hy & Hxy & Hmin)].
    + left. rewrite Hm. split; [reflexivity|]. split; [|reflexivity].
      intros Hin. specialize (Hall id Hin). unfold same_string in Hall.
      rewrite bool_decide_eq_true_2 in Hall by reflexivity. discriminate.
    + right. unfold same_string in Hxy. apply bool_decide_eq_true_1 in Hxy. subst y.
      split; [exact Hr|]. split; [exact Hy|].
      intros j Hj Hz. specialize (Hmin j id Hj Hz). unfold same_string in Hmin.
      rewrite bool_decide_eq_true_2 in Hmin by reflexivity. discriminate.
  - subst p. unfold getPlayerIndex.
    destruct (indexOf_first (fun r => same_string id (pid (h r))) players)
      as [[Hm Hall] | (y & Hr & Hy & Hxy & Hmin)].
    + left. rewrite Hm. split; [reflexivity|]. split; [|reflexivity].
      intros r Hin Heq. specialize (Hall r Hin). cbv beta in Hall. unfold same_string in Hall.
      rewrite bool_decide_eq_true_2 in Hall by congruence. discriminate.
    + right. exists y. unfold same_string in Hxy. apply bool_decide_eq_true_1 in Hxy.
      split; [exact Hr|]. split; [exact Hy|]. split; [congruence|].
      intros j r' Hj Hz Heq. specialize (Hmin j r' Hj Hz). cbv beta in Hmin.
      unfold same_string in Hmin.
      rewrite bool_decide_eq_true_2 in Hmin by congruence. discriminate.
Qed.

(** X2. getRoom.  The room returned for an id is the first room of
    [this.rooms] with that id; nothing is returned exactly when no room has
    the id. *)
Theorem getRoom_first_or_missing (rooms : list (Room ref)) (id : string) :
  match getRoom rooms id with
  | Some (i, rm) =>
      rooms !! i = Some rm ∧ rid rm = id
      ∧ ∀ j rm', (j < i)%nat → rooms !! j = Some rm' → rid rm' ≠ id
  | None => ∀ rm, rm ∈ rooms → rid rm ≠ id
  end.
Proof.
  unfold getRoom.
  destruct (indexOf_first (fun r => same_string id (rid r)) rooms)
    as [[Hm Hall] | (y & Hr & Hy & Hxy & Hmin)].
  - rewrite Hm, at_index_minus_one. intros rm Hin Heq.
    specialize (Hall rm Hin). cbv beta in Hall. unfold same_string in Hall.
    rewrite bool_decide_eq_true_2 in Hall by congruence. discriminate.
  - rewrite Hy. unfold same_string in Hxy. apply bool_decide_eq_true_1 in Hxy.
    set (idx := indexOf _ rooms) in *.
    split; [|split; [congruence|]].
    + rewrite <- at_index_of_nat, Z2Nat.id by lia. exact Hy.
    + intros j rm' Hj Hz Heq.
      specialize (Hmin (Z.of_nat j) rm'). cbv beta in Hmin. unfold same_string in Hmin.
      rewrite bool_decide_eq_true_2 in Hmin by congruence.
      enough (true = false) by discriminate. apply Hmin; [lia|].
      rewrite at_index_of_nat. exact Hz.
Qed.

(** ** cardString *)

(** X3. cardString on the 52 card ids.  The string of card [c] is the rank
    character at [c mod 13] of 23456789TJQKA followed by the suit character
    at [c / 13] of dchs, and the 52 strings are distinct. *)
Theorem cardString_of_deck :
  Forall (fun c =>
            Some (cardString c)
            = (rank ← rank_chars !! Z.to_nat (c mod 13);
               suit ← suit_chars !! Z.to_nat (c / 13);
               Some (String rank (String suit EmptyString))))
         cardIds
  ∧ NoDup (map cardString cardIds).
Proof.
  split.
  - apply (bool_decide_unpack _). vm_compute. reflexivity.
  - apply (bool_decide_unpack _). vm_compute. reflexivity.
Qed.

(** ** The redaction projections, composed *)

(** X4. The projections commute: the seat list, gameStatus and the deck can
    be cut in any order, and cutting the deck of a room whose gameStatus is
    cut changes nothing.  cutPlayersCards maps over the seat list: after
    cutPlayers it throws. *)
Theorem redaction_commutes (r : Room Player) :
  cutPlayers (cutGameStatus r) = cutGameStatus (cutPlayers r)
  ∧ cutPlayers (cutRoomCards r) = cutRoomCards (cutPlayers r)
  ∧ cutGameStatus (cutRoomCards r) = cutGameStatus r
  ∧ cutRoomCards (cutGameStatus r) = cutGameStatus r
  ∧ cutPlayersCards (cutRoomCards r)
    = res_bind (cutPlayersCards r) (fun r' => Ok (cutRoomCards r'))
  ∧ cutPlayersCards (cutGameStatus r)
    = res_bind (cutPlayersCards r) (fun r' => Ok (cutGameStatus r'))
  ∧ cutPlayersCards (cutPlayers r) = Throw.
Proof.
  unfold cutPlayers, cutGameStatus, cutRoomCards, cutPlayersCards.
  destruct r as [i n c s k ps gs]. cbn.
  repeat split; try reflexivity;
    destruct gs as [g|]; [destruct (cards g) eqn:E| |destruct (cards g) eqn:E| |
                          destruct (cards g) eqn:E| | |];
    destruct ps; cbn; rewrite ?E; reflexivity.
Qed.

Lemma cutCards_public (p : Player) :
  public_player (cutCards p) = public_player p
  ∧ ∀ ps, playerStatus (cutCards p) = Some ps → deck ps = None.
Proof.
  unfold cutCards, public_player. destruct (playerStatus p) as [ps|] eqn:E; cbn.
  - split; [reflexivity|]. intros ps' H. inversion H; subst. reflexivity.
  - rewrite E. split; [reflexivity|]. intros ps' H. discriminate.
Qed.

(** X5. The room sent to the seats, [cutPlayersCards(cutRoomCards(room))]:
    no seat of it carries hole cards and its gameStatus carries no deck;
    the other fields of the seats and of gameStatus, and the fields of the
    room, are those of the room.  The creator is passed on as the object it
    is. *)
Theorem member_view_hides_cards (r shown : Room Player) :
  cutPlayersCards (cutRoomCards r) = Ok shown →
  no_cards shown
  ∧ rid shown = rid r ∧ rname shown = rname r ∧ started shown = started r
  ∧ numberOfPlayers shown = numberOfPlayers r
  ∧ creator shown = creator r
  ∧ map public_player <$> players shown = map public_player <$> players r
  ∧ public_game <$> gameStatus shown = public_game <$> gameStatus r.
Proof.
  destruct r as [i n c s k ps gs].
  unfold cutPlayersCards, cutRoomCards, no_cards. cbn.
  intros H.
  assert (Hps : ∃ seats, ps = Some seats
                         ∧ players shown = Some (map cutCards seats)
                         ∧ rid shown = i ∧ rname shown = n ∧ started shown = s
                         ∧ numberOfPlayers shown = k ∧ creator shown = c
                         ∧ public_game <$> gameStatus shown = public_game <$> gs
                         ∧ ∀ g, gameStatus shown = Some g → cards g = None).
  { destruct gs as [g|]; [destruct (cards g) eqn:Ec|]; cbn in H;
      destruct ps as [seats|]; inversion H; subst; clear H; cbn;
      exists seats; repeat split; try reflexivity;
      intros g' Hg'; inversion Hg'; subst; try reflexivity; try exact Ec. }
  destruct Hps as (seats & -> & Hs & Hi & Hn & Hst & Hk & Hc & Hg & Hcards).
  split; [split|].
  - intros seats' p ps' Hs' Hin Hp. rewrite Hs in Hs'. inversion Hs'; subst seats'.
    apply list_elem_of_fmap in Hin as (q & -> & _).
    exact (proj2 (cutCards_public q) ps' Hp).
  - exact Hcards.
  - repeat split; try assumption.
    rewrite Hs. cbn. f_equal. rewrite <- list_fmap_compose.
    apply list_fmap_ext. intros j q _. cbn. apply cutCards_public.
Qed.

Lemma member_view_hides_cards_witness :
  let r := view tie_store tie_room in
  ∃ shown, cutPlayersCards (cutRoomCards r) = Ok shown
           ∧ no_cards shown
           ∧ map public_player <$> players shown = map public_player <$> players r.
Proof.
  intros r. eexists. split; [reflexivity|].
  destruct (member_view_hides_cards r _ eq_refl) as (H1 & _ & _ & _ & _ & _ & H2 & _).
  split; [exact H1|exact H2].
Defined.

(** ** When nextTurn and prevTurn do not return *)

Lemma passed_over_not_eligible h seats i :
  passed_over h seats i ↔ (∃ r, at_index seats i = Some r) ∧ ¬ eligible_at h seats i.
Proof.
  unfold passed_over, eligible_at, eligible. split.
  - intros (r & ps & Hr & Hps & Hca). split; [eauto|].
    intros (r' & Hr' & He). rewrite Hr in Hr'. inversion Hr'; subst r'.
    rewrite Hps, Hca in He. discriminate.
  - intros [[r Hr] Hne]. destruct (playerStatus (h r)) as [ps|] eqn:Hps.
    + destruct (can_act ps) eqn:Hca.
      * exfalso. apply Hne. exists r. rewrite Hps. auto.
      * exists r, ps. auto.
    + exfalso. apply Hne. exists r. rewrite Hps. auto.
Qed.

(** Every seat index is met within [n] steps of a walk by +1 or by -1 + n. *)
Lemma walk_covers (n s i : Z) (back : bool) :
  0 < n → 0 ≤ i < n →
  ∃ k : nat, (1 ≤ k ≤ Z.abs_nat n)%nat
             ∧ (s + Z.of_nat k * (if back then -1 + n else 1)) mod n = i.
Proof.
  intros Hn Hi. destruct back.
  - exists (Z.to_nat ((s - i - 1) mod n + 1)).
    assert (Hb : 0 ≤ (s - i - 1) mod n < n) by (apply Z.mod_pos_bound; lia).
    split; [lia|]. rewrite Z2Nat.id by lia.
    replace (s + ((s - i - 1) mod n + 1) * (-1 + n))
      with ((s - 1) - (s - i - 1) mod n + ((s - i - 1) mod n + 1) * n) by ring.
    rewrite Z_mod_plus_full, Zminus_mod_idemp_r.
    replace (s - 1 - (s - i - 1)) with i by lia. apply Z.mod_small. lia.
  - exists (Z.to_nat ((i - s - 1) mod n + 1)).
    assert (Hb : 0 ≤ (i - s - 1) mod n < n) by (apply Z.mod_pos_bound; lia).
    split; [lia|]. rewrite Z2Nat.id by lia.
    replace (s + ((i - s - 1) mod n + 1) * 1) with ((s + 1) + (i - s - 1) mod n) by lia.
    rewrite Zplus_mod_idemp_r.
    replace (s + 1 + (i - s - 1)) with i by lia. apply Z.mod_small. lia.
Qed.

Lemma turn_walk_Hang_iff (h : Store) (room : Room ref) (gs : GameStatus)
    (seats : list ref) (turn : option Z) (back : bool) :
  gameStatus room = Some gs →
  players room = Some seats →
  numberOfPlayers room = Z.of_nat (length seats) →
  seats ≠ [] →
  0 ≤ turn_or_playTurn gs turn →
  turn_walk h room (if back then -1 + numberOfPlayers room else 1) turn = Hang
  ↔ ∀ r, r ∈ seats → ∃ ps, playerStatus (h r) = Some ps ∧ can_act ps = false.
Proof.
  intros Hgs Hseats Hcount Hne Hstart.
  assert (Hn : 0 < numberOfPlayers room).
  { rewrite Hcount. destruct seats; [contradiction|]. cbn [length]. lia. }
  unfold turn_walk. rewrite Hgs, Hseats.
  destruct (Z.eqb_spec (numberOfPlayers room) 0) as [?|_]; [lia|].
  set (n := numberOfPlayers room) in *.
  set (step := if back then -1 + n else 1).
  assert (Hstep : 0 ≤ step) by (unfold step; destruct back; lia).
  rewrite (turn_loop_Hang_iff h n seats step Hn Hstep _ _ Hstart).
  split.
  - intros Hall r Hr.
    apply list_elem_of_lookup in Hr as [i Hi].
    assert (Hlt : 0 ≤ Z.of_nat i < n) by (apply lookup_lt_Some in Hi; lia).
    destruct (walk_covers n (turn_or_playTurn gs turn) (Z.of_nat i) back Hn Hlt)
      as (k & Hk & Hki).
    destruct (Hall k Hk) as (r' & ps & Hr' & Hps & Hca).
    fold step in Hki. rewrite Hki, at_index_of_nat, Hi in Hr'.
    inversion Hr'; subst r'. eauto.
  - intros Hall k Hk.
    assert (Hb : 0 ≤ (turn_or_playTurn gs turn + Z.of_nat k * step) mod n < n)
      by (apply Z.mod_pos_bound; lia).
    destruct (at_index_Some seats _ ltac:(rewrite <- Hcount; exact Hb)) as [r Hr].
    destruct (Hall r (at_index_elem_of _ _ _ Hr)) as (ps & Hps & Hca).
    exists r, ps. auto.
Qed.

(** X6. nextTurn and prevTurn never return exactly when no seat can act.
    In a room with an active round whose player count is its number of
    seats (at least one), the loop of nextTurn, and that of prevTurn, runs
    for ever if and only if every seat has a playerStatus with status FOLD,
    BUST or ALLIN. *)
Theorem turn_never_returns_iff (h : Store) (room : Room ref) (gs : GameStatus)
    (seats : list ref) (turn : option Z) :
  gameStatus room = Some gs →
  players room = Some seats →
  numberOfPlayers room = Z.of_nat (length seats) →
  seats ≠ [] →
  0 ≤ turn_or_playTurn gs turn →
  let nobody_can_act :=
    ∀ r, r ∈ seats →
         ∃ ps, playerStatus (h r) = Some ps ∧ status ps ∈ [FOLD; BUST; ALLIN] in
  (nextTurn h room turn = Hang ↔ nobody_can_act)
  ∧ (prevTurn h room turn = Hang ↔ nobody_can_act).
Proof.
  intros Hgs Hseats Hcount Hne Hstart nobody.
  assert (Hsame : nobody ↔
                  ∀ r, r ∈ seats → ∃ ps, playerStatus (h r) = Some ps ∧ can_act ps = false).
  { unfold nobody. split; intros Hall r Hr; destruct (Hall r Hr) as (ps & Hps & Hst);
      exists ps; (split; [exact Hps|]); unfold can_act in *.
    - destruct (status ps); try reflexivity; exfalso;
        repeat (apply elem_of_cons in Hst as [Hst|Hst]; [discriminate|]);
        inversion Hst.
    - destruct (status ps); try discriminate;
        repeat first [apply list_elem_of_here | apply list_elem_of_further]. }
  rewrite Hsame. split.
  - apply (turn_walk_Hang_iff h room gs seats turn false); assumption.
  - apply (turn_walk_Hang_iff h room gs seats turn true); assumption.
Qed.

(** A room of one seat that has folded. *)
Lemma turn_never_returns_iff_witness :
  let h : Store := fun r => player_of r 0 (Some (mkPlayerStatus 0 0 FOLD None 0 None)) in
  let rm := mkRoom "r1" "table" 0%nat true 1 (Some [0%nat])
              (Some (mkGameStatus 1 false 0 0 0 0 [] None 0)) in
  nextTurn h rm None = Hang ∧ prevTurn h rm None = Hang.
Proof.
  intros h rm.
  destruct (turn_never_returns_iff h rm (mkGameStatus 1 false 0 0 0 0 [] None 0)
              [0%nat] None) as [[_ Hn] [_ Hp]].
  { reflexivity. }
  { reflexivity. }
  { reflexivity. }
  { discriminate. }
  { vm_compute. discriminate. }
  assert (Hall : ∀ r, r ∈ [0%nat] →
                      ∃ ps, playerStatus (h r) = Some ps ∧ status ps ∈ [FOLD; BUST; ALLIN]).
  { intros r _. eexists. split; [reflexivity|]. left. }
  split; [exact (Hn Hall) | exact (Hp Hall)].
Defined.

(** ** prevTurn after nextTurn *)

(** X7. Stepping back undoes stepping forward.  When nextTurn, started at
    an eligible seat, returns seat [j], prevTurn started at [j] returns the
    seat nextTurn started from; [j] is passed as the turn, which the
    program reads as playTurn when it is 0. *)
Theorem prevTurn_undoes_nextTurn (h : Store) (room : Room ref) (gs : GameStatus)
    (seats : list ref) (turn : option Z) (j : Z) :
  gameStatus room = Some gs →
  players room = Some seats →
  numberOfPlayers room = Z.of_nat (length seats) →
  eligible_at h seats (turn_or_playTurn gs turn) →
  nextTurn h room turn = Ok j →
  turn_or_playTurn gs (Some j) = j →
  prevTurn h room (Some j) = Ok (turn_or_playTurn gs turn).
Proof.
  intros Hgs Hseats Hcount Hel Hnext Hj.
  set (start := turn_or_playTurn gs turn) in *.
  assert (Hrange : 0 ≤ start < Z.of_nat (length seats)).
  { destruct Hel as (r & Hr & _). unfold at_index in Hr.
    destruct (Z.ltb_spec start 0); [discriminate|].
    apply lookup_lt_Some in Hr. lia. }
  assert (Helig : (1 ≤ length (eligible_seats h seats))%nat).
  { destruct Hel as (r & Hr & He).
    assert (Hin : r ∈ eligible_seats h seats).
    { apply list_elem_of_filter. split; [exact He|]. eapply at_index_elem_of; eauto. }
    destruct (eligible_seats h seats); [inversion Hin|cbn; lia]. }
  set (n := numberOfPlayers room) in *.
  assert (Hn : 0 < n) by lia.
  destruct (nextTurn_first_eligible h room gs seats turn Hgs Hseats Hcount
              ltac:(fold start; lia) Helig) as (t & k & Ht & Helt & Hk & Heq & Hmin).
  fold start in Heq, Hmin. fold n in Hk, Heq, Hmin.
  assert (Htj : t = j) by congruence.
  rewrite Htj in Helt, Heq. clear Ht Htj.
  assert (Hj0 : 0 ≤ j < n) by (rewrite Heq; apply Z.mod_pos_bound; lia).
  destruct (prevTurn_first_eligible h room gs seats (Some j) Hgs Hseats Hcount
              ltac:(rewrite Hj; lia) Helig) as (t' & k' & Ht' & Helt' & Hk' & Heq' & Hmin').
  rewrite Hj in Heq', Hmin'. fold n in Hk', Heq', Hmin'.
  rewrite Ht'. f_equal.
  assert (Hback : ∀ m, (j - m) mod n = (start + (k - m)) mod n).
  { intros m. rewrite Heq, Zminus_mod_idemp_l. f_equal. lia. }
  assert (Hkk : k' = k).
  { destruct (Z.lt_trichotomy k' k) as [Hlt|[Heq2|Hgt]]; [|exact Heq2|].
    - exfalso. apply (Hmin (k - k')); [lia|].
      rewrite <- Hback, <- Heq'. exact Helt'.
    - exfalso. apply (Hmin' k); [lia|].
      rewrite Hback. replace (start + (k - k)) with start by lia.
      rewrite Z.mod_small by lia. exact Hel. }
  rewrite Heq', Hkk, Hback. replace (start + (k - k)) with start by lia.
  apply Z.mod_small. lia.
Qed.

Lemma prevTurn_undoes_nextTurn_witness :
  let h := objects round_server in
  let rm := default lobby_room (rooms round_server !! 0%nat) in
  nextTurn h rm None = Ok 2 ∧ prevTurn h rm (Some 2) = Ok 1.
Proof.
  intros h rm.
  destruct (gameStatus rm) as [gs|] eqn:Hg; [|vm_compute in Hg; discriminate].
  assert (Hgs : gs = default gs (gameStatus rm)) by (rewrite Hg; reflexivity).
  assert (Hturn : turn_or_playTurn gs None = 1) by (rewrite Hgs; vm_compute; reflexivity).
  assert (Hnext : nextTurn h rm None = Ok 2) by (vm_compute; reflexivity).
  split; [exact Hnext|].
  rewrite <- Hturn.
  apply (prevTurn_undoes_nextTurn h rm gs [0; 1; 2]%nat None 2 Hg).
  - reflexivity.
  - reflexivity.
  - rewrite Hturn. exists 1%nat. split; [reflexivity|]. vm_compute. reflexivity.
  - exact Hnext.
  - reflexivity.
Defined.

(** ** The registry of sockets and players *)

Lemma indexOf_from_app {A} (is_x : A → bool) (a b : list A) :
  ∀ i0, 0 ≤ i0 →
    indexOf_from is_x (a ++ b) i0
    = if indexOf_from is_x a i0 =? -1
      then indexOf_from is_x b (i0 + Z.of_nat (length a))
      else indexOf_from is_x a i0.
Proof.
  induction a as [|x a IH]; intros i0 Hi0; cbn [indexOf_from app length].
  - rewrite Z.add_0_r. reflexivity.
  - destruct (is_x x).
    + destruct (Z.eqb_spec i0 (-1)); [lia|reflexivity].
    + rewrite IH by lia. rewrite Nat2Z.inj_succ.
      replace (i0 + 1 + Z.of_nat (length a)) with (i0 + Z.succ (Z.of_nat (length a))) by lia.
      reflexivity.
Qed.

Lemma indexOf_from_shift {A} (is_x : A → bool) (a : list A) (i0 : Z) :
  0 ≤ i0 →
  indexOf_from is_x a i0
  = if indexOf is_x a =? -1 then -1 else i0 + indexOf is_x a.
Proof.
  intros Hi0. unfold indexOf.
  destruct (indexOf_from_first is_x a i0) as [[Hm Hall] | (k & y & Hk & Hy & Hxy & Hmin)];
    destruct (indexOf_from_first is_x a 0) as [[Hm0 Hall0] | (k0 & y0 & Hk0 & Hy0 & Hxy0 & Hmin0)].
  - rewrite Hm, Hm0. reflexivity.
  - rewrite (Hall y0) in Hxy0 by (eapply list_elem_of_lookup_2; eauto). discriminate.
  - rewrite (Hall0 y) in Hxy by (eapply list_elem_of_lookup_2; eauto). discriminate.
  - rewrite Hk, Hk0. destruct (Z.eqb_spec (0 + Z.of_nat k0) (-1)); [lia|].
    destruct (Nat.lt_trichotomy k k0) as [Hlt|[->|Hgt]]; [|lia|].
    + rewrite (Hmin0 k y Hlt Hy) in Hxy. discriminate.
    + rewrite (Hmin k0 y0 Hgt Hy0) in Hxy0. discriminate.
Qed.

Lemma indexOf_app {A} (is_x : A → bool) (a b : list A) :
  indexOf is_x (a ++ b)
  = if indexOf is_x a =? -1
    then (if indexOf is_x b =? -1 then -1 else Z.of_nat (length a) + indexOf is_x b)
    else indexOf is_x a.
Proof.
  unfold indexOf at 1. rewrite indexOf_from_app by lia.
  fold (indexOf is_x a). destruct (indexOf is_x a =? -1); [|reflexivity].
  rewrite indexOf_from_shift by lia. reflexivity.
Qed.

Lemma indexOf_missing {A} (is_x : A → bool) (a : list A) :
  (∀ y, y ∈ a → is_x y = false) → indexOf is_x a = -1.
Proof.
  intros Hall. destruct (indexOf_first is_x a) as [[Hm _] | (y & _ & Hy & Hxy & _)];
    [exact Hm|].
  rewrite (Hall y) in Hxy by (eapply at_index_elem_of; eauto). discriminate.
Qed.

Lemma indexOf_cons {A} (is_x : A → bool) (x : A) (a : list A) :
  indexOf is_x (x :: a)
  = if is_x x then 0 else if indexOf is_x a =? -1 then -1 else 1 + indexOf is_x a.
Proof.
  unfold indexOf at 1. cbn [indexOf_from]. destruct (is_x x); [reflexivity|].
  apply indexOf_from_shift. lia.
Qed.

(** The player of a socket, when the same position is removed from
    [this.sockets] and [this.players]. *)
Lemma lookup_after_delete (sockets : list string) (members : list ref)
    (socketId sock : string) :
  sock ≠ socketId →
  0 ≤ getIndex sockets socketId →
  let i := Z.to_nat (getIndex sockets socketId) in
  at_index (delete i members) (getIndex (delete i sockets) sock)
  = at_index members (getIndex sockets sock).
Proof.
  intros Hne Hfound i.
  destruct (indexOf_first (same_string socketId) sockets)
    as [[Hm _] | (y & Hr & Hy & Hxy & Hmin)]; [unfold getIndex in Hfound; lia|].
  unfold same_string in Hxy. apply bool_decide_eq_true_1 in Hxy. subst y.
  fold (getIndex sockets socketId) in Hr, Hy, Hmin.
  assert (Hi : sockets !! i = Some socketId).
  { unfold i. rewrite <- at_index_of_nat, Z2Nat.id by lia. exact Hy. }
  assert (Hsplit : sockets = take i sockets ++ socketId :: drop (S i) sockets)
    by (symmetry; apply take_drop_middle; exact Hi).
  assert (Hlen : length (take i sockets) = i).
  { rewrite length_take. apply lookup_lt_Some in Hi. lia. }
  rewrite (delete_take_drop sockets i).
  unfold getIndex. rewrite Hsplit at 3.
  rewrite !indexOf_app, indexOf_cons, Hlen.
  set (a := indexOf (same_string sock) (take i sockets)).
  set (b := indexOf (same_string sock) (drop (S i) sockets)).
  assert (Ha : a = -1 ∨ 0 ≤ a < Z.of_nat i).
  { unfold a. destruct (indexOf_first (same_string sock) (take i sockets))
      as [[Hm _] | (y & Hr' & _)]; [left; exact Hm|right; lia]. }
  assert (Hb : b = -1 ∨ 0 ≤ b).
  { unfold b. destruct (indexOf_first (same_string sock) (drop (S i) sockets))
      as [[Hm _] | (y & Hr' & _)]; [left; exact Hm|right; lia]. }
  replace (same_string sock socketId) with false
    by (symmetry; apply bool_decide_eq_false_2; exact Hne).
  destruct (Z.eqb_spec a (-1)) as [Ea|Ea].
  - destruct (Z.eqb_spec b (-1)) as [Eb|Eb]; [reflexivity|].
    destruct (Z.eqb_spec (1 + b) (-1)) as [?|_]; [lia|].
    replace (Z.of_nat i + b) with (Z.of_nat (i + Z.to_nat b)) by lia.
    replace (Z.of_nat i + (1 + b)) with (Z.of_nat (S (i + Z.to_nat b))) by lia.
    rewrite !at_index_of_nat. apply list_lookup_delete_ge. lia.
  - replace a with (Z.of_nat (Z.to_nat a)) by lia.
    rewrite !at_index_of_nat. apply list_lookup_delete_lt. lia.
Qed.

Lemma conn_unfocus s i t : conn (unfocus s i t) = conn s.
Proof. reflexivity. Qed.

Lemma conn_leaveRoom (s : Server) (socketId : string) :
  conn (leaveRoom s socketId).2 = conn s.
Proof.
  unfold leaveRoom.
  destruct (player_of_socket s socketId); [|reflexivity].
  destruct (roomId _); [|reflexivity].
  destruct (bool_decide _); [reflexivity|].
  destruct (getRoom _ _) as [[i rm]|]; [|reflexivity].
  cbn [players set_numberOfPlayers].
  destruct (players rm); [|reflexivity].
  destruct (forEach _ _ _). reflexivity.
Qed.

Lemma conn_closeRoom (s : Server) (roomId : string) : conn (closeRoom s roomId).1.2 = conn s.
Proof. unfold closeRoom. destruct (notify_closed _ _ _ _). reflexivity. Qed.

Lemma conn_close_created (playerId : string) (old : list (Room ref)) :
  ∀ s, conn (close_created playerId old s).1.2 = conn s.
Proof.
  induction old as [|rm old IH]; intros s; cbn [close_created]; [reflexivity|].
  destruct (same_string _ _); [|apply IH].
  pose proof (conn_closeRoom s (rid rm)) as Hc.
  destruct (closeRoom s (rid rm)) as [[[[]| |] s'] sent]; cbn in Hc |- *;
    try exact Hc.
  specialize (IH s'). destruct (close_created playerId old s') as [[result s''] sent'].
  cbn in IH |- *. congruence.
Qed.

(** X8. The registry.  While [this.sockets] and [this.players] are as long
    as one another, joinGame and leaveGame keep them so and leave the
    player of every other socket, and the existing Player objects, as they
    were; joinGame gives the joining socket, when it is new, a new player of
    balance 2000 that is in no room. *)
Theorem registry_kept (s : Server) (socketId name playerId sock : string) :
  length (sockets (conn s)) = length (members (conn s)) →
  sock ≠ socketId →
  let joined := (joinGame s socketId name playerId).1 in
  let left := (leaveGame s socketId).1.2 in
  (player_of_socket joined sock = player_of_socket s sock
   ∧ length (sockets (conn joined)) = length (members (conn joined))
   ∧ ∀ r, r ∈ refs_of s → objects joined r = objects s r)
  ∧ (player_of_socket left sock = player_of_socket s sock
     ∧ length (sockets (conn left)) = length (members (conn left)))
  ∧ ((socketId ∉ sockets (conn s)) →
     player_of_socket joined socketId = Some (new_ref s)
     ∧ objects joined (new_ref s) = mkPlayer playerId name 2000 None None).
Proof.
  intros Hlen Hne joined left.
  assert (Hsock : ∀ x, getIndex (sockets (conn s) ++ [socketId]) x
                       = if getIndex (sockets (conn s)) x =? -1
                         then (if bool_decide (x = socketId)
                               then Z.of_nat (length (sockets (conn s))) else -1)
                         else getIndex (sockets (conn s)) x).
  { intros x. unfold getIndex. rewrite indexOf_app, indexOf_cons.
    destruct (indexOf (same_string x) (sockets (conn s)) =? -1); [|reflexivity].
    unfold same_string. destruct (bool_decide (x = socketId)); cbn [Z.eqb]; [|reflexivity].
    change (indexOf _ [] =? -1) with true. cbv iota. lia. }
  split; [split; [|split]|split; [split|]].
  - unfold joined, player_of_socket, joinGame. cbn [fst conn sockets members].
    rewrite Hsock. rewrite (bool_decide_eq_false_2 _ Hne).
    destruct (indexOf_first (same_string sock) (sockets (conn s)))
      as [[Hm _] | (y & Hr & Hy & _)]; fold (getIndex (sockets (conn s)) sock) in *.
    + rewrite Hm. reflexivity.
    + destruct (Z.eqb_spec (getIndex (sockets (conn s)) sock) (-1)); [lia|].
      set (k := getIndex (sockets (conn s)) sock) in *.
      replace k with (Z.of_nat (Z.to_nat k)) by lia.
      rewrite !at_index_of_nat. apply lookup_app_l. lia.
  - unfold joined, joinGame. cbn [fst conn sockets members].
    rewrite !length_app. cbn. lia.
  - intros r Hr. unfold joined, joinGame. cbn [fst objects].
    apply fn_lookup_insert_ne. unfold new_ref. intros <-.
    assert (Hle : ∀ l x, x ∈ l → (x ≤ foldr Nat.max 0 l)%nat).
    { induction l as [|y l IH]; intros x Hx; [inversion Hx|].
      apply elem_of_cons in Hx as [->|Hx]; cbn; [lia|]. specialize (IH x Hx). lia. }
    specialize (Hle _ _ Hr). lia.
  - unfold left, leaveGame, player_of_socket.
    pose proof (conn_leaveRoom s socketId) as Hc1.
    destruct (leaveRoom s socketId) as [[[]| |] s1]; cbn [fst snd] in Hc1 |- *;
      try (rewrite Hc1; reflexivity).
    destruct (at_index (members (conn s1)) _) as [player|] eqn:Hp;
      cbn [fst snd]; [|rewrite Hc1; reflexivity].
    pose proof (conn_close_created (pid (objects s1 player)) (rooms s1) s1) as Hc2.
    destruct (close_created _ _ s1) as [[[[]| |] s2] sent]; cbn [fst snd] in Hc2 |- *;
      try (rewrite Hc2, Hc1; reflexivity).
    cbn [conn sockets members]. rewrite Hc2, Hc1. rewrite Hc1 in Hp.
    apply lookup_after_delete; [exact Hne|].
    unfold at_index in Hp. destruct (Z.ltb_spec (getIndex (sockets (conn s)) socketId) 0);
      [discriminate|lia].
  - unfold left, leaveGame.
    pose proof (conn_leaveRoom s socketId) as Hc1.
    destruct (leaveRoom s socketId) as [[[]| |] s1]; cbn [fst snd] in Hc1 |- *;
      try (rewrite Hc1; exact Hlen).
    destruct (at_index (members (conn s1)) _) as [player|] eqn:Hp;
      cbn [fst snd]; [|rewrite Hc1; exact Hlen].
    pose proof (conn_close_created (pid (objects s1 player)) (rooms s1) s1) as Hc2.
    destruct (close_created _ _ s1) as [[[[]| |] s2] sent]; cbn [fst snd] in Hc2 |- *;
      try (rewrite Hc2, Hc1; exact Hlen).
    cbn [conn sockets members]. rewrite Hc2, Hc1. rewrite Hc1 in Hp.
    unfold at_index in Hp. destruct (Z.ltb_spec (getIndex (sockets (conn s)) socketId) 0);
      [discriminate|].
    pose proof (lookup_lt_Some _ _ _ Hp) as Hlt.
    rewrite !length_delete; [lia| |].
    + eexists. exact Hp.
    + apply lookup_lt_is_Some_2. lia.
  - intros Hnew. unfold joined, player_of_socket, joinGame.
    cbn [fst conn sockets members objects]. split.
    + assert (Hm : getIndex (sockets (conn s)) socketId = -1).
      { apply indexOf_missing. intros y Hy. unfold same_string.
        apply bool_decide_eq_false_2. intros <-. auto. }
      rewrite Hsock, Hm, Z.eqb_refl, bool_decide_eq_true_2 by reflexivity.
      rewrite at_index_of_nat, Hlen. apply list_lookup_middle. reflexivity.
    + apply fn_lookup_insert.
Qed.

Lemma registry_kept_witness :
  let joined := (joinGame lobby_server "s3" "dana" "p3").1 in
  player_of_socket joined "s1" = player_of_socket lobby_server "s1"
  ∧ player_of_socket joined "s3" = Some (new_ref lobby_server)
  ∧ player_of_socket (leaveGame lobby_server "s3").1.2 "s1"
    = player_of_socket lobby_server "s1".
Proof.
  intros joined.
  destruct (registry_kept lobby_server "s3" "dana" "p3" "s1")
    as [[H1 _] [[H2 _] H3]]; [reflexivity|discriminate|].
  split; [exact H1|]. split; [|exact H2].
  apply H3. apply (bool_decide_unpack _). vm_compute. reflexivity.
Defined.

(** ** Rooms by id *)

Lemma indexOf_range {A} (is_x : A → bool) (a : list A) :
  indexOf is_x a = -1 ∨ 0 ≤ indexOf is_x a < Z.of_nat (length a).
Proof.
  destruct (indexOf_first is_x a) as [[Hm _] | (y & Hr & _)]; [left|right]; assumption.
Qed.

Lemma at_index_cons_succ {A} (x : A) (a : list A) (k : Z) :
  0 ≤ k → at_index (x :: a) (1 + k) = at_index a k.
Proof.
  intros Hk. replace k with (Z.of_nat (Z.to_nat k)) by lia.
  replace (1 + Z.of_nat (Z.to_nat k)) with (Z.of_nat (S (Z.to_nat k))) by lia.
  rewrite !at_index_of_nat. reflexivity.
Qed.

(** [a[a.indexOf(x)]] is the first entry that passes the test. *)
Lemma at_index_indexOf {A} (is_x : A → bool) (a : list A) :
  at_index a (indexOf is_x a) = List.find is_x a.
Proof.
  induction a as [|x a IH]; [reflexivity|].
  rewrite indexOf_cons. cbn [List.find].
  destruct (is_x x); [reflexivity|].
  destruct (indexOf_range is_x a) as [Hm|Hr].
  - rewrite Hm in IH |- *. cbn [Z.eqb Pos.eqb]. rewrite <- IH. reflexivity.
  - destruct (Z.eqb_spec (indexOf is_x a) (-1)); [lia|].
    rewrite at_index_cons_succ by lia. exact IH.
Qed.

Lemma room_of_find (rooms : list (Room ref)) (id : string) :
  room_of rooms id = List.find (fun r => same_string id (rid r)) rooms.
Proof.
  unfold room_of, getRoom. rewrite at_index_indexOf.
  destruct (List.find _ rooms); reflexivity.
Qed.

Lemma find_filter {A} (f g : A → bool) (l : list A) :
  (∀ x, f x = true → g x = true) → List.find f (List.filter g l) = List.find f l.
Proof.
  intros Himp. induction l as [|x l IH]; [reflexivity|]. cbn.
  destruct (g x) eqn:Hg; cbn.
  - rewrite IH. reflexivity.
  - destruct (f x) eqn:Hf; [rewrite (Himp x Hf) in Hg; discriminate|exact IH].
Qed.

Lemma find_filter_none {A} (f g : A → bool) (l : list A) :
  (∀ x, f x = true → g x = false) → List.find f (List.filter g l) = None.
Proof.
  intros Himp. induction l as [|x l IH]; [reflexivity|]. cbn.
  destruct (g x) eqn:Hg; cbn; [|exact IH].
  destruct (f x) eqn:Hf; [rewrite (Himp x Hf) in Hg; discriminate|exact IH].
Qed.

Lemma notify_closed_sent (c : Conn) (h : Store) (roomId : string) (ps : list ref) :
  Forall (fun n => ∃ socket, n = ClosedRoom socket roomId ∧ socket ∈ sockets c)
         (notify_closed c h roomId ps).2
  ∧ ((notify_closed c h roomId ps).1 = Ok tt →
     length (notify_closed c h roomId ps).2 = length ps).
Proof.
  induction ps as [|r ps [IH1 IH2]]; cbn [notify_closed].
  - split; [constructor|reflexivity].
  - destruct (at_index (sockets c) _) as [socket|] eqn:Hs; cbn.
    + destruct (notify_closed c h roomId ps) as [result sent]. cbn in *. split.
      * constructor; [|exact IH1]. exists socket. split; [reflexivity|].
        eapply at_index_elem_of; eauto.
      * intros Hok. rewrite IH2 by exact Hok. reflexivity.
    + split; [constructor|discriminate].
Qed.

(** X9. closeRoom.  After closeRoom no room is found under the id, and
    under every other id the room found is the one found before; the
    players, their sockets and the Player objects are as they were.  What
    it sends are closedRoom notices for the id to sockets of the server,
    one per player when the call returns. *)
Theorem closeRoom_removes (s : Server) (roomId : string) :
  let closed := (closeRoom s roomId).1.2 in
  let sent := (closeRoom s roomId).2 in
  room_of (rooms closed) roomId = None
  ∧ (∀ id, id ≠ roomId → room_of (rooms closed) id = room_of (rooms s) id)
  ∧ conn closed = conn s ∧ objects closed = objects s ∧ emitted closed = emitted s
  ∧ Forall (fun n => ∃ socket, n = ClosedRoom socket roomId ∧ socket ∈ sockets (conn s)) sent
  ∧ ((closeRoom s roomId).1.1 = Ok tt → length sent = length (members (conn s))).
Proof.
  intros closed sent. unfold closed, sent, closeRoom.
  pose proof (notify_closed_sent (conn s) (objects s) roomId (members (conn s))) as [Hs Hl].
  destruct (notify_closed _ _ _ _) as [result ns]. cbn [fst snd rooms conn objects emitted] in *.
  split; [|split; [|repeat split; assumption]].
  - rewrite room_of_find. apply find_filter_none.
    intros rm Hrm. unfold same_string in *. apply bool_decide_eq_true_1 in Hrm.
    rewrite bool_decide_eq_true_2 by congruence. reflexivity.
  - intros id Hne. rewrite !room_of_find. apply find_filter.
    intros rm Hrm. unfold same_string in *. apply bool_decide_eq_true_1 in Hrm.
    rewrite bool_decide_eq_false_2 by congruence. reflexivity.
Qed.

(** ** leaveRoom *)

Lemma same_state_announce_leave c r i : preserves same_state (announce_leave c r i).
Proof. unfold announce_leave. silent. Qed.

(** What leaveRoom writes when it finds the room of the player. *)
Lemma leaveRoom_writes (s : Server) (socketId id : string) (p : ref) (i : nat)
    (rm : Room ref) (seats : list ref) :
  player_of_socket s socketId = Some p →
  roomId (objects s p) = Some id →
  id ≠ EmptyString →
  getRoom (rooms s) id = Some (i, rm) →
  players rm = Some seats →
  conn (leaveRoom s socketId).2 = conn s
  ∧ objects (leaveRoom s socketId).2 = objects s
  ∧ rooms (leaveRoom s socketId).2
    = <[i := set_seats (numberOfPlayers rm - 1) (others_of (objects s) p seats) rm]> (rooms s).
Proof.
  intros Hp Hid Hne Hroom Hseats. unfold leaveRoom.
  rewrite Hp, Hid, (bool_decide_eq_false_2 _ Hne), Hroom.
  cbn [players set_numberOfPlayers]. rewrite Hseats.
  destruct (forEach _ _ _) as [result t] eqn:Hemit.
  pose proof (preserves_forEach same_state same_state_refl same_state_trans
                (announce_leave (conn s)) (members (conn s))
                (fun x j _ => same_state_announce_leave (conn s) x j)
                _ _ _ Hemit) as [Hst Hrm].
  cbn [store room] in Hst, Hrm. cbn [snd conn objects rooms unfocus].
  rewrite Hst, Hrm. repeat split.
Qed.

Lemma indexOf_map {A B} (f : A → B) (is_x : B → bool) (a : list A) :
  indexOf (fun x => is_x (f x)) a = indexOf is_x (map f a).
Proof.
  unfold indexOf. generalize 0. induction a as [|x a IH]; intros i0; cbn; [reflexivity|].
  destruct (is_x (f x)); [reflexivity|apply IH].
Qed.

(** Writing at its position a room that has the same id. *)
Lemma getRoom_insert (rs : list (Room ref)) (id : string) (i : nat) (rm rm' : Room ref) :
  getRoom rs id = Some (i, rm) → rid rm' = rid rm →
  getRoom (<[i := rm']> rs) id = Some (i, rm').
Proof.
  intros Hroom Hrid. pose proof (getRoom_lookup _ _ _ _ Hroom) as Hi.
  unfold getRoom in *.
  rewrite (indexOf_map rid (same_string id)) in Hroom |- *.
  rewrite list_fmap_insert, Hrid.
  rewrite (list_insert_id (map rid rs)) by (rewrite list_lookup_fmap, Hi; reflexivity).
  destruct (at_index rs _) as [r|] eqn:Hr; [|discriminate].
  inversion Hroom; subst. clear Hroom.
  set (k := indexOf (same_string id) (map rid rs)) in *.
  assert (Hk : 0 ≤ k).
  { unfold at_index in Hr. destruct (Z.ltb_spec k 0); [discriminate|lia]. }
  assert (Hat : at_index (<[Z.to_nat k := rm']> rs) k = Some rm').
  { replace k with (Z.of_nat (Z.to_nat k)) at 2 by lia.
    rewrite at_index_of_nat. apply list_lookup_insert_eq. eapply lookup_lt_Some; eauto. }
  rewrite Hat. reflexivity.
Qed.

Lemma filter_filter_same {A} (f : A → bool) (l : list A) :
  List.filter f (List.filter f l) = List.filter f l.
Proof.
  induction l as [|x l IH]; [reflexivity|]. cbn.
  destruct (f x) eqn:Hf; cbn; rewrite ?Hf, IH; reflexivity.
Qed.

(** X10. leaveRoom does not clear the roomId of the player.  A player with
    a roomId leaves its room: the seats with its id are removed and
    numberOfPlayers falls by one.  The player keeps the roomId, so that a
    second leaveRoom finds the room again and lowers numberOfPlayers once
    more, with no seat left to remove. *)
Theorem leaveRoom_twice (s : Server) (socketId id : string) (p : ref) (i : nat)
    (rm : Room ref) (seats : list ref) :
  player_of_socket s socketId = Some p →
  roomId (objects s p) = Some id →
  id ≠ EmptyString →
  getRoom (rooms s) id = Some (i, rm) →
  players rm = Some seats →
  let once := (leaveRoom s socketId).2 in
  let twice := (leaveRoom once socketId).2 in
  ∃ rm1 rm2,
    rooms once !! i = Some rm1 ∧ rooms twice !! i = Some rm2
    ∧ players rm1 = Some (others_of (objects s) p seats)
    ∧ numberOfPlayers rm1 = numberOfPlayers rm - 1
    ∧ roomId (objects once p) = Some id
    ∧ players rm2 = players rm1
    ∧ numberOfPlayers rm2 = numberOfPlayers rm - 2.
Proof.
  intros Hp Hid Hne Hroom Hseats once twice.
  destruct (leaveRoom_writes s socketId id p i rm seats Hp Hid Hne Hroom Hseats)
    as (Hc1 & Ho1 & Hr1).
  set (rm1 := set_seats (numberOfPlayers rm - 1) (others_of (objects s) p seats) rm) in *.
  assert (Hroom1 : getRoom (rooms once) id = Some (i, rm1)).
  { unfold once. rewrite Hr1. apply (getRoom_insert _ _ _ rm); [exact Hroom|reflexivity]. }
  destruct (leaveRoom_writes once socketId id p i rm1 (others_of (objects s) p seats))
    as (Hc2 & Ho2 & Hr2); try assumption.
  { unfold player_of_socket, once. rewrite Hc1. exact Hp. }
  { unfold once. rewrite Ho1. exact Hid. }
  { reflexivity. }
  pose proof (getRoom_lookup _ _ _ _ Hroom) as Hi.
  exists rm1, (set_seats (numberOfPlayers rm1 - 1)
                 (others_of (objects once) p (others_of (objects s) p seats)) rm1).
  split; [unfold once; rewrite Hr1; apply list_lookup_insert_eq; eapply lookup_lt_Some; eauto|].
  split.
  { unfold twice. rewrite Hr2. apply list_lookup_insert_eq.
    unfold once. rewrite Hr1, length_insert. eapply lookup_lt_Some; eauto. }
  split; [reflexivity|]. split; [reflexivity|].
  split; [unfold once; rewrite Ho1; exact Hid|].
  split.
  - unfold once. rewrite Ho1. cbn [players set_seats]. unfold others_of.
    rewrite filter_filter_same. reflexivity.
  - cbn [numberOfPlayers set_seats rm1]. lia.
Qed.

Lemma leaveRoom_twice_witness :
  let twice := (leaveRoom (leaveRoom lobby_server "s1").2 "s1").2 in
  ∃ rm2, rooms twice !! 0%nat = Some rm2
         ∧ players rm2 = Some [0; 2]%nat
         ∧ numberOfPlayers rm2 = 1.
Proof.
  intros twice.
  destruct (leaveRoom_twice lobby_server "s1" "r1" 1%nat 0%nat lobby_room [0; 1; 2]%nat)
    as (rm1 & rm2 & _ & H2 & Hp1 & _ & _ & Hp2 & Hn2);
    [reflexivity|reflexivity|discriminate|reflexivity|reflexivity|].
  exists rm2. split; [exact H2|]. split.
  - etrans; [exact Hp2|]. etrans; [exact Hp1|]. vm_compute. reflexivity.
  - etrans; [exact Hn2|]. reflexivity.
Defined.

Lemma getRoom_rid (rooms : list (Room ref)) (id : string) (i : nat)
    (rm : Room ref) :
  getRoom rooms id = Some (i, rm) → rid rm = id.
Proof.
  intros H. assert (Hf : room_of rooms id = Some rm) by (unfold room_of; rewrite H; reflexivity).
  rewrite room_of_find in Hf. apply List.find_some in Hf as [_ Hf].
  unfold same_string in Hf. apply bool_decide_eq_true_1 in Hf. congruence.
Qed.

(** X11. leaveRoom undoes joinRoom.  When joinRoom seats the player of a
    socket in a room, a leaveRoom of the socket gives back the rooms as
    they were before the join; the player keeps the roomId the join gave
    it. *)
Theorem leaveRoom_undoes_joinRoom (s : Server) (socketId roomId : string) (i : nat)
    (rm : Room ref) (seats : list ref) (np : ref) :
  getRoom (rooms s) roomId = Some (i, rm) →
  players rm = Some seats →
  player_of_socket s socketId = Some np →
  numberOfPlayers rm < 10 →
  indexOf (fun r => same_string (pid (objects s np)) (pid (objects s r))) seats = -1 →
  roomId ≠ EmptyString →
  let joined := (joinRoom s socketId roomId).2 in
  let left := (leaveRoom joined socketId).2 in
  rooms joined = <[i := set_seats (numberOfPlayers rm + 1) (seats ++ [np]) rm]> (rooms s)
  ∧ rooms left = rooms s
  ∧ conn left = conn s
  ∧ objects left = <[np := set_roomId roomId (objects s np)]> (objects s).
Proof.
  intros Hroom Hseats Hnp Hn Hnot Hne joined left.
  pose proof (getRoom_lookup _ _ _ _ Hroom) as Hi.
  pose proof (getRoom_rid (rooms s) roomId i rm Hroom) as Hrid.
  set (h' := <[np := set_roomId roomId (objects s np)]> (objects s)).
  set (rm' := set_seats (numberOfPlayers rm + 1) (seats ++ [np]) rm).
  assert (Hjoined : conn joined = conn s ∧ objects joined = h'
                    ∧ rooms joined = <[i := rm']> (rooms s)).
  { unfold joined, joinRoom. unfold player_of_socket in Hnp. rewrite Hroom.
    destruct (Z.leb_spec 10 (numberOfPlayers rm)); [lia|].
    rewrite Hseats, Hnp, Hnot. cbn [Z.eqb Pos.eqb negb].
    destruct (forEach _ _ _) as [result t] eqn:Hemit.
    pose proof (preserves_forEach same_state same_state_refl same_state_trans
                  (announce_join (conn s)) (members (conn s))
                  (fun x j _ => same_state_announce_join (conn s) x j)
                  _ _ _ Hemit) as [Hst Hrm].
    cbn [store room] in Hst, Hrm. cbn [snd conn objects rooms unfocus].
    rewrite Hst, Hrm. repeat split. }
  destruct Hjoined as (Hc1 & Ho1 & Hr1).
  assert (Hpid : ∀ r, pid (h' r) = pid (objects s r)).
  { intros r. unfold h'. destruct (decide (np = r)) as [->|Hr].
    - rewrite fn_lookup_insert. reflexivity.
    - rewrite fn_lookup_insert_ne by exact Hr. reflexivity. }
  destruct (leaveRoom_writes joined socketId roomId np i rm' (seats ++ [np]))
    as (Hc2 & Ho2 & Hr2).
  { unfold player_of_socket. rewrite Hc1. exact Hnp. }
  { rewrite Ho1. unfold h'. rewrite fn_lookup_insert. reflexivity. }
  { exact Hne. }
  { rewrite Hr1. apply (getRoom_insert _ _ _ rm); [exact Hroom|reflexivity]. }
  { reflexivity. }
  split; [exact Hr1|].
  split; [|split; unfold left; [rewrite Hc2; exact Hc1 | rewrite Ho2; exact Ho1]].
  unfold left. rewrite Hr2, Hr1, list_insert_insert_eq.
  apply list_insert_id. rewrite Hi. f_equal.
  assert (Hothers : others_of (objects joined) np (seats ++ [np]) = seats).
  { unfold others_of. rewrite Ho1, List.filter_app. cbn [List.filter].
    unfold same_string at 2. rewrite bool_decide_eq_true_2 by reflexivity. cbn [negb].
    rewrite app_nil_r.
    assert (Hall : ∀ r, r ∈ seats → pid (objects s r) ≠ pid (objects s np)).
    { intros r Hr Heq.
      destruct (indexOf_first (fun r => same_string (pid (objects s np)) (pid (objects s r)))
                  seats) as [[_ Hall] | (y & Hrange & _)]; [|lia].
      specialize (Hall r Hr). cbv beta in Hall. unfold same_string in Hall.
      rewrite bool_decide_eq_true_2 in Hall by congruence. discriminate. }
    rewrite (List.filter_ext _ (fun r => negb (same_string (pid (objects s r))
                                                              (pid (objects s np)))))
      by (intros r; rewrite !Hpid; reflexivity).
    clear -Hall. induction seats as [|r seats IH]; [reflexivity|]. cbn.
    unfold same_string at 1.
    rewrite bool_decide_eq_false_2 by (apply Hall; left). cbn. f_equal.
    apply IH. intros r' Hr'. apply Hall. right. exact Hr'. }
  rewrite Hothers. destruct rm as [a b c d n ps g]. cbn in *. subst ps.
  unfold set_seats. cbn. f_equal. lia.
Qed.

Lemma leaveRoom_undoes_joinRoom_witness :
  let s := (joinGame lobby_server "s3" "dana" "p3").1 in
  let joined := (joinRoom s "s3" "r1").2 in
  (numberOfPlayers <$> rooms joined !! 0%nat) = Some 4
  ∧ rooms (leaveRoom joined "s3").2 = rooms s.
Proof.
  intros s joined.
  destruct (leaveRoom_undoes_joinRoom s "s3" "r1" 0%nat lobby_room [0; 1; 2]%nat 3%nat)
    as (H1 & H2 & _);
    [reflexivity|reflexivity|reflexivity|reflexivity|reflexivity|discriminate|].
  split; [|exact H2].
  fold joined in H1. rewrite H1. reflexivity.
Defined.

(** ** createRoom *)

Lemma find_app_last {A} (f : A → bool) (l : list A) (x : A) :
  List.find f (l ++ [x]) = match List.find f l with
                           | Some y => Some y
                           | None => if f x then Some x else None
                           end.
Proof.
  induction l as [|y l IH]; cbn; [destruct (f x); reflexivity|].
  destruct (f y); [reflexivity|exact IH].
Qed.

(** X12. createRoom.  For a socket with a player and a room id that is
    new, the room created is found under its id, with the creator as its
    only seat, not started; the rooms found under other ids are those found
    before.  Every socket is sent createdRoom: the creating socket the room
    with its seat list, the others the room without.  No Player object is
    written: the creator is seated without a roomId, and a leaveRoom by a
    creator who has none changes nothing. *)
Theorem createRoom_adds (s : Server) (socketId name uuid : string) (p : ref) :
  player_of_socket s socketId = Some p →
  room_of (rooms s) uuid = None →
  let room := mkRoom uuid name p false 1 (Some [p]) None in
  ∃ s',
    createRoom s socketId name uuid = Some s'
    ∧ room_of (rooms s') uuid = Some room
    ∧ (∀ id, id ≠ uuid → room_of (rooms s') id = room_of (rooms s) id)
    ∧ objects s' = objects s ∧ conn s' = conn s
    ∧ emitted s'
      = emitted s
        ++ map (fun client =>
                  Emit client "createdRoom"
                    (if bool_decide (client = socketId) then view (objects s) room
                     else cutPlayers (view (objects s) room)) None)
               (sockets (conn s))
    ∧ (roomId (objects s p) = None → leaveRoom s' socketId = (Ok tt, s')).
Proof.
  intros Hp Hnew room. unfold createRoom. rewrite Hp. fold room.
  eexists. split; [reflexivity|]. cbn [rooms objects conn emitted].
  split; [|split; [|repeat split]].
  - rewrite room_of_find in Hnew |- *. rewrite find_app_last, Hnew.
    cbn [rid room]. unfold same_string. rewrite bool_decide_eq_true_2 by reflexivity.
    reflexivity.
  - intros id Hne. rewrite !room_of_find, find_app_last.
    destruct (List.find _ (rooms s)); [reflexivity|].
    cbn [rid room]. unfold same_string. rewrite bool_decide_eq_false_2 by exact Hne.
    reflexivity.
  - intros Hnone. unfold leaveRoom, player_of_socket in *. cbn [conn objects].
    rewrite Hp, Hnone. reflexivity.
Qed.

Lemma createRoom_adds_witness :
  ∃ s', createRoom lobby_server "s0" "second" "r2" = Some s'
        ∧ room_of (rooms s') "r2" = Some (mkRoom "r2" "second" 0%nat false 1 (Some [0%nat]) None)
        ∧ room_of (rooms s') "r1" = Some lobby_room.
Proof.
  destruct (createRoom_adds lobby_server "s0" "second" "r2" 0%nat)
    as (s' & H1 & H2 & H3 & _); [reflexivity|reflexivity|].
  exists s'. split; [exact H1|]. split; [exact H2|].
  rewrite H3 by discriminate. reflexivity.
Defined.

(** ** leaveGame *)

Lemma objects_leaveRoom (s : Server) (socketId : string) :
  objects (leaveRoom s socketId).2 = objects s.
Proof.
  unfold leaveRoom.
  destruct (player_of_socket s socketId); [|reflexivity].
  destruct (roomId _); [|reflexivity].
  destruct (bool_decide _); [reflexivity|].
  destruct (getRoom _ _) as [[i rm]|]; [|reflexivity].
  cbn [players set_numberOfPlayers].
  destruct (players rm); [|reflexivity].
  destruct (forEach _ _ _) as [result t] eqn:Hemit.
  pose proof (preserves_forEach same_state same_state_refl same_state_trans
                (announce_leave (conn s)) (members (conn s))
                (fun x j _ => same_state_announce_leave (conn s) x j)
                _ _ _ Hemit) as [Hst _].
  exact Hst.
Qed.

Lemma elem_of_List_filter {A} (f : A → bool) (l : list A) (x : A) :
  x ∈ List.filter f l ↔ x ∈ l ∧ f x = true.
Proof. rewrite !list_elem_of_In. apply List.filter_In. Qed.

(** The rooms left by the loop of leaveGame. *)
Lemma close_created_rooms (playerId : string) (old : list (Room ref)) :
  ∀ (s s' : Server) (sent : list Notice),
    close_created playerId old s = (Ok tt, s', sent) →
    objects s' = objects s
    ∧ ∀ rm, rm ∈ rooms s'
            ↔ rm ∈ rooms s
              ∧ ∀ o, o ∈ old → pid (objects s (creator o)) = playerId → rid o ≠ rid rm.
Proof.
  induction old as [|o old IH]; intros s s' sent H; cbn [close_created] in H.
  - inversion H; subst. split; [reflexivity|]. intros rm. split.
    + intros Hin. split; [exact Hin|]. intros o Ho. inversion Ho.
    + intros [Hin _]. exact Hin.
  - destruct (same_string (pid (objects s (creator o))) playerId) eqn:Hc.
    + unfold closeRoom in H.
      destruct (notify_closed _ _ _ _) as [[[]| |] sent0]; try discriminate.
      destruct (close_created playerId old _) as [[result s''] sent'] eqn:Hrest.
      inversion H; subst. clear H.
      destruct (IH _ _ _ Hrest) as [Hobj Hrooms]. cbn [objects rooms] in Hobj, Hrooms.
      split; [exact Hobj|]. intros rm. rewrite Hrooms, elem_of_List_filter.
      unfold same_string in Hc. apply bool_decide_eq_true_1 in Hc. split.
      * intros [[Hin Hrid] Hold]. split; [exact Hin|]. intros o' Ho' Hcr.
        apply elem_of_cons in Ho' as [->|Ho']; [|apply Hold; assumption].
        unfold same_string in Hrid. intros Heq.
        rewrite bool_decide_eq_true_2 in Hrid by congruence. discriminate.
      * intros [Hin Hold]. split; [split; [exact Hin|]|].
        -- unfold same_string. rewrite bool_decide_eq_false_2; [reflexivity|].
           intros Heq. apply (Hold o); [left|exact Hc|congruence].
        -- intros o' Ho'. apply Hold. right. exact Ho'.
    + destruct (IH _ _ _ H) as [Hobj Hrooms]. split; [exact Hobj|].
      intros rm. rewrite Hrooms. unfold same_string in Hc.
      apply bool_decide_eq_false_1 in Hc. split.
      * intros [Hin Hold]. split; [exact Hin|]. intros o' Ho' Hcr.
        apply elem_of_cons in Ho' as [->|Ho']; [contradiction|apply Hold; assumption].
      * intros [Hin Hold]. split; [exact Hin|]. intros o' Ho'. apply Hold. right. exact Ho'.
Qed.

(** X13. leaveGame closes the rooms of the leaver.  When leaveGame returns
    for a socket with a player, the rooms that remain are those rooms, as
    leaveRoom left them, whose id is the id of no room created by the
    player: none of them was created by the player.  No Player object is
    written. *)
Theorem leaveGame_closes_rooms (s s' : Server) (socketId : string) (p : ref)
    (sent : list Notice) :
  player_of_socket s socketId = Some p →
  leaveGame s socketId = (Ok tt, s', sent) →
  let created (o : Room ref) := pid (objects s (creator o)) = pid (objects s p) in
  objects s' = objects s
  ∧ (∀ rm, rm ∈ rooms s' → ¬ created rm)
  ∧ (∀ rm, rm ∈ rooms s'
           ↔ rm ∈ rooms (leaveRoom s socketId).2
             ∧ ∀ o, o ∈ rooms (leaveRoom s socketId).2 → created o → rid o ≠ rid rm).
Proof.
  intros Hp H created. unfold leaveGame in H.
  pose proof (conn_leaveRoom s socketId) as Hc1.
  pose proof (objects_leaveRoom s socketId) as Ho1.
  destruct (leaveRoom s socketId) as [[[]| |] s1]; cbn [snd] in *; try discriminate.
  unfold player_of_socket in Hp. rewrite Hc1, Hp in H.
  destruct (close_created _ _ s1) as [[[[]| |] s2] sent2] eqn:Hclose; try discriminate.
  inversion H; subst. clear H. cbn [objects rooms].
  destruct (close_created_rooms _ _ _ _ _ Hclose) as [Ho2 Hrooms].
  assert (Hrooms' : ∀ rm, rm ∈ rooms s2
                          ↔ rm ∈ rooms s1 ∧ ∀ o, o ∈ rooms s1 → created o → rid o ≠ rid rm).
  { intros rm. rewrite Hrooms. unfold created. rewrite <- Ho1. reflexivity. }
  split; [congruence|]. split; [|exact Hrooms'].
  intros rm Hin Hcr. apply Hrooms' in Hin as [Hin Hold].
  apply (Hold rm Hin Hcr). reflexivity.
Qed.

Lemma leaveGame_closes_rooms_witness :
  Forall (fun rm => pid (lobby_store (creator rm)) ≠ pid (lobby_store 0%nat))
         (rooms (leaveGame lobby_server "s0").1.2).
Proof.
  destruct (leaveGame lobby_server "s0") as [[outcome s'] sent] eqn:E.
  assert (Ho : outcome = Ok tt).
  { apply (f_equal (fun x => x.1.1)) in E. vm_compute in E. congruence. }
  subst outcome.
  destruct (leaveGame_closes_rooms lobby_server s' "s0" 0%nat sent) as (_ & H & _);
    [reflexivity|exact E|].
  apply list.Forall_forall. exact H.
Defined.

(** ** Actions that are not applied *)

Lemma unfocus_focus (s : Server) (i : nat) (rm : Room ref) :
  rooms s !! i = Some rm → unfocus s i (focus s rm) = s.
Proof.
  intros Hi. destruct s as [c rs h l]. unfold unfocus, focus. cbn in *.
  rewrite list_insert_id by exact Hi. reflexivity.
Qed.

(** X14. Actions that are not applied.  In a room with a round,
    updateGameStatus returns with the server as it was, nothing written and
    nothing sent, when the player of the calling socket has no seat in the
    room, when its seat is not the one at playTurn, and when gameStatus has
    no deck; for a socket that has no player it throws, the server being as
    it was. *)
Theorem action_not_applied {PS : PokerSolver} {CF : Config} (s : Server)
    (socketId roomId : string) (st : PlayStatus) (amount : option Z) (now : Z)
    (i : nat) (rm : Room ref) (gs : GameStatus) (seats : list ref) :
  getRoom (rooms s) roomId = Some (i, rm) →
  gameStatus rm = Some gs →
  players rm = Some seats →
  (player_of_socket s socketId = None →
   updateGameStatus s (Some socketId) roomId st amount now = (Throw, s))
  ∧ (∀ caller,
       player_of_socket s socketId = Some caller →
       let playerIndex := getPlayerIndex (objects s) seats (pid (objects s caller)) in
       playerIndex = -1 ∨ playerIndex ≠ playTurn gs ∨ cards gs = None →
       updateGameStatus s (Some socketId) roomId st amount now = (Ok tt, s)).
Proof.
  intros Hroom Hgs Hseats.
  pose proof (unfocus_focus s i rm (getRoom_lookup _ _ _ _ Hroom)) as Hsame.
  unfold player_of_socket. split.
  - intros Hnone. unfold updateGameStatus. rewrite Hroom, Hnone.
    unfold play. rewrite bind_get_room. cbn [room focus]. rewrite Hgs.
    rewrite (bind_get_seats _ _ seats) by exact Hseats.
    cbn [defined throw lift bind]. rewrite Hsame. reflexivity.
  - intros caller Hcaller. cbv zeta. intros Hrej.
    set (playerIndex := getPlayerIndex (objects s) seats (pid (objects s caller))) in *.
    unfold updateGameStatus. rewrite Hroom, Hcaller.
    unfold play. rewrite bind_get_room. cbn [room focus]. rewrite Hgs.
    rewrite (bind_get_seats _ _ seats) by exact Hseats.
    rewrite (bind_defined_Some _ caller) by reflexivity.
    rewrite bind_get_store. cbn [store]. cbv zeta.
    change (indexOf _ seats) with playerIndex.
    assert (Hcond : (playerIndex =? -1) || negb (playerIndex =? playTurn gs)
                    || negb (bool_decide (is_Some (cards gs))) = true).
    { destruct Hrej as [H1|[H2|H3]].
      - rewrite H1. reflexivity.
      - destruct (Z.eqb_spec playerIndex (playTurn gs)); [contradiction|].
        cbn. rewrite orb_true_r. reflexivity.
      - rewrite H3. rewrite bool_decide_eq_false_2 by (intros [x Hx]; discriminate).
        cbn. rewrite orb_true_r. reflexivity. }
    rewrite Hcond. cbn [ret]. rewrite Hsame. reflexivity.
Qed.

(** In [round_server] seat 1 is to act: a call by seat 0 is not applied,
    and a call from a socket without a player throws. *)
Lemma action_not_applied_witness :
  updateGameStatus (PS := high_card_solver) (CF := sample_config)
    round_server (Some "s9") "r1" CALL None 200 = (Throw, round_server)
  ∧ updateGameStatus (PS := high_card_solver) (CF := sample_config)
      round_server (Some "s0") "r1" CALL None 200 = (Ok tt, round_server).
Proof.
  set (rm := default lobby_room (rooms round_server !! 0%nat)).
  destruct (gameStatus rm) as [gs|] eqn:Hg; [|vm_compute in Hg; discriminate].
  assert (Hgs : gs = default gs (gameStatus rm)) by (rewrite Hg; reflexivity).
  destruct (action_not_applied (PS := high_card_solver) (CF := sample_config)
              round_server "s9" "r1" CALL None 200 0%nat rm gs [0; 1; 2]%nat)
    as [H1 _]; [vm_compute; reflexivity | exact Hg | reflexivity |].
  destruct (action_not_applied (PS := high_card_solver) (CF := sample_config)
              round_server "s0" "r1" CALL None 200 0%nat rm gs [0; 1; 2]%nat)
    as [_ H2]; [vm_compute; reflexivity | exact Hg | reflexivity |].
  split.
  - apply H1. reflexivity.
  - apply (H2 0%nat); [reflexivity|].
    right. left. rewrite Hgs. vm_compute. discriminate.
Defined.

(** ** dealCards closes the street *)

(** Calls that write no bet: totalBetAmout, subTotalBetAmount and status of
    every player, and currentBetAmount, stay. *)
Definition keeps_bets (t t' : Table) : Prop :=
  players (room t') = players (room t)
  ∧ bet_of (room t') = bet_of (room t)
  ∧ ∀ r, bets_of (store t' r) = bets_of (store t r).

Lemma keeps_bets_refl t : keeps_bets t t.
Proof. repeat split. Qed.

Lemma keeps_bets_trans t1 t2 t3 : keeps_bets t1 t2 → keeps_bets t2 t3 → keeps_bets t1 t3.
Proof.
  intros (H1 & H2 & H3) (H4 & H5 & H6).
  split; [congruence|]. split; [congruence|].
  intros r. rewrite H6. apply H3.
Qed.

Lemma keeps_bets_push_event e : preserves keeps_bets (push_event e).
Proof. intros t res t' H. inversion H; subst. repeat split. Qed.

Lemma keeps_bets_write_game (f : GameStatus → GameStatus) :
  (∀ gs, currentBetAmount (f gs) = currentBetAmount gs) → preserves keeps_bets (write_game f).
Proof.
  intros Hf t res t' H. unfold write_game in H.
  destruct (gameStatus (room t)) as [gs|] eqn:E; inversion H; subst.
  - repeat split. unfold bet_of. cbn. rewrite E. cbn. f_equal. apply Hf.
  - apply keeps_bets_refl.
Qed.

Lemma keeps_bets_write_player (r : ref) (f : Player → Player) :
  (∀ p, bets_of (f p) = bets_of p) → preserves keeps_bets (write_player r f).
Proof.
  intros Hf t res t' H. inversion H; subst. clear H.
  repeat split. intros r'. cbn [store]. destruct (decide (r = r')) as [->|Hne].
  - rewrite fn_lookup_insert. apply Hf.
  - rewrite fn_lookup_insert_ne by exact Hne. reflexivity.
Qed.

Lemma keeps_bets_write_status (r : ref) (f : PlayerStatus → PlayerStatus) :
  (∀ ps, totalBetAmout (f ps) = totalBetAmout ps
         ∧ subTotalBetAmount (f ps) = subTotalBetAmount ps
         ∧ status (f ps) = status ps) →
  preserves keeps_bets (write_status r f).
Proof.
  intros Hf. unfold write_status. apply keeps_bets_write_player.
  intros p. unfold bets_of. destruct (playerStatus p) as [ps|] eqn:E; cbn.
  - destruct (Hf ps) as (-> & -> & ->). reflexivity.
  - rewrite E. reflexivity.
Qed.

Lemma keeps_bets_emit_to c r ev payload player :
  preserves keeps_bets (emit_to c r ev payload player).
Proof.
  unfold emit_to.
  preserves_split keeps_bets keeps_bets_refl keeps_bets_trans
    ltac:(apply keeps_bets_push_event).
Qed.

Ltac keeps_bets_with leaf :=
  preserves_split keeps_bets keeps_bets_refl keeps_bets_trans
    ltac:(first [ apply keeps_bets_push_event
                | apply keeps_bets_emit_to
                | apply keeps_bets_write_game; intros; reflexivity
                | apply keeps_bets_write_status; intros; repeat split; reflexivity
                | apply keeps_bets_write_player; intros; reflexivity
                | leaf ]).

Lemma keeps_bets_advance_turn turn : preserves keeps_bets (advance_turn turn).
Proof. unfold advance_turn. keeps_bets_with fail. Qed.

Lemma keeps_bets_pay_winner {PS : PokerSolver} hands subHands nwinners winner index :
  preserves keeps_bets (pay_winner hands subHands nwinners winner index).
Proof. unfold pay_winner. keeps_bets_with fail. Qed.

Lemma keeps_bets_settle_loop {PS : PokerSolver} (fuel : nat) :
  ∀ hands subHands, preserves keeps_bets (settle_loop fuel hands subHands).
Proof.
  induction fuel as [|fuel IH]; intros hands subHands; cbn [settle_loop].
  - apply preserves_lift, keeps_bets_refl.
  - keeps_bets_with ltac:(first [apply keeps_bets_pay_winner | apply IH]).
Qed.

Lemma keeps_bets_checkWinning {PS : PokerSolver} {CF : Config} c :
  preserves keeps_bets (checkWinning c).
Proof. unfold checkWinning. keeps_bets_with ltac:(apply keeps_bets_settle_loop). Qed.

Lemma street_closed_twice b : street_closed (street_closed b) = street_closed b.
Proof.
  destruct b as [[[total sub] st]|]; [|reflexivity]. unfold street_closed. cbn.
  rewrite Z.add_0_r. reflexivity.
Qed.

(** The [room.players.forEach] of dealCards. *)
Lemma close_street_forEach (seats : list ref) :
  ∀ (i : Z) (t : Table),
  ∃ t1, forEach_from close_street seats i t = (Ok tt, t1)
        ∧ log t1 = log t
        ∧ players (room t1) = players (room t)
        ∧ (∀ r, r ∈ seats → bets_of (store t1 r) = street_closed (bets_of (store t r)))
        ∧ (∀ r, r ∉ seats → store t1 r = store t r)
        ∧ (seats = [] → room t1 = room t)
        ∧ (seats ≠ [] → ∀ gs, gameStatus (room t) = Some gs →
             room t1 = set_gameStatus (set_currentBetAmount 0 gs) (room t))
        ∧ (gameStatus (room t) = None → room t1 = room t).
Proof.
  induction seats as [|x seats IH]; intros i t.
  - exists t. cbn. repeat split; try reflexivity.
    + intros r Hr. inversion Hr.
    + intros H. contradiction.
  - cbn [forEach_from]. unfold close_street at 1.
    rewrite bind_assoc. unfold write_status. rewrite bind_write_player.
    set (h1 := <[x := _]> (store t)).
    assert (Hb1 : bets_of (h1 x) = street_closed (bets_of (store t x))).
    { unfold h1. rewrite fn_lookup_insert. unfold bets_of, street_closed.
      destruct (playerStatus (store t x)) as [ps|] eqn:E; cbn; [reflexivity|].
      rewrite E. reflexivity. }
    assert (Hother : ∀ r, r ≠ x → h1 r = store t r).
    { intros r Hr. unfold h1. apply fn_lookup_insert_ne. congruence. }
    destruct (gameStatus (room t)) as [gs|] eqn:Hg.
    + cbv beta. rewrite (bind_write_game _ gs) by exact Hg. cbn [store room log].
      destruct (IH (i + 1) (mkTable h1 (set_gameStatus (set_currentBetAmount 0 gs) (room t))
                              (log t)))
        as (t1 & Hrun & Hlog & Hpl & Hin & Hout & Hnil & Hcons & _).
      cbn [store room log] in *. exists t1. split; [exact Hrun|].
      split; [exact Hlog|]. split; [exact Hpl|]. split; [|split; [|split; [|split]]].
      * intros r Hr. destruct (decide (r ∈ seats)) as [Hrs|Hrs].
        -- rewrite (Hin r Hrs). destruct (decide (r = x)) as [->|Hrx].
           ++ rewrite Hb1. apply street_closed_twice.
           ++ rewrite Hother by exact Hrx. reflexivity.
        -- rewrite (Hout r Hrs).
           apply elem_of_cons in Hr as [->|Hr]; [exact Hb1|contradiction].
      * intros r Hr. rewrite Hout by (intros Hrs; apply Hr; right; exact Hrs).
        apply Hother. intros ->. apply Hr. left.
      * discriminate.
      * intros _ gs' Hgs'. inversion Hgs'; subst gs'.
        destruct seats as [|y seats'].
        -- rewrite Hnil by reflexivity. reflexivity.
        -- rewrite (Hcons ltac:(discriminate) _ eq_refl). reflexivity.
      * discriminate.
    + assert (Hw : ∀ t0, gameStatus (room t0) = None →
                         ∀ k : unit → M unit,
                           bind (write_game (set_currentBetAmount 0)) k t0 = k tt t0).
      { intros t0 H0 k. unfold bind, write_game. rewrite H0. reflexivity. }
      cbv beta. rewrite Hw by exact Hg.
      destruct (IH (i + 1) (mkTable h1 (room t) (log t)))
        as (t1 & Hrun & Hlog & Hpl & Hin & Hout & _ & _ & Hnone).
      cbn [store room log] in *. exists t1. split; [exact Hrun|].
      split; [exact Hlog|]. split; [exact Hpl|]. split; [|split; [|split; [|split]]].
      * intros r Hr. destruct (decide (r ∈ seats)) as [Hrs|Hrs].
        -- rewrite (Hin r Hrs). destruct (decide (r = x)) as [->|Hrx].
           ++ rewrite Hb1. apply street_closed_twice.
           ++ rewrite Hother by exact Hrx. reflexivity.
        -- rewrite (Hout r Hrs).
           apply elem_of_cons in Hr as [->|Hr]; [exact Hb1|contradiction].
      * intros r Hr. rewrite Hout by (intros Hrs; apply Hr; right; exact Hrs).
        apply Hother. intros ->. apply Hr. left.
      * discriminate.
      * intros _ gs' Hgs'. discriminate.
      * intros _. apply Hnone. exact Hg.
Qed.

(** X15. dealCards closes the street.  On a room with a round and a deck,
    a call of dealCards that returns has moved the stake of the street of
    every seat into its totalBetAmout and left its subTotalBetAmount at 0,
    the status as it was; currentBetAmount is 0; the bets of players that
    are not seated are untouched.  It returns true exactly when the board
    had five cards.  On a room without a round or without a deck it
    returns false and writes nothing. *)
Theorem dealCards_closes_street {PS : PokerSolver} {CF : Config} (c : Conn) (t t' : Table)
    (flag : bool) :
  dealCards c t = (Ok flag, t') →
  match gameStatus (room t) with
  | None => flag = false ∧ t' = t
  | Some gs =>
      match cards gs, players (room t) with
      | None, _ => flag = false ∧ t' = t
      | Some _, None => False
      | Some _, Some seats =>
          (∀ r, r ∈ seats → bets_of (store t' r) = street_closed (bets_of (store t r)))
          ∧ (∀ r, r ∉ seats → bets_of (store t' r) = bets_of (store t r))
          ∧ (seats ≠ [] → bet_of (room t') = Some 0)
          ∧ (flag = true ↔ length (board gs) = 5%nat)
      end
  end.
Proof.
  intros H0. unfold dealCards in H0. rewrite bind_get_room in H0.
  destruct (gameStatus (room t)) as [gs|] eqn:Hgs.
  2:{ inversion H0; subst. auto. }
  destruct (cards gs) as [cs|] eqn:Hcs.
  2:{ inversion H0; subst. auto. }
  destruct (players (room t)) as [seats|] eqn:Hseats.
  2:{ unfold get_seats in H0. rewrite bind_assoc, bind_get_room, Hseats in H0.
      cbn in H0. discriminate. }
  rewrite (bind_get_seats _ _ seats Hseats) in H0.
  destruct (close_street_forEach seats 0 t)
    as (t1 & Hrun & Hlog & Hpl & Hin & Hout & _ & Hcons & _).
  unfold forEach in H0. unfold bind at 1 in H0. rewrite Hrun in H0.
  assert (Hrest : ∀ t2, keeps_bets t1 t2 →
            (∀ r, r ∈ seats → bets_of (store t2 r) = street_closed (bets_of (store t r)))
            ∧ (∀ r, r ∉ seats → bets_of (store t2 r) = bets_of (store t r))
            ∧ (seats ≠ [] → bet_of (room t2) = Some 0)).
  { intros t2 (_ & Hbet & Hbets). split; [|split].
    - intros r Hr. rewrite Hbets. apply Hin, Hr.
    - intros r Hr. rewrite Hbets, (Hout r Hr). reflexivity.
    - intros Hne. rewrite Hbet, (Hcons Hne gs Hgs). reflexivity. }
  apply bind_cases in H0 as [(a2 & t2 & Hm2 & H2)|[[_ ?]|[_ ?]]]; try discriminate.
  pose proof (keeps_bets_advance_turn _ _ _ _ Hm2) as Hk2.
  destruct (decide (length (board gs) = 5%nat)) as [Hfive|Hne].
  - rewrite (bool_decide_eq_true_2 _ Hfive) in H2.
    apply bind_cases in H2 as [(a3 & t3 & Hm3 & H3)|[[_ ?]|[_ ?]]]; try discriminate.
    inversion H3; subst. clear H3.
    destruct (Hrest t' (keeps_bets_trans _ _ _ Hk2 (keeps_bets_checkWinning _ _ _ _ Hm3)))
      as (Ha & Hb & Hc).
    split; [exact Ha|]. split; [exact Hb|]. split; [exact Hc|].
    split; [intros _; exact Hfive|reflexivity].
  - rewrite (bool_decide_eq_false_2 _ Hne) in H2.
    assert (Hw : preserves keeps_bets (write_game (set_board (deal_next cs (board gs)))))
      by (apply keeps_bets_write_game; intros; reflexivity).
    apply bind_cases in H2 as [(a3 & t3 & Hm3 & H3)|[[_ ?]|[_ ?]]]; try discriminate.
    inversion H3; subst. clear H3.
    destruct (Hrest t' (keeps_bets_trans _ _ _ Hk2 (Hw _ _ _ Hm3))) as (Ha & Hb & Hc).
    split; [exact Ha|]. split; [exact Hb|]. split; [exact Hc|].
    split; [discriminate|intros; contradiction].
Qed.

Lemma dealCards_closes_street_witness :
  let dealt := dealCards (PS := high_card_solver) (CF := sample_config)
                 three_conn round_table in
  (∀ r, r ∈ [0; 1; 2]%nat →
        bets_of (store dealt.2 r) = street_closed (bets_of (store round_table r)))
  ∧ bet_of (room dealt.2) = Some 0.
Proof.
  intros dealt.
  assert (Hrun : dealCards (PS := high_card_solver) (CF := sample_config)
                   three_conn round_table = (Ok false, dealt.2)).
  { rewrite (surjective_pairing (dealCards three_conn round_table)).
    f_equal; vm_compute; reflexivity. }
  pose proof (dealCards_closes_street (PS := high_card_solver) (CF := sample_config)
                three_conn round_table dealt.2 false Hrun) as H.
  destruct (gameStatus (room round_table)) as [gs|] eqn:Hg; [|vm_compute in Hg; discriminate].
  assert (Hgs : gs = default gs (gameStatus (room round_table))) by (rewrite Hg; reflexivity).
  assert (Hc : cards gs = Some (shuffleCards no_swaps cardIds))
    by (rewrite Hgs; vm_compute; reflexivity).
  assert (Hp : players (room round_table) = Some [0; 1; 2]%nat) by (vm_compute; reflexivity).
  rewrite Hc, Hp in H. destruct H as (H1 & _ & H3 & _).
  split; [exact H1|]. apply H3. discriminate.
Defined.

(** ** What settlement pays *)

(** A table whose pot and whose totalBetAmouts, over the seats, are not
    negative. *)
Definition stakes_ok (t : Table) : Prop :=
  0 ≤ pot_of (room t)
  ∧ ∀ r ps, r ∈ seats_of (room t) → playerStatus (store t r) = Some ps → 0 ≤ totalBetAmout ps.

(** Settlement pays out of the pot: the pot falls and stays at 0 or above,
    no balance falls. *)
Definition pays (t t' : Table) : Prop :=
  players (room t') = players (room t)
  ∧ (stakes_ok t →
     stakes_ok t'
     ∧ pot_of (room t') ≤ pot_of (room t)
     ∧ ∀ r, balance (store t r) ≤ balance (store t' r)).

Lemma pays_refl t : pays t t.
Proof. split; [reflexivity|]. intros H. split; [exact H|]. split; [lia|]. intros r. lia. Qed.

Lemma pays_trans t1 t2 t3 : pays t1 t2 → pays t2 t3 → pays t1 t3.
Proof.
  intros [Hp1 H1] [Hp2 H2]. split; [congruence|]. intros Hok.
  destruct (H1 Hok) as (Hok2 & Hpot1 & Hbal1).
  destruct (H2 Hok2) as (Hok3 & Hpot2 & Hbal2).
  split; [exact Hok3|]. split; [lia|].
  intros r. specialize (Hbal1 r). specialize (Hbal2 r). lia.
Qed.

(** A table that differs in the log, or in fields other than the pot, the
    balances and the totalBetAmouts. *)
Lemma pays_same (t t' : Table) :
  players (room t') = players (room t) →
  pot_of (room t') = pot_of (room t) →
  (∀ r, balance (store t' r) = balance (store t r)
        ∧ (totalBetAmout <$> playerStatus (store t' r))
          = (totalBetAmout <$> playerStatus (store t r))) →
  pays t t'.
Proof.
  intros Hp Hpot Hst. split; [exact Hp|]. intros [H0 Htot].
  split; [split|split].
  - rewrite Hpot. exact H0.
  - intros r ps Hr Hps. unfold seats_of in Hr. rewrite Hp in Hr.
    destruct (Hst r) as [_ Ht]. rewrite Hps in Ht. cbn in Ht.
    destruct (playerStatus (store t r)) as [ps0|] eqn:E; [|discriminate].
    inversion Ht as [Ht']. rewrite Ht'. apply (Htot r ps0 Hr E).
  - lia.
  - intros r. destruct (Hst r) as [-> _]. lia.
Qed.

Lemma pays_push_event e : preserves pays (push_event e).
Proof. intros t res t' H. inversion H; subst. apply pays_same; cbn; auto. Qed.

Lemma pays_emit_to c r ev payload player : preserves pays (emit_to c r ev payload player).
Proof.
  unfold emit_to.
  preserves_split pays pays_refl pays_trans ltac:(apply pays_push_event).
Qed.

Lemma pays_write_game (f : GameStatus → GameStatus) :
  (∀ gs, pot (f gs) = pot gs) → preserves pays (write_game f).
Proof.
  intros Hf t res t' H. unfold write_game in H.
  destruct (gameStatus (room t)) as [gs|] eqn:E; inversion H; subst.
  - apply pays_same; cbn; auto. unfold pot_of. cbn. rewrite E. apply Hf.
  - apply pays_refl.
Qed.

Lemma maxWin_from_ge (h : Store) (remainingIndexes : list Z) (total : Z) (seats : list ref) :
  0 ≤ total →
  (∀ r ps, r ∈ seats → playerStatus (h r) = Some ps → 0 ≤ totalBetAmout ps) →
  ∀ index acc, acc ≤ maxWin_from h remainingIndexes total seats index acc.
Proof.
  intros Htotal. induction seats as [|r seats IH]; intros Hall index acc; cbn [maxWin_from].
  - lia.
  - assert (Hrest : ∀ r' ps, r' ∈ seats → playerStatus (h r') = Some ps → 0 ≤ totalBetAmout ps)
      by (intros r' ps Hr'; apply Hall; right; exact Hr').
    destruct (playerStatus (h r)) as [ps|] eqn:Hps; [|apply IH, Hrest].
    destruct (_ || _); [|apply IH, Hrest].
    etransitivity; [|apply IH, Hrest].
    pose proof (Hall r ps ltac:(left) Hps). lia.
Qed.

Lemma pays_pay_winner {PS : PokerSolver} hands subHands nwinners winner index :
  0 ≤ index < nwinners →
  preserves pays (pay_winner hands subHands nwinners winner index).
Proof.
  intros Hindex t res t' H0. unfold pay_winner in H0.
  destruct (players (room t)) as [seats|] eqn:Hs.
  2:{ unfold get_seats in H0. rewrite bind_assoc, bind_get_room, Hs in H0.
      inversion H0; subst. apply pays_refl. }
  rewrite (bind_get_seats _ _ seats Hs) in H0.
  destruct (at_index seats (hand_index hands winner)) as [r|] eqn:Hr.
  2:{ inversion H0; subst. apply pays_refl. }
  rewrite (bind_defined_Some _ r) in H0 by reflexivity.
  rewrite bind_get_store in H0.
  destruct (playerStatus (store t r)) as [ps|] eqn:Hps.
  2:{ inversion H0; subst. apply pays_refl. }
  rewrite bind_get_room in H0.
  destruct (gameStatus (room t)) as [gs|] eqn:Hg.
  2:{ inversion H0; subst. apply pays_refl. }
  rewrite (bind_defined_Some _ gs) in H0 by reflexivity.
  cbv zeta in H0.
  rewrite (bind_write_status _ _ ps _ _ Hps) in H0.
  rewrite (bind_write_game _ gs) in H0 by exact Hg.
  inversion H0; subst; clear H0.
  set (win := Z.min _ _).
  split; [reflexivity|]. intros [Hpot Htot].
  unfold pot_of in Hpot. rewrite Hg in Hpot.
  assert (Hr' : r ∈ seats_of (room t)).
  { unfold seats_of. rewrite Hs. eapply at_index_elem_of; eauto. }
  assert (Hwin : 0 ≤ win ≤ pot gs).
  { unfold win.
    assert (0 ≤ pot gs / (nwinners - index)) by (apply Z.div_pos; lia).
    assert (pot gs / (nwinners - index) ≤ pot gs).
    { rewrite <- (Z.div_1_r (pot gs)) at 2. apply Z.div_le_compat_l; lia. }
    pose proof (Htot r ps Hr' Hps) as Ht.
    pose proof (maxWin_from_ge (store t) (map (hand_index hands) subHands)
                  (totalBetAmout ps) seats Ht
                  (fun r' ps' Hin => Htot r' ps' ltac:(unfold seats_of; rewrite Hs; exact Hin))
                  0 (totalBetAmout ps)).
    lia. }
  cbn [store room log]. split; [split|split].
  - unfold pot_of. cbn. lia.
  - intros r' ps' Hin. cbn [room players set_gameStatus seats_of] in Hin.
    destruct (decide (r = r')) as [<-|Hne].
    + cbn [store]. rewrite !fn_lookup_insert. cbn. intros [= <-]. cbn.
      apply (Htot r ps Hr' Hps).
    + cbn [store]. rewrite !fn_lookup_insert_ne by congruence. apply Htot. exact Hin.
  - unfold pot_of. cbn. rewrite Hg. lia.
  - intros r'. destruct (decide (r = r')) as [<-|Hne].
    + rewrite !fn_lookup_insert. cbn. lia.
    + rewrite !fn_lookup_insert_ne by congruence. lia.
Qed.

Lemma pays_forEach_pay {PS : PokerSolver} hands subHands nwinners (ws : list HandObj) :
  ∀ i, 0 ≤ i → i + Z.of_nat (length ws) ≤ nwinners →
       preserves pays (forEach_from (pay_winner hands subHands nwinners) ws i).
Proof.
  induction ws as [|w ws IH]; intros i Hi Hlen; cbn [forEach_from].
  - apply preserves_ret, pays_refl.
  - cbn [length] in Hlen. apply (preserves_bind pays pays_trans).
    + apply pays_pay_winner. lia.
    + intros _. apply IH; lia.
Qed.

Lemma pays_settle_loop {PS : PokerSolver} (fuel : nat) :
  ∀ hands subHands, preserves pays (settle_loop fuel hands subHands).
Proof.
  induction fuel as [|fuel IH]; intros hands subHands; cbn [settle_loop].
  - apply preserves_lift, pays_refl.
  - apply (preserves_bind pays pays_trans); [apply preserves_get_room, pays_refl|].
    intros rm. apply (preserves_bind pays pays_trans); [apply preserves_defined, pays_refl|].
    intros gs. destruct (pot gs =? 0); [apply preserves_ret, pays_refl|].
    destruct subHands as [|x subHands]; [apply preserves_ret, pays_refl|].
    cbv zeta. apply (preserves_bind pays pays_trans); [|intros _; apply IH].
    unfold forEach. apply pays_forEach_pay; [lia|].
    rewrite Z.add_0_l. apply Z.le_refl.
Qed.

Lemma pays_checkWinning {PS : PokerSolver} {CF : Config} c : preserves pays (checkWinning c).
Proof.
  unfold checkWinning.
  preserves_split pays pays_refl pays_trans
    ltac:(first [ apply pays_settle_loop
                | apply pays_push_event
                | apply pays_emit_to
                | apply pays_write_game; intros; reflexivity ]).
Qed.

(** X16. Settlement pays out of the pot.  When the pot and the
    totalBetAmout of every seat are not negative, checkWinning, whatever
    its outcome, leaves a pot that is not negative and not greater than
    before, and lowers no balance. *)
Theorem settlement_pays_from_pot {PS : PokerSolver} {CF : Config} (c : Conn) (t t' : Table)
    (outcome : res unit) :
  checkWinning c t = (outcome, t') →
  0 ≤ pot_of (room t) →
  (∀ r ps, r ∈ seats_of (room t) → playerStatus (store t r) = Some ps →
           0 ≤ totalBetAmout ps) →
  0 ≤ pot_of (room t') ≤ pot_of (room t)
  ∧ ∀ r, balance (store t r) ≤ balance (store t' r).
Proof.
  intros H Hpot Htot.
  destruct (pays_checkWinning c t outcome t' H) as [_ Hpays].
  destruct (Hpays (conj Hpot Htot)) as ([Hpot' _] & Hle & Hbal).
  auto.
Qed.

Lemma settlement_pays_from_pot_witness :
  let settled := checkWinning (PS := high_card_solver) (CF := sample_config)
                   two_conn tie_table in
  0 ≤ pot_of (room settled.2) ≤ 60
  ∧ ∀ r, balance (tie_store r) ≤ balance (store settled.2 r).
Proof.
  intros settled.
  apply (settlement_pays_from_pot (PS := high_card_solver) (CF := sample_config)
           two_conn tie_table settled.2 settled.1).
  - apply surjective_pairing.
  - vm_compute. discriminate.
  - intros r ps Hr Hps.
    assert (Hcase : r = 0%nat ∨ r = 1%nat).
    { apply elem_of_cons in Hr as [->|Hr]; [left; reflexivity|].
      apply elem_of_cons in Hr as [->|Hr]; [right; reflexivity|].
      inversion Hr. }
    destruct Hcase as [-> | ->]; vm_compute in Hps; inversion Hps; subst ps;
      vm_compute; discriminate.
Defined.

(** ** Who is paid *)

Lemma hands_from_entries {PS : PokerSolver} (h : Store) (gs : GameStatus) (seats : list ref) :
  ∀ (index : nat) (hands : list (option HandObj)),
    hands_from h gs seats index = Ok hands →
    ∀ j r, seats !! j = Some r → sits_out (h r) → hands !! j = Some None.
Proof.
  induction seats as [|x seats IH]; intros index hands H j r Hj Hout.
  - discriminate.
  - cbn [hands_from] in H.
    destruct (hand_of h gs index x) as [hand| |] eqn:Hh; try discriminate.
    cbn [res_bind] in H.
    destruct (hands_from h gs seats (S index)) as [rest| |] eqn:Hrest; try discriminate.
    cbn [res_bind] in H. inversion H; subst hands. clear H.
    destruct j as [|j]; cbn in Hj |- *.
    + inversion Hj; subst x. f_equal. unfold hand_of, sits_out in *.
      destruct (playerStatus (h r)) as [ps|]; [|congruence].
      destruct Hout as [Hs|Hs]; rewrite Hs in Hh.
      * change (bool_decide (FOLD ≠ BUST) && bool_decide (FOLD ≠ FOLD)) with false in Hh.
        congruence.
      * change (bool_decide (BUST ≠ BUST) && bool_decide (BUST ≠ FOLD)) with false in Hh.
        congruence.
    + apply (IH _ _ Hrest j r Hj Hout).
Qed.

(** [hands.indexOf(winner)] is the position of a hand. *)
Lemma hand_index_hand {PS : PokerSolver} (hands : list (option HandObj)) (winner : HandObj)
    (r : ref) (seats : list ref) :
  at_index seats (hand_index hands winner) = Some r →
  ∃ x, at_index hands (hand_index hands winner) = Some (Some x).
Proof.
  intros Hr. unfold hand_index in *.
  destruct (indexOf_first
              (fun o => match o with Some x => same_hand x winner | None => false end) hands)
    as [[Hm _] | (y & _ & Hy & Hxy & _)].
  - rewrite Hm in Hr. discriminate.
  - destruct y as [x|]; [|discriminate]. exists x. exact Hy.
Qed.

(** Calls that do not write the Player object [r], the seats being
    [seats]. *)
Definition leaves_alone (seats : list ref) (r : ref) (t t' : Table) : Prop :=
  players (room t) = Some seats →
  players (room t') = Some seats ∧ store t' r = store t r.

Lemma leaves_alone_refl seats r t : leaves_alone seats r t t.
Proof. intros H. auto. Qed.

Lemma leaves_alone_trans seats r t1 t2 t3 :
  leaves_alone seats r t1 t2 → leaves_alone seats r t2 t3 → leaves_alone seats r t1 t3.
Proof.
  intros H1 H2 Hp. destruct (H1 Hp) as [Hp2 Hs2]. destruct (H2 Hp2) as [Hp3 Hs3].
  split; [exact Hp3|congruence].
Qed.

Lemma leaves_alone_push_event seats r e : preserves (leaves_alone seats r) (push_event e).
Proof. intros t res t' H. inversion H; subst. intros Hp. auto. Qed.

Lemma leaves_alone_emit_to seats r c r' ev payload player :
  preserves (leaves_alone seats r) (emit_to c r' ev payload player).
Proof.
  unfold emit_to.
  preserves_split (leaves_alone seats r) (leaves_alone_refl seats r)
    (leaves_alone_trans seats r) ltac:(apply leaves_alone_push_event).
Qed.

Lemma leaves_alone_write_game seats r f : preserves (leaves_alone seats r) (write_game f).
Proof.
  intros t res t' H. unfold write_game in H.
  destruct (gameStatus (room t)); inversion H; subst; intros Hp; auto.
Qed.

Lemma leaves_alone_pay_winner {PS : PokerSolver} (seats : list ref) (r : ref) (j : nat)
    hands subHands nwinners winner index :
  NoDup seats → seats !! j = Some r → hands !! j = Some None →
  preserves (leaves_alone seats r) (pay_winner hands subHands nwinners winner index).
Proof.
  intros Hnd Hj Hnone t res t' H0 Hs. unfold pay_winner in H0.
  rewrite (bind_get_seats _ _ seats Hs) in H0.
  destruct (at_index seats (hand_index hands winner)) as [r'|] eqn:Hr.
  2:{ inversion H0; subst. auto. }
  rewrite (bind_defined_Some _ r') in H0 by reflexivity.
  rewrite bind_get_store in H0.
  destruct (playerStatus (store t r')) as [ps|] eqn:Hps.
  2:{ inversion H0; subst. auto. }
  rewrite bind_get_room in H0.
  destruct (gameStatus (room t)) as [gs|] eqn:Hg.
  2:{ inversion H0; subst. auto. }
  rewrite (bind_defined_Some _ gs) in H0 by reflexivity.
  cbv zeta in H0.
  rewrite (bind_write_status _ _ ps _ _ Hps) in H0.
  rewrite (bind_write_game _ gs) in H0 by exact Hg.
  inversion H0; subst; clear H0. cbn [store room players set_gameStatus].
  split; [exact Hs|].
  assert (Hne : r' ≠ r).
  { intros ->. destruct (hand_index_hand hands winner r seats Hr) as [x Hx].
    unfold at_index in Hr, Hx. destruct (hand_index hands winner <? 0); [discriminate|].
    pose proof (NoDup_lookup _ _ _ _ Hnd Hr Hj) as Heq. rewrite Heq in Hx. congruence. }
  rewrite !fn_lookup_insert_ne by exact Hne. reflexivity.
Qed.

Lemma leaves_alone_settle_loop {PS : PokerSolver} (seats : list ref) (r : ref) (j : nat)
    (hands : list (option HandObj)) (fuel : nat) :
  NoDup seats → seats !! j = Some r → hands !! j = Some None →
  ∀ subHands, preserves (leaves_alone seats r) (settle_loop fuel hands subHands).
Proof.
  intros Hnd Hj Hnone. induction fuel as [|fuel IH]; intros subHands; cbn [settle_loop].
  - apply preserves_lift, leaves_alone_refl.
  - preserves_split (leaves_alone seats r) (leaves_alone_refl seats r)
      (leaves_alone_trans seats r)
      ltac:(first [ apply IH
                  | eapply leaves_alone_pay_winner; eassumption ]).
Qed.

(** X17. Seats without a hand are not paid.  At settlement the Player
    object of a seat that has folded, is bust or has no playerStatus is
    left as it is, balance and winAmount included, whatever the solver
    returns; the seats being distinct Player objects. *)
Theorem sitting_out_not_paid {PS : PokerSolver} {CF : Config} (c : Conn) (t t' : Table)
    (outcome : res unit) (seats : list ref) (r : ref) :
  checkWinning c t = (outcome, t') →
  players (room t) = Some seats →
  NoDup seats →
  r ∈ seats →
  sits_out (store t r) →
  store t' r = store t r.
Proof.
  intros H0 Hs Hnd Hr Hout. unfold checkWinning in H0.
  rewrite bind_get_room in H0.
  destruct (gameStatus (room t)) as [gs|] eqn:Hg.
  2:{ inversion H0; subst. reflexivity. }
  rewrite (bind_get_seats _ _ seats Hs), bind_get_store in H0.
  unfold lift in H0. unfold bind at 1 in H0.
  destruct (hands_from (store t) gs seats 0) as [hands| |] eqn:Hh;
    [|inversion H0; subst; reflexivity..].
  apply list_elem_of_lookup in Hr as [j Hj].
  pose proof (hands_from_entries _ _ _ _ _ Hh j r Hj Hout) as Hnone.
  match type of H0 with
  | ?K t = _ =>
      assert (HK : preserves (leaves_alone seats r) K)
  end.
  { preserves_split (leaves_alone seats r) (leaves_alone_refl seats r)
      (leaves_alone_trans seats r)
      ltac:(first [ eapply leaves_alone_settle_loop; eassumption
                  | apply leaves_alone_push_event
                  | apply leaves_alone_emit_to
                  | apply leaves_alone_write_game ]). }
  apply (HK _ _ _ H0 Hs).
Qed.

Lemma sitting_out_not_paid_witness :
  let h : Store := fun r =>
    match r with
    | O => player_of 0 1950 (Some (mkPlayerStatus 50 0 CHECK (Some [0; 1]) 0 None))
    | _ => player_of 1 1990 (Some (mkPlayerStatus 10 0 FOLD (Some [2; 3]) 0 None))
    end in
  let settled := checkWinning (PS := high_card_solver) (CF := sample_config)
                   two_conn (mkTable h tie_room []) in
  store settled.2 1%nat = h 1%nat.
Proof.
  intros h settled.
  apply (sitting_out_not_paid (PS := high_card_solver) (CF := sample_config)
           two_conn (mkTable h tie_room []) settled.2 settled.1 [0; 1]%nat 1%nat).
  - apply surjective_pairing.
  - reflexivity.
  - apply (bool_decide_unpack _). vm_compute. reflexivity.
  - apply (bool_decide_unpack _). vm_compute. reflexivity.
  - left. reflexivity.
Defined.

(** ** The chips at the start of a round *)

(** Calls that keep the chips of the room, its balances plus its pot, the
    seats being [seats]. *)
Definition chips_kept (seats : list ref) (t t' : Table) : Prop :=
  players (room t) = Some seats →
  players (room t') = Some seats
  ∧ (NoDup seats → chips (store t') (room t') = chips (store t) (room t)).

Lemma chips_kept_refl seats t : chips_kept seats t t.
Proof. intros H. auto. Qed.

Lemma chips_kept_trans seats t1 t2 t3 :
  chips_kept seats t1 t2 → chips_kept seats t2 t3 → chips_kept seats t1 t3.
Proof.
  intros H1 H2 Hp. destruct (H1 Hp) as [Hp2 Hc2]. destruct (H2 Hp2) as [Hp3 Hc3].
  split; [exact Hp3|]. intros Hnd. rewrite Hc3, Hc2 by exact Hnd. reflexivity.
Qed.

Lemma chips_kept_same seats (t t' : Table) :
  players (room t') = players (room t) →
  pot_of (room t') = pot_of (room t) →
  (∀ r, balance (store t' r) = balance (store t r)) →
  chips_kept seats t t'.
Proof.
  intros Hp Hpot Hbal Hs. split; [congruence|]. intros _.
  unfold chips, balances, seats_of. rewrite Hp, Hpot. f_equal.
  apply total_of_ext. intros r _. apply Hbal.
Qed.

Lemma chips_kept_push_event seats e : preserves (chips_kept seats) (push_event e).
Proof. intros t res t' H. inversion H; subst. apply chips_kept_same; cbn; auto. Qed.

Lemma chips_kept_write_game seats (f : GameStatus → GameStatus) :
  (∀ gs, pot (f gs) = pot gs) → preserves (chips_kept seats) (write_game f).
Proof.
  intros Hf t res t' H. unfold write_game in H.
  destruct (gameStatus (room t)) as [gs|] eqn:E; inversion H; subst.
  - apply chips_kept_same; cbn; auto. unfold pot_of. cbn. rewrite E. apply Hf.
  - apply chips_kept_refl.
Qed.

Lemma chips_kept_write_player seats (r : ref) (f : Player → Player) :
  (∀ p, balance (f p) = balance p) → preserves (chips_kept seats) (write_player r f).
Proof.
  intros Hf t res t' H. inversion H; subst. clear H.
  apply chips_kept_same; cbn [store room]; auto.
  intros r'. destruct (decide (r = r')) as [->|Hne].
  - rewrite fn_lookup_insert. apply Hf.
  - rewrite fn_lookup_insert_ne by exact Hne. reflexivity.
Qed.

Lemma chips_kept_write_status seats (r : ref) (f : PlayerStatus → PlayerStatus) :
  preserves (chips_kept seats) (write_status r f).
Proof.
  unfold write_status. apply chips_kept_write_player.
  intros p. destruct (playerStatus p); reflexivity.
Qed.

Ltac chips_kept_with seats leaf :=
  preserves_split (chips_kept seats) (chips_kept_refl seats) (chips_kept_trans seats)
    ltac:(first [ apply chips_kept_push_event
                | apply chips_kept_write_game; intros; reflexivity
                | apply chips_kept_write_status
                | apply chips_kept_write_player; intros; reflexivity
                | leaf ]).

Lemma chips_kept_advance_turn seats turn : preserves (chips_kept seats) (advance_turn turn).
Proof. unfold advance_turn. chips_kept_with seats fail. Qed.

Lemma chips_kept_deal_hole seats cs r i : preserves (chips_kept seats) (deal_hole cs r i).
Proof. unfold deal_hole. chips_kept_with seats fail. Qed.

(** The blind moves from the balance of the seat to the pot. *)
Lemma chips_kept_post_blind seats blind r index :
  r ∈ seats → preserves (chips_kept seats) (post_blind blind r index).
Proof.
  intros Hin t res t' H0 Hs. unfold post_blind in H0.
  rewrite bind_get_store, bind_get_room in H0.
  destruct (playerStatus (store t r)) as [ps|] eqn:Hps.
  2:{ inversion H0; subst. auto. }
  assert (Hstop : ∀ o, (o, t) = (res, t') →
            players (room t') = Some seats
            ∧ (NoDup seats → chips (store t') (room t') = chips (store t) (room t))).
  { intros o Ho. inversion Ho; subst. auto. }
  assert (Hposts : ∀ posts : bool,
            (if posts
             then
               let! gs := defined (gameStatus (room t)) in
               let amount := if index =? blind then 10 else 5 in
               (if currentBetAmount gs <? amount
                then write_game (set_currentBetAmount amount) else ret tt) ;;;
               if amount <=? balance (store t r) then
                 write_status r (set_subTotal amount) ;;;
                 write_player r (fun p => set_balance (balance p - amount) p) ;;;
                 write_game (fun gs => set_pot (pot gs + amount) gs)
               else write_status r (set_status BUST)
             else ret tt) t = (res, t') →
            players (room t') = Some seats
            ∧ (NoDup seats → chips (store t') (room t') = chips (store t) (room t))).
  { intros [|] H1; [|apply (Hstop _ H1)].
    destruct (gameStatus (room t)) as [gs|] eqn:Hg; [|apply (Hstop _ H1)].
    rewrite (bind_defined_Some _ gs) in H1 by reflexivity. cbv zeta in H1.
    set (amount := if index =? blind then 10 else 5) in *.
    assert (Hgo : ∀ g, pot g = pot gs →
              (if amount <=? balance (store t r) then
                 write_status r (set_subTotal amount) ;;;
                 write_player r (fun p => set_balance (balance p - amount) p) ;;;
                 write_game (fun gs => set_pot (pot gs + amount) gs)
               else write_status r (set_status BUST))
                (mkTable (store t) (set_gameStatus g (room t)) (log t)) = (res, t') →
              players (room t') = Some seats
              ∧ (NoDup seats → chips (store t') (room t') = chips (store t) (room t))).
    { intros g Hpot H2. destruct (amount <=? balance (store t r)).
      - erewrite bind_write_status in H2 by (cbn [store]; exact Hps).
        rewrite bind_write_player in H2. cbn [store room log] in H2.
        unfold write_game in H2. cbn [room gameStatus set_gameStatus store log] in H2.
        inversion H2; subst. clear H2. cbn [store room players set_gameStatus].
        split; [exact Hs|]. intros Hnd.
        unfold chips, balances, pot_of, seats_of.
        cbn [players gameStatus set_gameStatus pot set_pot]. rewrite Hs, Hg.
        rewrite (total_of_update balance (store t) _ seats r Hnd Hin).
        + rewrite !fn_lookup_insert. cbn. unfold total_of. lia.
        + intros r' Hne. rewrite !fn_lookup_insert_ne by congruence. reflexivity.
      - assert (Hk : preserves (chips_kept seats) (write_status r (set_status BUST)))
          by apply chips_kept_write_status.
        destruct (Hk _ _ _ H2) as [Hp' Hc']; [exact Hs|].
        split; [exact Hp'|]. intros Hnd. rewrite Hc' by exact Hnd.
        unfold chips, balances, pot_of, seats_of. cbn. rewrite Hg, Hpot. reflexivity. }
    destruct (currentBetAmount gs <? amount).
    - rewrite (bind_write_game _ gs) in H1 by exact Hg.
      apply (Hgo (set_currentBetAmount amount gs) eq_refl H1).
    - rewrite bind_ret in H1. apply (Hgo gs eq_refl).
      assert (Hrm : set_gameStatus gs (room t) = room t).
      { clear -Hg. destruct t as [h0 [a b c0 d n p g0] l0]. cbn in Hg |- *.
        rewrite Hg. reflexivity. }
      rewrite Hrm. destruct t. exact H1. }
  destruct (index =? blind).
  - rewrite bind_ret in H0. apply (Hposts true H0).
  - rewrite bind_assoc in H0. unfold lift in H0. unfold bind at 1 in H0.
    destruct (prevTurn (store t) (room t) (Some blind)) as [p| |];
      [|apply (Hstop _ H0)..].
    rewrite bind_ret in H0. apply (Hposts _ H0).
Qed.

(** X18. The chips at the start of a round.  After a startNewRound that
    returns, the balances of the seats plus the pot are the balances the
    seats had before: the pot of the new round holds what the blinds took
    from the balances, and what the pot of the round before still held is
    gone.  The seats are distinct Player objects. *)
Theorem startNewRound_chips {CF : Config} (rnd : nat → nat * nat) (blindDraw now : Z)
    (t t' : Table) (seats : list ref) :
  startNewRound rnd blindDraw now t = (Ok tt, t') →
  players (room t) = Some seats →
  NoDup seats →
  players (room t') = Some seats
  ∧ chips (store t') (room t') = balances (store t) (room t).
Proof.
  intros H0 Hs Hnd. unfold startNewRound in H0. cbv zeta in H0.
  rewrite bind_get_store, bind_get_room in H0.
  apply bind_cases in H0 as [(blind & t1 & Hm & H1)|[[_ ?]|[_ ?]]]; try discriminate.
  assert (Ht1 : t1 = t).
  { destruct (gameStatus (room t)); [|inversion Hm; reflexivity].
    unfold lift in Hm. inversion Hm; reflexivity. }
  subst t1.
  unfold set_room_gameStatus in H1. unfold bind at 1 in H1.
  set (t1 := mkTable (store t) _ (log t)) in H1.
  assert (Hs1 : players (room t1) = Some seats) by exact Hs.
  rewrite (bind_get_seats _ _ seats Hs1) in H1.
  match type of H1 with
  | ?K t1 = _ =>
      assert (HK : preserves (chips_kept seats) K)
  end.
  { chips_kept_with seats
      ltac:(first [ apply chips_kept_deal_hole
                  | apply chips_kept_advance_turn
                  | apply chips_kept_post_blind; assumption ]). }
  destruct (HK _ _ _ H1 Hs1) as [Hp' Hc'].
  split; [exact Hp'|]. rewrite (Hc' Hnd).
  unfold chips, balances, pot_of, seats_of, t1. cbn. rewrite Hs. cbn. lia.
Qed.

Lemma startNewRound_chips_witness :
  players (room round_table) = Some [0; 1; 2]%nat
  ∧ chips (store round_table) (room round_table) = 6000.
Proof.
  destruct (startNewRound_chips (CF := sample_config) no_swaps 0 100
              (focus lobby_server lobby_room) round_table [0; 1; 2]%nat) as [H1 H2].
  - exact round_table_started.
  - reflexivity.
  - apply (bool_decide_unpack _). vm_compute. reflexivity.
  - split; [exact H1|]. etrans; [exact H2|]. vm_compute. reflexivity.
Defined.

(** ** Fields a call does not write

    [framed fg fp]: the seat list stays, and so do the part [fg] of
    gameStatus and the part [fp] of every Player object. *)

Section Framed.
Context {G X : Type}.
Variables (fg : GameStatus → G) (fp : Player → X).

Definition framed (t t' : Table) : Prop :=
  players (room t') = players (room t)
  ∧ fg <$> gameStatus (room t') = fg <$> gameStatus (room t)
  ∧ ∀ r, fp (store t' r) = fp (store t r).

Lemma framed_refl t : framed t t.
Proof. repeat split. Qed.

Lemma framed_trans t1 t2 t3 : framed t1 t2 → framed t2 t3 → framed t1 t3.
Proof.
  intros (H1 & H2 & H3) (H4 & H5 & H6).
  split; [congruence|]. split; [congruence|].
  intros r. rewrite H6. apply H3.
Qed.

Lemma framed_push_event e : preserves framed (push_event e).
Proof. intros t res t' H. inversion H; subst. repeat split. Qed.

Lemma framed_write_game (f : GameStatus → GameStatus) :
  (∀ gs, fg (f gs) = fg gs) → preserves framed (write_game f).
Proof.
  intros Hf t res t' H. unfold write_game in H.
  destruct (gameStatus (room t)) as [gs|] eqn:E; inversion H; subst.
  - repeat split. cbn. rewrite E. cbn. f_equal. apply Hf.
  - apply framed_refl.
Qed.

Lemma framed_write_player (r : ref) (f : Player → Player) :
  (∀ p, fp (f p) = fp p) → preserves framed (write_player r f).
Proof.
  intros Hf t res t' H. inversion H; subst. clear H.
  repeat split. intros r'. cbn [store]. destruct (decide (r = r')) as [->|Hne].
  - rewrite fn_lookup_insert. apply Hf.
  - rewrite fn_lookup_insert_ne by exact Hne. reflexivity.
Qed.

Lemma framed_write_status (r : ref) (f : PlayerStatus → PlayerStatus) :
  (∀ p ps, fp (set_playerStatus (f ps) p) = fp p) → preserves framed (write_status r f).
Proof.
  intros Hf. unfold write_status. apply framed_write_player.
  intros p. destruct (playerStatus p); [apply Hf|reflexivity].
Qed.

Lemma framed_emit_to c r ev payload player :
  preserves framed (emit_to c r ev payload player).
Proof.
  unfold emit_to.
  preserves_split framed framed_refl framed_trans ltac:(apply framed_push_event).
Qed.
End Framed.

Ltac framed_with fg fp leaf :=
  preserves_split (framed fg fp) (framed_refl fg fp) (framed_trans fg fp)
    ltac:(first [ apply framed_push_event
                | apply framed_emit_to
                | apply framed_write_game; intros; reflexivity
                | apply framed_write_status; intros; reflexivity
                | apply framed_write_player; intros; reflexivity
                | leaf ]).

(** The room keeps its seat list and its gameStatus stays one. *)
Definition shape_g (_ : GameStatus) : unit := tt.
Definition shape_p (_ : Player) : unit := tt.

Lemma shaped_settle_loop {PS : PokerSolver} (fuel : nat) :
  ∀ hands subHands, preserves (framed shape_g shape_p) (settle_loop fuel hands subHands).
Proof.
  induction fuel as [|fuel IH]; intros hands subHands; cbn [settle_loop].
  - apply preserves_lift, framed_refl.
  - unfold pay_winner. framed_with shape_g shape_p ltac:(apply IH).
Qed.

Lemma shaped_checkWinning {PS : PokerSolver} {CF : Config} c :
  preserves (framed shape_g shape_p) (checkWinning c).
Proof. unfold checkWinning. framed_with shape_g shape_p ltac:(apply shaped_settle_loop). Qed.

Lemma shaped_dealCards {PS : PokerSolver} {CF : Config} c :
  preserves (framed shape_g shape_p) (dealCards c).
Proof.
  unfold dealCards, close_street, advance_turn.
  framed_with shape_g shape_p ltac:(apply shaped_checkWinning).
Qed.

Lemma shaped_deal_until_showdown {PS : PokerSolver} {CF : Config} c fuel :
  preserves (framed shape_g shape_p) (deal_until_showdown c fuel).
Proof.
  induction fuel as [|fuel IH]; cbn [deal_until_showdown].
  - apply preserves_lift, framed_refl.
  - framed_with shape_g shape_p ltac:(first [apply shaped_dealCards | apply IH]).
Qed.

Lemma shaped_apply_action {PS : PokerSolver} {CF : Config} c r st amount :
  preserves (framed shape_g shape_p) (apply_action c r st amount).
Proof.
  unfold apply_action, advance_turn, next_has_matched.
  framed_with shape_g shape_p
    ltac:(first [apply shaped_dealCards | apply shaped_deal_until_showdown]).
Qed.

Lemma framed_is_Some {G X} (fg : GameStatus → G) (fp : Player → X) (t t' : Table)
    (gs : GameStatus) :
  framed fg fp t t' → gameStatus (room t) = Some gs →
  ∃ gs', gameStatus (room t') = Some gs' ∧ fg gs' = fg gs.
Proof.
  intros (_ & Hg & _) Hgs. rewrite Hgs in Hg. cbn in Hg.
  destruct (gameStatus (room t')) as [gs'|]; [|discriminate].
  exists gs'. split; [reflexivity|]. inversion Hg. reflexivity.
Qed.

(** ** The deadline of the turn *)

(** Calls whose result, when they return, is a dealCardsFlag. *)
Definition flags (m : M (option bool)) : Prop :=
  ∀ t t', m t ≠ (Ok None, t').

Lemma flags_bind {A} (m : M A) (k : A → M (option bool)) :
  (∀ a, flags (k a)) → flags (bind m k).
Proof.
  intros Hk t t' H. unfold bind in H.
  destruct (m t) as [[a| |] t1]; [exact (Hk a t1 t' H)|discriminate..].
Qed.

Lemma flags_ret (b : bool) : flags (ret (Some b)).
Proof. intros t t' H. discriminate. Qed.

Ltac flags_split :=
  repeat first
    [ progress intros
    | apply flags_ret
    | apply flags_bind
    | match goal with
      | |- flags (if ?b then _ else _) => destruct b
      end ].

(** The only call of apply_action that returns without a dealCardsFlag is
    the RAISE the balance does not cover, and it has sent nothing. *)
Lemma apply_action_rejected {PS : PokerSolver} {CF : Config} c r st amount (t t' : Table) :
  apply_action c r st amount t = (Ok None, t') → log t' = log t.
Proof.
  intros H0. unfold apply_action in H0.
  apply bind_cases in H0 as [([] & t1 & Hw & H1)|[[_ ?]|[_ ?]]]; try discriminate.
  assert (Hlog : log t1 = log t) by (inversion Hw; reflexivity).
  rewrite bind_get_store, bind_get_room in H1.
  destruct (gameStatus (room t1)) as [gs|]; [|discriminate].
  rewrite (bind_defined_Some _ gs) in H1 by reflexivity.
  destruct (playerStatus (store t1 r)) as [ps|]; [|discriminate].
  rewrite (bind_defined_Some _ ps) in H1 by reflexivity.
  cbv zeta in H1.
  assert (Hflag : ∀ m : M (option bool), flags m → m t1 = (Ok None, t') → log t' = log t).
  { intros m Hm Hrun. destruct (Hm _ _ Hrun). }
  destruct (bool_decide (st = CALL)).
  { revert H1. apply Hflag. flags_split. }
  destruct (bool_decide (st = RAISE) && _).
  { destruct (balance (store t1 r) <? _).
    - inversion H1; subst. exact Hlog.
    - revert H1. apply Hflag. flags_split. }
  destruct (bool_decide (st = CHECK)).
  { revert H1. apply Hflag. flags_split. }
  destruct (bool_decide (st = FOLD)).
  { revert H1. apply Hflag. flags_split. }
  destruct (bool_decide (st = ALLIN)).
  { revert H1. apply Hflag. flags_split. }
  discriminate.
Qed.

(** A call of play that has sent or scheduled something has set the
    timestamp of the room. *)
Lemma play_stamps {PS : PokerSolver} {CF : Config} c player st amount now (t t' : Table) :
  play c player st amount now t = (Ok tt, t') →
  log t' ≠ log t →
  ∃ gs', gameStatus (room t') = Some gs' ∧ timestamp gs' = now.
Proof.
  intros H1 Hsent. unfold play in H1.
  rewrite bind_get_room in H1.
  destruct (gameStatus (room t)) as [gs|] eqn:Hg; [|inversion H1; subst; contradiction].
  destruct (players (room t)) as [seats|] eqn:Hs.
  2:{ unfold get_seats in H1. rewrite bind_assoc, bind_get_room, Hs in H1. discriminate. }
  rewrite (bind_get_seats _ _ seats Hs) in H1.
  destruct player as [caller|]; [|discriminate].
  rewrite (bind_defined_Some _ caller) in H1 by reflexivity.
  rewrite bind_get_store in H1. cbv zeta in H1.
  destruct (_ || _); [inversion H1; subst; contradiction|].
  destruct (at_index seats _) as [r|] eqn:Hr; [|discriminate].
  rewrite (bind_defined_Some _ r) in H1 by reflexivity.
  destruct (playerStatus (store t r)); [|inversion H1; subst; contradiction].
  apply bind_cases in H1 as [(flag & t1 & Ha & H2)|[[_ ?]|[_ ?]]]; try discriminate.
  destruct flag as [dealCardsFlag|].
  2:{ inversion H2; subst. exfalso. apply Hsent. eapply apply_action_rejected; eauto. }
  destruct (framed_is_Some _ _ _ _ gs (shaped_apply_action _ _ _ _ _ _ _ Ha) Hg)
    as (gs1 & Hg1 & _).
  rewrite (bind_write_game _ gs1) in H2 by exact Hg1.
  match type of H2 with
  | ?K ?t2 = _ =>
      assert (HK : preserves same_state K) by silent;
      destruct (HK _ _ _ H2) as [_ Hrm]
  end.
  rewrite Hrm. cbn. eauto.
Qed.

(** X19. The deadline moves with every applied action.  When a call of
    updateGameStatus at clock [now] has returned normally and has sent or
    scheduled something, a turn timer (the one armed by updateGameStatus or
    the one armed by startNewRound) that fires on the room before
    [now + PLAYER_WAIT_TIME], as those armed by earlier actions do, submits
    nothing: the server is left as it is.  (The timer of the next round,
    armed by checkWinning, has no such test.) *)
Theorem stale_timer_ignored {PS : PokerSolver} {CF : Config} (s s' : Server)
    (socket : option string) (roomId : string) (st : PlayStatus) (amount : option Z)
    (now : Z) (i : nat) (rm rm' : Room ref) (tm : Timer) (later : Z)
    (rnd : nat → nat * nat) (blindDraw : Z) :
  getRoom (rooms s) roomId = Some (i, rm) →
  updateGameStatus s socket roomId st amount now = (Ok tt, s') →
  emitted s' ≠ emitted s →
  rooms s' !! i = Some rm' →
  later - now < PLAYER_WAIT_TIME →
  tm = TurnTimer ∨ tm = RoundStartTimer →
  fire_timer tm s' rm' later rnd blindDraw = (Ok tt, s').
Proof.
  intros Hroom Hcall Hsent Hi Hlater Htm.
  unfold updateGameStatus in Hcall.
  destruct socket as [socketId|]; [|inversion Hcall; subst; contradiction].
  rewrite Hroom in Hcall.
  destruct (play _ _ _ _ _ _) as [result t] eqn:Hplay.
  inversion Hcall; subst. clear Hcall.
  cbn [emitted unfocus rooms] in Hsent, Hi.
  rewrite list_lookup_insert_eq in Hi
    by (eapply lookup_lt_Some, getRoom_lookup; eauto).
  inversion Hi; subst rm'. clear Hi.
  destruct (play_stamps _ _ _ _ _ _ _ Hplay Hsent) as (gs' & Hg' & Hstamp).
  assert (Hexp : expired_seat (conn s) (store t) (room t) later = Ok None).
  { unfold expired_seat. rewrite Hg', Hstamp.
    destruct (Z.leb_spec PLAYER_WAIT_TIME (later - now)); [lia|reflexivity]. }
  destruct Htm as [-> | ->];
    unfold fire_timer, submit, turnTimer_submits, roundStartTimer_submits;
    cbn [conn objects unfocus]; rewrite Hexp; reflexivity.
Qed.

Lemma stale_timer_ignored_witness :
  let call := updateGameStatus (PS := high_card_solver) (CF := sample_config)
                round_server (Some "s1") "r1" CALL None 200 in
  ∃ rm', rooms call.2 !! 0%nat = Some rm'
         ∧ fire_timer (PS := high_card_solver) (CF := sample_config)
             TurnTimer call.2 rm' 250 no_swaps 0 = (Ok tt, call.2).
Proof.
  intros call.
  destruct (rooms call.2 !! 0%nat) as [rm'|] eqn:Hrm; [|vm_compute in Hrm; discriminate].
  exists rm'. split; [reflexivity|].
  apply (stale_timer_ignored (PS := high_card_solver) (CF := sample_config)
           round_server call.2 (Some "s1") "r1" CALL None 200 0%nat
           (default lobby_room (rooms round_server !! 0%nat)) rm' TurnTimer 250).
  - vm_compute. reflexivity.
  - rewrite (surjective_pairing (updateGameStatus _ _ _ _ _ _)).
    f_equal; vm_compute; reflexivity.
  - intros H. apply (f_equal length) in H. vm_compute in H. discriminate.
  - exact Hrm.
  - vm_compute. reflexivity.
  - left. reflexivity.
Defined.

(** ** The gameStatus of a new round *)

(** round, blindTurn, roundFinished, board and deck of a gameStatus. *)
Definition round_g (gs : GameStatus) : Z * Z * bool * list Z * option (list Z) :=
  (round gs, blindTurn gs, roundFinished gs, board gs, cards gs).

(** X20. Round restart.  A startNewRound that returns leaves a gameStatus
    whose round is 1 on a room that had none and otherwise one more than
    before; whose blindTurn is the value drawn on a room that had no
    gameStatus, and otherwise the seat nextTurn returns from the blindTurn
    of the round before, the statuses being those the round before left;
    which is not finished, has an empty board and the shuffled deck, and
    carries the clock of the call as its timestamp. *)
Theorem round_restart {CF : Config} (rnd : nat → nat * nat) (blindDraw now : Z)
    (t t' : Table) :
  startNewRound rnd blindDraw now t = (Ok tt, t') →
  ∃ gs',
    gameStatus (room t') = Some gs'
    ∧ match gameStatus (room t) with
      | Some old =>
          round gs' = round old + 1
          ∧ nextTurn (store t) (room t) (Some (blindTurn old)) = Ok (blindTurn gs')
      | None => round gs' = 1 ∧ blindTurn gs' = blindDraw
      end
    ∧ roundFinished gs' = false
    ∧ board gs' = []
    ∧ cards gs' = Some (shuffleCards rnd cardIds)
    ∧ timestamp gs' = now.
Proof.
  intros H0. unfold startNewRound in H0. cbv zeta in H0.
  rewrite bind_get_store, bind_get_room in H0.
  apply bind_cases in H0 as [(blind & t1 & Hm & H1)|[[_ ?]|[_ ?]]]; try discriminate.
  assert (Hblind : t1 = t
                   ∧ match gameStatus (room t) with
                     | Some old =>
                         nextTurn (store t) (room t) (Some (blindTurn old)) = Ok blind
                     | None => blind = blindDraw
                     end).
  { destruct (gameStatus (room t)) as [old|].
    - unfold lift in Hm. inversion Hm. auto.
    - inversion Hm; subst. auto. }
  destruct Hblind as [-> Hblind]. clear Hm.
  unfold set_room_gameStatus in H1. unfold bind at 1 in H1.
  set (gs1 := mkGameStatus _ false 0 0 blind blind [] (Some (shuffleCards rnd cardIds)) 0) in *.
  set (t1 := mkTable (store t) (set_gameStatus gs1 (room t)) (log t)) in H1.
  apply bind_cases in H1 as [(seats & t2 & Hse & H2)|[[_ ?]|[_ ?]]]; try discriminate.
  assert (t2 = t1) as ->.
  { unfold get_seats in Hse. rewrite bind_get_room in Hse.
    destruct (players (room t1)); inversion Hse; reflexivity. }
  clear Hse.
  assert (Hstep : ∀ (m : M unit) (k : M unit) ta tb,
            preserves (framed round_g shape_p) m →
            (m ;;; k) ta = (Ok tt, tb) →
            ∃ tc, framed round_g shape_p ta tc ∧ k tc = (Ok tt, tb)).
  { intros m k ta tb Hm Hrun.
    apply bind_cases in Hrun as [([] & tc & Hmc & Hk)|[[_ ?]|[_ ?]]]; try discriminate.
    exists tc. split; [eapply Hm; eauto|exact Hk]. }
  apply Hstep in H2 as (t2 & Hf2 & H2).
  2:{ unfold deal_hole. framed_with round_g shape_p fail. }
  apply Hstep in H2 as (t3 & Hf3 & H3).
  2:{ unfold post_blind. framed_with round_g shape_p fail. }
  apply Hstep in H3 as (t4 & Hf4 & H4).
  2:{ unfold advance_turn. framed_with round_g shape_p fail. }
  pose proof (framed_trans _ _ _ _ _ (framed_trans _ _ _ _ _ Hf2 Hf3) Hf4) as Hf.
  destruct (framed_is_Some _ _ _ _ gs1 Hf eq_refl) as (gs4 & Hg4 & Hround).
  rewrite (bind_write_game _ gs4) in H4 by exact Hg4.
  inversion H4; subst t'. clear H4.
  exists (set_timestamp now gs4). split; [reflexivity|].
  unfold round_g in Hround. inversion Hround as [[Hr Hb Hfin Hbd Hc]].
  cbn [round blindTurn roundFinished board cards timestamp set_timestamp].
  rewrite Hb, Hfin, Hbd, Hc. repeat split; try reflexivity.
  rewrite Hr. destruct (gameStatus (room t)) as [old|]; cbn; auto.
Qed.

Lemma round_restart_witness :
  ∃ gs', gameStatus (room round_table) = Some gs'
         ∧ (round gs' = 1 ∧ blindTurn gs' = 0)
         ∧ roundFinished gs' = false
         ∧ board gs' = []
         ∧ cards gs' = Some (shuffleCards no_swaps cardIds)
         ∧ timestamp gs' = 100.
Proof.
  exact (round_restart (CF := sample_config) no_swaps 0 100
           (focus lobby_server lobby_room) round_table round_table_started).
Defined.

(** ** The run-out ends *)

Lemma eligible_bets (h h' : Store) (r : ref) :
  bets_of (h' r) = bets_of (h r) ∨ bets_of (h' r) = street_closed (bets_of (h r)) →
  eligible h' r = eligible h r.
Proof.
  unfold eligible, bets_of, street_closed, can_act.
  destruct (playerStatus (h' r)) as [ps'|], (playerStatus (h r)) as [ps|]; cbn;
    intros [H|H]; try discriminate; try reflexivity;
    inversion H as [[Ht Hs Hst]]; rewrite Hst; reflexivity.
Qed.

Lemma nextTurn_nonneg (h : Store) (rm : Room ref) (gs : GameStatus) (seats : list ref)
    (turn : option Z) (j : Z) :
  gameStatus rm = Some gs → players rm = Some seats →
  numberOfPlayers rm = Z.of_nat (length seats) →
  0 ≤ turn_or_playTurn gs turn →
  nextTurn h rm turn = Ok j → 0 ≤ j.
Proof.
  intros Hgs Hseats Hcount Hstart Hnext.
  unfold nextTurn, turn_walk in Hnext. rewrite Hgs, Hseats in Hnext.
  destruct (Z.eqb_spec (numberOfPlayers rm) 0) as [?|Hn]; [discriminate|].
  assert (Hpos : 0 < numberOfPlayers rm) by lia.
  revert Hnext. generalize (turn_or_playTurn gs turn) as s, Hstart.
  generalize (Z.abs_nat (numberOfPlayers rm)) as fuel.
  induction fuel as [|fuel IH]; intros s Hs Hrun; cbn [turn_loop] in Hrun; [discriminate|].
  rewrite Z.rem_mod_nonneg in Hrun by lia.
  assert (Hb : 0 ≤ (s + 1) mod numberOfPlayers rm) by (apply Z.mod_pos_bound; lia).
  destruct (at_index seats _) as [r|]; [|discriminate].
  destruct (playerStatus (h r)) as [ps|]; [|inversion Hrun; subst; exact Hb].
  destruct (can_act ps); [inversion Hrun; subst; exact Hb|].
  apply (IH _ Hb Hrun).
Qed.

Lemma checkWinning_finishes {PS : PokerSolver} {CF : Config} (c : Conn) (t t' : Table)
    (gs : GameStatus) :
  gameStatus (room t) = Some gs →
  checkWinning c t = (Ok tt, t') →
  ∃ gs', gameStatus (room t') = Some gs' ∧ roundFinished gs' = true
         ∧ board gs' = board gs.
Proof.
  intros Hg H0. unfold checkWinning in H0. rewrite bind_get_room, Hg in H0.
  apply bind_cases in H0 as [(seats & t1 & Hm1 & H1)|[[_ ?]|[_ ?]]]; try discriminate.
  assert (t1 = t) as ->.
  { unfold get_seats in Hm1. rewrite bind_get_room in Hm1.
    destruct (players (room t)); inversion Hm1; reflexivity. }
  rewrite bind_get_store in H1.
  apply bind_cases in H1 as [(hands & t2 & Hm2 & H2)|[[_ ?]|[_ ?]]]; try discriminate.
  assert (t2 = t) as -> by (unfold lift in Hm2; inversion Hm2; reflexivity).
  apply bind_cases in H2 as [([] & t3 & Hm3 & H3)|[[_ ?]|[_ ?]]]; try discriminate.
  assert (Hf : framed board shape_p t t3).
  { assert (HK : ∀ fuel hs sub, preserves (framed board shape_p) (settle_loop fuel hs sub)).
    { induction fuel as [|fuel IH]; intros hs sub; cbn [settle_loop].
      - apply preserves_lift, framed_refl.
      - unfold pay_winner. framed_with board shape_p ltac:(apply IH). }
    exact (HK _ _ _ _ _ _ Hm3). }
  destruct (framed_is_Some _ _ _ _ gs Hf Hg) as (gs3 & Hg3 & Hb3).
  rewrite (bind_write_game _ gs3) in H3 by exact Hg3.
  match type of H3 with
  | ?K ?t4 = _ =>
      assert (HK : preserves same_state K) by silent;
      destruct (HK _ _ _ H3) as [_ Hrm]
  end.
  exists (set_roundFinished true gs3). rewrite Hrm. repeat split. exact Hb3.
Qed.

(** One call of dealCards in the run-out: it returns or throws; when it
    returns false the board has grown and the run-out can go on, and when
    it returns true the round is finished on a board of five cards. *)
Lemma dealCards_in_run_out {PS : PokerSolver} {CF : Config} (c : Conn) (t t' : Table)
    (outcome : res bool) :
  winners_contract →
  can_run_out t →
  dealCards c t = (outcome, t') →
  outcome ≠ Hang
  ∧ (outcome = Ok false →
     can_run_out t' ∧ (length (board_of (room t)) < length (board_of (room t')))%nat)
  ∧ (outcome = Ok true →
     ∃ gs', gameStatus (room t') = Some gs' ∧ roundFinished gs' = true
            ∧ length (board gs') = 5%nat).
Proof.
  intros contract (gs & cs & seats & Hgs & Hcs & Hseats & Hcount & (r0 & Hr0 & He0)
                   & Hblind & Hturn & Hlen) H0.
  unfold dealCards in H0. rewrite bind_get_room, Hgs, Hcs in H0.
  rewrite (bind_get_seats _ _ seats Hseats) in H0.
  destruct (close_street_forEach seats 0 t)
    as (t1 & Hrun & Hlog & Hpl & Hin & Hout & _ & Hcons & _).
  unfold forEach in H0. unfold bind at 1 in H0. rewrite Hrun in H0.
  assert (Hne : seats ≠ []) by (intros ->; inversion Hr0).
  pose proof (Hcons Hne gs Hgs) as Hroom1.
  set (gs1 := set_currentBetAmount 0 gs) in *.
  assert (Hg1 : gameStatus (room t1) = Some gs1) by (rewrite Hroom1; reflexivity).
  assert (Hs1 : players (room t1) = Some seats) by (rewrite Hpl; exact Hseats).
  assert (Hc1 : numberOfPlayers (room t1) = Z.of_nat (length seats))
    by (rewrite Hroom1; exact Hcount).
  assert (Hel1 : ∀ r, eligible (store t1) r = eligible (store t) r).
  { intros r. destruct (decide (r ∈ seats)) as [Hr|Hr].
    - apply eligible_bets. right. apply Hin, Hr.
    - unfold eligible. rewrite (Hout r Hr). reflexivity. }
  assert (Hstart : 0 ≤ turn_or_playTurn gs1 (Some (blindTurn gs))).
  { unfold turn_or_playTurn. destruct (blindTurn gs =? 0); [exact Hturn|exact Hblind]. }
  (* the turn goes to a seat *)
  unfold advance_turn in H0.
  rewrite !bind_assoc, bind_get_store in H0. rewrite bind_assoc, bind_get_room in H0.
  rewrite bind_assoc in H0. unfold lift in H0. unfold bind at 1 in H0.
  destruct (nextTurn (store t1) (room t1) (Some (blindTurn gs))) as [j| |] eqn:Hnext.
  2:{ inversion H0; subst. repeat split; intros; discriminate. }
  2:{ exfalso.
      pose proof (proj1 (turn_walk_Hang_iff (store t1) (room t1) gs1 seats
                           (Some (blindTurn gs)) false Hg1 Hs1 Hc1 Hne Hstart) Hnext)
        as Hall.
      destruct (Hall r0 Hr0) as (ps & Hps & Hca).
      rewrite <- Hel1 in He0. unfold eligible in He0. rewrite Hps, Hca in He0.
      discriminate. }
  pose proof (nextTurn_nonneg _ _ _ _ _ _ Hg1 Hs1 Hc1 Hstart Hnext) as Hj.
  rewrite (bind_write_game _ gs1) in H0 by exact Hg1.
  set (t2 := mkTable (store t1) (set_gameStatus (set_playTurn j gs1) (room t1)) (log t1)) in H0.
  destruct (decide (length (board gs) = 5%nat)) as [Hfive|Hnot].
  - rewrite (bool_decide_eq_true_2 _ Hfive) in H0.
    pose proof (checkWinning_returns c contract t2) as Hret.
    apply bind_cases in H0 as [([] & t3 & Hm3 & H3)|[[Hm3 ->]|[Hm3 ->]]].
    + inversion H3; subst. split; [discriminate|]. split; [discriminate|]. intros _.
      destruct (checkWinning_finishes c t2 t' (set_playTurn j gs1) eq_refl Hm3)
        as (gs' & Hg' & Hfin & Hb').
      exists gs'. split; [exact Hg'|]. split; [exact Hfin|]. rewrite Hb'. exact Hfive.
    + repeat split; intros; discriminate.
    + rewrite Hm3 in Hret. contradiction.
  - rewrite (bool_decide_eq_false_2 _ Hnot) in H0.
    rewrite (bind_write_game _ (set_playTurn j gs1)) in H0 by reflexivity.
    inversion H0; subst. clear H0. split; [discriminate|]. split; [|discriminate].
    intros _. cbn [room t2 store log].
    assert (Hgrow : (length (board gs) < length (deal_next cs (board gs)) ≤ 5)%nat).
    { unfold deal_next. destruct (board gs) as [|b bs] eqn:Hb; cbn [length]; [lia|].
      rewrite length_app. cbn [length] in *. lia. }
    split.
    + exists (set_board (deal_next cs (board gs)) (set_playTurn j gs1)), cs, seats.
      rewrite Hroom1. cbn. repeat split; try assumption; try lia.
      exists r0. split; [exact Hr0|]. rewrite Hel1. exact He0.
    + unfold board_of. rewrite Hgs, Hroom1. cbn. lia.
Qed.

Lemma run_out_ends {PS : PokerSolver} {CF : Config} (c : Conn) (fuel : nat) :
  winners_contract →
  ∀ t outcome t',
    can_run_out t →
    (6 ≤ fuel + length (board_of (room t)))%nat →
    deal_until_showdown c fuel t = (outcome, t') →
    outcome ≠ Hang
    ∧ (outcome = Ok tt →
       ∃ gs', gameStatus (room t') = Some gs' ∧ roundFinished gs' = true
              ∧ length (board gs') = 5%nat).
Proof.
  intros contract. induction fuel as [|fuel IH]; intros t outcome t' Hready Hfuel H0.
  - exfalso. destruct Hready as (gs & _ & _ & Hgs & _ & _ & _ & _ & _ & _ & Hlen).
    unfold board_of in Hfuel. rewrite Hgs in Hfuel. lia.
  - cbn [deal_until_showdown] in H0.
    apply bind_cases in H0 as [(done & t1 & Hm & H1)|[[Hm ->]|[Hm ->]]].
    + destruct (dealCards_in_run_out c t t1 (Ok done) contract Hready Hm)
        as (_ & Hfalse & Htrue).
      destruct done.
      * inversion H1; subst. split; [discriminate|]. intros _. apply Htrue. reflexivity.
      * destruct (Hfalse eq_refl) as [Hready1 Hgrow].
        apply (IH t1 outcome t' Hready1); [lia|exact H1].
    + split; discriminate.
    + destruct (dealCards_in_run_out c t t' Hang contract Hready Hm) as (Hno & _).
      contradiction.
Qed.

(** X21. The run-out ends.  On a room with a round, a deck and at most five
    community cards, whose numberOfPlayers is its number of seats, with
    blindTurn and playTurn not negative, where some seat has no
    playerStatus or a status outside FOLD, BUST and ALLIN, the loop
    [while (!this.dealCards(room));] ends within six calls of dealCards: it
    throws or it returns, and when it returns the round is finished on a
    board of five cards.  Hand.winners is taken to return a non-empty
    selection of the hands it is given. *)
Theorem run_out_reaches_showdown {PS : PokerSolver} {CF : Config} (c : Conn) (t t' : Table)
    (outcome : res unit) (gs : GameStatus) (cs : list Z) (seats : list ref) :
  winners_contract →
  gameStatus (room t) = Some gs →
  cards gs = Some cs →
  players (room t) = Some seats →
  numberOfPlayers (room t) = Z.of_nat (length seats) →
  (∃ r, r ∈ seats
        ∧ ∀ ps, playerStatus (store t r) = Some ps → (status ps ∉ [FOLD; BUST; ALLIN])) →
  0 ≤ blindTurn gs →
  0 ≤ playTurn gs →
  (length (board gs) ≤ 5)%nat →
  deal_until_showdown c 6 t = (outcome, t') →
  outcome ≠ Hang
  ∧ (outcome = Ok tt →
     ∃ gs', gameStatus (room t') = Some gs' ∧ roundFinished gs' = true
            ∧ length (board gs') = 5%nat).
Proof.
  intros contract Hgs Hcs Hseats Hcount (r & Hr & Hst) Hblind Hturn Hboard H0.
  assert (Hready : can_run_out t).
  { exists gs, cs, seats. repeat (split; [assumption|]).
    split; [|auto].
    exists r. split; [exact Hr|]. apply eligible_spelled. exact Hst. }
  apply (run_out_ends c 6 contract t outcome t' Hready); [lia|exact H0].
Qed.

Lemma run_out_reaches_showdown_witness :
  let run := deal_until_showdown (PS := high_card_solver) (CF := sample_config)
               three_conn 6 round_table in
  run.1 ≠ Hang
  ∧ ∃ gs', gameStatus (room run.2) = Some gs' ∧ roundFinished gs' = true
           ∧ length (board gs') = 5%nat.
Proof.
  intros run.
  destruct (gameStatus (room round_table)) as [gs|] eqn:Hg; [|vm_compute in Hg; discriminate].
  assert (Hgs : gs = default gs (gameStatus (room round_table))) by (rewrite Hg; reflexivity).
  destruct (run_out_reaches_showdown (PS := high_card_solver) (CF := sample_config)
              three_conn round_table run.2 run.1 gs (shuffleCards no_swaps cardIds)
              [0; 1; 2]%nat) as [H1 H2].
  - exact best_hands_contract.
  - exact Hg.
  - rewrite Hgs. vm_compute. reflexivity.
  - vm_compute. reflexivity.
  - vm_compute. reflexivity.
  - exists 0%nat. split; [apply list_elem_of_here|].
    intros ps Hps. vm_compute in Hps. inversion Hps; subst ps. cbn.
    intros Hin. repeat (apply elem_of_cons in Hin as [Hin|Hin]; [discriminate|]).
    inversion Hin.
  - rewrite Hgs. vm_compute. discriminate.
  - rewrite Hgs. vm_compute. discriminate.
  - rewrite Hgs. vm_compute. lia.
  - apply surjective_pairing.
  - split; [exact H1|]. apply H2. vm_compute. reflexivity.
Defined.

(** ** Solvency *)

Definition stays_solvent (t t' : Table) : Prop :=
  players (room t') = players (room t) ∧ (solvent t → solvent t').

Lemma stays_solvent_refl t : stays_solvent t t.
Proof. split; auto. Qed.

Lemma stays_solvent_trans t1 t2 t3 :
  stays_solvent t1 t2 → stays_solvent t2 t3 → stays_solvent t1 t3.
Proof. intros [H1 H2] [H3 H4]. split; [congruence|auto]. Qed.

(** A table where the pot has not fallen below 0, currentBetAmount has not
    fallen, no balance has fallen and the stakes are the same. *)
Lemma stays_solvent_of (t t' : Table) :
  players (room t') = players (room t) →
  (0 ≤ pot_of (room t) → 0 ≤ pot_of (room t')) →
  (∀ gs', gameStatus (room t') = Some gs' →
          ∃ gs, gameStatus (room t) = Some gs ∧ currentBetAmount gs ≤ currentBetAmount gs') →
  (∀ r, balance (store t r) ≤ balance (store t' r)) →
  (∀ r ps', playerStatus (store t' r) = Some ps' →
            ∃ ps, playerStatus (store t r) = Some ps
                  ∧ totalBetAmout ps' = totalBetAmout ps
                  ∧ subTotalBetAmount ps' = subTotalBetAmount ps) →
  stays_solvent t t'.
Proof.
  intros Hp Hpot Hcur Hbal Hst. split; [exact Hp|]. intros [H0 Hall].
  split; [auto|]. intros r Hr. unfold seats_of in Hr. rewrite Hp in Hr.
  destruct (Hall r Hr) as [Hb Hps]. split; [specialize (Hbal r); lia|].
  intros ps' Hps'. destruct (Hst r ps' Hps') as (ps & Hpsr & -> & ->).
  destruct (Hps ps Hpsr) as (Ht & Hs & Hc). split; [exact Ht|]. split; [exact Hs|].
  intros gs' Hgs'. destruct (Hcur gs' Hgs') as (gs & Hgs & Hle).
  specialize (Hc gs Hgs). lia.
Qed.

Lemma stays_solvent_push_event e : preserves stays_solvent (push_event e).
Proof.
  intros t res t' H. inversion H; subst.
  apply stays_solvent_of; cbn [store room log].
  - reflexivity.
  - auto.
  - intros gs' Hgs'. exists gs'. split; [exact Hgs'|lia].
  - intros r. lia.
  - intros r ps' Hps'. exists ps'. auto.
Qed.

Lemma stays_solvent_emit_to c r ev payload player :
  preserves stays_solvent (emit_to c r ev payload player).
Proof.
  unfold emit_to.
  preserves_split stays_solvent stays_solvent_refl stays_solvent_trans
    ltac:(apply stays_solvent_push_event).
Qed.

Lemma stays_solvent_write_game (f : GameStatus → GameStatus) :
  (∀ gs, pot (f gs) = pot gs ∧ currentBetAmount (f gs) = currentBetAmount gs) →
  preserves stays_solvent (write_game f).
Proof.
  intros Hf t res t' H. unfold write_game in H.
  destruct (gameStatus (room t)) as [gs|] eqn:E; inversion H; subst.
  - destruct (Hf gs) as [Hp Hc].
    apply stays_solvent_of; cbn [store room log players set_gameStatus gameStatus]; eauto.
    + unfold pot_of. cbn. rewrite E, Hp. auto.
    + intros gs' [= <-]. exists gs. split; [exact E|lia].
    + intros; lia.
  - apply stays_solvent_refl.
Qed.

Lemma stays_solvent_write_status (r : ref) (f : PlayerStatus → PlayerStatus) :
  (∀ ps, totalBetAmout (f ps) = totalBetAmout ps
         ∧ subTotalBetAmount (f ps) = subTotalBetAmount ps) →
  preserves stays_solvent (write_status r f).
Proof.
  intros Hf t res t' H. inversion H; subst. clear H.
  apply stays_solvent_of; cbn [store room log]; eauto.
  - intros gs' Hgs'. exists gs'. split; [exact Hgs'|lia].
  - intros r'. destruct (decide (r = r')) as [->|Hne].
    + rewrite fn_lookup_insert. destruct (playerStatus (store t r')); cbn; lia.
    + rewrite fn_lookup_insert_ne by exact Hne. lia.
  - intros r' ps'. destruct (decide (r = r')) as [->|Hne].
    + rewrite fn_lookup_insert. destruct (playerStatus (store t r')) as [ps|] eqn:E; cbn.
      * intros [= <-]. exists ps. destruct (Hf ps). auto.
      * rewrite E. discriminate.
    + rewrite fn_lookup_insert_ne by exact Hne. eauto.
Qed.

Ltac solvent_with leaf :=
  preserves_split stays_solvent stays_solvent_refl stays_solvent_trans
    ltac:(first [ apply stays_solvent_push_event
                | apply stays_solvent_emit_to
                | apply stays_solvent_write_game; intros; split; reflexivity
                | apply stays_solvent_write_status; intros; split; reflexivity
                | leaf ]).

Lemma stays_solvent_advance_turn turn : preserves stays_solvent (advance_turn turn).
Proof. unfold advance_turn. solvent_with fail. Qed.

Lemma stays_solvent_next_has_matched : preserves stays_solvent next_has_matched.
Proof. unfold next_has_matched. solvent_with fail. Qed.

(** The table after writes to the one seat [r] and to gameStatus. *)
Lemma solvent_update (t : Table) (h' : Store) (g g' : GameStatus) (l' : list Event)
    (r : ref) (ps' : PlayerStatus) :
  solvent t →
  gameStatus (room t) = Some g →
  (∀ r', r' ≠ r → h' r' = store t r') →
  playerStatus (h' r) = Some ps' →
  0 ≤ pot g' → currentBetAmount g ≤ currentBetAmount g' →
  0 ≤ balance (h' r) → 0 ≤ totalBetAmout ps' →
  0 ≤ subTotalBetAmount ps' ≤ currentBetAmount g' →
  solvent (mkTable h' (set_gameStatus g' (room t)) l').
Proof.
  intros [H0 Hall] Hg Hother Hps' Hpot Hcur Hbal Htot Hsub.
  split; [unfold pot_of; cbn; exact Hpot|].
  intros r' Hr'. cbn [store room] in *. cbn [seats_of players set_gameStatus] in Hr'.
  destruct (decide (r' = r)) as [->|Hne].
  - split; [exact Hbal|]. intros ps Hps. rewrite Hps' in Hps. inversion Hps; subst ps.
    split; [exact Htot|]. split; [lia|]. cbn. intros gs [= <-]. lia.
  - rewrite (Hother r' Hne). destruct (Hall r' Hr') as [Hb Hrest].
    split; [exact Hb|]. intros ps Hps. destruct (Hrest ps Hps) as (Ht & Hs & Hc).
    split; [exact Ht|]. split; [exact Hs|]. cbn. intros gs [= <-].
    specialize (Hc g Hg). lia.
Qed.

Lemma stays_solvent_pay_winner {PS : PokerSolver} hands subHands nwinners winner index :
  0 ≤ index < nwinners →
  preserves stays_solvent (pay_winner hands subHands nwinners winner index).
Proof.
  intros Hindex t res t' H0. unfold pay_winner in H0.
  destruct (players (room t)) as [seats|] eqn:Hs.
  2:{ unfold get_seats in H0. rewrite bind_assoc, bind_get_room, Hs in H0.
      inversion H0; subst. apply stays_solvent_refl. }
  rewrite (bind_get_seats _ _ seats Hs) in H0.
  destruct (at_index seats (hand_index hands winner)) as [r|] eqn:Hr.
  2:{ inversion H0; subst. apply stays_solvent_refl. }
  rewrite (bind_defined_Some _ r) in H0 by reflexivity.
  rewrite bind_get_store in H0.
  destruct (playerStatus (store t r)) as [ps|] eqn:Hps.
  2:{ inversion H0; subst. apply stays_solvent_refl. }
  rewrite bind_get_room in H0.
  destruct (gameStatus (room t)) as [gs|] eqn:Hg.
  2:{ inversion H0; subst. apply stays_solvent_refl. }
  rewrite (bind_defined_Some _ gs) in H0 by reflexivity.
  cbv zeta in H0.
  rewrite (bind_write_status _ _ ps _ _ Hps) in H0.
  rewrite (bind_write_game _ gs) in H0 by exact Hg.
  inversion H0; subst; clear H0.
  set (win := Z.min _ _).
  split; [reflexivity|]. intros Hsol. pose proof Hsol as [Hpot Hall].
  unfold pot_of in Hpot. rewrite Hg in Hpot.
  assert (Hr' : r ∈ seats_of (room t)).
  { unfold seats_of. rewrite Hs. eapply at_index_elem_of; eauto. }
  destruct (Hall r Hr') as [Hbal Hrest]. destruct (Hrest ps Hps) as (Ht & Hsub & Hc).
  assert (Hwin : 0 ≤ win ≤ pot gs).
  { unfold win.
    assert (0 ≤ pot gs / (nwinners - index)) by (apply Z.div_pos; lia).
    assert (pot gs / (nwinners - index) ≤ pot gs).
    { rewrite <- (Z.div_1_r (pot gs)) at 2. apply Z.div_le_compat_l; lia. }
    pose proof (maxWin_from_ge (store t) (map (hand_index hands) subHands)
                  (totalBetAmout ps) seats Ht
                  (fun r' ps' Hin Hp' =>
                     proj1 (proj2 (Hall r' ltac:(unfold seats_of; rewrite Hs; exact Hin)) ps' Hp'))
                  0 (totalBetAmout ps)).
    lia. }
  cbn [store room log].
  eapply (solvent_update t _ gs _ _ r); [exact Hsol|exact Hg| | | | | | |].
  - intros r' Hne. rewrite !fn_lookup_insert_ne by congruence. reflexivity.
  - rewrite !fn_lookup_insert. reflexivity.
  - cbn. lia.
  - cbn. lia.
  - rewrite !fn_lookup_insert. cbn. lia.
  - cbn. exact Ht.
  - cbn. specialize (Hc gs Hg). lia.
Qed.

Lemma stays_solvent_forEach_pay {PS : PokerSolver} hands subHands nwinners
    (ws : list HandObj) :
  ∀ i, 0 ≤ i → i + Z.of_nat (length ws) ≤ nwinners →
       preserves stays_solvent (forEach_from (pay_winner hands subHands nwinners) ws i).
Proof.
  induction ws as [|w ws IH]; intros i Hi Hlen; cbn [forEach_from].
  - apply preserves_ret, stays_solvent_refl.
  - cbn [length] in Hlen. apply (preserves_bind stays_solvent stays_solvent_trans).
    + apply stays_solvent_pay_winner. lia.
    + intros _. apply IH; lia.
Qed.

Lemma stays_solvent_settle_loop {PS : PokerSolver} (fuel : nat) :
  ∀ hands subHands, preserves stays_solvent (settle_loop fuel hands subHands).
Proof.
  induction fuel as [|fuel IH]; intros hands subHands; cbn [settle_loop].
  - apply preserves_lift, stays_solvent_refl.
  - apply (preserves_bind _ stays_solvent_trans);
      [apply preserves_get_room, stays_solvent_refl|].
    intros rm. apply (preserves_bind _ stays_solvent_trans);
      [apply preserves_defined, stays_solvent_refl|].
    intros gs. destruct (pot gs =? 0); [apply preserves_ret, stays_solvent_refl|].
    destruct subHands as [|x subHands]; [apply preserves_ret, stays_solvent_refl|].
    cbv zeta. apply (preserves_bind _ stays_solvent_trans); [|intros _; apply IH].
    unfold forEach. apply stays_solvent_forEach_pay; [lia|].
    rewrite Z.add_0_l. apply Z.le_refl.
Qed.

Lemma stays_solvent_checkWinning {PS : PokerSolver} {CF : Config} c :
  preserves stays_solvent (checkWinning c).
Proof. unfold checkWinning. solvent_with ltac:(apply stays_solvent_settle_loop). Qed.

(** The stake of the street of every seat goes into its totalBetAmout. *)
Lemma solvent_street_closed (t t1 : Table) (seats : list ref) (gs : GameStatus) :
  solvent t →
  players (room t) = Some seats →
  gameStatus (room t) = Some gs →
  seats ≠ [] →
  room t1 = set_gameStatus (set_currentBetAmount 0 gs) (room t) →
  (∀ r, r ∈ seats → bets_of (store t1 r) = street_closed (bets_of (store t r))) →
  (∀ r, balance (store t1 r) = balance (store t r)) →
  solvent t1.
Proof.
  intros [H0 Hall] Hs Hg Hne Hroom Hin Hbal.
  split.
  - rewrite Hroom. unfold pot_of in *. cbn. rewrite Hg in H0. exact H0.
  - intros r Hr.
    assert (Hr0 : r ∈ seats_of (room t)) by (rewrite Hroom in Hr; exact Hr).
    assert (Hrs : r ∈ seats) by (unfold seats_of in Hr0; rewrite Hs in Hr0; exact Hr0).
    destruct (Hall r Hr0) as [Hb Hrest]. split; [rewrite Hbal; exact Hb|].
    intros ps1 Hps1.
    specialize (Hin r Hrs). unfold bets_of, street_closed in Hin. rewrite Hps1 in Hin.
    destruct (playerStatus (store t r)) as [ps|] eqn:Hps; [|discriminate].
    cbn in Hin. inversion Hin as [[Ht Hsub Hst]].
    destruct (Hrest ps eq_refl) as (Htot & Hs0 & _).
    split; [lia|]. split; [lia|]. rewrite Hroom. cbn. intros g [= <-]. cbn. lia.
Qed.

Lemma stays_solvent_dealCards {PS : PokerSolver} {CF : Config} c :
  preserves stays_solvent (dealCards c).
Proof.
  intros t res t' H0. unfold dealCards in H0. rewrite bind_get_room in H0.
  destruct (gameStatus (room t)) as [gs|] eqn:Hgs.
  2:{ inversion H0; subst. apply stays_solvent_refl. }
  destruct (cards gs) as [cs|] eqn:Hcs.
  2:{ inversion H0; subst. apply stays_solvent_refl. }
  destruct (players (room t)) as [seats|] eqn:Hseats.
  2:{ unfold get_seats in H0. rewrite bind_assoc, bind_get_room, Hseats in H0.
      inversion H0; subst. apply stays_solvent_refl. }
  rewrite (bind_get_seats _ _ seats Hseats) in H0.
  destruct (close_street_forEach seats 0 t)
    as (t1 & Hrun & Hlog & Hpl & Hin & Hout & Hnil & Hcons & _).
  assert (Hbal : framed pot balance t t1).
  { assert (HK : preserves (framed pot balance) (forEach close_street seats)).
    { unfold close_street. framed_with pot balance fail. }
    exact (HK _ _ _ Hrun). }
  unfold forEach in H0. unfold bind at 1 in H0. rewrite Hrun in H0.
  assert (H1 : stays_solvent t t1).
  { split; [exact Hpl|]. intros Hsol. destruct seats as [|x seats].
    - destruct t as [h rm l], t1 as [h1 rm1 l1]. cbn in *.
      rewrite (Hnil eq_refl). destruct Hsol as [Hp Hall]. split; [exact Hp|].
      intros r Hr. unfold seats_of in Hr. cbn in Hr. rewrite Hseats in Hr. inversion Hr.
    - apply (solvent_street_closed t t1 (x :: seats) gs Hsol Hseats Hgs);
        [discriminate | apply Hcons; [discriminate|exact Hgs] | exact Hin | apply Hbal]. }
  eapply stays_solvent_trans; [exact H1|].
  match type of H0 with
  | ?K t1 = _ =>
      assert (HK : preserves stays_solvent K)
        by solvent_with ltac:(first [ apply stays_solvent_advance_turn
                                    | apply stays_solvent_checkWinning ]);
      exact (HK _ _ _ H0)
  end.
Qed.

Lemma stays_solvent_deal_until_showdown {PS : PokerSolver} {CF : Config} c fuel :
  preserves stays_solvent (deal_until_showdown c fuel).
Proof.
  induction fuel as [|fuel IH]; cbn [deal_until_showdown].
  - apply preserves_lift, stays_solvent_refl.
  - solvent_with ltac:(first [apply stays_solvent_dealCards | apply IH]).
Qed.

Ltac solvent_engine :=
  solvent_with ltac:(first [ apply stays_solvent_advance_turn
                           | apply stays_solvent_next_has_matched
                           | apply stays_solvent_dealCards
                           | apply stays_solvent_deal_until_showdown
                           | apply stays_solvent_checkWinning ]).

(** The rest of the call is a call that stays solvent. *)
Ltac solvent_rest H :=
  match type of H with
  | ?K ?t1 = _ =>
      let HK := fresh "HK" in
      assert (HK : preserves stays_solvent K) by solvent_engine;
      eapply stays_solvent_trans; [| exact (HK _ _ _ H)]
  end.

Ltac solvent_done r gs :=
  cbn [store room log]; rewrite ?set_gameStatus_twice;
  eapply (solvent_update _ _ gs _ _ r);
  [ eassumption
  | eassumption
  | intros ? ?; rewrite !fn_lookup_insert_ne by congruence; reflexivity
  | rewrite !fn_lookup_insert; reflexivity
  | cbn; try lia
  | cbn; try lia
  | rewrite !fn_lookup_insert; cbn; try lia
  | cbn; try lia
  | cbn; try lia ].

Lemma stays_solvent_apply_action {PS : PokerSolver} {CF : Config} c r st amount
    (t0 : Table) res t' :
  raises_by amount →
  r ∈ seats_of (room t0) →
  apply_action c r st amount t0 = (res, t') → stays_solvent t0 t'.
Proof.
  intros Hamount Hin0 H0. unfold apply_action in H0.
  eapply (preserves_bind_at stays_solvent stays_solvent_trans); [| |exact H0].
  { apply stays_solvent_write_status. intros; split; reflexivity. }
  intros [] t Hw H1. clear H0.
  assert (Hin : r ∈ seats_of (room t)) by (inversion Hw; subst; exact Hin0).
  clear Hw Hin0 t0.
  rewrite bind_get_store, bind_get_room in H1.
  destruct (gameStatus (room t)) as [gs|] eqn:Hg;
    [|inversion H1; subst; apply stays_solvent_refl].
  rewrite (bind_defined_Some _ gs) in H1 by reflexivity.
  destruct (playerStatus (store t r)) as [ps|] eqn:Hps;
    [|inversion H1; subst; apply stays_solvent_refl].
  rewrite (bind_defined_Some _ ps) in H1 by reflexivity.
  cbv zeta in H1.
  assert (Hfacts : solvent t →
            0 ≤ pot gs ∧ 0 ≤ balance (store t r) ∧ 0 ≤ totalBetAmout ps
            ∧ 0 ≤ subTotalBetAmount ps ≤ currentBetAmount gs).
  { intros [Hpot Hall]. unfold pot_of in Hpot. rewrite Hg in Hpot.
    destruct (Hall r Hin) as [Hb Hrest]. destruct (Hrest ps Hps) as (Ht & Hs & Hc).
    specialize (Hc gs Hg). lia. }
  destruct (bool_decide (st = CALL)).
  { destruct (Z.ltb_spec (balance (store t r))
                (currentBetAmount gs - subTotalBetAmount ps)) as [Hshort|Hcovered];
      step_writes H1; solvent_rest H1;
      (split; [reflexivity|]); intros Hsol; destruct (Hfacts Hsol) as (? & ? & ? & ?);
      solvent_done r gs. }
  destruct (bool_decide (st = RAISE) && _) eqn:Hraise.
  { destruct (Z.ltb_spec (balance (store t r))
                (currentBetAmount gs + default 0 amount - subTotalBetAmount ps))
      as [Hshort|Hcovered]; [inversion H1; subst; apply stays_solvent_refl|].
    assert (Ha : 0 ≤ default 0 amount) by (destruct amount; cbn in *; lia).
    step_writes H1. solvent_rest H1.
    split; [reflexivity|]. intros Hsol. destruct (Hfacts Hsol) as (? & ? & ? & ?).
    solvent_done r gs. }
  destruct (bool_decide (st = CHECK)).
  { solvent_rest H1. apply stays_solvent_refl. }
  destruct (bool_decide (st = FOLD)).
  { solvent_rest H1. apply stays_solvent_refl. }
  destruct (bool_decide (st = ALLIN)); [|inversion H1; subst; apply stays_solvent_refl].
  destruct (Z.ltb_spec (currentBetAmount gs) (subTotalBetAmount ps + balance (store t r)));
    step_writes H1; solvent_rest H1;
    (split; [reflexivity|]); intros Hsol; destruct (Hfacts Hsol) as (? & ? & ? & ?);
    solvent_done r gs.
Qed.

Lemma stays_solvent_play {PS : PokerSolver} {CF : Config} c player st amount now :
  raises_by amount →
  preserves stays_solvent (play c player st amount now).
Proof.
  intros Hamount t res t' H1. unfold play in H1.
  rewrite bind_get_room in H1.
  destruct (gameStatus (room t)) as [gs|] eqn:Hg;
    [|inversion H1; subst; apply stays_solvent_refl].
  destruct (players (room t)) as [seats|] eqn:Hs.
  2:{ unfold get_seats in H1. rewrite bind_assoc, bind_get_room, Hs in H1.
      inversion H1; subst; apply stays_solvent_refl. }
  rewrite (bind_get_seats _ _ seats Hs) in H1.
  destruct player as [caller|]; [|inversion H1; subst; apply stays_solvent_refl].
  rewrite (bind_defined_Some _ caller) in H1 by reflexivity.
  rewrite bind_get_store in H1. cbv zeta in H1.
  destruct (_ || _); [inversion H1; subst; apply stays_solvent_refl|].
  destruct (at_index seats _) as [r|] eqn:Hr;
    [|inversion H1; subst; apply stays_solvent_refl].
  rewrite (bind_defined_Some _ r) in H1 by reflexivity.
  destruct (playerStatus (store t r)); [|inversion H1; subst; apply stays_solvent_refl].
  eapply (bind_at stays_solvent stays_solvent_trans); [| |exact H1].
  - intros r1 t1 Ha. eapply stays_solvent_apply_action; [exact Hamount| |exact Ha].
    unfold seats_of. rewrite Hs. eapply at_index_elem_of; eauto.
  - intros a. cbv beta. solvent_engine.
Qed.

(** X22. Solvency of the betting engine.  On a table where the pot, the
    balances and the stakes of the seats are not negative and no seat has
    staked more in the street than currentBetAmount, the same holds after
    a call of updateGameStatus, whatever the action and its outcome, when
    the amount it carries is absent or not negative. *)
Theorem bets_stay_solvent {PS : PokerSolver} {CF : Config} (s s' : Server)
    (socket : option string) (roomId : string) (st : PlayStatus) (amount : option Z)
    (now : Z) (i : nat) (rm : Room ref) (outcome : res unit) :
  getRoom (rooms s) roomId = Some (i, rm) →
  raises_by amount →
  solvent (focus s rm) →
  updateGameStatus s socket roomId st amount now = (outcome, s') →
  ∃ rm', rooms s' !! i = Some rm'
         ∧ players rm' = players rm
         ∧ solvent (focus s' rm').
Proof.
  intros Hroom Hamount Hsol Hcall.
  pose proof (getRoom_lookup _ _ _ _ Hroom) as Hi.
  unfold updateGameStatus in Hcall. destruct socket as [socketId|].
  - rewrite Hroom in Hcall.
    destruct (play _ _ _ _ _ _) as [result t] eqn:Hplay.
    inversion Hcall; subst; clear Hcall.
    destruct (stays_solvent_play _ _ _ _ _ Hamount _ _ _ Hplay) as [Hp Hs].
    exists (room t). cbn [rooms unfocus]. split.
    + apply list_lookup_insert_eq. eapply lookup_lt_Some; eauto.
    + split; [exact Hp|]. specialize (Hs Hsol).
      destruct t as [h r l]. exact Hs.
  - inversion Hcall; subst. exists rm. auto.
Qed.

Lemma round_table_solvent : solvent round_table.
Proof.
  split; [vm_compute; discriminate|].
  intros r Hr.
  assert (Hcase : r = 0%nat ∨ r = 1%nat ∨ r = 2%nat).
  { assert (Hr' : r ∈ [0; 1; 2]%nat) by exact Hr.
    apply elem_of_cons in Hr' as [->|Hr']; [auto|].
    apply elem_of_cons in Hr' as [->|Hr']; [auto|].
    apply elem_of_cons in Hr' as [->|Hr']; [auto|].
    inversion Hr'. }
  destruct Hcase as [-> | [-> | ->]];
    (split; [vm_compute; discriminate|]);
    intros ps Hps; vm_compute in Hps; inversion Hps; subst ps;
    (split; [vm_compute; discriminate|]);
    (split; [vm_compute; discriminate|]);
    intros gs Hg; vm_compute in Hg; inversion Hg; subst gs; vm_compute; discriminate.
Qed.

Lemma bets_stay_solvent_witness :
  let raised := updateGameStatus (PS := high_card_solver) (CF := sample_config)
                  round_server (Some "s1") "r1" RAISE (Some 20) 200 in
  ∃ rm', rooms raised.2 !! 0%nat = Some rm'
         ∧ players rm' = Some [0; 1; 2]%nat
         ∧ solvent (focus raised.2 rm').
Proof.
  intros raised.
  destruct (bets_stay_solvent (PS := high_card_solver) (CF := sample_config)
              round_server raised.2 (Some "s1") "r1" RAISE (Some 20) 200 0%nat
              (default lobby_room (rooms round_server !! 0%nat)) raised.1)
    as (rm' & H1 & H2 & H3).
  - vm_compute. reflexivity.
  - cbn. lia.
  - exact round_table_solvent.
  - apply surjective_pairing.
  - exists rm'. split; [exact H1|]. split; [|exact H3].
    etrans; [exact H2|]. vm_compute. reflexivity.
Defined.

(** The blind is taken from a balance that covers it. *)
Lemma stays_solvent_post_blind seats blind r index :
  r ∈ seats →
  preserves (fun t t' => players (room t) = Some seats → stays_solvent t t')
            (post_blind blind r index).
Proof.
  intros Hin t res t' H0 Hs. unfold post_blind in H0.
  rewrite bind_get_store, bind_get_room in H0.
  destruct (playerStatus (store t r)) as [ps|] eqn:Hps.
  2:{ inversion H0; subst. apply stays_solvent_refl. }
  assert (Hstop : ∀ o, (o, t) = (res, t') → stays_solvent t t').
  { intros o Ho. inversion Ho; subst. apply stays_solvent_refl. }
  assert (Hposts : ∀ posts : bool,
            (if posts
             then
               let! gs := defined (gameStatus (room t)) in
               let amount := if index =? blind then 10 else 5 in
               (if currentBetAmount gs <? amount
                then write_game (set_currentBetAmount amount) else ret tt) ;;;
               if amount <=? balance (store t r) then
                 write_status r (set_subTotal amount) ;;;
                 write_player r (fun p => set_balance (balance p - amount) p) ;;;
                 write_game (fun gs => set_pot (pot gs + amount) gs)
               else write_status r (set_status BUST)
             else ret tt) t = (res, t') →
            stays_solvent t t').
  { intros [|] H1; [|apply (Hstop _ H1)].
    destruct (gameStatus (room t)) as [gs|] eqn:Hg; [|apply (Hstop _ H1)].
    rewrite (bind_defined_Some _ gs) in H1 by reflexivity. cbv zeta in H1.
    set (amount := if index =? blind then 10 else 5) in *.
    assert (Hamount : 0 ≤ amount) by (unfold amount; destruct (index =? blind); lia).
    assert (Hraised : ∀ g, pot g = pot gs → currentBetAmount gs ≤ currentBetAmount g →
              amount ≤ currentBetAmount g →
              (if amount <=? balance (store t r) then
                 write_status r (set_subTotal amount) ;;;
                 write_player r (fun p => set_balance (balance p - amount) p) ;;;
                 write_game (fun gs => set_pot (pot gs + amount) gs)
               else write_status r (set_status BUST))
                (mkTable (store t) (set_gameStatus g (room t)) (log t)) = (res, t') →
              stays_solvent t t').
    { intros g Hpot Hcur Hreach H2.
      assert (Hfacts : solvent t → 0 ≤ pot gs ∧ 0 ≤ totalBetAmout ps).
      { intros [Hp Hall]. unfold pot_of in Hp. rewrite Hg in Hp.
        destruct (Hall r ltac:(unfold seats_of; rewrite Hs; exact Hin)) as [Hb Hrest].
        destruct (Hrest ps Hps) as (Ht & _). lia. }
      destruct (Z.leb_spec amount (balance (store t r))) as [Hcovered|Hshort].
      - erewrite bind_write_status in H2 by (cbn [store]; exact Hps).
        rewrite bind_write_player in H2. cbn [store room log] in H2.
        unfold write_game in H2. cbn [room gameStatus set_gameStatus store log] in H2.
        inversion H2; subst. clear H2. split; [reflexivity|]. intros Hsol.
        destruct (Hfacts Hsol) as [? ?].
        rewrite set_gameStatus_twice.
        eapply (solvent_update t _ gs _ _ r); [exact Hsol|exact Hg| | | | | | |].
        + intros r' Hne. rewrite !fn_lookup_insert_ne by congruence. reflexivity.
        + rewrite !fn_lookup_insert. reflexivity.
        + cbn. lia.
        + cbn. lia.
        + rewrite !fn_lookup_insert. cbn. lia.
        + cbn. lia.
        + cbn. lia.
      - unfold write_status, write_player in H2. cbn [store room log] in H2.
        rewrite Hps in H2.
        inversion H2; subst. clear H2. split; [reflexivity|]. intros Hsol.
        pose proof Hsol as [_ Hall].
        destruct (Hall r ltac:(unfold seats_of; rewrite Hs; exact Hin)) as [Hb Hrest].
        destruct (Hrest ps Hps) as (Ht & Hsub & Hc). specialize (Hc gs Hg).
        eapply (solvent_update t _ gs _ _ r); [exact Hsol|exact Hg| | | | | | |].
        + intros r' Hne. rewrite !fn_lookup_insert_ne by congruence. reflexivity.
        + rewrite !fn_lookup_insert. reflexivity.
        + destruct Hsol as [Hp _]. unfold pot_of in Hp. rewrite Hg in Hp. lia.
        + lia.
        + rewrite !fn_lookup_insert. cbn. lia.
        + cbn. lia.
        + cbn. lia. }
    destruct (Z.ltb_spec (currentBetAmount gs) amount).
    - rewrite (bind_write_game _ gs) in H1 by exact Hg.
      apply (Hraised (set_currentBetAmount amount gs) eq_refl); [cbn; lia|cbn; lia|exact H1].
    - rewrite bind_ret in H1. apply (Hraised gs eq_refl); [lia|lia|].
      assert (Hrm : set_gameStatus gs (room t) = room t).
      { clear -Hg. destruct t as [h0 [a b c0 d n p g0] l0]. cbn in Hg |- *.
        rewrite Hg. reflexivity. }
      rewrite Hrm. destruct t. exact H1. }
  destruct (index =? blind).
  - rewrite bind_ret in H0. apply (Hposts true H0).
  - rewrite bind_assoc in H0. unfold lift in H0. unfold bind at 1 in H0.
    destruct (prevTurn (store t) (room t) (Some blind)) as [p| |];
      [|apply (Hstop _ H0)..].
    rewrite bind_ret in H0. apply (Hposts _ H0).
Qed.

Lemma stays_solvent_post_blinds seats blind (a : list ref) :
  (∀ r, r ∈ a → r ∈ seats) →
  ∀ i t res t', forEach_from (post_blind blind) a i t = (res, t') →
                players (room t) = Some seats → stays_solvent t t'.
Proof.
  induction a as [|x a IH]; intros Hsub i t res t' H0 Hs; cbn [forEach_from] in H0.
  - inversion H0; subst. apply stays_solvent_refl.
  - apply bind_cases in H0 as [([] & t1 & Hm & H1)|[[Hm ->]|[Hm ->]]].
    + pose proof (stays_solvent_post_blind seats blind x i (Hsub x ltac:(left))
                    _ _ _ Hm Hs) as Hstep.
      eapply stays_solvent_trans; [exact Hstep|].
      apply (IH (fun r Hr => Hsub r ltac:(right; exact Hr)) _ _ _ _ H1).
      destruct Hstep as [Hp _]. congruence.
    + apply (stays_solvent_post_blind seats blind x i (Hsub x ltac:(left)) _ _ _ Hm Hs).
    + apply (stays_solvent_post_blind seats blind x i (Hsub x ltac:(left)) _ _ _ Hm Hs).
Qed.

(** X23. A new round is solvent.  When no seat has a negative balance, a
    startNewRound that returns leaves a table on which the pot, the
    balances and the stakes are not negative and no seat has staked more
    than currentBetAmount: a blind is taken only from a balance that covers
    it.  The seats are distinct Player objects. *)
Theorem startNewRound_solvent {CF : Config} (rnd : nat → nat * nat) (blindDraw now : Z)
    (t t' : Table) (seats : list ref) :
  startNewRound rnd blindDraw now t = (Ok tt, t') →
  players (room t) = Some seats →
  NoDup seats →
  (∀ r, r ∈ seats → 0 ≤ balance (store t r)) →
  solvent t'.
Proof.
  intros H0 Hs Hnd Hbal. unfold startNewRound in H0. cbv zeta in H0.
  rewrite bind_get_store, bind_get_room in H0.
  apply bind_cases in H0 as [(blind & t1 & Hm & H1)|[[_ ?]|[_ ?]]]; try discriminate.
  assert (t1 = t) as ->.
  { destruct (gameStatus (room t)); [|inversion Hm; reflexivity].
    unfold lift in Hm. inversion Hm; reflexivity. }
  clear Hm. unfold set_room_gameStatus at 1 in H1. unfold bind at 1 in H1.
  rewrite (bind_get_seats _ _ seats) in H1 by exact Hs.
  apply bind_cases in H1 as [([] & t2 & Hm & H2)|[[_ ?]|[_ ?]]]; try discriminate.
  destruct (deal_hole_forEach _ _ _ _ _ _ Hm) as (_ & Hroom & _ & Hdealt).
  assert (Hbal2 : ∀ r, balance (store t2 r) = balance (store t r)).
  { assert (HK : preserves (framed shape_g balance)
                   (forEach (deal_hole (shuffleCards rnd cardIds)) seats)).
    { unfold deal_hole. framed_with shape_g balance fail. }
    destruct (HK _ _ _ Hm) as (_ & _ & Hb). exact Hb. }
  cbn [room] in Hroom.
  assert (Hsol2 : solvent t2).
  { split.
    - rewrite Hroom. unfold pot_of. cbn. lia.
    - intros r Hr0.
      assert (Hr : r ∈ seats).
      { rewrite Hroom in Hr0. unfold seats_of in Hr0.
        cbn [players set_gameStatus] in Hr0. rewrite Hs in Hr0. exact Hr0. }
      split; [rewrite Hbal2; apply Hbal, Hr|].
      apply list_elem_of_lookup in Hr as [j Hj].
      intros ps Hps. rewrite (Hdealt Hnd j r Hj) in Hps. inversion Hps; subst ps. cbn.
      split; [lia|]. split; [lia|]. rewrite Hroom. cbn. intros gs [= <-]. cbn. lia. }
  assert (Hs2 : players (room t2) = Some seats) by (rewrite Hroom; exact Hs).
  apply bind_cases in H2 as [([] & t3 & Hm3 & H3)|[[_ ?]|[_ ?]]]; try discriminate.
  pose proof (stays_solvent_post_blinds seats blind seats (fun r Hr => Hr)
                _ _ _ _ Hm3 Hs2) as [Hp3 Hsol3].
  match type of H3 with
  | ?K t3 = _ =>
      assert (HK : preserves stays_solvent K)
        by solvent_with ltac:(apply stays_solvent_advance_turn);
      destruct (HK _ _ _ H3) as [_ Hsol']
  end.
  auto.
Qed.

Lemma startNewRound_solvent_witness : solvent round_table.
Proof.
  apply (startNewRound_solvent (CF := sample_config) no_swaps 0 100
           (focus lobby_server lobby_room) round_table [0; 1; 2]%nat).
  - exact round_table_started.
  - reflexivity.
  - apply (bool_decide_unpack _). vm_compute. reflexivity.
  - intros r _. cbn. lia.
Defined.

(** ** What is sent during a round *)

(** The call adds messages to the log, all of them with the property [P]. *)
Definition sends (P : Event → Prop) (t t' : Table) : Prop :=
  ∃ sent, log t' = log t ++ sent ∧ Forall P sent.

Lemma sends_refl P t : sends P t t.
Proof. exists []. rewrite app_nil_r. auto. Qed.

Lemma sends_trans P t1 t2 t3 : sends P t1 t2 → sends P t2 t3 → sends P t1 t3.
Proof.
  intros (s1 & H1 & F1) (s2 & H2 & F2). exists (s1 ++ s2).
  rewrite H2, H1, app_assoc. split; [reflexivity|]. apply Forall_app. auto.
Qed.

Lemma sends_quiet P (t t' : Table) : log t' = log t → sends P t t'.
Proof. intros H. exists []. rewrite app_nil_r. auto. Qed.

Lemma sends_write_player P r f : preserves (sends P) (write_player r f).
Proof. intros t res t' H. inversion H; subst. apply sends_quiet. reflexivity. Qed.

Lemma sends_write_status P r f : preserves (sends P) (write_status r f).
Proof. apply sends_write_player. Qed.

Lemma sends_write_game P f : preserves (sends P) (write_game f).
Proof.
  intros t res t' H. unfold write_game in H.
  destruct (gameStatus (room t)); inversion H; subst; apply sends_quiet; reflexivity.
Qed.

Lemma sends_push_event (P : Event → Prop) e : P e → preserves (sends P) (push_event e).
Proof.
  intros He t res t' H. inversion H; subst. exists [e]. split; [reflexivity|].
  constructor; [exact He|constructor].
Qed.

Lemma sends_emit_to (P : Event → Prop) c r ev payload player :
  (∀ socket, P (Emit socket ev payload player)) →
  preserves (sends P) (emit_to c r ev payload player).
Proof.
  intros He. unfold emit_to.
  preserves_split (sends P) (sends_refl P) (sends_trans P)
    ltac:(apply sends_push_event; apply He).
Qed.

(** A step that is the outcome of a pure function: what follows runs on
    its value. *)
Lemma preserves_bind_lift {A B} (R : Table → Table → Prop) (R_refl : ∀ t, R t t)
    (r : res A) (k : A → M B) :
  (∀ a, r = Ok a → preserves R (k a)) → preserves R (bind (lift r) k).
Proof.
  intros Hk t res t' H. unfold bind, lift in H. destruct r as [a| |].
  - eapply Hk; eauto.
  - inversion H; subst. apply R_refl.
  - inversion H; subst. apply R_refl.
Qed.

Lemma cut_no_cards (r shown : Room Player) :
  cutPlayersCards (cutRoomCards r) = Ok shown → no_cards shown.
Proof.
  destruct r as [i n c s k ps gs].
  unfold cutPlayersCards, cutRoomCards, no_cards. cbn.
  intros H.
  assert (Hps : ∃ seats, players shown = Some (map cutCards seats)
                         ∧ ∀ g, gameStatus shown = Some g → cards g = None).
  { destruct gs as [g|]; [destruct (cards g) eqn:Ec|]; cbn in H;
      destruct ps as [seats|]; inversion H; subst; clear H; cbn;
      exists seats; (split; [reflexivity|]);
      intros g' Hg'; inversion Hg'; subst; try reflexivity; try exact Ec. }
  destruct Hps as (seats & Hs & Hcards).
  split; [|exact Hcards].
  intros seats' p ps' Hs' Hin Hp. rewrite Hs in Hs'. inversion Hs'; subst seats'.
  apply list_elem_of_fmap in Hin as (q & -> & _).
  exact (proj2 (cutCards_public q) ps' Hp).
Qed.

Ltac sends_with leaf :=
  preserves_split (sends discreet) (sends_refl discreet) (sends_trans discreet)
    ltac:(first [ apply sends_write_player
                | apply sends_write_status
                | apply sends_write_game
                | apply sends_push_event; exact I
                | leaf ]).

(** The broadcast to the seats during a round: the room without the
    cards. *)
Lemma sends_member_view c ev (seats : list ref) :
  preserves (sends discreet)
    (forEach (fun r _ =>
                let! h := get_store in
                let! rm := get_room in
                let! shown := lift (cutPlayersCards (cutRoomCards (view h rm))) in
                emit_to c r ev shown (Some (h r))) seats).
Proof.
  sends_with ltac:(first [ apply (preserves_bind_lift _ (sends_refl discreet));
                           intros shown Hshown
                         | apply sends_emit_to; intros socket; left;
                           eapply cut_no_cards; eassumption ]).
Qed.

Definition finished (t : Table) : Prop :=
  ∃ gs, gameStatus (room t) = Some gs ∧ roundFinished gs = true.

(** The broadcast of checkWinning: the room of the finished round. *)
Lemma sends_showdown c ev (seats : list ref) :
  ∀ i t res t',
    finished t →
    forEach_from (fun r (_ : Z) =>
                    let! h := get_store in
                    let! rm := get_room in
                    emit_to c r ev (view h rm) (Some (h r))) seats i t = (res, t') →
    sends discreet t t' ∧ room t' = room t.
Proof.
  induction seats as [|x seats IH]; intros i t res t' Hfin H0; cbn [forEach_from] in H0.
  - inversion H0; subst. split; [apply sends_refl|reflexivity].
  - assert (Hstep : ∀ r1 t1,
              (let! h := get_store in
               let! rm := get_room in
               emit_to c x ev (view h rm) (Some (h x))) t = (r1, t1) →
              sends discreet t t1 ∧ room t1 = room t).
    { intros r1 t1 H1. rewrite bind_get_store, bind_get_room in H1. split.
      - eapply sends_emit_to; [|exact H1]. intros socket. right.
        destruct Hfin as (gs & Hg & Hf). exists gs. split; [exact Hg|exact Hf].
      - apply (same_state_emit_to _ _ _ _ _ _ _ _ H1). }
    apply bind_cases in H0 as [([] & t1 & Hm & H1)|[[Hm ->]|[Hm ->]]].
    + destruct (Hstep _ _ Hm) as [Hs1 Hr1].
      destruct (IH (i + 1) t1 res t') as [Hs2 Hr2]; [|exact H1|].
      * unfold finished. rewrite Hr1. exact Hfin.
      * split; [eapply sends_trans; eauto|congruence].
    + apply (Hstep _ _ Hm).
    + apply (Hstep _ _ Hm).
Qed.

Lemma sends_settle_loop {PS : PokerSolver} (fuel : nat) :
  ∀ hands subHands, preserves (sends discreet) (settle_loop fuel hands subHands).
Proof.
  induction fuel as [|fuel IH]; intros hands subHands; cbn [settle_loop].
  - apply preserves_lift, sends_refl.
  - unfold pay_winner. sends_with ltac:(apply IH).
Qed.

Lemma sends_checkWinning {PS : PokerSolver} {CF : Config} c :
  preserves (sends discreet) (checkWinning c).
Proof.
  intros t res t' H0. unfold checkWinning in H0. rewrite bind_get_room in H0.
  destruct (gameStatus (room t)) as [gs|] eqn:Hg.
  2:{ inversion H0; subst. apply sends_refl. }
  apply bind_cases in H0 as [(seats & t1 & Hm1 & H1)|[[Hm1 ->]|[Hm1 ->]]].
  2,3: unfold get_seats in Hm1; rewrite bind_get_room in Hm1;
       destruct (players (room t)); inversion Hm1; subst; apply sends_refl.
  assert (t1 = t) as ->.
  { unfold get_seats in Hm1. rewrite bind_get_room in Hm1.
    destruct (players (room t)); inversion Hm1; reflexivity. }
  rewrite bind_get_store in H1.
  apply bind_cases in H1 as [(hands & t2 & Hm2 & H2)|[[Hm2 ->]|[Hm2 ->]]].
  2,3: unfold lift in Hm2; inversion Hm2; subst; apply sends_refl.
  assert (t2 = t) as -> by (unfold lift in Hm2; inversion Hm2; reflexivity).
  apply bind_cases in H2 as [([] & t3 & Hm3 & H3)|[[Hm3 ->]|[Hm3 ->]]].
  2,3: eapply sends_settle_loop; eauto.
  eapply sends_trans; [eapply sends_settle_loop; eauto|].
  destruct (framed_is_Some _ _ _ _ gs (shaped_settle_loop _ _ _ _ _ _ Hm3) Hg)
    as (gs3 & Hg3 & _).
  rewrite (bind_write_game _ gs3) in H3 by exact Hg3.
  set (t4 := mkTable (store t3) _ (log t3)) in H3.
  assert (Hlog : log t4 = log t3) by reflexivity.
  assert (Hfin : finished t4) by (eexists; split; reflexivity).
  enough (sends discreet t4 t') as (sent & Hs & Hf)
      by (exists sent; rewrite <- Hlog; auto).
  apply bind_cases in H3 as [([] & t5 & Hm5 & H5)|[[Hm5 ->]|[Hm5 ->]]].
  - destruct (sends_showdown _ _ _ _ _ _ _ Hfin Hm5) as [Hs5 _].
    eapply sends_trans; [exact Hs5|].
    exact (sends_push_event discreet (SetTimeout NextRoundTimer (rid (room t)) ROUND_WAIT_TIME) I _ _ _ H5).
  - apply (sends_showdown _ _ _ _ _ _ _ Hfin Hm5).
  - apply (sends_showdown _ _ _ _ _ _ _ Hfin Hm5).
Qed.

Lemma sends_dealCards {PS : PokerSolver} {CF : Config} c :
  preserves (sends discreet) (dealCards c).
Proof.
  unfold dealCards, close_street, advance_turn.
  sends_with ltac:(apply sends_checkWinning).
Qed.

Lemma sends_deal_until_showdown {PS : PokerSolver} {CF : Config} c fuel :
  preserves (sends discreet) (deal_until_showdown c fuel).
Proof.
  induction fuel as [|fuel IH]; cbn [deal_until_showdown].
  - apply preserves_lift, sends_refl.
  - sends_with ltac:(first [apply sends_dealCards | apply IH]).
Qed.

Lemma sends_play {PS : PokerSolver} {CF : Config} c player st amount now :
  preserves (sends discreet) (play c player st amount now).
Proof.
  unfold play, apply_action, advance_turn, next_has_matched.
  sends_with ltac:(first [ apply sends_dealCards
                         | apply sends_deal_until_showdown
                         | apply sends_member_view ]).
Qed.

Lemma sends_updateGameStatus {PS : PokerSolver} {CF : Config} (s : Server)
    (socket : option string) (roomId : string) (st : PlayStatus) (amount : option Z)
    (now : Z) :
  ∃ sent, emitted (updateGameStatus s socket roomId st amount now).2 = emitted s ++ sent
          ∧ Forall discreet sent.
Proof.
  unfold updateGameStatus.
  destruct socket as [socketId|]; [|exists []; rewrite app_nil_r; auto].
  destruct (getRoom (rooms s) roomId) as [[i rm]|]; [|exists []; rewrite app_nil_r; auto].
  destruct (play _ _ _ _ _ _) as [result t] eqn:Hplay.
  destruct (sends_play _ _ _ _ _ _ _ _ Hplay) as (sent & Hs & Hf).
  exists sent. split; [exact Hs|exact Hf].
Qed.

Lemma sends_startNewRound {CF : Config} rnd blindDraw now :
  preserves (sends discreet) (startNewRound rnd blindDraw now).
Proof.
  unfold startNewRound, set_room_gameStatus.
  sends_with ltac:(apply preserves_with_table; intros ? ? ? Hx;
                   inversion Hx; subst; apply sends_quiet; reflexivity).
Qed.

Lemma sends_announce_start c (sockets : list ref) :
  preserves (sends discreet) (forEach (announce_start c) sockets).
Proof.
  unfold announce_start.
  sends_with ltac:(first [ apply (preserves_bind_lift _ (sends_refl discreet));
                           intros shown Hshown
                         | apply sends_emit_to; intros socket; left;
                           first [ eapply cut_no_cards; eassumption
                                 | split; cbn; intros; discriminate ] ]).
Qed.

(** X24. What a round shows.  Every room that a call of updateGameStatus
    sends, every room sent when a turn timer fires or the next round
    starts, and every room startRoomGame sends, shows no hole cards in its
    seat list and no deck, unless it is the room of a finished round. *)
Theorem round_messages_discreet {PS : PokerSolver} {CF : Config} (s : Server)
    (socket : option string) (roomId : string) (st : PlayStatus) (amount : option Z)
    (now : Z) (tm : Timer) (rm : Room ref) (rnd : nat → nat * nat) (blindDraw : Z)
    (t : Table) :
  (∃ sent, emitted (updateGameStatus s socket roomId st amount now).2 = emitted s ++ sent
           ∧ Forall discreet sent)
  ∧ (∃ sent, emitted (fire_timer tm s rm now rnd blindDraw).2 = emitted s ++ sent
             ∧ Forall discreet sent)
  ∧ (∃ sent, log (next_round (conn s) rnd blindDraw now t).2 = log t ++ sent
             ∧ Forall discreet sent)
  ∧ (∃ sent, emitted (startRoomGame s roomId rnd blindDraw now).2 = emitted s ++ sent
             ∧ Forall discreet sent).
Proof.
  assert (HK : preserves (sends discreet) (next_round (conn s) rnd blindDraw now)).
  { unfold next_round.
    sends_with ltac:(first [ apply sends_startNewRound | apply sends_member_view ]). }
  split; [apply sends_updateGameStatus|]. split; [|split].
  - unfold fire_timer. destruct tm.
    + unfold submit.
      destruct (turnTimer_submits (conn s) (objects s) rm now) as [[[sock act]|]| |];
        first [ apply sends_updateGameStatus
              | exists []; rewrite app_nil_r; auto ].
    + unfold submit.
      destruct (roundStartTimer_submits (conn s) (objects s) rm now) as [[[sock act]|]| |];
        first [ apply sends_updateGameStatus
              | exists []; rewrite app_nil_r; auto ].
    + destruct (next_round (conn s) rnd blindDraw now (focus s rm)) as [result t'] eqn:Hrun.
      destruct (HK _ _ _ Hrun) as (sent & Hs & Hf).
      exists sent. split; [|exact Hf].
      destruct (getRoom (rooms s) (rid rm)) as [[i r]|]; exact Hs.
  - destruct (next_round (conn s) rnd blindDraw now t) as [result t'] eqn:Hrun.
    exact (HK _ _ _ Hrun).
  - unfold startRoomGame.
    destruct (getRoom (rooms s) roomId) as [[i r]|]; [|exists []; rewrite app_nil_r; auto].
    destruct ((startNewRound rnd blindDraw now ;;;
               forEach (announce_start (conn s)) (members (conn s)))
                (focus s (set_started true r))) as [result t'] eqn:Hrun.
    assert (HS : preserves (sends discreet)
                   (startNewRound rnd blindDraw now ;;;
                    forEach (announce_start (conn s)) (members (conn s)))).
    { sends_with ltac:(first [ apply sends_startNewRound | apply sends_announce_start ]). }
    exact (HS _ _ _ Hrun).
Qed.

(** ** An accepted RAISE *)

(** X25. An accepted RAISE.  A RAISE by a non-zero integer [amount] that
    the player can pay, when the numbers the branch reads and computes are
    all safe integers, sets currentBetAmount to its old value plus
    [amount] and the player's stake of the street to that same value, and
    moves the difference between that and the old stake from the balance to
    the pot; no other player is touched.  The sign of [amount] is not
    looked at. *)
Theorem raise_sets_the_bet {PS : PokerSolver} {CF : Config} (c : Conn) (r : ref) (a : Z)
    (t t' : Table) (outcome : res (option bool)) (gs : GameStatus) (ps : PlayerStatus) :
  gameStatus (room t) = Some gs →
  playerStatus (store t r) = Some ps →
  a ≠ 0 →
  Forall safe (raise_numbers gs ps (balance (store t r)) a) →
  currentBetAmount gs + a - subTotalBetAmount ps ≤ balance (store t r) →
  apply_action c r RAISE (Some a) t = (outcome, t') →
  let paid := currentBetAmount gs + a - subTotalBetAmount ps in
  bet_of (room t') = Some (currentBetAmount gs + a)
  ∧ bets_of (store t' r) = Some (totalBetAmout ps, currentBetAmount gs + a, RAISE)
  ∧ balance (store t' r) = balance (store t r) - paid
  ∧ pot_of (room t') = pot gs + paid
  ∧ (∀ q, q ≠ r → store t' q = store t q).
Proof.
  intros Hg Hps Ha _ Hbal H paid. unfold apply_action in H.
  erewrite bind_write_status in H by exact Hps.
  rewrite bind_get_store, bind_get_room in H. cbn [store room] in H.
  rewrite (bind_defined_Some _ gs) in H by exact Hg.
  rewrite fn_lookup_insert in H.
  rewrite (bind_defined_Some _ (set_status RAISE ps)) in H by reflexivity.
  cbv zeta in H.
  rewrite (bool_decide_eq_false_2 (RAISE = CALL)) in H by discriminate.
  rewrite (bool_decide_eq_true_2 (RAISE = RAISE)) in H by reflexivity.
  rewrite (proj2 (Z.eqb_neq a 0) Ha) in H.
  cbn [andb negb default set_status set_playerStatus balance subTotalBetAmount] in H.
  unfold id in H. fold paid in H.
  rewrite (proj2 (Z.ltb_ge (balance (store t r)) paid) Hbal) in H.
  step_writes H.
  match type of H with _ ?tb = _ => set (t4 := tb) in H end.
  assert (Hstore : store t' = store t4 ∧
                   ∃ turn, room t' = set_gameStatus
                     (set_playTurn turn
                        (set_pot (pot gs + paid)
                           (set_currentBetAmount (currentBetAmount gs + a) gs)))
                     (room t)).
  { assert (Hadv : ∀ o t1, advance_turn None t4 = (o, t1) →
                     store t1 = store t4 ∧
                     ∃ turn, room t1 = set_gameStatus
                       (set_playTurn turn
                          (set_pot (pot gs + paid)
                             (set_currentBetAmount (currentBetAmount gs + a) gs)))
                       (room t)).
    { intros o t1 Hrun. unfold advance_turn in Hrun.
      rewrite bind_get_store, bind_get_room in Hrun. unfold bind, lift in Hrun.
      destruct (nextTurn (store t4) (room t4) None) as [turn| |].
      - unfold write_game in Hrun. cbn in Hrun. inversion Hrun; subst t1. cbn.
        split; [reflexivity|]. exists turn. reflexivity.
      - inversion Hrun; subst t1. split; [reflexivity|].
        exists (playTurn gs). reflexivity.
      - inversion Hrun; subst t1. split; [reflexivity|].
        exists (playTurn gs). reflexivity. }
    apply bind_cases in H as [([] & t1 & Hm & H1)|[[Hm _]|[Hm _]]].
    - inversion H1; subst t'. exact (Hadv _ _ Hm).
    - exact (Hadv _ _ Hm).
    - exact (Hadv _ _ Hm). }
  destruct Hstore as [Hst (turn & Hrm)]. rewrite Hst, Hrm. unfold t4. cbn [store].
  unfold bet_of, bets_of, pot_of. rewrite !fn_lookup_insert. cbn.
  repeat split; try reflexivity.
  - f_equal. f_equal. f_equal. unfold paid. lia.
  - intros q Hq. rewrite !fn_lookup_insert_ne by congruence. reflexivity.
Qed.

Lemma raise_sets_the_bet_witness :
  let raised := apply_action (PS := high_card_solver) (CF := sample_config)
                  three_conn 1%nat RAISE (Some (-5)) round_table in
  bet_of (room round_table) = Some 10
  ∧ bet_of (room raised.2) = Some 5
  ∧ bets_of (store raised.2 0%nat) = Some (0, 10, NONE)
  ∧ balance (store raised.2 1%nat) = 1995.
Proof.
  intros raised.
  destruct (gameStatus (room round_table)) as [gs|] eqn:Hg; [|vm_compute in Hg; discriminate].
  assert (Hgs : gs = default gs (gameStatus (room round_table))) by (rewrite Hg; reflexivity).
  destruct (playerStatus (store round_table 1%nat)) as [ps|] eqn:Hps;
    [|vm_compute in Hps; discriminate].
  assert (Hp : ps = default ps (playerStatus (store round_table 1%nat)))
    by (rewrite Hps; reflexivity).
  assert (Hcur : currentBetAmount gs = 10) by (rewrite Hgs; vm_compute; reflexivity).
  assert (Hpot : pot gs = 15) by (rewrite Hgs; vm_compute; reflexivity).
  assert (Hsub : subTotalBetAmount ps = 0) by (rewrite Hp; vm_compute; reflexivity).
  assert (Hb : balance (store round_table 1%nat) = 2000) by (vm_compute; reflexivity).
  destruct (raise_sets_the_bet (PS := high_card_solver) (CF := sample_config)
              three_conn 1%nat (-5) round_table raised.2 raised.1 gs ps)
    as (H1 & _ & H3 & _ & H5).
  - exact Hg.
  - exact Hps.
  - discriminate.
  - unfold raise_numbers. rewrite Hcur, Hsub, Hb, Hpot.
    repeat constructor; vm_compute; discriminate.
  - rewrite Hcur, Hsub, Hb. lia.
  - apply surjective_pairing.
  - split; [unfold bet_of; rewrite Hg; cbn; rewrite Hcur; reflexivity|].
    split; [rewrite H1, Hcur; reflexivity|].
    split; [rewrite (H5 0%nat) by discriminate; vm_compute; reflexivity|].
    etrans; [exact H3|]. rewrite Hcur, Hsub, Hb. reflexivity.
Defined.

(** ** The end of a settlement *)

Lemma checkWinning_arms_timer {PS : PokerSolver} {CF : Config} (c : Conn) (t t' : Table)
    (gs : GameStatus) :
  gameStatus (room t) = Some gs →
  checkWinning c t = (Ok tt, t') →
  ∃ sent, log t' = log t ++ sent
                   ++ [SetTimeout NextRoundTimer (rid (room t)) ROUND_WAIT_TIME].
Proof.
  intros Hg H0. unfold checkWinning in H0. rewrite bind_get_room, Hg in H0.
  apply bind_cases in H0 as [(seats & t1 & Hm1 & H1)|[[_ ?]|[_ ?]]]; try discriminate.
  assert (t1 = t) as ->.
  { unfold get_seats in Hm1. rewrite bind_get_room in Hm1.
    destruct (players (room t)); inversion Hm1; reflexivity. }
  rewrite bind_get_store in H1.
  apply bind_cases in H1 as [(hands & t2 & Hm2 & H2)|[[_ ?]|[_ ?]]]; try discriminate.
  assert (t2 = t) as -> by (unfold lift in Hm2; inversion Hm2; reflexivity).
  apply bind_cases in H2 as [([] & t3 & Hm3 & H3)|[[_ ?]|[_ ?]]]; try discriminate.
  destruct (sends_settle_loop _ _ _ _ _ _ Hm3) as (sent1 & Hl1 & _).
  destruct (framed_is_Some _ _ _ _ gs (shaped_settle_loop _ _ _ _ _ _ Hm3) Hg)
    as (gs3 & Hg3 & _).
  rewrite (bind_write_game _ gs3) in H3 by exact Hg3.
  set (t4 := mkTable (store t3) _ (log t3)) in H3.
  assert (Hfin : finished t4) by (eexists; split; reflexivity).
  apply bind_cases in H3 as [([] & t5 & Hm5 & H5)|[[_ ?]|[_ ?]]]; try discriminate.
  destruct (sends_showdown _ _ _ _ _ _ _ Hfin Hm5) as [(sent2 & Hl2 & _) _].
  inversion H5; subst t'. cbn [log]. exists (sent1 ++ sent2).
  rewrite Hl2. change (log t4) with (log t3). rewrite Hl1, !app_assoc. reflexivity.
Qed.

(** X26. The end of a settlement.  When Hand.winners returns a non-empty
    selection of the hands it is given, checkWinning returns: the loop over
    the side pots ends.  When it returns normally on a room with a
    gameStatus, the round is marked finished, the board is as it was, and
    the last thing done is to arm the timer of the next round, with
    ROUND_WAIT_TIME. *)
Theorem settlement_ends_round {PS : PokerSolver} {CF : Config} (c : Conn) (t t' : Table)
    (outcome : res unit) (gs : GameStatus) :
  winners_contract →
  gameStatus (room t) = Some gs →
  checkWinning c t = (outcome, t') →
  outcome ≠ Hang
  ∧ (outcome = Ok tt →
     ∃ gs' sent,
       gameStatus (room t') = Some gs' ∧ roundFinished gs' = true
       ∧ board gs' = board gs
       ∧ log t' = log t ++ sent
                  ++ [SetTimeout NextRoundTimer (rid (room t)) ROUND_WAIT_TIME]).
Proof.
  intros contract Hg H0. split.
  - pose proof (checkWinning_returns c contract t) as Hret. rewrite H0 in Hret. exact Hret.
  - intros ->.
    destruct (checkWinning_finishes c t t' gs Hg H0) as (gs' & Hg' & Hf & Hb).
    destruct (checkWinning_arms_timer c t t' gs Hg H0) as (sent & Hl).
    exists gs', sent. auto.
Qed.

Lemma settlement_ends_round_witness :
  let settled := checkWinning (PS := high_card_solver) (CF := sample_config)
                   two_conn tie_table in
  settled.1 = Ok tt
  ∧ ∃ gs' sent,
      gameStatus (room settled.2) = Some gs' ∧ roundFinished gs' = true
      ∧ board gs' = [51; 50; 49; 48; 47]
      ∧ log settled.2 = sent ++ [SetTimeout NextRoundTimer "r1" 10000].
Proof.
  intros settled.
  assert (Hok : settled.1 = Ok tt) by (vm_compute; reflexivity).
  split; [exact Hok|].
  destruct (settlement_ends_round (PS := high_card_solver) (CF := sample_config)
              two_conn tie_table settled.2 settled.1
              (mkGameStatus 1 false 0 60 1 0 [51; 50; 49; 48; 47]
                 (Some (shuffleCards no_swaps cardIds)) 100))
    as [_ H].
  - exact best_hands_contract.
  - reflexivity.
  - apply surjective_pairing.
  - destruct (H Hok) as (gs' & sent & Hg & Hf & Hb & Hl).
    exists gs', sent. auto.
Defined.

(** ** What the lobby sends *)

Lemma emit_to_one (P : Event → Prop) c r ev payload pl :
  (∀ sock, P (Emit sock ev payload pl)) →
  ∀ t o t1,
    emit_to c r ev payload pl t = (o, t1) →
    store t1 = store t ∧ room t1 = room t
    ∧ ∃ sent, log t1 = log t ++ sent ∧ Forall P sent
              ∧ (o = Ok tt → length sent = 1%nat).
Proof.
  intros HP t o t1 H. unfold emit_to in H. rewrite bind_get_store in H.
  destruct (at_index (sockets c) (getPlayerIndex (store t) (members c) (pid (store t r))))
    as [sock|] eqn:Hs.
  - rewrite (bind_defined_Some _ sock) in H by reflexivity.
    inversion H; subst. cbn. split; [reflexivity|]. split; [reflexivity|].
    exists [Emit sock ev payload pl]. split; [reflexivity|].
    split; [constructor; [apply HP|constructor]|reflexivity].
  - rewrite bind_defined_None in H by reflexivity. inversion H; subst.
    split; [reflexivity|]. split; [reflexivity|].
    exists []. rewrite app_nil_r. split; [reflexivity|]. split; [constructor|discriminate].
Qed.

Lemma forEach_one_each (P : Event → Prop) (h : Store) (rm : Room ref)
    (f : ref → Z → M unit) :
  (∀ r i t o t1, store t = h → room t = rm → f r i t = (o, t1) →
     store t1 = h ∧ room t1 = rm
     ∧ ∃ sent, log t1 = log t ++ sent ∧ Forall P sent
               ∧ (o = Ok tt → length sent = 1%nat)) →
  ∀ ms i t o t', store t = h → room t = rm → forEach_from f ms i t = (o, t') →
     ∃ sent, log t' = log t ++ sent ∧ Forall P sent
             ∧ (o = Ok tt → length sent = length ms).
Proof.
  intros Hf. induction ms as [|m ms IH]; intros i t o t' Hh Hr H; cbn [forEach_from] in H.
  - inversion H; subst. exists []. rewrite app_nil_r. auto.
  - apply bind_cases in H as [([] & t1 & Hm & H1)|[[Hm ->]|[Hm ->]]].
    + destruct (Hf _ _ _ _ _ Hh Hr Hm) as (Hh1 & Hr1 & s1 & Hl1 & HP1 & Hn1).
      destruct (IH _ _ _ _ Hh1 Hr1 H1) as (s2 & Hl2 & HP2 & Hn2).
      exists (s1 ++ s2). rewrite Hl2, Hl1, app_assoc. split; [reflexivity|].
      split; [apply Forall_app; auto|].
      intros Ho. rewrite length_app, (Hn1 eq_refl), (Hn2 Ho). reflexivity.
    + destruct (Hf _ _ _ _ _ Hh Hr Hm) as (_ & _ & s1 & Hl1 & HP1 & _).
      exists s1. split; [exact Hl1|]. split; [exact HP1|discriminate].
    + destruct (Hf _ _ _ _ _ Hh Hr Hm) as (_ & _ & s1 & Hl1 & HP1 & _).
      exists s1. split; [exact Hl1|]. split; [exact HP1|discriminate].
Qed.

(** The two rooms a lobby broadcast sends: the room, and the room without
    its seats. *)
Lemma lobby_broadcast_one (P : Event → Prop) (c : Conn) (ev1 ev2 : string)
    (h : Store) (rm : Room ref) (r : ref) (t : Table) (o : res unit) (t1 : Table) :
  (∀ sock ev, P (Emit sock ev (cutPlayers (view h rm)) None)) →
  (∀ sock ev, P (Emit sock ev (view h rm) None)) →
  store t = h → room t = rm →
  (let! h := get_store in
   let! rm := get_room in
   let! seats := get_seats in
   if getPlayerIndex h seats (pid (h r)) =? -1
   then emit_to c r ev1 (cutPlayers (view h rm)) None
   else emit_to c r ev2 (view h rm) None) t = (o, t1) →
  store t1 = h ∧ room t1 = rm
  ∧ ∃ sent, log t1 = log t ++ sent ∧ Forall P sent ∧ (o = Ok tt → length sent = 1%nat).
Proof.
  intros HP1 HP2 Hh Hr H. rewrite bind_get_store, bind_get_room in H.
  destruct (players (room t)) as [seats|] eqn:Hs.
  - rewrite (bind_get_seats _ _ seats) in H by exact Hs. rewrite Hh, Hr in H.
    destruct (getPlayerIndex h seats (pid (h r)) =? -1).
    + destruct (emit_to_one P _ _ _ _ _ (fun sock => HP1 sock ev1) _ _ _ H)
        as (H1 & H2 & H3).
      split; [congruence|]. split; [congruence|exact H3].
    + destruct (emit_to_one P _ _ _ _ _ (fun sock => HP2 sock ev2) _ _ _ H)
        as (H1 & H2 & H3).
      split; [congruence|]. split; [congruence|exact H3].
  - unfold get_seats in H. rewrite bind_assoc, bind_get_room, Hs in H.
    inversion H; subst. split; [reflexivity|]. split; [reflexivity|].
    exists []. rewrite app_nil_r. split; [reflexivity|]. split; [constructor|discriminate].
Qed.

Lemma unredacted_view (s : Server) (h : Store) (rm rm0 : Room ref) (sock ev : string) :
  rm0 ∈ rooms s →
  gameStatus rm = gameStatus rm0 →
  (∀ r, pid (h r) = pid (objects s r) ∧ playerStatus (h r) = playerStatus (objects s r)) →
  unredacted s (Emit sock ev (view h rm) None)
  ∧ unredacted s (Emit sock ev (cutPlayers (view h rm)) None).
Proof.
  intros Hin Hg Hh. split; (split; [exists rm0; split; [exact Hin|exact Hg]|]).
  - intros seats p Hs Hp. cbn in Hs. destruct (players rm) as [rs|]; [|discriminate].
    cbn in Hs. inversion Hs; subst seats.
    apply list_elem_of_fmap in Hp as (r & -> & _). exists r. apply Hh.
  - intros seats p Hs. cbn in Hs. discriminate.
Qed.

(** X27. What the lobby sends.  Every room that joinRoom or leaveRoom
    sends carries the gameStatus of a room of the server as it is (during a
    round, with the shuffled deck) and, where it carries seats, every seat
    with its playerStatus as it is (with the hole cards).  When the call
    returns normally and has changed a room, one such message went to
    every connected player. *)
Theorem lobby_messages_unredacted (s : Server) (socketId uuid : string) :
  (∃ sent,
     emitted (joinRoom s socketId uuid).2 = emitted s ++ sent
     ∧ Forall (unredacted s) sent
     ∧ ((joinRoom s socketId uuid).1 = Ok tt →
        rooms (joinRoom s socketId uuid).2 ≠ rooms s →
        length sent = length (members (conn s))))
  ∧ (∃ sent,
       emitted (leaveRoom s socketId).2 = emitted s ++ sent
       ∧ Forall (unredacted s) sent
       ∧ ((leaveRoom s socketId).1 = Ok tt →
          rooms (leaveRoom s socketId).2 ≠ rooms s →
          length sent = length (members (conn s)))).
Proof.
  assert (Hnone : ∀ o, ∃ sent : list Event,
            emitted (o, s).2 = emitted s ++ sent ∧ Forall (unredacted s) sent
            ∧ ((o, s).1 = Ok tt → rooms (o, s).2 ≠ rooms s →
               length sent = length (members (conn s)))).
  { intros o. exists []. rewrite app_nil_r. split; [reflexivity|].
    split; [constructor|]. intros _ Hne. exfalso. apply Hne. reflexivity. }
  split.
  - unfold joinRoom.
    destruct (getRoom (rooms s) uuid) as [[i rm]|] eqn:Hroom; [|apply Hnone].
    destruct (10 <=? numberOfPlayers rm); [apply Hnone|].
    destruct (players rm) as [seats|] eqn:Hseats; [|apply Hnone].
    destruct (at_index (members (conn s)) (getIndex (sockets (conn s)) socketId))
      as [np|] eqn:Hnp; [|apply Hnone].
    destruct (negb _); [apply Hnone|].
    set (h' := <[np := set_roomId uuid (objects s np)]> (objects s)).
    set (rm' := set_seats (numberOfPlayers rm + 1) (seats ++ [np]) rm).
    destruct (forEach (announce_join (conn s)) (members (conn s))
                (mkTable h' rm' (emitted s))) as [o t'] eqn:Hrun.
    assert (Hin : rm ∈ rooms s).
    { eapply list_elem_of_lookup_2, getRoom_lookup, Hroom. }
    assert (Hh : ∀ r, pid (h' r) = pid (objects s r)
                      ∧ playerStatus (h' r) = playerStatus (objects s r)).
    { intros r. unfold h'. destruct (decide (r = np)) as [->|Hne].
      - rewrite fn_lookup_insert. split; reflexivity.
      - rewrite fn_lookup_insert_ne by congruence. split; reflexivity. }
    destruct (forEach_one_each (unredacted s) h' rm' (announce_join (conn s))) with
      (ms := members (conn s)) (i := 0) (t := mkTable h' rm' (emitted s)) (o := o) (t' := t')
      as (sent & Hl & HP & Hn); [|reflexivity|reflexivity|exact Hrun|].
    { intros r j t o1 t1 Hst Hrm Hf.
      apply (lobby_broadcast_one (unredacted s) (conn s) "updatedRoom" "joinedPlayer"
               h' rm' r t o1 t1); try assumption.
      - intros sock ev. apply (unredacted_view s h' rm' rm sock ev Hin eq_refl Hh).
      - intros sock ev. apply (unredacted_view s h' rm' rm sock ev Hin eq_refl Hh). }
    exists sent. cbn. split; [exact Hl|]. split; [exact HP|]. intros Ho _. exact (Hn Ho).
  - unfold leaveRoom.
    destruct (player_of_socket s socketId) as [p|]; [|apply Hnone].
    destruct (roomId (objects s p)) as [id|]; [|apply Hnone].
    destruct (bool_decide (id = EmptyString)); [apply Hnone|].
    destruct (getRoom (rooms s) id) as [[i rm]|] eqn:Hroom; [|apply Hnone].
    assert (Hin : rm ∈ rooms s).
    { eapply list_elem_of_lookup_2, getRoom_lookup, Hroom. }
    cbn [players set_numberOfPlayers].
    destruct (players rm) as [seats|] eqn:Hseats.
    + match goal with
      | |- context [forEach ?f0 ?ms0 ?tb] =>
          destruct (forEach f0 ms0 tb) as [o t'] eqn:Hrun;
          destruct (forEach_one_each (unredacted s) (store tb) (room tb) f0) with
            (ms := ms0) (i := 0) (t := tb) (o := o) (t' := t')
            as (sent & Hl & HP & Hn); [|reflexivity|reflexivity|exact Hrun|]
      end.
      { intros r j t o1 t1 Hst Hrm Hf. cbn [store room] in Hst, Hrm |- *.
        eapply (lobby_broadcast_one (unredacted s) (conn s) "updatedRoom" "leftPlayer");
          [| |exact Hst|exact Hrm|exact Hf].
        - intros sock ev.
          eapply (unredacted_view s); [exact Hin|reflexivity|intros; split; reflexivity].
        - intros sock ev.
          eapply (unredacted_view s); [exact Hin|reflexivity|intros; split; reflexivity]. }
      exists sent. cbn. split; [exact Hl|]. split; [exact HP|]. intros Ho _. exact (Hn Ho).
    + exists []. cbn. rewrite app_nil_r. split; [reflexivity|]. split; [constructor|].
      discriminate.
Qed.

Lemma lobby_messages_unredacted_witness :
  let s := (joinGame round_server "s3" "dana" "p3").1 in
  length (emitted (joinRoom s "s3" "r1").2) = (length (emitted s) + 4)%nat.
Proof.
  intros s.
  destruct (lobby_messages_unredacted s "s3" "r1") as [(sent & Hl & _ & Hn) _].
  rewrite Hl, length_app, Hn; [reflexivity|vm_compute; reflexivity|].
  intros H. apply (f_equal (fun l => numberOfPlayers <$> l !! 0%nat)) in H.
  vm_compute in H. discriminate.
Defined.
